(** * Identity resolution over player records

    A shallow embedding of the record-matching core of the repository:
    [find_missing_players_with_duplicates.py] (name normaliser, key
    extraction, intra-dataset duplicate groups, target lookup, the
    missing/duplicate report and its CSV form) and
    [find_cross_duplicates.py] (cross-dataset groups), together with the
    part of Python's [difflib.SequenceMatcher] that [similar] calls.

    Python [str] values are sequences of code points; dictionaries whose
    iteration order is observable are association lists in insertion
    order; sets and dictionaries used only for membership are [gset] and
    [gmap]. *)

From Stdlib Require Import ZArith NArith QArith Lia.
From Stdlib Require Import Ascii String.
From stdpp Require Import base option list gmap sets strings pretty sorting.

Local Open Scope N_scope.
Local Open Scope nat_scope.
Local Open Scope string_scope.
Local Open Scope list_scope.

(** ** Python values *)

(** A code point. *)
Definition char := N.

(** A Python [str]. *)
Definition pystr := list char.

(** An ASCII literal of the source as a [pystr]. *)
Definition lit (s : string) : pystr :=
  List.map N_of_ascii (list_ascii_of_string s).

(** What [json.loads] produces.  A float is kept by the two things the
    scripts observe of it: its truth value and its [repr] text. *)
#[warnings="-register-all"] Inductive value :=
  | VNone
  | VBool (b : bool)
  | VInt (n : Z)
  | VFloat (nonzero : bool) (text : pystr)
  | VStr (s : pystr)
  | VList (l : list value)
  | VDict (d : list (pystr * value)).

(** A player record: a JSON object. *)
Definition record := list (pystr * value).

Definition pystr_eqb (a b : pystr) : bool := bool_decide (a = b).

(** [p.get(k)]: the value under [k], [None] when the key is absent. *)
Fixpoint get (p : record) (k : pystr) : value :=
  match p with
  | [] => VNone
  | (k', v) :: p' => if pystr_eqb k' k then v else get p' k
  end.

(** [bool(v)]. *)
Definition truthy (v : value) : bool :=
  match v with
  | VNone => false
  | VBool b => b
  | VInt n => negb (Z.eqb n 0)
  | VFloat nz _ => nz
  | VStr s => negb (pystr_eqb s [])
  | VList l => match l with [] => false | _ => true end
  | VDict d => match d with [] => false | _ => true end
  end.

(** [a or b]. *)
Definition py_or (a b : value) : value := if truthy a then a else b.

Definition is_none (v : value) : bool :=
  match v with VNone => true | _ => false end.

(** [isinstance(v, int)]; [bool] is a subclass of [int]. *)
Definition isinstance_int (v : value) : bool :=
  match v with VInt _ | VBool _ => true | _ => false end.

Definition isinstance_str (v : value) : bool :=
  match v with VStr _ => true | _ => false end.

(** [isinstance(v, (list, dict))]. *)
Definition isinstance_list_dict (v : value) : bool :=
  match v with VList _ | VDict _ => true | _ => false end.

(** [sep.join(parts)]. *)
Fixpoint join (sep : pystr) (parts : list pystr) : pystr :=
  match parts with
  | [] => []
  | [x] => x
  | x :: rest => x ++ sep ++ join sep rest
  end.

(** ** The Unicode database and the text primitives built on it

    The tables of Python's [unicodedata], [str] and [re] modules are not
    part of the repository; they are taken as an interface. *)

Class UnicodeData := {
  (** full compatibility decomposition of one code point ([c] itself
      when it has none) *)
  decomposition : char -> pystr;
  (** [unicodedata.combining]: the canonical combining class *)
  combining : char -> N;
  (** the full lower-case mapping [str.lower] applies to every code
      point but U+03A3 *)
  tolower : char -> pystr;
  (** the Final_Sigma context test of [str.lower] at a position *)
  final_sigma : pystr -> nat -> bool;
  (** [str.isalnum], [str.isspace], [str.isdigit] on one code point *)
  isalnum : char -> bool;
  isspace : char -> bool;
  isdigit_char : char -> bool;
  (** [repr] of a [str] *)
  repr_str : pystr -> pystr
}.

Definition SIGMA : char := 931%N.        (* U+03A3 *)
Definition sigma : char := 963%N.        (* U+03C3 *)
Definition final_sigma_char : char := 962%N.  (* U+03C2 *)
Definition SPACE : char := 32%N.
Definition UNDERSCORE : char := 95%N.

Section Text.
Context {U : UnicodeData}.

(** Canonical ordering: a mark moves right past the marks of a
    smaller non-zero combining class. *)
Fixpoint reorder_insert (c : char) (l : pystr) : pystr :=
  match l with
  | [] => [c]
  | d :: l' =>
      if (N.ltb 0 (combining d) && N.ltb (combining d) (combining c))%bool
      then d :: reorder_insert c l'
      else c :: d :: l'
  end.

Fixpoint canonical_order (s : pystr) : pystr :=
  match s with
  | [] => []
  | c :: s' => reorder_insert c (canonical_order s')
  end.

(** [unicodedata.normalize("NFKD", s)]. *)
Definition normalize_NFKD (s : pystr) : pystr :=
  canonical_order (flat_map decomposition s).

(** [s.lower()]. *)
Definition lower_at (s : pystr) (i : nat) (c : char) : pystr :=
  if N.eqb c SIGMA
  then [if final_sigma s i then final_sigma_char else sigma]
  else tolower c.

Definition lower (s : pystr) : pystr :=
  concat (imap (lower_at s) s).

(** [\w] and [\s] of a Unicode pattern. *)
Definition is_word (c : char) : bool := (isalnum c || N.eqb c UNDERSCORE)%bool.

(** [re.sub(r"[^\w\s]", "", s)]. *)
Definition sub_nonword_nonspace (s : pystr) : pystr :=
  List.filter (fun c => (is_word c || isspace c)%bool) s.

(** [re.sub(r"\s+", " ", s)]: every maximal run of white space becomes
    one space. *)
Fixpoint sub_spaces (s : pystr) : pystr :=
  match s with
  | [] => []
  | c :: s' =>
      if isspace c
      then match s' with
           | d :: _ => if isspace d then sub_spaces s' else SPACE :: sub_spaces s'
           | [] => [SPACE]
           end
      else c :: sub_spaces s'
  end.

(** [s.lstrip()], [s.rstrip()], [s.strip()]. *)
Fixpoint lstrip (s : pystr) : pystr :=
  match s with
  | c :: s' => if isspace c then lstrip s' else s
  | [] => []
  end.

Definition rstrip (s : pystr) : pystr := rev (lstrip (rev s)).

Definition strip (s : pystr) : pystr := rstrip (lstrip s).

(** [s.isdigit()]. *)
Definition isdigit (s : pystr) : bool :=
  (negb (pystr_eqb s []) && forallb isdigit_char s)%bool.

(** [repr(v)] and [str(v)]. *)
Fixpoint py_repr (v : value) : pystr :=
  match v with
  | VNone => lit "None"
  | VBool true => lit "True"
  | VBool false => lit "False"
  | VInt n => lit (pretty n)
  | VFloat _ text => text
  | VStr s => repr_str s
  | VList l => lit "[" ++ join (lit ", ") (List.map py_repr l) ++ lit "]"
  | VDict d =>
      lit "{" ++
      join (lit ", ")
        (List.map (fun kv => repr_str (fst kv) ++ lit ": " ++ py_repr (snd kv)) d) ++
      lit "}"
  end.

Definition py_str (v : value) : pystr :=
  match v with
  | VStr s => s
  | _ => py_repr v
  end.

(** ** Normalizer *)

Definition normalize_name (name : value) : pystr :=
  match name with
  | VStr name =>
      let nfkd := normalize_NFKD name in
      let no_diac := List.filter (fun c => N.eqb (combining c) 0) nfkd in
      let s := lower no_diac in
      let s := sub_nonword_nonspace s in
      strip (sub_spaces s)
  | _ => []
  end.

(** ** KeyExtractor *)

(** The identifier of a record, as lines 51-55 (and again 98-102 and
    123-127, and lines 47-51 of the cross-dataset script) compute it. *)
Definition resolve_tid (p : record) : value :=
  let tid :=
    py_or (py_or (py_or (get p (lit "transfermarkt_id"))
                        (get p (lit "transfermarktId")))
                 (get p (lit "transfermarkt id")))
          (get p (lit "transfermarkt")) in
  if is_none tid then
    let raw_id := get p (lit "id") in
    if (isinstance_int raw_id || (isinstance_str raw_id && isdigit (py_str raw_id)))%bool
    then raw_id
    else tid
  else tid.

Definition name_key (p : record) : pystr :=
  normalize_name (py_or (get p (lit "name")) (VStr [])).

Definition key_for_player (p : record) : list pystr :=
  let tid := resolve_tid p in
  let keys := [] in
  let keys := if is_none tid then keys else keys ++ [lit "tid::" ++ py_str tid] in
  let nn := name_key p in
  if pystr_eqb nn [] then keys else keys ++ [lit "name::" ++ nn].

(** [canonical_keys] of the cross-dataset script has the same body. *)
Definition canonical_keys (player : record) : list pystr :=
  let keys := [] in
  let tid := resolve_tid player in
  let keys := if is_none tid then keys else keys ++ [lit "tid::" ++ py_str tid] in
  let nn := name_key player in
  if pystr_eqb nn [] then keys else keys ++ [lit "name::" ++ nn].

(** ** GroupBuilder *)

(** [d.setdefault(k, []).append(x)] on a dictionary kept in insertion
    order. *)
Fixpoint setdefault_append {A} (k : pystr) (x : A) (d : list (pystr * list A))
  : list (pystr * list A) :=
  match d with
  | [] => [(k, [x])]
  | (k', l) :: d' =>
      if pystr_eqb k' k then (k', l ++ [x]) :: d'
      else (k', l) :: setdefault_append k x d'
  end.

(** [enumerate(l)], counting from [i]. *)
Fixpoint enumerate_from {A} (i : nat) (l : list A) : list (nat * A) :=
  match l with
  | [] => []
  | x :: l' => (i, x) :: enumerate_from (S i) l'
  end.

Definition enumerate {A} (l : list A) : list (nat * A) := enumerate_from 0 l.

(** [sorted] on integers, and on [(str, int)] tuples. *)
Definition sorted_nat (l : list nat) : list nat :=
  merge_sort (fun x y => Is_true (Nat.leb x y)) l.

Fixpoint pystr_leb (a b : pystr) : bool :=
  match a, b with
  | [], _ => true
  | _ :: _, [] => false
  | x :: a', y :: b' =>
      if N.ltb x y then true
      else if N.ltb y x then false
      else pystr_leb a' b'
  end.

Definition tuple_leb (x y : pystr * nat) : bool :=
  if pystr_eqb (fst x) (fst y) then Nat.leb (snd x) (snd y)
  else pystr_leb (fst x) (fst y).

Definition sorted_tuples (l : list (pystr * nat)) : list (pystr * nat) :=
  merge_sort (fun x y => Is_true (tuple_leb x y)) l.

Definition sorted_str (l : list pystr) : list pystr :=
  merge_sort (fun x y => Is_true (pystr_leb x y)) l.

(** *** Intra-dataset duplicates: [find_duplicates] *)

Record item := { item_index : nat; item_player : record }.

Record dup_group := {
  key : pystr;
  indices : list nat;
  members : list record
}.

(** The body of the first loop, for one [(idx, p)]. *)
Definition register_player (by_key : list (pystr * list item)) (ip : nat * record)
  : list (pystr * list item) :=
  let '(idx, p) := ip in
  let keys := key_for_player p in
  let it := {| item_index := idx; item_player := p |} in
  match keys with
  | [] =>
      let k := lit "index::" ++ lit (pretty idx) in
      setdefault_append k it by_key
  | _ => fold_left (fun d k => setdefault_append k it d) keys by_key
  end.

Definition build_by_key (players : list record) : list (pystr * list item) :=
  fold_left register_player (enumerate players) [].

(** The body of the second loop, on the state [(groups, seen_member_ids)]. *)
Definition collect_group (st : list dup_group * gset (list nat))
    (kl : pystr * list item) : list dup_group * gset (list nat) :=
  let '(groups, seen_member_ids) := st in
  let '(k, lst) := kl in
  if Nat.ltb 1 (length lst) then
    let member_ids := sorted_nat (List.map item_index lst) in
    if bool_decide (member_ids ∈ seen_member_ids) then st
    else (groups ++ [{| key := k;
                        indices := List.map item_index lst;
                        members := List.map item_player lst |}],
          seen_member_ids ∪ {[ member_ids ]})
  else st.

Definition collect_groups (by_key : list (pystr * list item)) : list dup_group :=
  fst (fold_left collect_group by_key ([], ∅)).

Definition find_duplicates (players : list record) : list dup_group :=
  collect_groups (build_by_key players).

(** *** Cross-dataset groups: [find_common_groups] *)

Record occurrence := { occ_file : pystr; occ_index : nat; occ_player : record }.

(** [compact_player_view(p)]. *)
Record player_view := {
  pv_name : value;
  pv_name_ar : value;
  pv_transfermarkt_id : value;
  pv_transfermarkt_url : value;
  pv_wikipedia_url_provided : value
}.

Definition compact_player_view (p : record) : player_view :=
  {| pv_name := get p (lit "name");
     pv_name_ar := get p (lit "name_ar");
     pv_transfermarkt_id :=
       py_or (py_or (get p (lit "transfermarkt_id")) (get p (lit "id"))) VNone;
     pv_transfermarkt_url :=
       py_or (get p (lit "transfermarkt_url")) (get p (lit "transfermarktUrl"));
     pv_wikipedia_url_provided :=
       py_or (py_or (get p (lit "wikipedia_url_provided")) (get p (lit "wikipedia_url")))
             (get p (lit "wikipedia")) |}.

Record occurrence_view := { ov_file : pystr; ov_index : nat; ov_player : player_view }.

Record common_group := {
  keys : list pystr;
  total_count : nat;
  occurrences : list occurrence_view;
  present_in : list pystr
}.

Definition combine_datasets (source_list target_list : list record) : list occurrence :=
  List.map (fun ip => {| occ_file := lit "source"; occ_index := fst ip; occ_player := snd ip |})
           (enumerate source_list) ++
  List.map (fun ip => {| occ_file := lit "target"; occ_index := fst ip; occ_player := snd ip |})
           (enumerate target_list).

Definition register_occurrence (groups_map : list (pystr * list occurrence))
    (o : occurrence) : list (pystr * list occurrence) :=
  let keys := canonical_keys (occ_player o) in
  match keys with
  | [] =>
      let k := lit "raw::" ++ occ_file o ++ lit "::" ++ lit (pretty (occ_index o)) in
      setdefault_append k o groups_map
  | _ => fold_left (fun d k => setdefault_append k o d) keys groups_map
  end.

Definition build_groups_map (combined : list occurrence) : list (pystr * list occurrence) :=
  fold_left register_occurrence combined [].

(** The signature of a bucket. *)
Definition signature (occ : list occurrence) : list (pystr * nat) :=
  sorted_tuples (List.map (fun o => (occ_file o, occ_index o)) occ).

Definition append_key (k : pystr) (g : common_group) : common_group :=
  {| keys := keys g ++ [k];
     total_count := total_count g;
     occurrences := occurrences g;
     present_in := present_in g |}.

Definition new_group (k : pystr) (occ : list occurrence) : common_group :=
  {| keys := [k];
     total_count := length occ;
     occurrences :=
       List.map (fun o => {| ov_file := occ_file o; ov_index := occ_index o;
                             ov_player := compact_player_view (occ_player o) |}) occ;
     present_in :=
       sorted_str (elements (list_to_set (List.map occ_file occ) : gset pystr)) |}.

(** The body of the second loop.  [seen_signatures] maps a signature to
    the group object it produced; that object is the one stored in
    [final_groups], so the reference is the group's position there and
    appending a key updates the list in place. *)
Definition merge_bucket
    (st : list common_group * gmap (list (pystr * nat)) nat)
    (ko : pystr * list occurrence)
  : list common_group * gmap (list (pystr * nat)) nat :=
  let '(final_groups, seen_signatures) := st in
  let '(k, occ) := ko in
  let sig := signature occ in
  if Nat.leb (length sig) 1 then st
  else match seen_signatures !! sig with
       | Some pos => (alter (append_key k) pos final_groups, seen_signatures)
       | None =>
           (final_groups ++ [new_group k occ],
            <[ sig := length final_groups ]> seen_signatures)
       end.

Definition merge_buckets (groups_map : list (pystr * list occurrence)) : list common_group :=
  fst (fold_left merge_bucket groups_map ([], ∅)).

Definition find_common_groups (source_list target_list : list record) : list common_group :=
  merge_buckets (build_groups_map (combine_datasets source_list target_list)).

End Text.

(** ** SimilarityScorer: [difflib.SequenceMatcher(None, a, b).ratio()]

    [similar] constructs a matcher with [isjunk = None] and the default
    [autojunk = True] and asks for its ratio.  Indices are natural
    numbers; a Python list used as a stack is kept with its top first. *)

Section SequenceMatcher.
Variables a b : pystr.

(** [__chain_b]: the positions of every element of [b], then the purge
    of popular elements. *)
Definition chain_step (b2j : gmap char (list nat)) (ie : nat * char)
  : gmap char (list nat) :=
  let '(i, elt) := ie in
  <[ elt := default [] (b2j !! elt) ++ [i] ]> b2j.

Definition b2j_full : gmap char (list nat) :=
  fold_left chain_step (enumerate b) ∅.

(** [isjunk] is [None]: the junk set stays empty. *)
Definition bjunk : gset char := ∅.

Definition isbjunk (c : char) : bool := bool_decide (c ∈ bjunk).

Definition bpopular : gset char :=
  let n := length b in
  if Nat.leb 200 n then
    let ntest := n / 100 + 1 in
    dom (filter (fun ei : char * list nat => ntest < length (snd ei)) b2j_full)
  else ∅.

Definition b2j : gmap char (list nat) :=
  filter (fun ei : char * list nat => fst ei ∉ bpopular) b2j_full.

(** [j2len.get(j-1, 0)]; for [j = 0] the key is [-1], never present. *)
Definition j2lenget_pred (j2len : gmap nat nat) (j : nat) : nat :=
  match j with
  | O => 0
  | S j' => default 0 (j2len !! j')
  end.

(** The inner loop of [find_longest_match] over [b2j.get(a[i], nothing)],
    on the state [(newj2len, (besti, bestj, bestsize))].  [k <= i + 1]
    throughout, so [i + 1 - k] is the code's [i - k + 1]. *)
Fixpoint scan_row (blo bhi i : nat) (j2len : gmap nat nat) (js : list nat)
    (st : gmap nat nat * (nat * nat * nat)) : gmap nat nat * (nat * nat * nat) :=
  match js with
  | [] => st
  | j :: js' =>
      if Nat.ltb j blo then scan_row blo bhi i j2len js' st
      else if Nat.leb bhi j then st
      else
        let '(newj2len, (besti, bestj, bestsize)) := st in
        let k := j2lenget_pred j2len j + 1 in
        let newj2len := <[ j := k ]> newj2len in
        let best :=
          if Nat.ltb bestsize k then (i + 1 - k, j + 1 - k, k)
          else (besti, bestj, bestsize) in
        scan_row blo bhi i j2len js' (newj2len, best)
  end.

(** One turn of the outer loop, on the state [(j2len, best)]. *)
Definition scan_step (blo bhi : nat) (st : gmap nat nat * (nat * nat * nat)) (i : nat)
  : gmap nat nat * (nat * nat * nat) :=
  let '(j2len, best) := st in
  let js := match a !! i with
            | Some x => default [] (b2j !! x)
            | None => []
            end in
  scan_row blo bhi i j2len js (∅, best).

Definition char_eq_at (i j : nat) : bool :=
  match a !! i, b !! j with
  | Some x, Some y => N.eqb x y
  | _, _ => false
  end.

Definition junk_at (j : nat) : bool :=
  match b !! j with
  | Some y => isbjunk y
  | None => false
  end.

(** The two kinds of extension loops; [want_junk] selects the
    [isbjunk(...)] form over the [not isbjunk(...)] form. *)
Fixpoint extend_back (want_junk : bool) (alo blo besti bestj bestsize : nat)
  : nat * nat * nat :=
  match besti, bestj with
  | S i', S j' =>
      if (Nat.ltb alo besti && Nat.ltb blo bestj
          && Bool.eqb (junk_at j') want_junk && char_eq_at i' j')%bool
      then extend_back want_junk alo blo i' j' (S bestsize)
      else (besti, bestj, bestsize)
  | _, _ => (besti, bestj, bestsize)
  end.

Fixpoint extend_forward (turns : nat) (want_junk : bool)
    (ahi bhi besti bestj bestsize : nat) : nat :=
  match turns with
  | O => bestsize
  | S turns' =>
      if (Nat.ltb (besti + bestsize) ahi && Nat.ltb (bestj + bestsize) bhi
          && Bool.eqb (junk_at (bestj + bestsize)) want_junk
          && char_eq_at (besti + bestsize) (bestj + bestsize))%bool
      then extend_forward turns' want_junk ahi bhi besti bestj (S bestsize)
      else bestsize
  end.

Definition find_longest_match (alo ahi blo bhi : nat) : nat * nat * nat :=
  let best := (alo, blo, 0) in
  let '(_, (besti, bestj, bestsize)) :=
    fold_left (scan_step blo bhi) (seq alo (ahi - alo)) (∅, best) in
  let '(besti, bestj, bestsize) := extend_back false alo blo besti bestj bestsize in
  let bestsize :=
    extend_forward (ahi - (besti + bestsize)) false ahi bhi besti bestj bestsize in
  let '(besti, bestj, bestsize) := extend_back true alo blo besti bestj bestsize in
  let bestsize :=
    extend_forward (ahi - (besti + bestsize)) true ahi bhi besti bestj bestsize in
  (besti, bestj, bestsize).

(** One turn of the [while queue:] loop of [get_matching_blocks]. *)
Definition queue_step (st : list (nat * nat * nat * nat) * list (nat * nat * nat))
  : list (nat * nat * nat * nat) * list (nat * nat * nat) :=
  match st with
  | ([], _) => st
  | ((alo, ahi, blo, bhi) :: queue, matching_blocks) =>
      let '(i, j, k) := find_longest_match alo ahi blo bhi in
      if Nat.eqb k 0 then (queue, matching_blocks)
      else
        let matching_blocks := matching_blocks ++ [(i, j, k)] in
        let queue :=
          if (Nat.ltb alo i && Nat.ltb blo j)%bool
          then (alo, i, blo, j) :: queue else queue in
        let queue :=
          if (Nat.ltb (i + k) ahi && Nat.ltb (j + k) bhi)%bool
          then (i + k, ahi, j + k, bhi) :: queue else queue in
        (queue, matching_blocks)
  end.

Fixpoint queue_loop (turns : nat)
    (st : list (nat * nat * nat * nat) * list (nat * nat * nat))
  : list (nat * nat * nat * nat) * list (nat * nat * nat) :=
  match turns with
  | O => st
  | S turns' =>
      match fst st with
      | [] => st
      | _ => queue_loop turns' (queue_step st)
      end
  end.

Definition triple_leb (x y : nat * nat * nat) : bool :=
  let '(i1, j1, k1) := x in
  let '(i2, j2, k2) := y in
  if Nat.eqb i1 i2 then (if Nat.eqb j1 j2 then Nat.leb k1 k2 else Nat.leb j1 j2)
  else Nat.leb i1 i2.

(** The collapse of adjacent blocks, on the state
    [((i1, j1, k1), non_adjacent)]. *)
Definition collapse_step (st : (nat * nat * nat) * list (nat * nat * nat))
    (blk : nat * nat * nat) : (nat * nat * nat) * list (nat * nat * nat) :=
  let '((i1, j1, k1), non_adjacent) := st in
  let '(i2, j2, k2) := blk in
  if (Nat.eqb (i1 + k1) i2 && Nat.eqb (j1 + k1) j2)%bool
  then ((i1, j1, k1 + k2), non_adjacent)
  else ((i2, j2, k2),
        if Nat.eqb k1 0 then non_adjacent else non_adjacent ++ [(i1, j1, k1)]).

(** The most turns the queue loop can take: every turn removes a range
    and adds at most two strictly smaller ones. *)
Definition queue_turns : nat := 2 * length a + 2.

Definition get_matching_blocks : list (nat * nat * nat) :=
  let la := length a in
  let lb := length b in
  let '(_, matching_blocks) := queue_loop queue_turns ([(0, la, 0, lb)], []) in
  let matching_blocks := merge_sort (fun x y => Is_true (triple_leb x y)) matching_blocks in
  let '((i1, j1, k1), non_adjacent) :=
    fold_left collapse_step matching_blocks ((0, 0, 0), []) in
  let non_adjacent :=
    if Nat.eqb k1 0 then non_adjacent else non_adjacent ++ [(i1, j1, k1)] in
  non_adjacent ++ [(la, lb, 0)].

(** [_calculate_ratio(matches, length)]: the exact quotient, of which
    Python returns the nearest double. *)
Definition calculate_ratio (matches length : nat) : Q :=
  if Nat.eqb length 0 then 1%Q
  else Qmake (2 * Z.of_nat matches) (Pos.of_nat length).

Definition ratio : Q :=
  let matches := list_sum (List.map (fun t : nat * nat * nat => snd t) get_matching_blocks) in
  calculate_ratio matches (length a + length b).

End SequenceMatcher.

Definition similar (a b : pystr) : Q := ratio a b.

(** ** Resolver *)

Section Resolver.
Context {U : UnicodeData}.

(** [build_target_lookup]: the state is [(ids, normnames)]. *)
Definition lookup_step (st : gset pystr * gset pystr) (p : record)
  : gset pystr * gset pystr :=
  let '(ids, normnames) := st in
  let tid := resolve_tid p in
  let ids := if is_none tid then ids else ids ∪ {[ py_str tid ]} in
  let nn := name_key p in
  let normnames := if pystr_eqb nn [] then normnames else normnames ∪ {[ nn ]} in
  (ids, normnames).

Definition build_target_lookup (target_players : list record) : gset pystr * gset pystr :=
  fold_left lookup_step target_players (∅, ∅).

(** One element of [members_preview]. *)
Record member_preview := { mp_name : value; mp_transfermarkt_id : value }.

(** One element of [duplicate_groups]. *)
Record group_summary := {
  gs_key : pystr;
  gs_member_count : nat;
  gs_members_preview : list member_preview
}.

(** A report entry; a field that the dictionary may lack is an option. *)
Record entry := {
  e_name : value;
  e_name_ar : value;
  e_transfermarkt_url : value;
  e_wikipedia_url_provided : value;
  e_transfermarkt_id : option pystr;
  e_duplicate : option bool;
  e_duplicate_in : option (list pystr);
  e_duplicate_groups : option (list group_summary);
  e_missing : option bool
}.

(** [{g["key"]: g for g in groups}]; a later group replaces an earlier
    one under the same key. *)
Definition groups_by_key (groups : list dup_group) : gmap pystr dup_group :=
  fold_left (fun m g => <[ key g := g ]> m) groups ∅.

Definition group_keys (groups : list dup_group) : gset pystr :=
  list_to_set (List.map key groups).

(** The fuzzy scan, lines 143-147. *)
Definition best_similarity (nn : pystr) (target_normnames : gset pystr) : Q :=
  fold_left (fun best cand =>
               let r := similar nn cand in
               if Qle_bool r best then best else r)
            (elements target_normnames) 0%Q.

(** [found] after the three rules, lines 130-149. *)
Definition tid_text (p : record) : option pystr :=
  let tid := resolve_tid p in
  if is_none tid then None else Some (py_str tid).

Definition is_found (target_ids target_normnames : gset pystr)
    (fuzzy_threshold : Q) (p : record) : bool :=
  let tid_s := tid_text p in
  let found := false in
  let found :=
    match tid_s with
    | Some s => if (negb (pystr_eqb s []) && bool_decide (s ∈ target_ids))%bool
                then true else found
    | None => found
    end in
  let nn := name_key p in
  let found :=
    if (negb found && negb (pystr_eqb nn []) && bool_decide (nn ∈ target_normnames))%bool
    then true else found in
  let found :=
    if (negb found && negb (pystr_eqb nn []))%bool then
      let best := best_similarity nn target_normnames in
      if Qle_bool fuzzy_threshold best then true else found
    else found in
  found.

(** The loop over [keys], lines 161-170: [(dup_locations, dup_info)]. *)
Definition dup_step (dup_src_groups dup_tgt_groups : list dup_group)
    (st : list pystr * list (pystr * option dup_group)) (k : pystr)
  : list pystr * list (pystr * option dup_group) :=
  let '(dup_locations, dup_info) := st in
  let '(dup_locations, dup_info) :=
    if bool_decide (k ∈ group_keys dup_src_groups)
    then (dup_locations ++ [lit "source"],
          dup_info ++ [(k, groups_by_key dup_src_groups !! k)])
    else (dup_locations, dup_info) in
  if bool_decide (k ∈ group_keys dup_tgt_groups)
  then (dup_locations ++ [lit "target"],
        dup_info ++ [(k, groups_by_key dup_tgt_groups !! k)])
  else (dup_locations, dup_info).

Definition dup_membership (dup_src_groups dup_tgt_groups : list dup_group) (p : record)
  : list pystr * list (pystr * option dup_group) :=
  let '(dup_locations, dup_info) :=
    fold_left (dup_step dup_src_groups dup_tgt_groups) (key_for_player p) ([], []) in
  (sorted_str (elements (list_to_set dup_locations : gset pystr)), dup_info).

Definition preview_member (m : record) : member_preview :=
  {| mp_name := get m (lit "name");
     mp_transfermarkt_id := py_or (get m (lit "transfermarkt_id")) (get m (lit "id")) |}.

Definition summarize (info : pystr * option dup_group) : list group_summary :=
  match snd info with
  | Some g =>
      [{| gs_key := fst info;
          gs_member_count := length (members g);
          gs_members_preview := List.map preview_member (take 5 (members g)) |}]
  | None => []
  end.

(** The entry built for one source record before [missing] is set. *)
Definition base_entry (dup_src_groups dup_tgt_groups : list dup_group) (p : record)
  : entry :=
  let '(dup_locations, dup_info) := dup_membership dup_src_groups dup_tgt_groups p in
  let flagged := match dup_locations with [] => false | _ => true end in
  {| e_name := get p (lit "name");
     e_name_ar := get p (lit "name_ar");
     e_transfermarkt_url :=
       py_or (get p (lit "transfermarkt_url")) (get p (lit "transfermarktUrl"));
     e_wikipedia_url_provided :=
       py_or (py_or (get p (lit "wikipedia_url_provided")) (get p (lit "wikipedia_url")))
             (get p (lit "wikipedia"));
     e_transfermarkt_id := tid_text p;
     e_duplicate := if flagged then Some true else None;
     e_duplicate_in := if flagged then Some dup_locations else None;
     e_duplicate_groups :=
       if flagged then Some (flat_map summarize dup_info) else None;
     e_missing := None |}.

Definition set_missing (m : bool) (e : entry) : entry :=
  {| e_name := e_name e;
     e_name_ar := e_name_ar e;
     e_transfermarkt_url := e_transfermarkt_url e;
     e_wikipedia_url_provided := e_wikipedia_url_provided e;
     e_transfermarkt_id := e_transfermarkt_id e;
     e_duplicate := e_duplicate e;
     e_duplicate_in := e_duplicate_in e;
     e_duplicate_groups := e_duplicate_groups e;
     e_missing := Some m |}.

(** The body of the loop over [source], on the list [missing]. *)
Definition classify_step (target_ids target_normnames : gset pystr)
    (dup_src_groups dup_tgt_groups : list dup_group) (fuzzy_threshold : Q)
    (missing : list entry) (p : record) : list entry :=
  let found := is_found target_ids target_normnames fuzzy_threshold p in
  let entry := base_entry dup_src_groups dup_tgt_groups p in
  let dup_locations := fst (dup_membership dup_src_groups dup_tgt_groups p) in
  if negb found then missing ++ [set_missing true entry]
  else match dup_locations with
       | [] => missing
       | _ => missing ++ [set_missing false entry]
       end.

Definition find_missing_and_flag_duplicates (source : list record)
    (target_ids target_normnames : gset pystr)
    (dup_src_groups dup_tgt_groups : list dup_group) (fuzzy_threshold : Q)
  : list entry :=
  fold_left (classify_step target_ids target_normnames dup_src_groups dup_tgt_groups
               fuzzy_threshold)
            source [].

(** The report as [main] computes it, lines 240-253. *)
Definition missing_report (src tgt : list record) (fuzzy : Q) : list entry :=
  let dup_src_groups := find_duplicates src in
  let dup_tgt_groups := find_duplicates tgt in
  let '(target_ids, target_normnames) := build_target_lookup tgt in
  find_missing_and_flag_duplicates src target_ids target_normnames
    dup_src_groups dup_tgt_groups fuzzy.

End Resolver.

(** ** ReportWriter: [write_csv] *)

(** What is handed to [csv.DictWriter] for one cell: the empty string,
    the [json.dumps] text of a value, or the value itself. *)
Inductive cell :=
  | CellEmpty
  | CellJson (v : value)
  | CellValue (v : value).

Record csv_file := {
  csv_header : list pystr;
  csv_rows : list (list (pystr * cell))
}.

Definition csv_cell (row : record) (k : pystr) : cell :=
  if is_none (get row k) then CellEmpty
  else if isinstance_list_dict (get row k) then CellJson (get row k)
  else CellValue (get row k).

(** [None] when the function returns before opening the file. *)
Definition write_csv (data : list record) : option csv_file :=
  match data with
  | [] => None
  | _ =>
      let keys : gset pystr :=
        fold_left (fun keys d => keys ∪ list_to_set (List.map fst d)) data ∅ in
      let keys := elements keys in
      Some {| csv_header := keys;
              csv_rows := List.map (fun row => List.map (fun k => (k, csv_cell row k)) keys) data |}
  end.

(** ** Facts of the Unicode database

    The properties of the tables that the normaliser's idempotence rests
    on.  Each holds of the database that Python 3.11 ships (Unicode 14),
    where it can be checked by enumeration of the code points. *)

Class UnicodeFacts (U : UnicodeData) : Prop := {
  (** a decomposition is full: its code points decompose no further *)
  decomposition_stable :
    forall c d : char, In d (decomposition c) -> decomposition d = [d];
  (** lower-casing is stable and produces no capital sigma *)
  tolower_stable :
    forall c d : char, c <> SIGMA -> In d (tolower c) ->
                       tolower d = [d] /\ d <> SIGMA;
  (** lower-casing a decomposed non-mark gives decomposed non-marks *)
  tolower_starter :
    forall c d : char, c <> SIGMA -> decomposition c = [c] -> combining c = 0%N ->
                       In d (tolower c) ->
                       decomposition d = [d] /\ combining d = 0%N;
  sigma_stable :
    forall c : char, c = sigma \/ c = final_sigma_char ->
                     tolower c = [c] /\ decomposition c = [c] /\ combining c = 0%N;
  space_stable :
    tolower SPACE = [SPACE] /\ decomposition SPACE = [SPACE] /\
    combining SPACE = 0%N /\ isspace SPACE = true
}.

Definition ascii_upper (c : char) : bool := (N.leb 65 c && N.leb c 90)%bool.

Definition ascii_lower_of (c : char) : char :=
  if ascii_upper c then (c + 32)%N else c.

Definition ascii_alnum (c : char) : bool :=
  ((N.leb 48 c && N.leb c 57) || (N.leb 65 c && N.leb c 90)
   || (N.leb 97 c && N.leb c 122))%bool.

Definition ascii_space (c : char) : bool :=
  ((N.leb 9 c && N.leb c 13) || (N.leb 28 c && N.leb c 32))%bool.

Definition ascii_digit (c : char) : bool := (N.leb 48 c && N.leb c 57)%bool.

Definition U_DIAERESIS : char := 252%N.            (* U+00FC *)
Definition COMBINING_DIAERESIS : char := 776%N.    (* U+0308 *)

(** The entries of the tables for ASCII and for the letter of the
    specification's example. *)
Class LatinFacts (U : UnicodeData) : Prop := {
  ascii_decomposition : forall c : char, (c < 128)%N -> decomposition c = [c];
  ascii_combining : forall c : char, (c < 128)%N -> combining c = 0%N;
  ascii_tolower : forall c : char, (c < 128)%N -> tolower c = [ascii_lower_of c];
  ascii_isalnum : forall c : char, (c < 128)%N -> isalnum c = ascii_alnum c;
  ascii_isspace : forall c : char, (c < 128)%N -> isspace c = ascii_space c;
  ascii_isdigit : forall c : char, (c < 128)%N -> isdigit_char c = ascii_digit c;
  u_diaeresis_decomposition :
    decomposition U_DIAERESIS = [117%N; COMBINING_DIAERESIS];
  combining_diaeresis_class : combining COMBINING_DIAERESIS = 230%N
}.

(** A small database to evaluate the scripts on concrete records: it
    agrees with Unicode on ASCII, U+00FC and U+0308, and treats every
    other code point as an inert symbol.  Its [repr] of a string is right
    for text without quotes, backslashes or control characters. *)
Definition fragment : UnicodeData := {|
  decomposition := fun c =>
    if N.eqb c U_DIAERESIS then [117%N; COMBINING_DIAERESIS] else [c];
  combining := fun c => if N.eqb c COMBINING_DIAERESIS then 230%N else 0%N;
  tolower := fun c => [ascii_lower_of c];
  final_sigma := fun _ _ => false;
  isalnum := ascii_alnum;
  isspace := ascii_space;
  isdigit_char := ascii_digit;
  repr_str := fun s => lit "'" ++ s ++ lit "'"
|}.

(** ** The claims' wording as definitions *)

Section Wording.
Context {U : UnicodeData}.

Definition id_aliases : list pystr :=
  [lit "transfermarkt_id"; lit "transfermarktId"; lit "transfermarkt id";
   lit "transfermarkt"].

Definition digits_or_int (raw_id : value) : bool :=
  (isinstance_int raw_id || (isinstance_str raw_id && isdigit (py_str raw_id)))%bool.

(** The identifier as the specification words it: the first alias value
    that is present and not null; the generic [id] only when no alias is
    present. *)
Definition spec_identifier (p : record) : value :=
  match List.find (fun v => negb (is_none v)) (List.map (get p) id_aliases) with
  | Some v => v
  | None => if digits_or_int (get p (lit "id")) then get p (lit "id") else VNone
  end.

(** The identifier as the scripts resolve it: the first alias value that
    is true in Python's sense; when there is none, what the last alias
    holds (a false value or nothing), and the generic [id] only when that
    is nothing. *)
Definition truthy_identifier (p : record) : value :=
  match List.find truthy (List.map (get p) id_aliases) with
  | Some v => v
  | None =>
      if is_none (get p (lit "transfermarkt"))
      then (if digits_or_int (get p (lit "id")) then get p (lit "id") else VNone)
      else get p (lit "transfermarkt")
  end.

(** The three rules of the Resolver, as the specification words them. *)
Definition spec_rule_id (target_ids : gset pystr) (p : record) : bool :=
  match tid_text p with
  | Some s => bool_decide (s ∈ target_ids)
  | None => false
  end.

Definition rule_id (target_ids : gset pystr) (p : record) : bool :=
  match tid_text p with
  | Some s => (negb (pystr_eqb s []) && bool_decide (s ∈ target_ids))%bool
  | None => false
  end.

Definition rule_name (target_normnames : gset pystr) (p : record) : bool :=
  (negb (pystr_eqb (name_key p) []) && bool_decide (name_key p ∈ target_normnames))%bool.

Definition rule_fuzzy (target_normnames : gset pystr) (fuzzy_threshold : Q)
    (p : record) : bool :=
  (negb (pystr_eqb (name_key p) [])
   && Qle_bool fuzzy_threshold (best_similarity (name_key p) target_normnames))%bool.

Definition id_keys (p : record) : list pystr :=
  if is_none (resolve_tid p) then [] else [lit "tid::" ++ py_str (resolve_tid p)].

Definition name_keys (p : record) : list pystr :=
  if pystr_eqb (name_key p) [] then [] else [lit "name::" ++ name_key p].

(** What one source record contributes to the report. *)
Definition flagged (dup_src_groups dup_tgt_groups : list dup_group) (p : record) : bool :=
  match fst (dup_membership dup_src_groups dup_tgt_groups p) with
  | [] => false
  | _ => true
  end.

Definition emitted (target_ids target_normnames : gset pystr)
    (dup_src_groups dup_tgt_groups : list dup_group) (fuzzy_threshold : Q)
    (p : record) : list entry :=
  classify_step target_ids target_normnames dup_src_groups dup_tgt_groups
    fuzzy_threshold [] p.

(** The three outcomes of a source record. *)
Definition dropped (target_ids target_normnames : gset pystr)
    (dup_src_groups dup_tgt_groups : list dup_group) (fuzzy_threshold : Q)
    (p : record) : Prop :=
  emitted target_ids target_normnames dup_src_groups dup_tgt_groups fuzzy_threshold p = [] /\
  is_found target_ids target_normnames fuzzy_threshold p = true /\
  flagged dup_src_groups dup_tgt_groups p = false.

Definition emitted_missing (target_ids target_normnames : gset pystr)
    (dup_src_groups dup_tgt_groups : list dup_group) (fuzzy_threshold : Q)
    (p : record) : Prop :=
  is_found target_ids target_normnames fuzzy_threshold p = false /\
  exists e,
    emitted target_ids target_normnames dup_src_groups dup_tgt_groups fuzzy_threshold p = [e] /\
    e_missing e = Some true.

Definition emitted_flagged (target_ids target_normnames : gset pystr)
    (dup_src_groups dup_tgt_groups : list dup_group) (fuzzy_threshold : Q)
    (p : record) : Prop :=
  is_found target_ids target_normnames fuzzy_threshold p = true /\
  flagged dup_src_groups dup_tgt_groups p = true /\
  exists e,
    emitted target_ids target_normnames dup_src_groups dup_tgt_groups fuzzy_threshold p = [e] /\
    e_missing e = Some false /\ e_duplicate e = Some true.

End Wording.

(** ** Buckets of an insertion-ordered dictionary *)

Section Buckets.
Context {A : Type}.

(** [d.get(k, [])]. *)
Fixpoint bucket (d : list (pystr * list A)) (k : pystr) : list A :=
  match d with
  | [] => []
  | (k', l) :: d' => if pystr_eqb k' k then l else bucket d' k
  end.

(** Filing one element under each of its keys, and a whole list of
    elements in turn. *)
Definition register (keysof : A -> list pystr) (d : list (pystr * list A)) (x : A)
  : list (pystr * list A) :=
  fold_left (fun d k => setdefault_append k x d) (keysof x) d.

Definition register_all (keysof : A -> list pystr) (xs : list A)
  : list (pystr * list A) :=
  fold_left (register keysof) xs [].

Definition has_key (keysof : A -> list pystr) (k : pystr) (x : A) : bool :=
  bool_decide (k ∈ keysof x).

End Buckets.

Section EffectiveKeys.
Context {U : UnicodeData}.

(** The keys an element is filed under, the fallback key included. *)
Definition item_keys (it : item) : list pystr :=
  match key_for_player (item_player it) with
  | [] => [lit "index::" ++ lit (pretty (item_index it))]
  | ks => ks
  end.

Definition occurrence_keys (o : occurrence) : list pystr :=
  match canonical_keys (occ_player o) with
  | [] => [lit "raw::" ++ occ_file o ++ lit "::" ++ lit (pretty (occ_index o))]
  | ks => ks
  end.

Definition to_item (ip : nat * record) : item :=
  {| item_index := fst ip; item_player := snd ip |}.

(** The signature of an emitted group, from its own occurrences. *)
Definition group_signature (g : common_group) : list (pystr * nat) :=
  sorted_tuples (List.map (fun o => (ov_file o, ov_index o)) (occurrences g)).

(** The dataset tag and position of an occurrence. *)
Definition position (o : occurrence) : pystr * nat := (occ_file o, occ_index o).

Definition member_ids (g : dup_group) : list nat := sorted_nat (indices g).

Definition view (o : occurrence) : occurrence_view :=
  {| ov_file := occ_file o; ov_index := occ_index o;
     ov_player := compact_player_view (occ_player o) |}.

End EffectiveKeys.

(** ** Buckets with the signature of a group *)

Section SameSignature.
Context {U : UnicodeData}.

(** A bucket of two or more occurrences with the given signature. *)
Definition same_signature (sig : list (pystr * nat)) (ko : pystr * list occurrence) : bool :=
  (Nat.ltb 1 (length (snd ko)) && bool_decide (signature (snd ko) = sig))%bool.

(** A bucket of two or more items with the given sorted indices. *)
Definition same_member_ids (ids : list nat) (kl : pystr * list item) : bool :=
  (Nat.ltb 1 (length (snd kl))
   && bool_decide (sorted_nat (List.map item_index (snd kl)) = ids))%bool.

(** The state of the second loop of [find_common_groups] after the
    buckets [pre]. *)
Definition merge_state (pre : list (pystr * list occurrence))
  : list common_group * gmap (list (pystr * nat)) nat :=
  fold_left merge_bucket pre ([], ∅).

Record merge_inv (pre : list (pystr * list occurrence))
    (final_groups : list common_group)
    (seen_signatures : gmap (list (pystr * nat)) nat) : Prop := {
  merge_seen : forall sig pos,
    seen_signatures !! sig = Some pos <->
    exists g, final_groups !! pos = Some g /\ group_signature g = sig;
  merge_unique : NoDup (List.map group_signature final_groups);
  merge_groups : forall pos g, final_groups !! pos = Some g ->
    2 <= length (occurrences g) /\
    total_count g = length (occurrences g) /\
    keys g = List.map fst (List.filter (same_signature (group_signature g)) pre) /\
    exists k occ, (k, occ) ∈ pre /\ g = {| keys := keys g;
                                           total_count := total_count (new_group k occ);
                                           occurrences := occurrences (new_group k occ);
                                           present_in := present_in (new_group k occ) |};
  merge_complete : forall k occ, (k, occ) ∈ pre -> 2 <= length occ ->
    signature occ ∈ List.map group_signature final_groups
}.

(** The state of the second loop of [find_duplicates] after the buckets
    [pre]. *)
Definition collect_state (pre : list (pystr * list item))
  : list dup_group * gset (list nat) :=
  fold_left collect_group pre ([], ∅).

Record collect_inv (pre : list (pystr * list item))
    (groups : list dup_group) (seen_member_ids : gset (list nat)) : Prop := {
  collect_seen : forall ids,
    ids ∈ seen_member_ids <-> ids ∈ List.map member_ids groups;
  collect_unique : NoDup (List.map member_ids groups);
  collect_groups_from : forall g, g ∈ groups ->
    2 <= length (indices g) /\
    head (List.map fst (List.filter (same_member_ids (member_ids g)) pre)) = Some (key g) /\
    exists lst, (key g, lst) ∈ pre /\
                indices g = List.map item_index lst /\
                members g = List.map item_player lst;
  collect_complete : forall k lst, (k, lst) ∈ pre -> 2 <= length lst ->
    sorted_nat (List.map item_index lst) ∈ List.map member_ids groups
}.

End SameSignature.

(** ** Shapes of normalised text *)

Section Shapes.
Context {U : UnicodeData}.

(** A code point that is its own decomposition and is not a mark. *)
Definition starter (c : char) : Prop := decomposition c = [c] /\ combining c = 0%N.

(** A code point that [str.lower] leaves alone. *)
Definition lowered (c : char) : Prop := tolower c = [c] /\ c <> SIGMA.

(** White space only as single spaces, never two in a row. *)
Fixpoint collapsed (s : pystr) : bool :=
  match s with
  | [] => true
  | c :: s' =>
      if isspace c
      then (N.eqb c SPACE
            && match s' with d :: _ => negb (isspace d) | [] => true end
            && collapsed s')%bool
      else collapsed s'
  end.

(** What the normaliser's result is made of. *)
Definition clean (c : char) : Prop :=
  starter c /\ lowered c /\ (is_word c || isspace c)%bool = true.

End Shapes.

(** ** Ranges, blocks and the work queue of the matcher *)

(** A block inside the window [a[alo:ahi]], [b[blo:bhi]]. *)
Definition in_range (alo ahi blo bhi : nat) (m : nat * nat * nat) : Prop :=
  alo <= fst (fst m) /\ fst (fst m) + snd m <= ahi /\
  blo <= snd (fst m) /\ snd (fst m) + snd m <= bhi.

(** The lengths kept for the previous row fit before row [i]. *)
Definition row_bound (alo blo i : nat) (j2len : gmap nat nat) : Prop :=
  forall j k, j2len !! j = Some k -> k + alo <= i /\ k + blo <= j + 1.

(** [sum(triple[-1] for triple in blocks)]. *)
Definition block_sizes (blocks : list (nat * nat * nat)) : nat :=
  list_sum (List.map (fun t : nat * nat * nat => snd t) blocks).

Definition window_a (w : nat * nat * nat * nat) : nat :=
  snd (fst (fst w)) - fst (fst (fst w)).

Definition window_b (w : nat * nat * nat * nat) : nat :=
  snd w - snd (fst w).

Definition window_ok (la lb : nat) (w : nat * nat * nat * nat) : Prop :=
  fst (fst (fst w)) <= snd (fst (fst w)) /\ snd (fst (fst w)) <= la /\
  snd (fst w) <= snd w /\ snd w <= lb.

(** What is left to look at, in [a] and in [b], and a bound on the
    turns the queue loop still needs. *)
Definition queue_a (queue : list (nat * nat * nat * nat)) : nat :=
  list_sum (List.map window_a queue).

Definition queue_b (queue : list (nat * nat * nat * nat)) : nat :=
  list_sum (List.map window_b queue).

Definition queue_measure (queue : list (nat * nat * nat * nat)) : nat :=
  list_sum (List.map (fun w => 2 * window_a w + 1) queue).

(** ** A string matched against itself *)

(** The positions of [x] in [l], counted from [n]. *)
Fixpoint positions_from (x : char) (n : nat) (l : pystr) : list nat :=
  match l with
  | [] => []
  | y :: l' =>
      if N.eqb y x then n :: positions_from x (S n) l'
      else positions_from x (S n) l'
  end.

Section SelfMatch.
Variable a : pystr.

(** The element at [i] survived the purge of popular elements. *)
Definition live (i : nat) : bool :=
  match a !! i with
  | Some x => bool_decide (is_Some (b2j a !! x))
  | None => false
  end.

(** The length of the run of live positions that ends at [i], and the
    one that ends just before [i]. *)
Fixpoint run (i : nat) : nat :=
  match i with
  | O => if live 0 then 1 else 0
  | S i' => if live (S i') then S (run i') else 0
  end.

Definition prev_run (i : nat) : nat :=
  match i with
  | O => 0
  | S i' => run i'
  end.

(** The lengths kept for the row before [i]. *)
Definition prev_row (i : nat) (j2len : gmap nat nat) : Prop :=
  (forall j k, j2len !! j = Some k -> k <= prev_run i /\ k <= run j) /\
  j2lenget_pred j2len i = prev_run i.

(** The best block so far lies on the diagonal and is at least as long
    as every run that ends before row [i]. *)
Definition best_diagonal (i : nat) (best : nat * nat * nat) : Prop :=
  fst (fst best) = snd (fst best) /\ forall i', i' < i -> run i' <= snd best.

End SelfMatch.

(** ** Example data *)

(** Two records with the same identifier and the same name. *)
Definition two_jon_smiths : list record :=
  [[(lit "transfermarkt_id", VStr (lit "42")); (lit "name", VStr (lit "Jon Smith"))];
   [(lit "transfermarkt_id", VStr (lit "42")); (lit "name", VStr (lit "Jon Smith"))]].

(** A record with neither identifier nor name, between two keyed ones. *)
Definition with_keyless : list record :=
  [[(lit "transfermarkt_id", VStr (lit "7"))];
   [(lit "club", VStr (lit "FC"))];
   [(lit "transfermarkt_id", VStr (lit "7"))]].

(** ** Records that carry a key *)

Section Carrying.
Context {U : UnicodeData}.

(** The occurrence's record has [k] among its canonical keys. *)
Definition carries (k : pystr) (o : occurrence) : bool :=
  bool_decide (k ∈ canonical_keys (occ_player o)).

End Carrying.

(** ** One dataset seen by both grouping passes *)

(** The occurrence that [find_common_groups] makes of an element of the
    source list. *)
Definition source_occurrence (it : item) : occurrence :=
  {| occ_file := lit "source"; occ_index := item_index it; occ_player := item_player it |}.

(** A key of [find_duplicates] beside the key of [find_common_groups]
    for the same record: the same identifier or name key, or the two
    fallback keys of one position. *)
Definition key_pair (k k' : pystr) : Prop :=
  (k = k' /\ ((exists s, k = lit "tid::" ++ s) \/ (exists s, k = lit "name::" ++ s))) \/
  (exists i : nat, k = lit "index::" ++ lit (pretty i) /\
                   k' = lit "raw::" ++ lit "source" ++ lit "::" ++ lit (pretty i)).

(** A bucket of the one pass beside the bucket of the other. *)
Definition bucket_pair (kl : pystr * list item) (ko : pystr * list occurrence) : Prop :=
  key_pair (fst kl) (fst ko) /\ snd ko = List.map source_occurrence (snd kl).

(** The positions of a group of [find_common_groups]. *)
Definition occurrence_indices (g : common_group) : list nat :=
  List.map ov_index (occurrences g).

(** The states of the two second loops, side by side. *)
Definition groups_agree (groups : list dup_group) (final_groups : list common_group) : Prop :=
  List.map (fun g => (Some (key g), indices g, List.map compact_player_view (members g)))
           groups =
  List.map (fun g => (head (keys g), occurrence_indices g, List.map ov_player (occurrences g)))
           final_groups.

(** The signature of a bucket of source occurrences at the positions [l]. *)
Definition source_signature (l : list nat) : list (pystr * nat) :=
  sorted_tuples (List.map (fun i => (lit "source", i)) l).

Section LoopsSideBySide.
Context {U : UnicodeData}.

(** Paired buckets as the two first loops leave them. *)
Definition filed_pair (kl : pystr * list item) (ko : pystr * list occurrence) : Prop :=
  bucket_pair kl ko /\
  StronglySorted lt (List.map item_index (snd kl)) /\
  (length (snd kl) <= 1 \/ fst kl = fst ko).

(** The second loops have made the same decisions so far. *)
Definition loops_agree (st : list dup_group * gset (list nat))
    (st' : list common_group * gmap (list (pystr * nat)) nat) : Prop :=
  groups_agree (fst st) (fst st') /\
  Forall (fun g => keys g <> []) (fst st') /\
  (forall sig pos, snd st' !! sig = Some pos -> pos < length (fst st')) /\
  forall l, StronglySorted lt l ->
            (sorted_nat l ∈ snd st <-> is_Some (snd st' !! source_signature l)).

End LoopsSideBySide.

(** ** The normaliser on ASCII text, in closed form *)

(** What [re.sub(r"[^\w\s]", "", s)] keeps of ASCII text. *)
Definition ascii_keep (c : char) : bool :=
  (ascii_alnum c || N.eqb c UNDERSCORE || ascii_space c)%bool.

Definition ascii_normal (s : pystr) : pystr :=
  @strip fragment (@sub_spaces fragment (List.filter ascii_keep (List.map ascii_lower_of s))).

(** ** Blocks that match, and blocks that lie apart *)

(** [a[i:i+k] == b[j:j+k]], with both slices inside the strings. *)
Definition common_block (a b : pystr) (m : nat * nat * nat) : Prop :=
  forall t, t < snd m ->
    exists x, a !! (fst (fst m) + t) = Some x /\ b !! (snd (fst m) + t) = Some x.

(** The lengths kept for the row before [i] are lengths of matches that
    end in that row. *)
Definition row_common (a b : pystr) (i : nat) (j2len : gmap nat nat) : Prop :=
  forall j k, j2len !! j = Some k ->
    k <= i /\ k <= j + 1 /\ common_block a b (i - k, j + 1 - k, k).

(** The window [a[i:i+k]], [b[j:j+k]] that a block covers. *)
Definition block_window (m : nat * nat * nat) : nat * nat * nat * nat :=
  (fst (fst m), fst (fst m) + snd m, snd (fst m), snd (fst m) + snd m).

(** The first window ends, in [a] and in [b], where the second starts
    or earlier. *)
Definition window_before (w1 w2 : nat * nat * nat * nat) : Prop :=
  snd (fst (fst w1)) <= fst (fst (fst w2)) /\ snd w1 <= snd (fst w2).

Definition window_apart (w1 w2 : nat * nat * nat * nat) : Prop :=
  window_before w1 w2 \/ window_before w2 w1.

Fixpoint all_apart (l : list (nat * nat * nat * nat)) : Prop :=
  match l with
  | [] => True
  | w :: l' => Forall (window_apart w) l' /\ all_apart l'
  end.

(** The first window lies inside the second. *)
Definition window_inside (w1 w2 : nat * nat * nat * nat) : Prop :=
  fst (fst (fst w2)) <= fst (fst (fst w1)) /\ snd (fst (fst w1)) <= snd (fst (fst w2)) /\
  snd (fst w2) <= snd (fst w1) /\ snd w1 <= snd w2.

(** ** The report as [main] hands it to [write_csv] *)

(** A group summary, and a report entry, as the dictionaries that the
    resolver builds (keys in insertion order). *)
Definition summary_value (s : group_summary) : value :=
  VDict [(lit "key", VStr (gs_key s));
         (lit "member_count", VInt (Z.of_nat (gs_member_count s)));
         (lit "members_preview",
          VList (List.map (fun m => VDict [(lit "name", mp_name m);
                                           (lit "transfermarkt_id", mp_transfermarkt_id m)])
                          (gs_members_preview s)))].

Definition entry_record (e : entry) : record :=
  [(lit "name", e_name e);
   (lit "name_ar", e_name_ar e);
   (lit "transfermarkt_url", e_transfermarkt_url e);
   (lit "wikipedia_url_provided", e_wikipedia_url_provided e);
   (lit "transfermarkt_id",
    match e_transfermarkt_id e with Some s => VStr s | None => VNone end)] ++
  match e_duplicate e with Some d => [(lit "duplicate", VBool d)] | None => [] end ++
  match e_duplicate_in e with
  | Some locs => [(lit "duplicate_in", VList (List.map VStr locs))]
  | None => []
  end ++
  match e_duplicate_groups e with
  | Some gs => [(lit "duplicate_groups", VList (List.map summary_value gs))]
  | None => []
  end ++
  match e_missing e with Some m => [(lit "missing", VBool m)] | None => [] end.

Definition base_columns : list pystr :=
  [lit "name"; lit "name_ar"; lit "transfermarkt_url"; lit "wikipedia_url_provided";
   lit "transfermarkt_id"; lit "missing"].

Definition duplicate_columns : list pystr :=
  [lit "duplicate"; lit "duplicate_in"; lit "duplicate_groups"].

Section ReportCsv.
Context {U : UnicodeData}.

(** [write_csv(Path("missing_players.csv"), missing_and_dup_flagged)],
    lines 251-256. *)
Definition report_csv (src tgt : list record) (fuzzy : Q) : option csv_file :=
  write_csv (List.map entry_record (missing_report src tgt fuzzy)).

End ReportCsv.

(** * The spiders' text helpers

    [player_combined_spider_with_links.py] and [extract_from_cache.py]
    share three pure functions on text: [try_parse_day_month_year],
    [normalize_years_field] and [clean_team_name].  They are written
    with Python's [re]; the part of [re] that they use is modelled
    first. *)

(** ** Regular expressions *)

(** The decimal digits of Unicode: [\d] of a pattern, [str.isdecimal],
    and the value [int] gives a digit. *)
Class DigitData := {
  isdecimal : char -> bool;
  digit_value : char -> nat
}.

(** A pattern: a character class with a counted repetition (greedy or
    lazy), sequence, alternation, one level of capturing group, and the
    anchors [^], [$] and [\b]. *)
Inductive regex :=
  | Eps
  | Rep (cls : char -> bool) (lo : nat) (hi : option nat) (greedy : bool)
  | Seq (r1 r2 : regex)
  | Alt (r1 r2 : regex)
  | Group (r : regex)
  | Bol
  | Eol
  | WordBoundary.

(** One character of a class; a literal; a sequence. *)
Definition one (cls : char -> bool) : regex := Rep cls 1 (Some 1) true.

Definition among (l : pystr) (c : char) : bool := bool_decide (c ∈ l).

Definition seq_of (rs : list regex) : regex := fold_right Seq Eps rs.

Definition literal (s : pystr) : regex := seq_of (List.map (fun c => one (N.eqb c)) s).

(** A literal under [re.I]; for the letters the patterns use the only
    other match of a letter is its ASCII capital. *)
Definition either_case (c d : char) : bool :=
  (N.eqb d c || N.eqb d (ascii_lower_of c) || N.eqb (ascii_lower_of d) c)%bool.

Definition literal_i (s : pystr) : regex :=
  seq_of (List.map (fun c => one (either_case c)) s).

(** The state of a match: the character before the current position
    ([None] at the start of the string), the text still to match, and
    the groups captured so far. *)
Record mstate := { m_prev : option char; m_rest : pystr; m_groups : list pystr }.

Definition advance (st : mstate) (n : nat) : mstate :=
  {| m_prev := match n with
               | O => m_prev st
               | S n' => match m_rest st !! n' with Some c => Some c | None => m_prev st end
               end;
     m_rest := drop n (m_rest st);
     m_groups := m_groups st |}.

(** The length of the longest prefix of [s] inside the class. *)
Fixpoint run_length (cls : char -> bool) (s : pystr) : nat :=
  match s with
  | c :: s' => if cls c then S (run_length cls s') else 0
  | [] => 0
  end.

(** The first success among [f (lo + c)], ..., [f lo], and among
    [f n], ..., [f (n + c)]. *)
Fixpoint first_down {A} (f : nat -> option A) (lo c : nat) : option A :=
  match f (lo + c) with
  | Some x => Some x
  | None => match c with O => None | S c' => first_down f lo c' end
  end.

Fixpoint first_up {A} (f : nat -> option A) (n c : nat) : option A :=
  match f n with
  | Some x => Some x
  | None => match c with O => None | S c' => first_up f (S n) c' end
  end.

Section Matcher.
Context {U : UnicodeData}.

Definition word_at (c : option char) : bool :=
  match c with Some c => is_word c | None => false end.

(** The backtracking matcher, with the rest of the pattern as a
    continuation. *)
Fixpoint rmatch {A} (r : regex) (st : mstate) (k : mstate -> option A) : option A :=
  match r with
  | Eps => k st
  | Rep cls lo hi greedy =>
      let avail := run_length cls (m_rest st) in
      let n := match hi with Some h => Nat.min h avail | None => avail end in
      if Nat.ltb n lo then None
      else if greedy then first_down (fun c => k (advance st c)) lo (n - lo)
           else first_up (fun c => k (advance st c)) lo (n - lo)
  | Seq r1 r2 => rmatch r1 st (fun st' => rmatch r2 st' k)
  | Alt r1 r2 =>
      match rmatch r1 st k with
      | Some x => Some x
      | None => rmatch r2 st k
      end
  | Group r =>
      rmatch r st (fun st' =>
        k {| m_prev := m_prev st'; m_rest := m_rest st';
             m_groups := m_groups st ++
                         [take (length (m_rest st) - length (m_rest st')) (m_rest st)] |})
  | Bol => match m_prev st with None => k st | Some _ => None end
  | Eol =>
      match m_rest st with
      | [] => k st
      | [c] => if N.eqb c 10 then k st else None
      | _ => None
      end
  | WordBoundary =>
      if xorb (word_at (m_prev st)) (word_at (head (m_rest st))) then k st else None
  end.

(** [re.match(r, s)]: the groups of the match. *)
Definition re_match (r : regex) (s : pystr) : option (list pystr) :=
  rmatch r {| m_prev := None; m_rest := s; m_groups := [] |} (fun st => Some (m_groups st)).

(** The leftmost match at or after the current position: the text
    skipped before it and the state after it. *)
Fixpoint search_from (r : regex) (prev : option char) (s : pystr)
  : option (pystr * mstate) :=
  match rmatch r {| m_prev := prev; m_rest := s; m_groups := [] |} Some with
  | Some st => Some ([], st)
  | None =>
      match s with
      | [] => None
      | c :: s' =>
          match search_from r (Some c) s' with
          | Some (skipped, st) => Some (c :: skipped, st)
          | None => None
          end
      end
  end.

(** [re.search(r, s)]: the groups of the leftmost match. *)
Definition re_search (r : regex) (s : pystr) : option (list pystr) :=
  match search_from r None s with
  | Some (_, st) => Some (m_groups st)
  | None => None
  end.

(** [re.sub(r, "", s)] and [re.split(r, s)] for a pattern that matches
    no empty text (every pattern below needs a character). *)
Fixpoint sub_loop (turns : nat) (r : regex) (prev : option char) (s : pystr) : pystr :=
  match turns with
  | O => s
  | S turns' =>
      match search_from r prev s with
      | Some (skipped, st) => skipped ++ sub_loop turns' r (m_prev st) (m_rest st)
      | None => s
      end
  end.

Definition re_sub_empty (r : regex) (s : pystr) : pystr :=
  sub_loop (S (length s)) r None s.

Fixpoint split_loop (turns : nat) (r : regex) (prev : option char) (s : pystr)
  : list pystr :=
  match turns with
  | O => [s]
  | S turns' =>
      match search_from r prev s with
      | Some (skipped, st) => skipped :: split_loop turns' r (m_prev st) (m_rest st)
      | None => [s]
      end
  end.

Definition re_split (r : regex) (s : pystr) : list pystr :=
  split_loop (S (length s)) r None s.

End Matcher.

(** Shorthands for the repetitions of a pattern. *)
Definition star (cls : char -> bool) : regex := Rep cls 0 None true.
Definition plus (cls : char -> bool) : regex := Rep cls 1 None true.
Definition lazy_star (cls : char -> bool) : regex := Rep cls 0 None false.
Definition counted (cls : char -> bool) (lo hi : nat) : regex := Rep cls lo (Some hi) true.

(** What a match of a pattern can be, whatever the order in which the
    matcher tries the alternatives. *)
Inductive matches {U : UnicodeData} : regex -> mstate -> mstate -> Prop :=
  | matches_Eps st : matches Eps st st
  | matches_Rep cls lo hi greedy st c :
      lo <= c ->
      c <= run_length cls (m_rest st) ->
      (forall h, hi = Some h -> c <= h) ->
      matches (Rep cls lo hi greedy) st (advance st c)
  | matches_Seq r1 r2 st st1 st2 :
      matches r1 st st1 -> matches r2 st1 st2 -> matches (Seq r1 r2) st st2
  | matches_Alt_l r1 r2 st st' : matches r1 st st' -> matches (Alt r1 r2) st st'
  | matches_Alt_r r1 r2 st st' : matches r2 st st' -> matches (Alt r1 r2) st st'
  | matches_Group r st st' :
      matches r st st' ->
      matches (Group r) st
        {| m_prev := m_prev st'; m_rest := m_rest st';
           m_groups := m_groups st ++
                       [take (length (m_rest st) - length (m_rest st')) (m_rest st)] |}
  | matches_Bol st : m_prev st = None -> matches Bol st st
  | matches_Eol st : m_rest st = [] \/ m_rest st = [10%N] -> matches Eol st st
  | matches_WordBoundary st :
      xorb (word_at (m_prev st)) (word_at (head (m_rest st))) = true ->
      matches WordBoundary st st.

(** ** Dates *)

Definition COMMA : char := 44%N.
Definition HYPHEN : char := 45%N.
Definition NBSP : char := 160%N.         (* U+00A0 *)
Definition EN_DASH : char := 8211%N.     (* U+2013 *)
Definition EM_DASH : char := 8212%N.     (* U+2014 *)

Definition ascii_letter (c : char) : bool :=
  ((N.leb 65 c && N.leb c 90) || (N.leb 97 c && N.leb c 122))%bool.

(** [s.replace(a, b)] for single characters. *)
Definition replace_char (a b : char) (s : pystr) : pystr :=
  List.map (fun c => if N.eqb c a then b else c) s.

(** [d.get(k)] of a table of texts. *)
Fixpoint table_get (d : list (pystr * pystr)) (k : pystr) : option pystr :=
  match d with
  | [] => None
  | (k', v) :: d' => if pystr_eqb k' k then Some v else table_get d' k
  end.

Definition MONTHS_FULL : list (pystr * pystr) :=
  [ (lit "january", lit "01"); (lit "february", lit "02"); (lit "march", lit "03");
    (lit "april", lit "04"); (lit "may", lit "05"); (lit "june", lit "06");
    (lit "july", lit "07"); (lit "august", lit "08"); (lit "september", lit "09");
    (lit "october", lit "10"); (lit "november", lit "11"); (lit "december", lit "12") ].

Definition MONTHS_ABBR : list (pystr * pystr) :=
  [ (lit "jan", lit "01"); (lit "feb", lit "02"); (lit "mar", lit "03");
    (lit "apr", lit "04"); (lit "may", lit "05"); (lit "jun", lit "06");
    (lit "jul", lit "07"); (lit "aug", lit "08"); (lit "sep", lit "09");
    (lit "oct", lit "10"); (lit "nov", lit "11"); (lit "dec", lit "12") ].

(** The decimal text of a number, and [f"{n:0wd}"]. *)
Definition digit_char (n : nat) : char := N.of_nat (48 + n).

Fixpoint decimal_text (turns n : nat) : pystr :=
  match turns with
  | O => []
  | S turns' =>
      if Nat.ltb n 10 then [digit_char n]
      else decimal_text turns' (n / 10) ++ [digit_char (n mod 10)]
  end.

Definition str_of_nat (n : nat) : pystr := decimal_text (S n) n.

Definition format_0d (width n : nat) : pystr :=
  replicate (width - length (str_of_nat n)) (digit_char 0) ++ str_of_nat n.

Section Dates.
Context {U : UnicodeData} {D : DigitData}.

(** [int(s)] for a text of decimal digits. *)
Definition int_of_digits (s : pystr) : nat :=
  fold_left (fun n c => 10 * n + digit_value c) s 0.

(** [a or b] and [if a] on the result of a [get] or of a parse. *)
Definition text_truthy (a : option pystr) : bool :=
  match a with Some (_ :: _) => true | _ => false end.

Definition text_or (a b : option pystr) : option pystr :=
  if text_truthy a then a else b.

(** [f"{int(y):04d}-{int(mo):02d}-{int(d):02d}"]. *)
Definition iso_date (y mo d : pystr) : pystr :=
  format_0d 4 (int_of_digits y) ++ [HYPHEN] ++
  format_0d 2 (int_of_digits mo) ++ [HYPHEN] ++
  format_0d 2 (int_of_digits d).

(** [^\s*(\d{4})[-/](\d{1,2})[-/](\d{1,2})\s*$] *)
Definition iso_pattern : regex :=
  seq_of [Bol; star isspace; Group (counted isdecimal 4 4); one (among (lit "-/"));
          Group (counted isdecimal 1 2); one (among (lit "-/"));
          Group (counted isdecimal 1 2); star isspace; Eol].

(** [^(\d{1,2})\s+([A-Za-z]+)\s+(\d{4})$] *)
Definition day_month_year_pattern : regex :=
  seq_of [Bol; Group (counted isdecimal 1 2); plus isspace; Group (plus ascii_letter);
          plus isspace; Group (counted isdecimal 4 4); Eol].

(** [^([A-Za-z]+)\s+(\d{1,2})\s+(\d{4})$] *)
Definition month_day_year_pattern : regex :=
  seq_of [Bol; Group (plus ascii_letter); plus isspace; Group (counted isdecimal 1 2);
          plus isspace; Group (counted isdecimal 4 4); Eol].

(** [^(\d{1,2})[./\-](\d{1,2})[./\-](\d{4})$] *)
Definition numeric_pattern : regex :=
  seq_of [Bol; Group (counted isdecimal 1 2); one (among (lit "./-"));
          Group (counted isdecimal 1 2); one (among (lit "./-"));
          Group (counted isdecimal 4 4); Eol].

(** [^\d{4}$] *)
Definition year_pattern : regex := seq_of [Bol; counted isdecimal 4 4; Eol].

(** [MONTHS_FULL.get(mon_l) or MONTHS_ABBR.get(mon_l[:3])]. *)
Definition month_number (mon_l : pystr) : option pystr :=
  text_or (table_get MONTHS_FULL mon_l) (table_get MONTHS_ABBR (take 3 mon_l)).

(** The two branches on a month name: the date when the name is known. *)
Definition named_month_date (d mon y : pystr) : option pystr :=
  let mo := month_number (lower mon) in
  if text_truthy mo then Some (iso_date y (default [] mo) d) else None.

Definition try_parse_day_month_year (part : pystr) : option pystr :=
  if (pystr_eqb part [] || pystr_eqb (strip part) [])%bool then None
  else
    let s := strip part in
    let s := strip (sub_spaces (replace_char COMMA SPACE s)) in
    match re_match iso_pattern s with
    | Some [y; mo; d] => Some (iso_date y mo d)
    | _ =>
      match (match re_match day_month_year_pattern s with
             | Some [d; mon; y] => named_month_date d mon y
             | _ => None
             end) with
      | Some r => Some r
      | None =>
        match (match re_match month_day_year_pattern s with
               | Some [mon; d; y] => named_month_date d mon y
               | _ => None
               end) with
        | Some r => Some r
        | None =>
          match re_match numeric_pattern s with
          | Some [d; mo; y] => Some (iso_date y mo d)
          | _ =>
            match re_match year_pattern s with
            | Some _ => Some s
            | None => None
            end
          end
        end
      end
    end.

(** [\s*[–—\-]\s*|\s+to\s+] *)
Definition range_pattern : regex :=
  Alt (seq_of [star isspace; one (among [EN_DASH; EM_DASH; HYPHEN]); star isspace])
      (seq_of [plus isspace; literal (lit "to"); plus isspace]).

Definition range_text (left_part right_part : pystr) : pystr :=
  left_part ++ [SPACE; EN_DASH; SPACE] ++ right_part.

Definition normalize_years_field (years_raw : pystr) : pystr :=
  if pystr_eqb years_raw [] then []
  else
    let s := strip years_raw in
    let s := replace_char NBSP SPACE s in
    let parts := re_split range_pattern s in
    let parts := List.map strip (List.filter (fun p => negb (pystr_eqb (strip p) [])) parts) in
    match parts with
    | [] => s
    | [p] =>
        let iso := try_parse_day_month_year p in
        if text_truthy iso then default [] iso else p
    | left_part :: right_part :: _ =>
        let left_iso := try_parse_day_month_year left_part in
        let right_iso := try_parse_day_month_year right_part in
        if (text_truthy left_iso && text_truthy right_iso)%bool
        then range_text (default [] left_iso) (default [] right_iso)
        else if (text_truthy left_iso && negb (text_truthy right_iso) &&
                 bool_decide (is_Some (re_match year_pattern right_part)))%bool
        then range_text (default [] left_iso) right_part
        else if (negb (text_truthy left_iso) && text_truthy right_iso)%bool
        then range_text left_part (default [] right_iso)
        else s
    end.

End Dates.

(** The entries of the tables that the date helpers rely on: the ASCII
    digits, that a decimal digit has a value below ten and is no white
    space, and that the dashes are no white space. *)
Class DateFacts (U : UnicodeData) (D : DigitData) : Prop := {
  ascii_isdecimal : forall c : char, (c < 128)%N -> isdecimal c = ascii_digit c;
  ascii_digit_value :
    forall c : char, ascii_digit c = true -> digit_value c = N.to_nat c - 48;
  digit_value_bound : forall c : char, isdecimal c = true -> digit_value c < 10;
  decimal_not_space : forall c : char, isdecimal c = true -> isspace c = false;
  dash_not_space : isspace EN_DASH = false /\ isspace EM_DASH = false
}.

(** The ASCII digits alone, to evaluate the helpers on concrete text. *)
Definition ascii_digits : DigitData := {|
  isdecimal := ascii_digit;
  digit_value := fun c => N.to_nat c - 48
|}.

(** A text of ASCII digits; a date [YYYY-MM-DD] in ASCII digits. *)
Definition digits (s : pystr) : Prop := Forall (fun c => ascii_digit c = true) s.

Definition iso_text (r : pystr) : Prop :=
  exists y m d, r = y ++ [HYPHEN] ++ m ++ [HYPHEN] ++ d /\
                digits y /\ digits m /\ digits d /\
                length y = 4 /\ length m = 2 /\ length d = 2.

(** [s.zfill(2)] for a text of one or two digits. *)
Definition zfill2 (s : pystr) : pystr := replicate (2 - length s) (digit_char 0) ++ s.

(** ** A source record beside same-name target records *)

(** One source record, and two targets that both hold a pair of records
    named like it: with one identifier in the first, with two different
    identifiers in the second. *)
Definition jon_smith_source : list record :=
  [[(lit "transfermarkt_id", VStr (lit "7")); (lit "name", VStr (lit "Jon Smith"))]].

Definition jon_smiths_two_ids : list record :=
  [[(lit "transfermarkt_id", VStr (lit "42")); (lit "name", VStr (lit "Jon Smith"))];
   [(lit "transfermarkt_id", VStr (lit "43")); (lit "name", VStr (lit "Jon Smith"))]].

(** * Properties *)

Section ListLoops.
Context {A B : Type}.

Lemma fold_left_snoc (f : A -> list B) (l : list A) (init : list B) :
  fold_left (fun acc x => acc ++ f x) l init = init ++ flat_map f l.
Proof.
  revert init. induction l as [|x l IH]; intros init; simpl.
  - by rewrite app_nil_r.
  - rewrite IH. by rewrite app_assoc.
Qed.

End ListLoops.

(** ** ReportWriter *)

Lemma csv_keys_union (data : list record) (acc : gset pystr) (k : pystr) :
  k ∈ fold_left (fun keys d => keys ∪ list_to_set (List.map fst d)) data acc <->
  k ∈ acc \/ exists row, row ∈ data /\ k ∈ List.map fst row.
Proof.
  revert acc. induction data as [|d data IH]; intros acc; simpl.
  - split; [auto | intros [?|(row & Hrow & _)]; [done | by apply elem_of_nil in Hrow]].
  - rewrite IH, elem_of_union, elem_of_list_to_set. split.
    + intros [[?|?]|(row & Hrow & Hk)]; [by left | right; exists d | right; exists row].
      * split; [by left | done].
      * split; [by right | done].
    + intros [?|(row & Hrow & Hk)]; [by left; left |].
      apply elem_of_cons in Hrow as [->|Hrow]; [by left; right |].
      right. by exists row.
Qed.

(** C10: for an empty list nothing is written, not even a header; for a
    non-empty list the header lists every field name of every row once,
    each row is written under that header, and a cell is empty for a
    null (or absent) value, the JSON text for a list or mapping, and the
    value itself otherwise. *)
Theorem write_csv_spec (data : list record) :
  match data with
  | [] => write_csv data = None
  | _ =>
      exists f, write_csv data = Some f /\
        NoDup (csv_header f) /\
        (forall k, k ∈ csv_header f <-> exists row, row ∈ data /\ k ∈ List.map fst row) /\
        csv_rows f =
          List.map (fun row => List.map (fun k => (k, csv_cell row k)) (csv_header f)) data /\
        (forall row k,
            csv_cell row k =
              match get row k with
              | VNone => CellEmpty
              | VList _ | VDict _ => CellJson (get row k)
              | v => CellValue v
              end)
  end.
Proof.
  destruct data as [|d data]; [done |].
  eexists. split; [reflexivity |]. simpl. split; [apply NoDup_elements |].
  split; [| split; [done |]].
  - intros k. rewrite elem_of_elements.
    rewrite (csv_keys_union data _ k), elem_of_union, elem_of_list_to_set. split.
    + intros [[Hk|Hk]|(row & Hrow & Hk)].
      * by apply elem_of_empty in Hk.
      * exists d. split; [by left | done].
      * exists row. split; [by right | done].
    + intros (row & Hrow & Hk). apply elem_of_cons in Hrow as [->|Hrow].
      * by left; right.
      * right. by exists row.
  - intros row k. unfold csv_cell. by destruct (get row k).
Qed.

(** ** KeyExtractor *)

Section KeyExtractor.
Context {U : UnicodeData}.

Lemma or_chain_find (v1 v2 v3 v4 : value) :
  py_or (py_or (py_or v1 v2) v3) v4 =
  match List.find truthy [v1; v2; v3; v4] with
  | Some v => v
  | None => v4
  end.
Proof.
  unfold py_or. cbn [List.find].
  destruct (truthy v1) eqn:H1; cbn iota; rewrite ?H1; [done |].
  destruct (truthy v2) eqn:H2; cbn iota; rewrite ?H2; [done |].
  destruct (truthy v3) eqn:H3; cbn iota; rewrite ?H3; [done |].
  by destruct (truthy v4).
Qed.

Lemma find_truthy_not_none (l : list value) (v : value) :
  List.find truthy l = Some v -> is_none v = false.
Proof.
  intros H. apply find_some in H as [_ H]. by destruct v.
Qed.

Lemma resolve_tid_truthy_identifier (p : record) :
  resolve_tid p = truthy_identifier p.
Proof.
  unfold resolve_tid, truthy_identifier, id_aliases, digits_or_int.
  cbn [List.map]. rewrite or_chain_find.
  destruct (List.find truthy _) as [v|] eqn:Hfind.
  - by rewrite (find_truthy_not_none _ _ Hfind).
  - destruct (get p (lit "transfermarkt")) eqn:E; cbn [is_none]; done.
Qed.
Lemma key_for_player_parts (p : record) :
  key_for_player p = id_keys p ++ name_keys p.
Proof.
  unfold key_for_player, id_keys, name_keys.
  destruct (is_none (resolve_tid p)), (pystr_eqb (name_key p) []); simpl;
    by rewrite ?app_nil_r.
Qed.

Lemma canonical_keys_key_for_player (p : record) :
  canonical_keys p = key_for_player p.
Proof. reflexivity. Qed.

(** C4, as amended: both extractors return the identifier key (if any)
    followed by the name key (if any), hence at most two keys; the
    identifier is the first alias value that is true in Python's sense,
    else the false value the last alias holds, else the generic [id]
    when that is an [int] or an all-digit string. *)
Theorem key_extraction_spec (p : record) :
  key_for_player p = id_keys p ++ name_keys p /\
  canonical_keys p = key_for_player p /\
  length (id_keys p) <= 1 /\ length (name_keys p) <= 1 /\
  length (key_for_player p) <= 2 /\
  resolve_tid p = truthy_identifier p /\
  id_keys p =
    (if is_none (truthy_identifier p) then []
     else [lit "tid::" ++ py_str (truthy_identifier p)]) /\
  name_keys p =
    (if pystr_eqb (normalize_name (py_or (get p (lit "name")) (VStr []))) [] then []
     else [lit "name::" ++ normalize_name (py_or (get p (lit "name")) (VStr []))]).
Proof.
  assert (Hi : length (id_keys p) <= 1).
  { unfold id_keys. destruct (is_none _); simpl; lia. }
  assert (Hn : length (name_keys p) <= 1).
  { unfold name_keys. destruct (pystr_eqb _ _); simpl; lia. }
  repeat split; try done.
  - apply key_for_player_parts.
  - rewrite key_for_player_parts, length_app. lia.
  - apply resolve_tid_truthy_identifier.
  - unfold id_keys. by rewrite resolve_tid_truthy_identifier.
Qed.

End KeyExtractor.

(** C4, as stated, fails: with [transfermarkt_id] holding the number 0
    and [transfermarktId] holding "5", the first present non-null alias
    value is 0, but the scripts skip it and build the key from "5". *)
Lemma key_extraction_not_first_non_null :
  let p : record := [(lit "transfermarkt_id", VInt 0); (lit "transfermarktId", VStr (lit "5"))] in
  @spec_identifier fragment p = VInt 0 /\
  @resolve_tid fragment p = VStr (lit "5") /\
  @key_for_player fragment p = [lit "tid::5"] /\
  @resolve_tid fragment p <> @spec_identifier fragment p.
Proof. vm_compute. repeat split; discriminate. Qed.

(** ** Resolver *)

Section ResolverProperties.
Context {U : UnicodeData}.
Variables (target_ids target_normnames : gset pystr).
Variables (dup_src_groups dup_tgt_groups : list dup_group).
Variable fuzzy_threshold : Q.

Local Abbreviation is_found' := (is_found target_ids target_normnames fuzzy_threshold).
Local Abbreviation flagged' := (flagged dup_src_groups dup_tgt_groups).
Local Abbreviation emitted' :=
  (emitted target_ids target_normnames dup_src_groups dup_tgt_groups fuzzy_threshold).
Local Abbreviation base_entry' := (base_entry dup_src_groups dup_tgt_groups).
Local Abbreviation dropped' :=
  (dropped target_ids target_normnames dup_src_groups dup_tgt_groups fuzzy_threshold).
Local Abbreviation emitted_missing' :=
  (emitted_missing target_ids target_normnames dup_src_groups dup_tgt_groups fuzzy_threshold).
Local Abbreviation emitted_flagged' :=
  (emitted_flagged target_ids target_normnames dup_src_groups dup_tgt_groups fuzzy_threshold).

Lemma classify_step_emitted (missing : list entry) (p : record) :
  classify_step target_ids target_normnames dup_src_groups dup_tgt_groups
    fuzzy_threshold missing p = missing ++ emitted' p.
Proof.
  unfold emitted, classify_step.
  destruct (negb _); [done |].
  destruct (fst _); [by rewrite app_nil_r | done].
Qed.

Lemma find_missing_flat_map (source : list record) :
  find_missing_and_flag_duplicates source target_ids target_normnames
    dup_src_groups dup_tgt_groups fuzzy_threshold = flat_map emitted' source.
Proof.
  unfold find_missing_and_flag_duplicates.
  rewrite <- (app_nil_l (flat_map _ _)), <- fold_left_snoc.
  generalize (@nil entry). induction source as [|p source IH]; intros acc; [done |].
  simpl. rewrite classify_step_emitted. apply IH.
Qed.

Lemma emitted_cases (p : record) :
  emitted' p =
    if negb (is_found' p) then [set_missing true (base_entry' p)]
    else if flagged' p then [set_missing false (base_entry' p)]
    else [].
Proof.
  unfold emitted, classify_step, flagged.
  destruct (negb _); [done |]. by destruct (fst _).
Qed.

Lemma base_entry_duplicate (p : record) :
  e_duplicate (base_entry' p) = (if flagged' p then Some true else None) /\
  e_duplicate_in (base_entry' p) =
    (if flagged' p then Some (fst (dup_membership dup_src_groups dup_tgt_groups p))
     else None).
Proof.
  unfold base_entry, flagged.
  destruct (dup_membership _ _ _) as [locs info]; simpl. by destruct locs.
Qed.

(** C1: the report is the concatenation, in source order, of what each
    source record contributes; a record contributes nothing (found and
    not flagged), or one entry with [missing = true] (not found), or one
    entry with [missing = false] (found and flagged); exactly one of the
    three holds. *)
Theorem classification_partition (source : list record) :
  find_missing_and_flag_duplicates source target_ids target_normnames
    dup_src_groups dup_tgt_groups fuzzy_threshold = flat_map emitted' source /\
  forall p : record,
    length (emitted' p) <= 1 /\
    (dropped' p \/ emitted_missing' p \/ emitted_flagged' p) /\
    ~ (dropped' p /\ emitted_missing' p) /\
    ~ (dropped' p /\ emitted_flagged' p) /\
    ~ (emitted_missing' p /\ emitted_flagged' p).
Proof.
  split; [apply find_missing_flat_map |].
  intros p. unfold dropped, emitted_missing, emitted_flagged.
  pose proof (base_entry_duplicate p) as [Hd _].
  rewrite emitted_cases.
  destruct (is_found' p) eqn:Hf, (flagged' p) eqn:Hfl; simpl.
  - split; [lia |]. split.
    + right; right. repeat split. eexists; repeat split. simpl. by rewrite Hd.
    + split; [| split]; intros [H1 H2]; [by destruct H1 | by destruct H1 | by destruct H1].
  - split; [lia |]. split.
    + left. done.
    + split; [| split]; intros [H1 H2]; [by destruct H2 | by destruct H2 as (_ & ? & _) |
                                           by destruct H1].
  - split; [lia |]. split.
    + right; left. split; [done |]. eexists. done.
    + split; [| split]; intros [H1 H2]; [by destruct H1 | by destruct H1 |
                                           by destruct H2].
  - split; [lia |]. split.
    + right; left. split; [done |]. eexists. done.
    + split; [| split]; intros [H1 H2]; [by destruct H1 | by destruct H1 |
                                           by destruct H2].
Qed.

End ResolverProperties.
Section FoundRules.
Context {U : UnicodeData}.

Lemma is_found_rules (target_ids target_normnames : gset pystr) (fuzzy_threshold : Q)
    (p : record) :
  is_found target_ids target_normnames fuzzy_threshold p =
  (rule_id target_ids p || rule_name target_normnames p
   || rule_fuzzy target_normnames fuzzy_threshold p)%bool.
Proof.
  unfold is_found, rule_id, rule_name, rule_fuzzy.
  destruct (tid_text p) as [s|]; simpl.
  - destruct (negb (pystr_eqb s []) && bool_decide (s ∈ target_ids))%bool; simpl; [done |].
    destruct (negb (pystr_eqb (name_key p) [])); simpl; [| done].
    destruct (bool_decide (name_key p ∈ target_normnames)); simpl; [done |].
    by destruct (Qle_bool _ _).
  - destruct (negb (pystr_eqb (name_key p) [])); simpl; [| done].
    destruct (bool_decide (name_key p ∈ target_normnames)); simpl; [done |].
    by destruct (Qle_bool _ _).
Qed.

Lemma best_fold_max (nn : pystr) (cands : list pystr) (init : Q) :
  let best := fold_left (fun best cand =>
                           let r := similar nn cand in
                           if Qle_bool r best then best else r) cands init in
  (init <= best)%Q /\
  (forall cand, cand ∈ cands -> (similar nn cand <= best)%Q) /\
  (best = init \/ exists cand, cand ∈ cands /\ best = similar nn cand).
Proof.
  revert init. induction cands as [|c cands IH]; intros init; simpl.
  - split; [apply Qle_refl |]. split; [| by left].
    intros cand H. by apply elem_of_nil in H.
  - destruct (Qle_bool (similar nn c) init) eqn:Hle.
    + apply Qle_bool_iff in Hle.
      destruct (IH init) as (H1 & H2 & H3). split; [done |]. split.
      * intros cand Hc. apply elem_of_cons in Hc as [->|Hc]; [| by apply H2].
        by eapply Qle_trans.
      * destruct H3 as [H3|(cand & Hc & H3)]; [by left |].
        right. exists cand. split; [by right | done].
    + assert (Hlt : (init <= similar nn c)%Q).
      { destruct (Qlt_le_dec init (similar nn c)) as [Hlt|Hge].
        - by apply Qlt_le_weak.
        - apply Qle_bool_iff in Hge. congruence. }
      destruct (IH (similar nn c)) as (H1 & H2 & H3). split; [by eapply Qle_trans |].
      split.
      * intros cand Hc. apply elem_of_cons in Hc as [->|Hc]; [done | by apply H2].
      * right. destruct H3 as [H3|(cand & Hc & H3)].
        -- exists c. split; [by left | done].
        -- exists cand. split; [by right | done].
Qed.

Lemma best_similarity_max (nn : pystr) (target_normnames : gset pystr) :
  (0 <= best_similarity nn target_normnames)%Q /\
  (forall cand, cand ∈ target_normnames ->
                (similar nn cand <= best_similarity nn target_normnames)%Q) /\
  (best_similarity nn target_normnames = 0%Q \/
   exists cand, cand ∈ target_normnames /\
                best_similarity nn target_normnames = similar nn cand).
Proof.
  unfold best_similarity.
  destruct (best_fold_max nn (elements target_normnames) 0%Q) as (H1 & H2 & H3).
  split; [done |]. split.
  - intros cand Hc. apply H2. by apply elem_of_elements.
  - destruct H3 as [H3|(cand & Hc & H3)]; [by left |].
    right. exists cand. split; [by apply elem_of_elements | done].
Qed.

Lemma lookup_fold_spec (target : list record) (ids0 names0 : gset pystr) :
  let '(ids, names) := fold_left lookup_step target (ids0, names0) in
  (forall s, s ∈ ids <-> s ∈ ids0 \/ exists q, q ∈ target /\ tid_text q = Some s) /\
  (forall n, n ∈ names <->
             n ∈ names0 \/ exists q, q ∈ target /\ name_key q = n /\ n <> []).
Proof.
  revert ids0 names0. induction target as [|q target IH]; intros ids0 names0; simpl.
  - split; intros x; (split; [by left | intros [?|(? & H & _)]; [done | by apply elem_of_nil in H]]).
  - specialize (IH (if is_none (resolve_tid q) then ids0 else ids0 ∪ {[py_str (resolve_tid q)]})
                   (if pystr_eqb (name_key q) [] then names0 else names0 ∪ {[name_key q]})).
    destruct (fold_left _ _ _) as [ids names]. destruct IH as [IH1 IH2]. split.
    + intros s. rewrite IH1. unfold tid_text. split.
      * intros [Hs|(q' & Hq' & Hs)].
        -- destruct (is_none (resolve_tid q)) eqn:E; [by left |].
           apply elem_of_union in Hs as [Hs|Hs]; [by left |].
           apply elem_of_singleton in Hs as ->. right. exists q.
           split; [by left | by rewrite E].
        -- right. exists q'. split; [by right | done].
      * intros [Hs|(q' & Hq' & Hs)].
        -- left. destruct (is_none _); [done | by apply elem_of_union_l].
        -- apply elem_of_cons in Hq' as [->|Hq'].
           ++ left. destruct (is_none (resolve_tid q)); [done |].
              injection Hs as <-. apply elem_of_union_r. by apply elem_of_singleton.
           ++ right. by exists q'.
    + intros n. rewrite IH2. unfold pystr_eqb. split.
      * intros [Hs|(q' & Hq' & Hs)].
        -- case_bool_decide as E; [by left |].
           apply elem_of_union in Hs as [Hs|Hs]; [by left |].
           apply elem_of_singleton in Hs as ->. right. exists q.
           split; [by left | done].
        -- right. exists q'. split; [by right | done].
      * intros [Hs|(q' & Hq' & Hs & Hne)].
        -- left. case_bool_decide; [done | by apply elem_of_union_l].
        -- apply elem_of_cons in Hq' as [->|Hq'].
           ++ left. case_bool_decide as E; [congruence |].
              apply elem_of_union_r. by apply elem_of_singleton.
           ++ right. by exists q'.
Qed.

Lemma build_target_lookup_spec (target : list record) :
  let '(ids, names) := build_target_lookup target in
  (forall s, s ∈ ids <-> exists q, q ∈ target /\ tid_text q = Some s) /\
  (forall n, n ∈ names <-> exists q, q ∈ target /\ name_key q = n /\ n <> []).
Proof.
  unfold build_target_lookup.
  pose proof (lookup_fold_spec target ∅ ∅) as H.
  destruct (fold_left _ _ _) as [ids names]. destruct H as [H1 H2]. split.
  - intros s. rewrite H1. split; [intros [H|H]; [by apply elem_of_empty in H | done] | by right].
  - intros n. rewrite H2. split; [intros [H|H]; [by apply elem_of_empty in H | done] | by right].
Qed.


(** C3, as amended: a source record is found exactly when one of the
    three rules succeeds, tried in this order: its identifier text is
    non-empty and is the identifier text of a target record; its
    normalised name is non-empty and is the normalised name of a target
    record; its normalised name is non-empty and the largest similarity
    to a target normalised name (over all of them, 0 when there is none)
    reaches the threshold. *)
Theorem found_iff_rules (target : list record) (fuzzy_threshold : Q) (p : record) :
  let ids := fst (build_target_lookup target) in
  let names := snd (build_target_lookup target) in
  is_found ids names fuzzy_threshold p =
    (rule_id ids p || rule_name names p || rule_fuzzy names fuzzy_threshold p)%bool /\
  (rule_id ids p = true <->
   exists s q, tid_text p = Some s /\ s <> [] /\ q ∈ target /\ tid_text q = Some s) /\
  (rule_name names p = true <->
   name_key p <> [] /\ exists q, q ∈ target /\ name_key q = name_key p) /\
  (rule_fuzzy names fuzzy_threshold p = true <->
   name_key p <> [] /\ (fuzzy_threshold <= best_similarity (name_key p) names)%Q) /\
  (forall q, q ∈ target -> name_key q <> [] ->
             (similar (name_key p) (name_key q) <= best_similarity (name_key p) names)%Q) /\
  (best_similarity (name_key p) names = 0%Q \/
   exists q, q ∈ target /\ name_key q <> [] /\
             best_similarity (name_key p) names = similar (name_key p) (name_key q)) /\
  ((0 < fuzzy_threshold)%Q ->
   (rule_fuzzy names fuzzy_threshold p = true <->
    name_key p <> [] /\
    exists q, q ∈ target /\ name_key q <> [] /\
              (fuzzy_threshold <= similar (name_key p) (name_key q))%Q)).
Proof.
  intros ids names. subst ids names.
  pose proof (build_target_lookup_spec target) as Hlookup.
  destruct (build_target_lookup target) as [ids names]. destruct Hlookup as [Hids Hnames].
  cbn [fst snd].
  destruct (best_similarity_max (name_key p) names) as (Hnonneg & Hmax & Hattained).
  assert (Hfuzzy : rule_fuzzy names fuzzy_threshold p = true <->
                   name_key p <> [] /\
                   (fuzzy_threshold <= best_similarity (name_key p) names)%Q).
  { unfold rule_fuzzy, pystr_eqb. rewrite andb_true_iff, negb_true_iff, Qle_bool_iff.
    rewrite bool_decide_eq_false. tauto. }
  assert (Hatt : best_similarity (name_key p) names = 0%Q \/
                 exists q, q ∈ target /\ name_key q <> [] /\
                   best_similarity (name_key p) names = similar (name_key p) (name_key q)).
  { destruct Hattained as [H0|(cand & Hc & Hb)]; [by left |].
    apply Hnames in Hc as (q & Hq & <- & Hne). right. by exists q. }
  assert (Hmax' : forall q, q ∈ target -> name_key q <> [] ->
             (similar (name_key p) (name_key q) <= best_similarity (name_key p) names)%Q).
  { intros q Hq Hne. apply Hmax, Hnames. by exists q. }
  split; [apply is_found_rules |]. split; [| split; [| split; [done | split; [done | split; [done |]]]]].
  - unfold rule_id, pystr_eqb. destruct (tid_text p) as [s|]; split.
    + rewrite andb_true_iff, negb_true_iff, bool_decide_eq_false, bool_decide_eq_true.
      intros [Hne Hin]. apply Hids in Hin as (q & Hq & Hs). by exists s, q.
    + intros (s' & q & [= <-] & Hne & Hq & Hs).
      rewrite andb_true_iff, negb_true_iff, bool_decide_eq_false, bool_decide_eq_true.
      split; [done |]. apply Hids. by exists q.
    + done.
    + by intros (s' & q & ? & _).
  - unfold rule_name, pystr_eqb.
    rewrite andb_true_iff, negb_true_iff, bool_decide_eq_false, bool_decide_eq_true.
    rewrite Hnames. split.
    + intros [Hne (q & Hq & Hk & _)]. split; [done | by exists q].
    + intros [Hne (q & Hq & Hk)]. split; [done | by exists q].
  - intros Hpos. rewrite Hfuzzy. split; intros [Hne H]; (split; [done |]).
    + destruct Hatt as [H0|(q & Hq & Hqne & Hb)].
      * rewrite H0 in H. exfalso. by apply (Qlt_not_le _ _ Hpos).
      * exists q. by rewrite <- Hb.
    + destruct H as (q & Hq & Hqne & Hle). eapply Qle_trans; [exact Hle |]. by apply Hmax'.
Qed.

Lemma is_found_empty_target (fuzzy_threshold : Q) (p : record) :
  (0 < fuzzy_threshold)%Q -> is_found ∅ ∅ fuzzy_threshold p = false.
Proof.
  intros Hpos. rewrite is_found_rules.
  assert (H1 : rule_id ∅ p = false).
  { unfold rule_id. destruct (tid_text p); [| done]. by rewrite andb_false_r. }
  assert (H2 : rule_name ∅ p = false).
  { unfold rule_name. by rewrite andb_false_r. }
  assert (H3 : rule_fuzzy ∅ fuzzy_threshold p = false).
  { unfold rule_fuzzy, best_similarity. rewrite elements_empty. simpl.
    apply andb_false_iff. right. apply not_true_iff_false. rewrite Qle_bool_iff.
    by apply Qlt_not_le. }
  by rewrite H1, H2, H3.
Qed.

End FoundRules.

(** C3, as stated, fails: a source record whose identifier is the empty
    string (held by the last alias) has its identifier text among the
    target's identifier texts when the target holds the same record, yet
    it is not found. *)
Lemma found_not_by_empty_identifier :
  let p : record := [(lit "transfermarkt", VStr [])] in
  let ids := fst (@build_target_lookup fragment [p]) in
  let names := snd (@build_target_lookup fragment [p]) in
  @tid_text fragment p = Some [] /\
  @spec_rule_id fragment ids p = true /\
  @is_found fragment ids names (9 # 10) p = false.
Proof. vm_compute. done. Qed.

Lemma found_iff_rules_witness :
  let target : list record := [[(lit "name", VStr (lit "John Smith"))]] in
  let p : record := [(lit "name", VStr (lit "John Smyth"))] in
  (0 < 9 # 10)%Q /\
  (@rule_fuzzy fragment (snd (@build_target_lookup fragment target)) (9 # 10) p = true <->
   @name_key fragment p <> [] /\
   exists q, q ∈ target /\ @name_key fragment q <> [] /\
             (9 # 10 <= similar (@name_key fragment p) (@name_key fragment q))%Q).
Proof.
  intros target p. split; [done |].
  apply (@found_iff_rules fragment target (9 # 10) p). done.
Defined.
(** ** Buckets *)

Lemma elem_of_map {A B} (f : A -> B) (l : list A) (y : B) :
  y ∈ List.map f l <-> exists x, y = f x /\ x ∈ l.
Proof.
  rewrite list_elem_of_In, in_map_iff. split; intros (x & H1 & H2); exists x.
  - by rewrite list_elem_of_In.
  - by rewrite <- list_elem_of_In.
Qed.

Section BucketLemmas.
Context {A : Type}.
Implicit Types (d : list (pystr * list A)) (k : pystr) (x : A).

Lemma pystr_eqb_true (s t : pystr) : pystr_eqb s t = true <-> s = t.
Proof. unfold pystr_eqb. apply bool_decide_eq_true. Qed.

Lemma pystr_eqb_false (s t : pystr) : pystr_eqb s t = false <-> s <> t.
Proof. unfold pystr_eqb. apply bool_decide_eq_false. Qed.

Lemma pystr_eqb_refl (s : pystr) : pystr_eqb s s = true.
Proof. by apply pystr_eqb_true. Qed.

Lemma setdefault_append_keys k x d :
  List.map fst (setdefault_append k x d) =
  if bool_decide (k ∈ List.map fst d) then List.map fst d else List.map fst d ++ [k].
Proof.
  induction d as [|[k' l] d IH]; simpl.
  - done.
  - destruct (pystr_eqb k' k) eqn:E.
    + apply pystr_eqb_true in E as ->. rewrite bool_decide_eq_true_2; [done | by left].
    + apply pystr_eqb_false in E. simpl. rewrite IH.
      destruct (bool_decide (k ∈ List.map fst d)) eqn:E2.
      * apply bool_decide_eq_true in E2. rewrite bool_decide_eq_true_2; [done | by right].
      * apply bool_decide_eq_false in E2. rewrite bool_decide_eq_false_2; [done |].
        intros H. apply elem_of_cons in H as [-> |H]; done.
Qed.

Lemma bucket_setdefault_append k x d k' :
  bucket (setdefault_append k x d) k' =
  if pystr_eqb k k' then bucket d k ++ [x] else bucket d k'.
Proof.
  induction d as [|[k0 l] d IH]; simpl.
  - destruct (pystr_eqb k k'); done.
  - destruct (pystr_eqb k0 k) eqn:E; simpl.
    + apply pystr_eqb_true in E as ->. by destruct (pystr_eqb k k').
    + rewrite IH. destruct (pystr_eqb k0 k') eqn:E2; [| done].
      apply pystr_eqb_true in E2 as ->.
      destruct (pystr_eqb k k') eqn:E3; [| done].
      apply pystr_eqb_true in E3 as ->. by rewrite pystr_eqb_refl in E.
Qed.

Lemma bucket_elem d k l :
  NoDup (List.map fst d) -> (k, l) ∈ d -> bucket d k = l.
Proof.
  induction d as [|[k0 l0] d IH]; simpl; intros Hnd Hin.
  - by apply elem_of_nil in Hin.
  - apply NoDup_cons in Hnd as [Hnot Hnd].
    apply elem_of_cons in Hin as [[= -> ->]|Hin].
    + by rewrite pystr_eqb_refl.
    + destruct (pystr_eqb k0 k) eqn:E; [| by apply IH].
      apply pystr_eqb_true in E as ->. exfalso. apply Hnot.
      apply elem_of_map. by exists (k, l).
Qed.

Lemma elem_bucket d k :
  k ∈ List.map fst d -> (k, bucket d k) ∈ d.
Proof.
  induction d as [|[k0 l0] d IH]; simpl; intros Hin.
  - by apply elem_of_nil in Hin.
  - destruct (pystr_eqb k0 k) eqn:E.
    + apply pystr_eqb_true in E as ->. by left.
    + apply pystr_eqb_false in E. apply elem_of_cons in Hin as [-> |Hin]; [done |].
      right. by apply IH.
Qed.

Lemma setdefault_append_NoDup k x d :
  NoDup (List.map fst d) -> NoDup (List.map fst (setdefault_append k x d)).
Proof.
  intros Hnd. rewrite setdefault_append_keys. case_bool_decide as E; [done |].
  apply NoDup_app. split; [done |]. split; [| apply NoDup_singleton].
  intros k' Hk' Hk. apply list_elem_of_singleton in Hk as ->. done.
Qed.

Section Register.
Variable keysof : A -> list pystr.

Lemma register_fold_NoDup ks x d :
  NoDup (List.map fst d) ->
  NoDup (List.map fst (fold_left (fun d k => setdefault_append k x d) ks d)).
Proof.
  revert d. induction ks as [|k ks IH]; intros d Hnd; simpl; [done |].
  by apply IH, setdefault_append_NoDup.
Qed.

Lemma register_fold_bucket ks x d k' :
  NoDup ks ->
  bucket (fold_left (fun d k => setdefault_append k x d) ks d) k' =
  if bool_decide (k' ∈ ks) then bucket d k' ++ [x] else bucket d k'.
Proof.
  revert d. induction ks as [|k ks IH]; intros d Hnd; simpl; [done |].
  apply NoDup_cons in Hnd as [Hnot Hnd].
  rewrite IH by done. rewrite bucket_setdefault_append.
  destruct (pystr_eqb k k') eqn:E.
  - apply pystr_eqb_true in E as ->.
    rewrite bool_decide_eq_false_2 by done.
    rewrite bool_decide_eq_true_2; [done | by left].
  - apply pystr_eqb_false in E.
    destruct (bool_decide (k' ∈ ks)) eqn:E2.
    + apply bool_decide_eq_true in E2. rewrite bool_decide_eq_true_2; [done | by right].
    + apply bool_decide_eq_false in E2. rewrite bool_decide_eq_false_2; [done |].
      intros H. apply elem_of_cons in H as [-> |H]; done.
Qed.

Lemma register_fold_keys ks x d k' :
  k' ∈ List.map fst (fold_left (fun d k => setdefault_append k x d) ks d) <->
  k' ∈ List.map fst d \/ k' ∈ ks.
Proof.
  revert d. induction ks as [|k ks IH]; intros d; simpl.
  - split; [by left | intros [?|H]; [done | by apply elem_of_nil in H]].
  - rewrite IH, setdefault_append_keys. case_bool_decide as E.
    + split; [intros [?|?]; [by left | by right; right] |].
      intros [?|H]; [by left |]. apply elem_of_cons in H as [-> |H]; [by left | by right].
    + rewrite elem_of_app, list_elem_of_singleton. split.
      * intros [[? | ->] | ?]; [by left | by right; left | by right; right].
      * intros [?|H]; [by left; left |].
        apply elem_of_cons in H as [-> |H]; [by left; right | by right].
Qed.

(** Keys are only ever added at the end. *)
Lemma register_fold_keys_prefix ks x d :
  exists more,
    List.map fst (fold_left (fun d k => setdefault_append k x d) ks d) =
    List.map fst d ++ more.
Proof.
  revert d. induction ks as [|k ks IH]; intros d; simpl.
  - exists []. by rewrite app_nil_r.
  - destruct (IH (setdefault_append k x d)) as [more Hmore]. rewrite Hmore.
    rewrite setdefault_append_keys. case_bool_decide.
    + by exists more.
    + exists ([k] ++ more). by rewrite app_assoc.
Qed.

Hypothesis keysof_NoDup : forall x, NoDup (keysof x).

Lemma register_all_from_NoDup xs d :
  NoDup (List.map fst d) -> NoDup (List.map fst (fold_left (register keysof) xs d)).
Proof.
  revert d. induction xs as [|x xs IH]; intros d Hnd; simpl; [done |].
  apply IH. by apply register_fold_NoDup.
Qed.

Lemma register_all_from_bucket xs d k :
  bucket (fold_left (register keysof) xs d) k =
  bucket d k ++ List.filter (has_key keysof k) xs.
Proof.
  revert d. induction xs as [|x xs IH]; intros d; simpl.
  - by rewrite app_nil_r.
  - rewrite IH. unfold register. rewrite register_fold_bucket by done.
    unfold has_key. destruct (bool_decide (k ∈ keysof x)); [| done].
    by rewrite <- app_assoc.
Qed.

Lemma register_all_from_keys xs d k :
  k ∈ List.map fst (fold_left (register keysof) xs d) <->
  k ∈ List.map fst d \/ exists x, x ∈ xs /\ k ∈ keysof x.
Proof.
  revert d. induction xs as [|x xs IH]; intros d; simpl.
  - split; [by left | intros [?|(? & H & _)]; [done | by apply elem_of_nil in H]].
  - rewrite IH. unfold register. rewrite register_fold_keys. split.
    + intros [[?|?]|(y & Hy & Hk)]; [by left | right; exists x | right; exists y].
      * split; [by left | done].
      * split; [by right | done].
    + intros [?|(y & Hy & Hk)]; [by left; left |].
      apply elem_of_cons in Hy as [-> |Hy]; [by left; right |].
      right. by exists y.
Qed.

Lemma register_all_from_keys_prefix xs d :
  exists more,
    List.map fst (fold_left (register keysof) xs d) = List.map fst d ++ more.
Proof.
  revert d. induction xs as [|x xs IH]; intros d; simpl.
  - exists []. by rewrite app_nil_r.
  - destruct (IH (register keysof d x)) as [more Hmore]. rewrite Hmore.
    destruct (register_fold_keys_prefix (keysof x) x d) as [more' Hmore'].
    unfold register. rewrite Hmore'. exists (more' ++ more). by rewrite app_assoc.
Qed.

Lemma register_all_NoDup xs : NoDup (List.map fst (register_all keysof xs)).
Proof. apply register_all_from_NoDup. constructor. Qed.

(** A bucket holds, in order, the elements filed under its key. *)
Lemma register_all_bucket xs k :
  bucket (register_all keysof xs) k = List.filter (has_key keysof k) xs.
Proof. unfold register_all. by rewrite register_all_from_bucket. Qed.

Lemma register_all_elem xs k l :
  (k, l) ∈ register_all keysof xs ->
  l = List.filter (has_key keysof k) xs /\ exists x, x ∈ xs /\ k ∈ keysof x.
Proof.
  intros Hin. split.
  - rewrite <- register_all_bucket. symmetry. apply bucket_elem; [| done].
    apply register_all_NoDup.
  - assert (Hk : k ∈ List.map fst (register_all keysof xs)).
    { apply elem_of_map. by exists (k, l). }
    apply register_all_from_keys in Hk as [Hk|Hk]; [by apply elem_of_nil in Hk | done].
Qed.

End Register.
End BucketLemmas.
(** ** GroupBuilder: the signature loops *)

Section SignatureLoops.
Context {U : UnicodeData}.

Lemma sorted_tuples_length (l : list (pystr * nat)) :
  length (sorted_tuples l) = length l.
Proof. unfold sorted_tuples. apply Permutation_length, merge_sort_Permutation. Qed.

Lemma sorted_nat_length (l : list nat) : length (sorted_nat l) = length l.
Proof. unfold sorted_nat. apply Permutation_length, merge_sort_Permutation. Qed.

Lemma signature_length (occ : list occurrence) : length (signature occ) = length occ.
Proof. unfold signature. by rewrite sorted_tuples_length, length_map. Qed.

Lemma new_group_signature (k : pystr) (occ : list occurrence) :
  group_signature (new_group k occ) = signature occ.
Proof.
  unfold group_signature, signature, new_group. simpl. by rewrite map_map.
Qed.

Lemma append_key_signature (k : pystr) (g : common_group) :
  group_signature (append_key k g) = group_signature g.
Proof. done. Qed.

Lemma filter_snoc {A} (f : A -> bool) (l : list A) (x : A) :
  List.filter f (l ++ [x]) = List.filter f l ++ (if f x then [x] else []).
Proof. rewrite List.filter_app. simpl. by destruct (f x). Qed.

Lemma filter_none {A} (f : A -> bool) (l : list A) :
  (forall x, x ∈ l -> f x = false) -> List.filter f l = [].
Proof.
  induction l as [|x l IH]; intros H; simpl; [done |].
  rewrite (H x) by (by left). apply IH. intros y Hy. apply H. by right.
Qed.

Lemma merge_state_snoc (pre : list (pystr * list occurrence)) (ko : pystr * list occurrence) :
  merge_state (pre ++ [ko]) = merge_bucket (merge_state pre) ko.
Proof. unfold merge_state. by rewrite fold_left_app. Qed.

Lemma merge_inv_empty : merge_inv [] [] ∅.
Proof.
  split.
  - intros sig pos. rewrite lookup_empty. split; [done |]. by intros (g & Hg & _).
  - constructor.
  - intros pos g Hg. done.
  - intros k occ Hin. by apply elem_of_nil in Hin.
Qed.

Lemma elem_of_map_signature (groups : list common_group) (sig : list (pystr * nat)) :
  sig ∈ List.map group_signature groups <->
  exists pos g, groups !! pos = Some g /\ group_signature g = sig.
Proof.
  rewrite elem_of_map. split.
  - intros (g & -> & Hg). apply list_elem_of_lookup in Hg as [pos Hpos]. by exists pos, g.
  - intros (pos & g & Hpos & <-). exists g. split; [done |].
    apply list_elem_of_lookup. by exists pos.
Qed.

Lemma merge_inv_step (pre : list (pystr * list occurrence))
    (groups : list common_group) (seen : gmap (list (pystr * nat)) nat)
    (ko : pystr * list occurrence) :
  merge_inv pre groups seen ->
  merge_inv (pre ++ [ko]) (fst (merge_bucket (groups, seen) ko))
            (snd (merge_bucket (groups, seen) ko)).
Proof.
  intros [Hseen Huniq Hgroups Hcomplete]. destruct ko as [k occ].
  unfold merge_bucket. rewrite signature_length.
  destruct (Nat.leb (length occ) 1) eqn:Hlen.
  { (* a bucket of at most one occurrence is passed over *)
    apply Nat.leb_le in Hlen. simpl. split; [done | done | |].
    - intros pos g Hg. destruct (Hgroups pos g Hg) as (H1 & H2 & H3 & k0 & occ0 & H4 & H5).
      split; [done |]. split; [done |]. split.
      + rewrite filter_snoc. unfold same_signature at 2. simpl.
        replace (Nat.ltb 1 (length occ)) with false
          by (symmetry; apply Nat.ltb_ge; lia).
        simpl. by rewrite app_nil_r.
      + exists k0, occ0. split; [| done]. apply elem_of_app. by left.
    - intros k' occ' Hin Hlen'. apply elem_of_app in Hin as [Hin|Hin].
      + by eapply Hcomplete.
      + apply list_elem_of_singleton in Hin as [= -> ->]. lia. }
  apply Nat.leb_gt in Hlen.
  destruct (seen !! signature occ) as [pos|] eqn:Hlook; simpl.
  - (* the signature has produced a group: the key joins it *)
    apply Hseen in Hlook as (g0 & Hg0 & Hsig0).
    assert (Hpos : pos < length groups) by (by eapply lookup_lt_Some).
    split.
    + intros sig pos'. rewrite Hseen. split.
      * intros (g & Hg & Hsig). destruct (decide (pos' = pos)) as [->|Hne].
        -- exists (append_key k g). rewrite list_lookup_alter_eq, Hg. done.
        -- exists g. by rewrite list_lookup_alter_ne.
      * intros (g & Hg & Hsig). destruct (decide (pos' = pos)) as [->|Hne].
        -- rewrite list_lookup_alter_eq, Hg0 in Hg. injection Hg as <-. by exists g0.
        -- rewrite list_lookup_alter_ne in Hg by done. by exists g.
    + replace (List.map group_signature (alter (append_key k) pos groups))
        with (List.map group_signature groups); [done |].
      apply list_eq. intros i. rewrite !list_lookup_fmap.
      destruct (decide (i = pos)) as [->|Hne].
      * rewrite list_lookup_alter_eq, Hg0. done.
      * by rewrite list_lookup_alter_ne.
    + intros pos' g Hg. destruct (decide (pos' = pos)) as [->|Hne].
      * rewrite list_lookup_alter_eq, Hg0 in Hg. injection Hg as <-.
        destruct (Hgroups pos g0 Hg0) as (H1 & H2 & H3 & k0 & occ0 & H4 & H5).
        split; [done |]. split; [done |]. split.
        -- rewrite append_key_signature, filter_snoc. unfold same_signature at 2. simpl.
           replace (Nat.ltb 1 (length occ)) with true
             by (symmetry; apply Nat.ltb_lt; lia).
           rewrite bool_decide_eq_true_2 by done. simpl.
           by rewrite map_app, <- H3.
        -- exists k0, occ0. split; [apply elem_of_app; by left |].
           simpl. rewrite H5 at 1. done.
      * rewrite list_lookup_alter_ne in Hg by done.
        destruct (Hgroups pos' g Hg) as (H1 & H2 & H3 & k0 & occ0 & H4 & H5).
        split; [done |]. split; [done |]. split.
        -- rewrite filter_snoc. unfold same_signature at 2. simpl.
           rewrite bool_decide_eq_false_2.
           ++ rewrite andb_false_r. simpl. by rewrite app_nil_r.
           ++ intros Heq. apply Hne.
              eapply (NoDup_lookup (List.map group_signature groups)); [done | |].
              ** rewrite list_lookup_fmap, Hg. simpl. by rewrite <- Heq.
              ** rewrite list_lookup_fmap, Hg0. simpl. by rewrite Hsig0.
        -- exists k0, occ0. split; [apply elem_of_app; by left | done].
    + intros k' occ' Hin Hlen'.
      replace (List.map group_signature (alter (append_key k) pos groups))
        with (List.map group_signature groups).
      * apply elem_of_app in Hin as [Hin|Hin]; [by eapply Hcomplete |].
        apply list_elem_of_singleton in Hin as [= -> ->].
        apply elem_of_map_signature. by exists pos, g0.
      * apply list_eq. intros i. rewrite !list_lookup_fmap.
        destruct (decide (i = pos)) as [->|Hne].
        -- rewrite list_lookup_alter_eq, Hg0. done.
        -- by rewrite list_lookup_alter_ne.
  - (* a new signature: a new group *)
    assert (Hfresh : signature occ ∉ List.map group_signature groups).
    { intros Hin. apply elem_of_map_signature in Hin as (pos & g & Hg & Hsig).
      assert (seen !! signature occ = Some pos) as Hs by (apply Hseen; by exists g).
      congruence. }
    split.
    + intros sig pos. destruct (decide (sig = signature occ)) as [->|Hne].
      * rewrite lookup_insert_eq. split.
        -- intros [= <-]. exists (new_group k occ).
           rewrite lookup_app_r, Nat.sub_diag by lia. split; [done |].
           apply new_group_signature.
        -- intros (g & Hg & Hsig). destruct (decide (pos < length groups)) as [Hlt|Hge].
           ++ rewrite lookup_app_l in Hg by done. exfalso. apply Hfresh.
              apply elem_of_map_signature. by exists pos, g.
           ++ rewrite lookup_app_r in Hg by lia.
              destruct (pos - length groups) as [|n] eqn:E; [| by destruct n].
              f_equal. lia.
      * rewrite lookup_insert_ne by done. rewrite Hseen. split.
        -- intros (g & Hg & Hsig). exists g. split; [| done].
           rewrite lookup_app_l; [done | by eapply lookup_lt_Some].
        -- intros (g & Hg & Hsig). exists g. split; [| done].
           destruct (decide (pos < length groups)) as [Hlt|Hge].
           ++ by rewrite lookup_app_l in Hg.
           ++ rewrite lookup_app_r in Hg by lia.
              destruct (pos - length groups) as [|n] eqn:E; [| by destruct n].
              injection Hg as <-. rewrite new_group_signature in Hsig. done.
    + rewrite map_app. simpl. apply NoDup_app. split; [done |]. split.
      * intros sig Hin Hin'. apply list_elem_of_singleton in Hin'.
        rewrite Hin', new_group_signature in Hin. done.
      * apply NoDup_singleton.
    + intros pos g Hg. destruct (decide (pos < length groups)) as [Hlt|Hge].
      * rewrite lookup_app_l in Hg by done.
        destruct (Hgroups pos g Hg) as (H1 & H2 & H3 & k0 & occ0 & H4 & H5).
        split; [done |]. split; [done |]. split.
        -- rewrite filter_snoc. unfold same_signature at 2. simpl.
           rewrite bool_decide_eq_false_2.
           ++ rewrite andb_false_r. simpl. by rewrite app_nil_r.
           ++ intros Heq. apply Hfresh. apply elem_of_map_signature. by exists pos, g.
        -- exists k0, occ0. split; [apply elem_of_app; by left | done].
      * rewrite lookup_app_r in Hg by lia.
        destruct (pos - length groups) as [|n] eqn:E; [| by destruct n].
        injection Hg as <-. split; [simpl; rewrite length_map; lia |].
        split; [simpl; by rewrite length_map |]. split.
        -- rewrite new_group_signature, filter_snoc. unfold same_signature at 2. simpl.
           replace (Nat.ltb 1 (length occ)) with true
             by (symmetry; apply Nat.ltb_lt; lia).
           rewrite bool_decide_eq_true_2 by done. simpl.
           replace (List.filter (same_signature (signature occ)) pre) with (@nil (pystr * list occurrence)); [done |].
           symmetry. apply filter_none. intros [k' occ'] Hin.
           unfold same_signature. simpl.
           destruct (Nat.ltb 1 (length occ')) eqn:Hl; [| done]. simpl.
           apply Nat.ltb_lt in Hl. apply bool_decide_eq_false. intros Heq.
           apply Hfresh. rewrite <- Heq. eapply Hcomplete; [done | lia].
        -- exists k, occ. split; [apply elem_of_app; right; by left | done].
    + intros k' occ' Hin Hlen'. rewrite map_app. apply elem_of_app.
      apply elem_of_app in Hin as [Hin|Hin]; [left; by eapply Hcomplete |].
      apply list_elem_of_singleton in Hin as [= -> ->]. right. simpl.
      rewrite new_group_signature. by left.
Qed.

Lemma merge_state_inv (pre : list (pystr * list occurrence)) :
  merge_inv pre (fst (merge_state pre)) (snd (merge_state pre)).
Proof.
  induction pre as [|ko pre IH] using rev_ind.
  - apply merge_inv_empty.
  - rewrite merge_state_snoc. destruct (merge_state pre) as [groups seen].
    by apply merge_inv_step.
Qed.

Lemma collect_state_snoc (pre : list (pystr * list item)) (kl : pystr * list item) :
  collect_state (pre ++ [kl]) = collect_group (collect_state pre) kl.
Proof. unfold collect_state. by rewrite fold_left_app. Qed.

Lemma head_app_Some {A} (l1 l2 : list A) (x : A) :
  head l1 = Some x -> head (l1 ++ l2) = Some x.
Proof. by destruct l1. Qed.

Lemma collect_inv_step (pre : list (pystr * list item))
    (groups : list dup_group) (seen : gset (list nat)) (kl : pystr * list item) :
  collect_inv pre groups seen ->
  collect_inv (pre ++ [kl]) (fst (collect_group (groups, seen) kl))
              (snd (collect_group (groups, seen) kl)).
Proof.
  intros [Hseen Huniq Hgroups Hcomplete]. destruct kl as [k lst].
  unfold collect_group.
  destruct (Nat.ltb 1 (length lst)) eqn:Hlen.
  2: { (* a bucket of at most one item is passed over *)
    apply Nat.ltb_ge in Hlen. simpl. split; [done | done | |].
    - intros g Hg. destruct (Hgroups g Hg) as (H1 & H2 & lst0 & H3 & H4).
      split; [done |]. split.
      + rewrite filter_snoc. unfold same_member_ids at 2. simpl.
        replace (Nat.ltb 1 (length lst)) with false
          by (symmetry; apply Nat.ltb_ge; lia).
        simpl. by rewrite app_nil_r.
      + exists lst0. split; [| done]. apply elem_of_app. by left.
    - intros k' lst' Hin Hlen'. apply elem_of_app in Hin as [Hin|Hin].
      + by eapply Hcomplete.
      + apply list_elem_of_singleton in Hin as [= -> ->]. lia. }
  apply Nat.ltb_lt in Hlen.
  set (ids := sorted_nat (List.map item_index lst)).
  case_bool_decide as Hin; simpl.
  - (* the member ids were seen: the bucket is skipped *)
    split; [done | done | |].
    + intros g Hg. destruct (Hgroups g Hg) as (H1 & H2 & lst0 & H3 & H4).
      split; [done |]. split.
      * rewrite filter_snoc, map_app. by apply head_app_Some.
      * exists lst0. split; [| done]. apply elem_of_app. by left.
    + intros k' lst' Hin' Hlen'. apply elem_of_app in Hin' as [Hin'|Hin'].
      * by eapply Hcomplete.
      * apply list_elem_of_singleton in Hin' as [= -> ->]. by apply Hseen.
  - (* new member ids: a new group *)
    assert (Hfresh : ids ∉ List.map member_ids groups) by (by rewrite <- Hseen).
    split.
    + intros m. rewrite elem_of_union, elem_of_singleton, map_app, elem_of_app, Hseen.
      simpl. by rewrite list_elem_of_singleton.
    + rewrite map_app. simpl. apply NoDup_app. split; [done |]. split.
      * intros m Hm Hm'. apply list_elem_of_singleton in Hm'. by subst m.
      * apply NoDup_singleton.
    + intros g Hg. apply elem_of_app in Hg as [Hg|Hg].
      * destruct (Hgroups g Hg) as (H1 & H2 & lst0 & H3 & H4).
        split; [done |]. split.
        -- rewrite filter_snoc, map_app. by apply head_app_Some.
        -- exists lst0. split; [| done]. apply elem_of_app. by left.
      * apply list_elem_of_singleton in Hg as ->. simpl.
        split; [rewrite length_map; lia |]. split.
        -- rewrite filter_snoc. unfold member_ids. simpl. fold ids.
           unfold same_member_ids at 2. simpl. fold ids.
           replace (Nat.ltb 1 (length lst)) with true
             by (symmetry; apply Nat.ltb_lt; lia).
           rewrite bool_decide_eq_true_2 by done. simpl.
           replace (List.filter (same_member_ids ids) pre)
             with (@nil (pystr * list item)); [done |].
           symmetry. apply filter_none. intros [k' lst'] Hin'.
           unfold same_member_ids. simpl.
           destruct (Nat.ltb 1 (length lst')) eqn:Hl; [| done]. simpl.
           apply Nat.ltb_lt in Hl. apply bool_decide_eq_false. intros Heq.
           apply Hfresh. rewrite <- Heq. eapply Hcomplete; [done | lia].
        -- exists lst. split; [| done]. apply elem_of_app. right. by left.
    + intros k' lst' Hin' Hlen'. rewrite map_app. apply elem_of_app.
      apply elem_of_app in Hin' as [Hin'|Hin']; [left; by eapply Hcomplete |].
      apply list_elem_of_singleton in Hin' as [= -> ->]. right. by left.
Qed.

Lemma collect_state_inv (pre : list (pystr * list item)) :
  collect_inv pre (fst (collect_state pre)) (snd (collect_state pre)).
Proof.
  induction pre as [|kl pre IH] using rev_ind.
  - split.
    + intros ids. split; intros H; [by apply elem_of_empty in H | by apply elem_of_nil in H].
    + constructor.
    + intros g Hg. by apply elem_of_nil in Hg.
    + intros k lst Hin. by apply elem_of_nil in Hin.
  - rewrite collect_state_snoc. destruct (collect_state pre) as [groups seen].
    by apply collect_inv_step.
Qed.

End SignatureLoops.

Section GroupBuilder.
Context {U : UnicodeData}.

Lemma key_for_player_NoDup (p : record) : NoDup (key_for_player p).
Proof.
  rewrite key_for_player_parts. unfold id_keys, name_keys.
  destruct (is_none (resolve_tid p)), (pystr_eqb (name_key p) []); simpl;
    repeat constructor; try (by intros H; apply elem_of_nil in H).
  intros H. apply list_elem_of_singleton in H. discriminate.
Qed.

Lemma item_keys_NoDup (it : item) : NoDup (item_keys it).
Proof.
  unfold item_keys. pose proof (key_for_player_NoDup (item_player it)) as H.
  destruct (key_for_player (item_player it)); [apply NoDup_singleton | done].
Qed.

Lemma occurrence_keys_NoDup (o : occurrence) : NoDup (occurrence_keys o).
Proof.
  unfold occurrence_keys. rewrite canonical_keys_key_for_player.
  pose proof (key_for_player_NoDup (occ_player o)) as H.
  destruct (key_for_player (occ_player o)); [apply NoDup_singleton | done].
Qed.

Lemma fold_left_map {A B C} (f : A -> C -> A) (g : B -> C) (l : list B) (a : A) :
  fold_left f (List.map g l) a = fold_left (fun a x => f a (g x)) l a.
Proof. revert a. induction l as [|x l IH]; intros a; simpl; [done | apply IH]. Qed.

Lemma fold_left_ext_eq {A B} (f g : A -> B -> A) (l : list B) (a : A) :
  (forall a x, f a x = g a x) -> fold_left f l a = fold_left g l a.
Proof.
  intros H. revert a. induction l as [|x l IH]; intros a; simpl; [done |].
  by rewrite H, IH.
Qed.

Lemma build_by_key_register (players : list record) :
  build_by_key players = register_all item_keys (List.map to_item (enumerate players)).
Proof.
  unfold build_by_key, register_all. rewrite fold_left_map.
  apply fold_left_ext_eq. intros d [idx p].
  unfold register_player, register, item_keys, to_item. simpl.
  by destruct (key_for_player p).
Qed.

Lemma build_groups_map_register (combined : list occurrence) :
  build_groups_map combined = register_all occurrence_keys combined.
Proof.
  unfold build_groups_map, register_all.
  apply fold_left_ext_eq. intros d o.
  unfold register_occurrence, register, occurrence_keys.
  by destruct (canonical_keys (occ_player o)).
Qed.

(** C2, as amended: for any buckets, neither loop emits two groups with
    the same signature and every emitted group has at least two
    occurrences; every bucket of two or more occurrences is represented
    by the group of its signature.  In [find_common_groups] the keys of a
    group are the keys of all the buckets with its signature, in order: a
    later bucket with the signature of an emitted group adds its key to
    that group.  In [find_duplicates] a group carries the key of the
    first bucket with its member ids only: a later bucket with the same
    member ids is skipped and its key is not recorded. *)
Theorem dedupe_by_signature_spec
    (groups_map : list (pystr * list occurrence)) (by_key : list (pystr * list item)) :
  let final_groups := merge_buckets groups_map in
  let groups := collect_groups by_key in
  (NoDup (List.map group_signature final_groups) /\
   (forall g, g ∈ final_groups ->
      2 <= length (occurrences g) /\
      keys g = List.map fst (List.filter (same_signature (group_signature g)) groups_map)) /\
   (forall k occ, (k, occ) ∈ groups_map -> 2 <= length occ ->
      exists g, g ∈ final_groups /\ group_signature g = signature occ /\ k ∈ keys g)) /\
  (NoDup (List.map member_ids groups) /\
   (forall g, g ∈ groups ->
      2 <= length (indices g) /\
      head (List.map fst (List.filter (same_member_ids (member_ids g)) by_key))
        = Some (key g)) /\
   (forall k lst, (k, lst) ∈ by_key -> 2 <= length lst ->
      exists g, g ∈ groups /\ member_ids g = sorted_nat (List.map item_index lst))).
Proof.
  intros final_groups groups. split.
  - destruct (merge_state_inv groups_map) as [Hseen Huniq Hgroups Hcomplete].
    fold (merge_buckets groups_map) in *. fold final_groups in Huniq, Hgroups, Hcomplete.
    split; [done |]. split.
    + intros g Hg. apply list_elem_of_lookup in Hg as [pos Hpos].
      destruct (Hgroups pos g Hpos) as (H1 & _ & H3 & _). done.
    + intros k occ Hin Hlen.
      pose proof (Hcomplete k occ Hin Hlen) as Hsig.
      apply elem_of_map_signature in Hsig as (pos & g & Hpos & Hsig).
      exists g. split; [apply list_elem_of_lookup; by exists pos |]. split; [done |].
      destruct (Hgroups pos g Hpos) as (_ & _ & H3 & _). rewrite H3.
      apply elem_of_map. exists (k, occ). split; [done |].
      apply list_elem_of_In, filter_In. split; [by apply list_elem_of_In |].
      unfold same_signature. simpl. rewrite bool_decide_eq_true_2 by done.
      rewrite andb_true_r. apply Nat.ltb_lt. lia.
  - destruct (collect_state_inv by_key) as [Hseen Huniq Hgroups Hcomplete].
    fold (collect_groups by_key) in *. fold groups in Huniq, Hgroups, Hcomplete.
    split; [done |]. split.
    + intros g Hg. destruct (Hgroups g Hg) as (H1 & H2 & _). done.
    + intros k lst Hin Hlen.
      pose proof (Hcomplete k lst Hin Hlen) as Hids.
      apply elem_of_map in Hids as (g & Hids & Hg). by exists g.
Qed.

End GroupBuilder.

(** C2, as stated, fails for [find_duplicates]: two records sharing
    identifier and name give two buckets with the same member ids; one
    group comes out, under the identifier key, and the name key of the
    second bucket is recorded nowhere. *)
Lemma find_duplicates_drops_key :
  let by_key := @build_by_key fragment two_jon_smiths in
  List.map fst by_key = [lit "tid::42"; lit "name::jon smith"] /\
  List.map (fun kl => sorted_nat (List.map item_index (snd kl))) by_key = [[0; 1]; [0; 1]] /\
  List.map key (@find_duplicates fragment two_jon_smiths) = [lit "tid::42"] /\
  List.map keys (@find_common_groups fragment two_jon_smiths []) =
    [[lit "tid::42"; lit "name::jon smith"]].
Proof. vm_compute. done. Qed.

Lemma dedupe_by_signature_spec_witness :
  NoDup (List.map group_signature (@find_common_groups fragment two_jon_smiths [])) /\
  NoDup (List.map member_ids (@find_duplicates fragment two_jon_smiths)).
Proof.
  pose proof (dedupe_by_signature_spec
                (@build_groups_map fragment (combine_datasets two_jon_smiths []))
                (@build_by_key fragment two_jon_smiths)) as [[H1 _] [H2 _]].
  split; [exact H1 | exact H2].
Defined.
(** ** Positions and fallback keys *)

Section Enumerate.
Context {A : Type}.

Lemma enumerate_from_lookup (i : nat) (l : list A) (n : nat) :
  enumerate_from i l !! n = (fun x => (i + n, x)) <$> l !! n.
Proof.
  revert i n. induction l as [|x l IH]; intros i n; simpl; [done |].
  destruct n as [|n]; simpl.
  - by rewrite Nat.add_0_r.
  - rewrite IH. by replace (S i + n) with (i + S n) by lia.
Qed.

Lemma elem_of_enumerate (l : list A) (i : nat) (x : A) :
  (i, x) ∈ enumerate l <-> l !! i = Some x.
Proof.
  unfold enumerate. rewrite list_elem_of_lookup. split.
  - intros [n Hn]. rewrite enumerate_from_lookup in Hn.
    destruct (l !! n) as [y|] eqn:E; simpl in Hn; [| done].
    by injection Hn as <- <-.
  - intros H. exists i. by rewrite enumerate_from_lookup, H.
Qed.

Lemma enumerate_from_fst (i : nat) (l : list A) :
  List.map fst (enumerate_from i l) = seq i (length l).
Proof.
  revert i. induction l as [|x l IH]; intros i; simpl; [done |]. by rewrite IH.
Qed.

Lemma enumerate_fst_NoDup (l : list A) : NoDup (List.map fst (enumerate l)).
Proof.
  unfold enumerate. rewrite enumerate_from_fst.
  apply NoDup_ListNoDup, seq_NoDup.
Qed.

End Enumerate.

Lemma NoDup_map_inv {A B} (f : A -> B) (l : list A) :
  NoDup (List.map f l) -> NoDup l.
Proof.
  induction l as [|x l IH]; simpl; intros H; [constructor |].
  apply NoDup_cons in H as [Hx H]. apply NoDup_cons. split; [| by apply IH].
  intros Hin. apply Hx. apply elem_of_map. by exists x.
Qed.

Lemma NoDup_filter_stdlib {A} (f : A -> bool) (l : list A) :
  NoDup l -> NoDup (List.filter f l).
Proof.
  induction l as [|x l IH]; simpl; intros H; [constructor |].
  apply NoDup_cons in H as [Hx H]. destruct (f x); [| by apply IH].
  apply NoDup_cons. split; [| by apply IH].
  intros Hin. apply Hx. apply list_elem_of_In in Hin. apply filter_In in Hin as [Hin _].
  by apply list_elem_of_In.
Qed.

(** A duplicate-free list whose elements all equal [x] has at most one. *)
Lemma NoDup_all_equal_length {A} (l : list A) (x : A) :
  NoDup l -> (forall y, y ∈ l -> y = x) -> length l <= 1.
Proof.
  destruct l as [|a [|b l]]; simpl; intros Hnd Hall; [lia | lia |].
  exfalso. apply NoDup_cons in Hnd as [Ha _]. apply Ha.
  rewrite (Hall a) by (by left). rewrite (Hall b) by (right; by left). by left.
Qed.

Lemma lit_inj (s t : string) : lit s = lit t -> s = t.
Proof.
  unfold lit. intros H.
  rewrite <- (string_of_list_ascii_of_string s), <- (string_of_list_ascii_of_string t).
  f_equal. revert H. generalize (list_ascii_of_string s) (list_ascii_of_string t).
  intros l1. induction l1 as [|a l1 IH]; intros [|b l2]; simpl; try done.
  intros [= Hab Hl]. f_equal; [| by apply IH].
  rewrite <- (ascii_N_embedding a), <- (ascii_N_embedding b). by rewrite Hab.
Qed.

Lemma lit_pretty_inj (i j : nat) : lit (pretty i) = lit (pretty j) -> i = j.
Proof. intros H. apply lit_inj in H. by apply (inj pretty) in H. Qed.

Section KeyShapes.
Context {U : UnicodeData}.

Lemma key_for_player_shape (p : record) (k : pystr) :
  k ∈ key_for_player p ->
  (exists s, k = lit "tid::" ++ s) \/ (exists s, k = lit "name::" ++ s).
Proof.
  rewrite key_for_player_parts, elem_of_app. unfold id_keys, name_keys.
  intros [H|H].
  - destruct (is_none _); [by apply elem_of_nil in H |].
    apply list_elem_of_singleton in H. left. eauto.
  - destruct (pystr_eqb _ _); [by apply elem_of_nil in H |].
    apply list_elem_of_singleton in H. right. eauto.
Qed.

Lemma key_for_player_keyless (p : record) :
  is_none (resolve_tid p) = true -> name_key p = [] -> key_for_player p = [].
Proof.
  intros H1 H2. rewrite key_for_player_parts. unfold id_keys, name_keys.
  by rewrite H1, H2.
Qed.

Lemma item_keys_index (it : item) (idx : nat) :
  lit "index::" ++ lit (pretty idx) ∈ item_keys it ->
  item_index it = idx /\ key_for_player (item_player it) = [].
Proof.
  unfold item_keys. intros H.
  destruct (key_for_player (item_player it)) as [|k ks] eqn:E.
  - apply list_elem_of_singleton in H. apply app_inv_head in H.
    apply lit_pretty_inj in H. done.
  - rewrite <- E in H. apply key_for_player_shape in H as [[s H]|[s H]]; discriminate.
Qed.

Lemma occurrence_keys_raw (o : occurrence) (tag : pystr) (idx : nat) :
  (occ_file o = lit "source" \/ occ_file o = lit "target") ->
  (tag = lit "source" \/ tag = lit "target") ->
  lit "raw::" ++ tag ++ lit "::" ++ lit (pretty idx) ∈ occurrence_keys o ->
  occ_file o = tag /\ occ_index o = idx /\ canonical_keys (occ_player o) = [].
Proof.
  unfold occurrence_keys. intros Ho Ht H.
  destruct (canonical_keys (occ_player o)) as [|k ks] eqn:E.
  - apply list_elem_of_singleton in H. apply app_inv_head in H.
    destruct Ho as [Ho|Ho], Ht as [Ht|Ht]; rewrite Ho, Ht in H; try discriminate;
      rewrite Ho, Ht; apply app_inv_head in H; apply app_inv_head in H;
      apply lit_pretty_inj in H; done.
  - rewrite <- E, canonical_keys_key_for_player in H.
    apply key_for_player_shape in H as [[s H]|[s H]]; discriminate.
Qed.

End KeyShapes.

Lemma NoDup_map_inj_on {A B} (f : A -> B) (l : list A) (x y : A) :
  NoDup (List.map f l) -> x ∈ l -> y ∈ l -> f x = f y -> x = y.
Proof.
  induction l as [|a l IH]; simpl; intros Hnd Hx Hy Hf.
  - by apply elem_of_nil in Hx.
  - apply NoDup_cons in Hnd as [Ha Hnd].
    apply elem_of_cons in Hx as [->|Hx]; apply elem_of_cons in Hy as [->|Hy].
    + done.
    + exfalso. apply Ha. rewrite Hf. apply elem_of_map. by exists y.
    + exfalso. apply Ha. rewrite <- Hf. apply elem_of_map. by exists x.
    + by apply IH.
Qed.

Lemma filter_only {A} (f : A -> bool) (l : list A) (x : A) :
  NoDup l -> x ∈ l -> f x = true -> (forall y, y ∈ l -> f y = true -> y = x) ->
  List.filter f l = [x].
Proof.
  intros Hnd Hx Hfx Hall.
  assert (Hin : x ∈ List.filter f l).
  { apply list_elem_of_In, filter_In. split; [by apply list_elem_of_In | done]. }
  assert (Hlen : length (List.filter f l) <= 1).
  { apply (NoDup_all_equal_length _ x); [by apply NoDup_filter_stdlib |].
    intros y Hy. apply list_elem_of_In, filter_In in Hy as [Hy Hfy].
    apply Hall; [by apply list_elem_of_In | done]. }
  destruct (List.filter f l) as [|a [|b r]]; simpl in Hlen.
  - by apply elem_of_nil in Hin.
  - apply list_elem_of_singleton in Hin. by subst.
  - lia.
Qed.

Section Occurrences.
Context {U : UnicodeData}.

Lemma elem_of_combine_datasets (source_list target_list : list record) (o : occurrence) :
  o ∈ combine_datasets source_list target_list <->
  (occ_file o = lit "source" /\ source_list !! occ_index o = Some (occ_player o)) \/
  (occ_file o = lit "target" /\ target_list !! occ_index o = Some (occ_player o)).
Proof.
  unfold combine_datasets. rewrite elem_of_app, !elem_of_map. split.
  - intros [([i p] & -> & H)|([i p] & -> & H)]; apply elem_of_enumerate in H; simpl; auto.
  - destruct o as [f i p]. simpl.
    intros [[-> H]|[-> H]]; [left | right]; exists (i, p);
      (split; [done | by apply elem_of_enumerate]).
Qed.

Lemma combine_datasets_positions_NoDup (source_list target_list : list record) :
  NoDup (List.map position (combine_datasets source_list target_list)).
Proof.
  unfold combine_datasets. rewrite map_app, !map_map. apply NoDup_app. split; [| split].
  - apply (NoDup_map_inv snd). rewrite map_map. simpl. apply enumerate_fst_NoDup.
  - intros pos H1 H2. apply elem_of_map in H1 as (ip1 & -> & _).
    apply elem_of_map in H2 as (ip2 & H2 & _). discriminate.
  - apply (NoDup_map_inv snd). rewrite map_map. simpl. apply enumerate_fst_NoDup.
Qed.

Lemma combine_datasets_NoDup (source_list target_list : list record) :
  NoDup (combine_datasets source_list target_list).
Proof. eapply NoDup_map_inv, combine_datasets_positions_NoDup. Qed.

Lemma items_NoDup (players : list record) :
  NoDup (List.map item_index (List.map to_item (enumerate players))).
Proof. rewrite map_map. simpl. apply enumerate_fst_NoDup. Qed.

Lemma elem_of_items (players : list record) (it : item) :
  it ∈ List.map to_item (enumerate players) <->
  players !! item_index it = Some (item_player it).
Proof.
  rewrite elem_of_map. split.
  - intros ([i p] & -> & H). by apply elem_of_enumerate in H.
  - destruct it as [i p]. simpl. intros H. exists (i, p).
    split; [done | by apply elem_of_enumerate].
Qed.

(** Every emitted group was made from a bucket of two or more. *)
Lemma find_common_groups_from_bucket (source_list target_list : list record)
    (g : common_group) :
  g ∈ find_common_groups source_list target_list ->
  exists k occ,
    occ = List.filter (has_key occurrence_keys k) (combine_datasets source_list target_list) /\
    2 <= length occ /\
    occurrences g = List.map view occ /\
    total_count g = length occ /\
    present_in g = sorted_str (elements (list_to_set (List.map occ_file occ) : gset pystr)).
Proof.
  unfold find_common_groups. intros Hg.
  apply list_elem_of_lookup in Hg as [pos Hpos].
  destruct (merge_state_inv (build_groups_map (combine_datasets source_list target_list)))
    as [_ _ Hgroups _].
  destruct (Hgroups pos g Hpos) as (H1 & H2 & _ & k & occ & Hin & Hg).
  rewrite build_groups_map_register in Hin.
  apply register_all_elem in Hin as [Hocc _]; [| apply occurrence_keys_NoDup].
  exists k, occ. split; [done |].
  rewrite Hg in H1. simpl in H1. rewrite length_map in H1.
  rewrite Hg. simpl. done.
Qed.

Lemma find_duplicates_from_bucket (players : list record) (g : dup_group) :
  g ∈ find_duplicates players ->
  exists lst,
    lst = List.filter (has_key item_keys (key g)) (List.map to_item (enumerate players)) /\
    2 <= length lst /\
    indices g = List.map item_index lst /\
    members g = List.map item_player lst.
Proof.
  unfold find_duplicates. intros Hg.
  destruct (collect_state_inv (build_by_key players)) as [_ _ Hgroups _].
  destruct (Hgroups g Hg) as (H1 & _ & lst & Hin & Hi & Hm).
  rewrite build_by_key_register in Hin.
  apply register_all_elem in Hin as [Hlst _]; [| apply item_keys_NoDup].
  exists lst. split; [done |]. rewrite Hi, length_map in H1. done.
Qed.

(** C8: a record without identifier and without normalised name has no
    key; it is filed under a fallback key of its own (built from the
    dataset tag and the position, or from the position alone inside one
    dataset), the bucket of that key holds this one occurrence, and no
    emitted group contains it. *)
Theorem keyless_record_never_grouped (source_list target_list players : list record) :
  (forall o : occurrence,
      o ∈ combine_datasets source_list target_list ->
      is_none (resolve_tid (occ_player o)) = true -> name_key (occ_player o) = [] ->
      canonical_keys (occ_player o) = [] /\
      occurrence_keys o =
        [lit "raw::" ++ occ_file o ++ lit "::" ++ lit (pretty (occ_index o))] /\
      bucket (build_groups_map (combine_datasets source_list target_list))
             (lit "raw::" ++ occ_file o ++ lit "::" ++ lit (pretty (occ_index o))) = [o] /\
      forall g ov, g ∈ find_common_groups source_list target_list ->
                   ov ∈ occurrences g ->
                   (ov_file ov, ov_index ov) <> (occ_file o, occ_index o)) /\
  (forall (idx : nat) (p : record),
      players !! idx = Some p ->
      is_none (resolve_tid p) = true -> name_key p = [] ->
      key_for_player p = [] /\
      item_keys {| item_index := idx; item_player := p |} =
        [lit "index::" ++ lit (pretty idx)] /\
      bucket (build_by_key players) (lit "index::" ++ lit (pretty idx)) =
        [{| item_index := idx; item_player := p |}] /\
      forall g, g ∈ find_duplicates players -> idx ∉ indices g).
Proof.
  split.
  - intros o Ho Hid Hname.
    set (combined := combine_datasets source_list target_list) in *.
    set (raw := lit "raw::" ++ occ_file o ++ lit "::" ++ lit (pretty (occ_index o))).
    assert (Hkeys : canonical_keys (occ_player o) = []).
    { rewrite canonical_keys_key_for_player. by apply key_for_player_keyless. }
    assert (Hokeys : occurrence_keys o = [raw]).
    { unfold occurrence_keys. by rewrite Hkeys. }
    assert (Htag : forall o', o' ∈ combined ->
                     occ_file o' = lit "source" \/ occ_file o' = lit "target").
    { intros o' Ho'. apply elem_of_combine_datasets in Ho' as [[? _]|[? _]]; auto. }
    assert (Hbucket : List.filter (has_key occurrence_keys raw) combined = [o]).
    { apply filter_only.
      - apply combine_datasets_NoDup.
      - done.
      - unfold has_key. rewrite Hokeys. apply bool_decide_eq_true. by left.
      - intros o' Ho' Hk. unfold has_key in Hk. apply bool_decide_eq_true in Hk.
        apply occurrence_keys_raw in Hk as (Hf & Hi & _); [| by apply Htag | by apply Htag].
        apply (NoDup_map_inj_on position combined);
          [apply combine_datasets_positions_NoDup | done | done |].
        unfold position. by rewrite Hf, Hi. }
    split; [done |]. split; [done |]. split.
    { rewrite build_groups_map_register, register_all_bucket; [done |].
      apply occurrence_keys_NoDup. }
    intros g ov Hg Hov Hpos.
    apply find_common_groups_from_bucket in Hg as (k & occ & Hocc & Hlen & Hview & _).
    fold combined in Hocc.
    rewrite Hview in Hov. apply elem_of_map in Hov as (o' & -> & Ho').
    assert (Ho'c : o' ∈ combined /\ has_key occurrence_keys k o' = true).
    { rewrite Hocc in Ho'. apply list_elem_of_In, filter_In in Ho' as [H1 H2].
      split; [by apply list_elem_of_In | done]. }
    destruct Ho'c as [Ho'c Hk].
    assert (o' = o) as ->.
    { apply (NoDup_map_inj_on position combined);
        [apply combine_datasets_positions_NoDup | done | done |]. done. }
    unfold has_key in Hk. apply bool_decide_eq_true in Hk.
    rewrite Hokeys in Hk. apply list_elem_of_singleton in Hk as ->.
    rewrite Hbucket in Hocc. subst occ. simpl in Hlen. lia.
  - intros idx p Hp Hid Hname.
    set (items := List.map to_item (enumerate players)).
    set (it := {| item_index := idx; item_player := p |}).
    set (fallback := lit "index::" ++ lit (pretty idx)).
    assert (Hkeys : key_for_player p = []) by (by apply key_for_player_keyless).
    assert (Hikeys : item_keys it = [fallback]).
    { unfold item_keys. simpl. by rewrite Hkeys. }
    assert (Hit : it ∈ items) by (by apply elem_of_items).
    assert (Hbucket : List.filter (has_key item_keys fallback) items = [it]).
    { apply filter_only.
      - eapply NoDup_map_inv, items_NoDup.
      - done.
      - unfold has_key. rewrite Hikeys. apply bool_decide_eq_true. by left.
      - intros it' Hit' Hk. unfold has_key in Hk. apply bool_decide_eq_true in Hk.
        apply item_keys_index in Hk as [Hi _].
        apply (NoDup_map_inj_on item_index items); [apply items_NoDup | done | done | done]. }
    split; [done |]. split; [done |]. split.
    { rewrite build_by_key_register, register_all_bucket; [done |].
      apply item_keys_NoDup. }
    intros g Hg Hidx.
    apply find_duplicates_from_bucket in Hg as (lst & Hlst & Hlen & Hind & _).
    fold items in Hlst.
    rewrite Hind in Hidx. apply elem_of_map in Hidx as (it' & Hi' & Hit').
    assert (Hit'c : it' ∈ items /\ has_key item_keys (key g) it' = true).
    { rewrite Hlst in Hit'. apply list_elem_of_In, filter_In in Hit' as [H1 H2].
      split; [by apply list_elem_of_In | done]. }
    destruct Hit'c as [Hit'c Hk].
    assert (it' = it) as ->.
    { apply (NoDup_map_inj_on item_index items); [apply items_NoDup | done | done | done]. }
    unfold has_key in Hk. apply bool_decide_eq_true in Hk.
    rewrite Hikeys in Hk. apply list_elem_of_singleton in Hk.
    rewrite Hk, Hbucket in Hlst. subst lst. simpl in Hlen. lia.
Qed.

End Occurrences.

Lemma keyless_record_never_grouped_witness :
  @key_for_player fragment [(lit "club", VStr (lit "FC"))] = [] /\
  bucket (@build_by_key fragment with_keyless) (lit "index::" ++ lit (pretty 1)) =
    [{| item_index := 1; item_player := [(lit "club", VStr (lit "FC"))] |}].
Proof.
  destruct (proj2 (@keyless_record_never_grouped fragment [] [] with_keyless) 1
                  [(lit "club", VStr (lit "FC"))] eq_refl eq_refl eq_refl)
    as (H1 & _ & H3 & _).
  exact (conj H1 H3).
Defined.
Section EmptyTarget.
Context {U : UnicodeData}.

Lemma flat_map_singleton {A B} (f : A -> B) (l : list A) :
  flat_map (fun x => [f x]) l = List.map f l.
Proof. induction l as [|x l IH]; simpl; [done | by rewrite IH]. Qed.

(** C9: against an empty target, with a threshold in (0,1], no source
    record is found by any rule, so the report has one entry per source
    record, in order, each with [missing = true]; and every occurrence of
    every cross-dataset group carries the source tag. *)
Theorem empty_target_all_missing (source : list record) (fuzzy_threshold : Q) :
  (0 < fuzzy_threshold)%Q -> (fuzzy_threshold <= 1)%Q ->
  build_target_lookup [] = (∅, ∅) /\
  (forall p, is_found ∅ ∅ fuzzy_threshold p = false) /\
  missing_report source [] fuzzy_threshold =
    List.map (fun p => set_missing true (base_entry (find_duplicates source) [] p)) source /\
  length (missing_report source [] fuzzy_threshold) = length source /\
  (forall e, e ∈ missing_report source [] fuzzy_threshold -> e_missing e = Some true) /\
  (forall g ov, g ∈ find_common_groups source [] -> ov ∈ occurrences g ->
                ov_file ov = lit "source") /\
  (forall g, g ∈ find_common_groups source [] -> present_in g = [lit "source"]).
Proof.
  intros Hpos Hle.
  assert (Hreport : missing_report source [] fuzzy_threshold =
    List.map (fun p => set_missing true (base_entry (find_duplicates source) [] p)) source).
  { unfold missing_report. change (build_target_lookup []) with (∅ : gset pystr, ∅ : gset pystr).
    change (find_duplicates []) with (@nil dup_group). cbv beta iota zeta.
    rewrite find_missing_flat_map. rewrite <- flat_map_singleton.
    apply flat_map_ext. intros p. rewrite emitted_cases.
    by rewrite is_found_empty_target. }
  assert (Hfiles : forall k o,
             o ∈ List.filter (has_key occurrence_keys k) (combine_datasets source []) ->
             occ_file o = lit "source").
  { intros k o Ho. apply list_elem_of_In, filter_In in Ho as [Ho _].
    apply list_elem_of_In, elem_of_combine_datasets in Ho as [[Hf _]|[_ Hp]]; [done |].
    by rewrite lookup_nil in Hp. }
  split; [done |]. split; [intros p; by apply is_found_empty_target |].
  split; [done |]. split; [by rewrite Hreport, length_map |]. split; [| split].
  - intros e He. rewrite Hreport in He. by apply elem_of_map in He as (p & -> & _).
  - intros g ov Hg Hov.
    apply find_common_groups_from_bucket in Hg as (k & occ & Hocc & _ & Hview & _).
    rewrite Hview in Hov. apply elem_of_map in Hov as (o & -> & Ho). simpl.
    apply (Hfiles k). by rewrite <- Hocc.
  - intros g Hg.
    apply find_common_groups_from_bucket in Hg as (k & occ & Hocc & Hlen & _ & _ & Hpres).
    rewrite Hpres.
    replace (list_to_set (List.map occ_file occ) : gset pystr) with ({[ lit "source" ]} : gset pystr).
    { by rewrite elements_singleton. }
    apply set_eq. intros tag. rewrite elem_of_singleton, elem_of_list_to_set, elem_of_map.
    split.
    + intros ->. destruct occ as [|o occ]; [simpl in Hlen; lia |].
      exists o. split; [| by left]. symmetry. apply (Hfiles k). rewrite <- Hocc. by left.
    + intros (o & -> & Ho). apply (Hfiles k). by rewrite <- Hocc.
Qed.

End EmptyTarget.

Lemma empty_target_all_missing_witness :
  (0 < 9 # 10)%Q /\ (9 # 10 <= 1)%Q /\
  length (@missing_report fragment with_keyless [] (9 # 10)) = 3.
Proof.
  split; [done |]. split; [done |].
  apply (@empty_target_all_missing fragment with_keyless (9 # 10)); done.
Defined.
Section DuplicateFlags.
Context {U : UnicodeData}.
Variables (dup_src_groups dup_tgt_groups : list dup_group).

Lemma sorted_str_elem (l : list pystr) (x : pystr) : x ∈ sorted_str l <-> x ∈ l.
Proof. unfold sorted_str. by rewrite merge_sort_Permutation. Qed.

Lemma dup_step_location (st : list pystr * list (pystr * option dup_group))
    (k tag : pystr) :
  tag ∈ fst (dup_step dup_src_groups dup_tgt_groups st k) <->
  tag ∈ fst st \/
  (tag = lit "source" /\ k ∈ group_keys dup_src_groups) \/
  (tag = lit "target" /\ k ∈ group_keys dup_tgt_groups).
Proof.
  destruct st as [locs info]. unfold dup_step.
  destruct (bool_decide (k ∈ group_keys dup_src_groups)) eqn:Es;
    destruct (bool_decide (k ∈ group_keys dup_tgt_groups)) eqn:Et; simpl;
    rewrite ?elem_of_app, ?list_elem_of_singleton;
    try apply bool_decide_eq_true in Es; try apply bool_decide_eq_false in Es;
    try apply bool_decide_eq_true in Et; try apply bool_decide_eq_false in Et;
    tauto.
Qed.

Lemma dup_step_locations (ks : list pystr) (st : list pystr * list (pystr * option dup_group))
    (tag : pystr) :
  tag ∈ fst (fold_left (dup_step dup_src_groups dup_tgt_groups) ks st) <->
  tag ∈ fst st \/
  (tag = lit "source" /\ exists k, k ∈ ks /\ k ∈ group_keys dup_src_groups) \/
  (tag = lit "target" /\ exists k, k ∈ ks /\ k ∈ group_keys dup_tgt_groups).
Proof.
  revert st. induction ks as [|k ks IH]; intros st; simpl.
  - split; [by left |].
    intros [H|[(_ & k & H & _)|(_ & k & H & _)]]; [done | |]; by apply elem_of_nil in H.
  - rewrite IH, dup_step_location. split.
    + intros [[H|[[-> H]|[-> H]]]|[[-> (k' & H1 & H2)]|[-> (k' & H1 & H2)]]].
      * by left.
      * right; left. split; [done |]. exists k. split; [by left | done].
      * right; right. split; [done |]. exists k. split; [by left | done].
      * right; left. split; [done |]. exists k'. split; [by right | done].
      * right; right. split; [done |]. exists k'. split; [by right | done].
    + intros [H|[[-> (k' & H1 & H2)]|[-> (k' & H1 & H2)]]].
      * by left; left.
      * apply elem_of_cons in H1 as [->|H1].
        -- left; right; left. done.
        -- right; left. split; [done |]. by exists k'.
      * apply elem_of_cons in H1 as [->|H1].
        -- left; right; right. done.
        -- right; right. split; [done |]. by exists k'.
Qed.

Lemma dup_membership_locations (p : record) (tag : pystr) :
  tag ∈ fst (dup_membership dup_src_groups dup_tgt_groups p) <->
  (tag = lit "source" /\ exists k, k ∈ key_for_player p /\ k ∈ group_keys dup_src_groups) \/
  (tag = lit "target" /\ exists k, k ∈ key_for_player p /\ k ∈ group_keys dup_tgt_groups).
Proof.
  unfold dup_membership.
  pose proof (dup_step_locations (key_for_player p) ([], []) tag) as H.
  destruct (fold_left _ _ _) as [locs info]. simpl in *.
  rewrite sorted_str_elem, elem_of_elements, elem_of_list_to_set, H.
  split; [intros [Hn|?]; [by apply elem_of_nil in Hn | done] | by right].
Qed.

Lemma dup_membership_source_only (p : record) :
  (exists k, k ∈ key_for_player p /\ k ∈ group_keys dup_src_groups) ->
  (forall k, k ∈ key_for_player p -> k ∉ group_keys dup_tgt_groups) ->
  fst (dup_membership dup_src_groups dup_tgt_groups p) = [lit "source"].
Proof.
  intros Hsrc Htgt. unfold dup_membership.
  pose proof (dup_step_locations (key_for_player p) ([], [])) as H.
  destruct (fold_left _ _ _) as [locs info]. simpl in *.
  replace (list_to_set locs : gset pystr) with ({[ lit "source" ]} : gset pystr).
  { by rewrite elements_singleton. }
  apply set_eq. intros tag. rewrite elem_of_singleton, elem_of_list_to_set, H. split.
  - intros ->. right. by left.
  - intros [Hn|[[-> _]|[_ (k & Hk & Hin)]]]; [by apply elem_of_nil in Hn | done |].
    by apply Htgt in Hk.
Qed.

Lemma flagged_iff (p : record) :
  flagged dup_src_groups dup_tgt_groups p = true <->
  exists tag, tag ∈ fst (dup_membership dup_src_groups dup_tgt_groups p).
Proof.
  unfold flagged. destruct (fst _) as [|t l]; split; try done.
  - intros [tag H]. by apply elem_of_nil in H.
  - intros _. exists t. by left.
Qed.

Lemma elem_of_group_keys (groups : list dup_group) (k : pystr) :
  k ∈ group_keys groups <-> exists g, g ∈ groups /\ key g = k.
Proof.
  unfold group_keys. rewrite elem_of_list_to_set, elem_of_map.
  split; intros (g & H1 & H2); by exists g.
Qed.

End DuplicateFlags.
Section EnumerateFilter.
Context {A : Type}.

Lemma enumerate_from_app (n : nat) (l1 l2 : list A) :
  enumerate_from n (l1 ++ l2) = enumerate_from n l1 ++ enumerate_from (n + length l1) l2.
Proof.
  revert n. induction l1 as [|x l1 IH]; intros n; simpl.
  - by rewrite Nat.add_0_r.
  - rewrite IH. by replace (S n + length l1) with (n + S (length l1)) by lia.
Qed.

Lemma elem_of_enumerate_from (n : nat) (l : list A) (m : nat) (x : A) :
  (m, x) ∈ enumerate_from n l -> n <= m < n + length l /\ l !! (m - n) = Some x.
Proof.
  intros H. apply list_elem_of_lookup in H as [k Hk].
  rewrite enumerate_from_lookup in Hk.
  destruct (l !! k) as [y|] eqn:E; simpl in Hk; [| done].
  injection Hk as <- <-. apply lookup_lt_Some in E as Hlt.
  split; [lia |]. by replace (n + k - n) with k by lia.
Qed.

(** The filter of an enumeration that holds at two positions only. *)
Lemma filter_enumerate_two (l : list A) (f : nat * A -> bool) (i j : nat) (xi xj : A) :
  i < j -> l !! i = Some xi -> l !! j = Some xj ->
  f (i, xi) = true -> f (j, xj) = true ->
  (forall n x, l !! n = Some x -> f (n, x) = true -> n = i \/ n = j) ->
  List.filter f (enumerate l) = [(i, xi); (j, xj)].
Proof.
  intros Hij Hi Hj Hfi Hfj Honly.
  pose proof (lookup_lt_Some _ _ _ Hi) as Hilt.
  pose proof (lookup_lt_Some _ _ _ Hj) as Hjlt.
  assert (Hsplit1 : l = take i l ++ xi :: drop (S i) l) by (by rewrite take_drop_middle).
  assert (Hj' : drop (S i) l !! (j - S i) = Some xj).
  { rewrite lookup_drop. by replace (S i + (j - S i)) with j by lia. }
  assert (Hsplit2 : drop (S i) l =
                    take (j - S i) (drop (S i) l) ++ xj :: drop (S (j - S i)) (drop (S i) l))
    by (by rewrite take_drop_middle).
  set (l1 := take i l) in *. set (l2 := take (j - S i) (drop (S i) l)) in *.
  set (l3 := drop (S (j - S i)) (drop (S i) l)) in *.
  assert (Hl1 : length l1 = i) by (unfold l1; rewrite length_take; lia).
  assert (Hl2 : length l2 = j - S i).
  { unfold l2. rewrite length_take, length_drop. lia. }
  assert (Hl : l = l1 ++ xi :: l2 ++ xj :: l3) by (by rewrite <- Hsplit2).
  assert (Hlook : forall n x, n <> i -> n <> j -> l !! n = Some x -> f (n, x) = false).
  { intros n x Hni Hnj Hn. destruct (f (n, x)) eqn:E; [| done].
    destruct (Honly n x Hn E); done. }
  unfold enumerate. rewrite Hl.
  rewrite enumerate_from_app. simpl. rewrite enumerate_from_app. simpl.
  rewrite List.filter_app. simpl. rewrite List.filter_app. simpl.
  rewrite Hl1. replace (S (i + length l2)) with j by lia. simpl.
  rewrite Hfi, Hfj.
  rewrite (filter_none f (enumerate_from 0 l1)).
  2: { intros [n x] Hin. apply elem_of_enumerate_from in Hin as [Hn Hx].
       apply Hlook; [lia | lia |]. rewrite Hl, lookup_app_l by lia.
       by rewrite Nat.sub_0_r in Hx. }
  rewrite (filter_none f (enumerate_from (S i) l2)).
  2: { intros [n x] Hin. apply elem_of_enumerate_from in Hin as [Hn Hx].
       apply Hlook; [lia | lia |]. rewrite Hl, lookup_app_r by lia.
       rewrite Hl1. replace (n - i) with (S (n - S i)) by lia. simpl.
       by rewrite lookup_app_l by lia. }
  rewrite (filter_none f (enumerate_from (S j) l3)).
  2: { intros [n x] Hin. apply elem_of_enumerate_from in Hin as [Hn Hx].
       apply Hlook; [lia | lia |]. rewrite Hl, lookup_app_r by lia.
       rewrite Hl1. replace (n - i) with (S (n - S i)) by lia. simpl.
       rewrite lookup_app_r by lia. rewrite Hl2.
       replace (n - S i - (j - S i)) with (S (n - S j)) by lia. done. }
  done.
Qed.

End EnumerateFilter.

Lemma filter_map_comm {A B} (f : B -> bool) (g : A -> B) (l : list A) :
  List.filter f (List.map g l) = List.map g (List.filter (fun x => f (g x)) l).
Proof.
  induction l as [|x l IH]; simpl; [done |]. destruct (f (g x)); simpl; by rewrite IH.
Qed.

Lemma map_fst_split {A} (l : list (pystr * A)) (ks1 ks2 : list pystr) (k : pystr) :
  List.map fst l = ks1 ++ k :: ks2 ->
  exists pre b rest, l = pre ++ (k, b) :: rest /\ List.map fst pre = ks1.
Proof.
  revert l. induction ks1 as [|k1 ks1 IH]; intros l H.
  - destruct l as [|[k' b] l]; [done |]. simpl in H. injection H as -> _.
    by exists [], b, l.
  - destruct l as [|[k' b] l]; [done |]. simpl in H. injection H as -> H.
    destruct (IH l H) as (pre & b' & rest & -> & Hpre).
    exists ((k1, b) :: pre), b', rest. simpl. by rewrite Hpre.
Qed.
Section SharedIdentifier.
Context {U : UnicodeData}.

Lemma tid_key_item_keys (it : item) (s : pystr) :
  lit "tid::" ++ s ∈ item_keys it <-> tid_text (item_player it) = Some s.
Proof.
  unfold item_keys, tid_text. rewrite key_for_player_parts. unfold id_keys, name_keys.
  destruct (is_none (resolve_tid (item_player it))) eqn:E1;
    destruct (pystr_eqb (name_key (item_player it)) []) eqn:E2; cbn [app].
  - rewrite list_elem_of_singleton. split; [intros H; simpl in H |]; discriminate.
  - rewrite list_elem_of_singleton. split; [intros H; simpl in H |]; discriminate.
  - rewrite list_elem_of_singleton. split.
    + intros H. apply app_inv_head in H. by subst.
    + by intros [= ->].
  - rewrite elem_of_cons, list_elem_of_singleton. split.
    + intros [H|H]; [| simpl in H; discriminate]. apply app_inv_head in H. by subst.
    + intros [= ->]. by left.
Qed.

Lemma tid_text_first_alias (p : record) (s : pystr) :
  s <> [] -> get p (lit "transfermarkt_id") = VStr s -> tid_text p = Some s.
Proof.
  intros Hs H. unfold tid_text, resolve_tid, py_or. rewrite H.
  assert (Ht : truthy (VStr s) = true).
  { simpl. apply negb_true_iff. by apply pystr_eqb_false. }
  rewrite Ht. cbn iota. rewrite Ht. cbn iota. rewrite Ht. done.
Qed.

Lemma sorted_nat_elem (l : list nat) (x : nat) : x ∈ sorted_nat l <-> x ∈ l.
Proof. unfold sorted_nat. by rewrite merge_sort_Permutation. Qed.

Variables (source : list record) (i j : nat) (p_i p_j : record) (s : pystr).
Hypothesis i_before_j : i < j.
Hypothesis source_i : source !! i = Some p_i.
Hypothesis source_j : source !! j = Some p_j.
Hypothesis tid_i : tid_text p_i = Some s.
Hypothesis tid_j : tid_text p_j = Some s.
Hypothesis no_other :
  forall n p, source !! n = Some p -> tid_text p = Some s -> n = i \/ n = j.

Local Abbreviation tid_key := (lit "tid::" ++ s).
Local Abbreviation items := (List.map to_item (enumerate source)).
Local Abbreviation it_i := {| item_index := i; item_player := p_i |}.
Local Abbreviation it_j := {| item_index := j; item_player := p_j |}.

Lemma shared_tid_bucket :
  List.filter (has_key item_keys tid_key) items = [it_i; it_j].
Proof.
  rewrite filter_map_comm.
  rewrite (filter_enumerate_two source _ i j p_i p_j); try done.
  - unfold has_key. apply bool_decide_eq_true. by apply tid_key_item_keys.
  - unfold has_key. apply bool_decide_eq_true. by apply tid_key_item_keys.
  - intros n p Hn Hk. unfold has_key in Hk. apply bool_decide_eq_true in Hk.
    apply tid_key_item_keys in Hk. by apply (no_other n p).
Qed.

Lemma shared_tid_by_key_bucket :
  bucket (build_by_key source) tid_key = [it_i; it_j].
Proof.
  rewrite build_by_key_register, register_all_bucket by apply item_keys_NoDup.
  apply shared_tid_bucket.
Qed.

(** The identifier key enters the dictionary before any other key whose
    bucket holds the two records only. *)
Lemma shared_tid_first :
  exists pre rest,
    build_by_key source = pre ++ (tid_key, [it_i; it_j]) :: rest /\
    forall k lst, (k, lst) ∈ pre -> same_member_ids (sorted_nat [i; j]) (k, lst) = false.
Proof.
  pose proof (lookup_lt_Some _ _ _ source_i) as Hilt.
  set (items1 := List.map to_item (enumerate (take i source))).
  set (items2 := List.map to_item (enumerate_from (S i) (drop (S i) source))).
  assert (Hitems : items = items1 ++ it_i :: items2).
  { unfold items1, items2, enumerate.
    rewrite <- (take_drop_middle source i p_i source_i) at 1.
    rewrite enumerate_from_app, map_app. simpl.
    rewrite length_take. by replace (i `min` length source) with i by lia. }
  assert (Hitems1 : forall x, x ∈ items1 -> item_index x < i /\ x ∈ items).
  { intros x Hx. split.
    - apply elem_of_map in Hx as ([n q] & -> & Hnq). simpl.
      apply elem_of_enumerate in Hnq. apply lookup_lt_Some in Hnq.
      rewrite length_take in Hnq. lia.
    - rewrite Hitems, elem_of_app. by left. }
  set (d1 := register_all item_keys items1).
  assert (Hfresh : tid_key ∉ List.map fst d1).
  { intros Hin. unfold d1, register_all in Hin.
    apply register_all_from_keys in Hin as [Hin|(x & Hx & Hk)];
      [by apply elem_of_nil in Hin |].
    destruct (Hitems1 x Hx) as [Hlt Hxin].
    apply tid_key_item_keys in Hk. apply elem_of_items in Hxin.
    destruct (no_other _ _ Hxin Hk); lia. }
  assert (Hkeys : exists more,
             List.map fst (build_by_key source) = List.map fst d1 ++ tid_key :: more).
  { rewrite build_by_key_register. rewrite Hitems.
    unfold register_all. rewrite fold_left_app. fold (register_all item_keys items1).
    fold d1. simpl.
    destruct (register_all_from_keys_prefix item_keys items2 (register item_keys d1 it_i))
      as [more Hmore].
    rewrite Hmore. unfold register.
    assert (Hik : exists ks, item_keys it_i = tid_key :: ks).
    { assert (Hin : tid_key ∈ item_keys it_i) by (by apply tid_key_item_keys).
      unfold item_keys in *. simpl in *. rewrite key_for_player_parts in *.
      unfold id_keys, tid_text in *.
      destruct (is_none (resolve_tid p_i)); [discriminate |].
      injection tid_i as <-. simpl. eauto. }
    destruct Hik as [ks ->]. cbn [fold_left].
    destruct (register_fold_keys_prefix ks it_i (setdefault_append tid_key it_i d1))
      as [more' Hmore'].
    rewrite Hmore', setdefault_append_keys.
    rewrite bool_decide_eq_false_2 by done.
    exists (more' ++ more). by rewrite <- !app_assoc. }
  destruct Hkeys as [more Hkeys].
  apply map_fst_split in Hkeys as (pre & b & rest & Hby & Hpre).
  assert (Hnd : NoDup (List.map fst (build_by_key source))).
  { rewrite build_by_key_register. apply register_all_NoDup. }
  assert (Hb : b = [it_i; it_j]).
  { rewrite <- shared_tid_by_key_bucket. symmetry. apply bucket_elem; [done |].
    rewrite Hby. apply elem_of_app. right. by left. }
  subst b. exists pre, rest. split; [done |].
  intros k lst Hin. unfold same_member_ids. simpl.
  destruct (Nat.ltb 1 (length lst)); [| done]. simpl.
  apply bool_decide_eq_false. intros Hids.
  assert (Hk : k ∈ List.map fst d1).
  { rewrite <- Hpre. apply elem_of_map. by exists (k, lst). }
  unfold d1, register_all in Hk.
  apply register_all_from_keys in Hk as [Hk|(x & Hx & Hk)];
    [by apply elem_of_nil in Hk |].
  destruct (Hitems1 x Hx) as [Hlt Hxin].
  assert (Hlst : lst = List.filter (has_key item_keys k) items).
  { assert (Hin' : (k, lst) ∈ build_by_key source).
    { rewrite Hby. apply elem_of_app. by left. }
    rewrite build_by_key_register in Hin'.
    by apply (register_all_elem item_keys item_keys_NoDup) in Hin' as [? _]. }
  assert (Hxl : item_index x ∈ sorted_nat (List.map item_index lst)).
  { apply sorted_nat_elem, elem_of_map. exists x. split; [done |].
    rewrite Hlst. apply list_elem_of_In, filter_In. split; [by apply list_elem_of_In |].
    unfold has_key. by apply bool_decide_eq_true. }
  rewrite Hids, sorted_nat_elem in Hxl.
  apply elem_of_cons in Hxl as [Hxl|Hxl]; [lia |].
  apply list_elem_of_singleton in Hxl. lia.
Qed.

(** The identifier key's group of two: it is emitted, and only once. *)
Lemma shared_tid_group :
  (exists g, g ∈ find_duplicates source /\ key g = tid_key /\
             indices g = [i; j] /\ members g = [p_i; p_j]) /\
  (forall n m g g',
      find_duplicates source !! n = Some g -> find_duplicates source !! m = Some g' ->
      key g = tid_key -> key g' = tid_key -> n = m).
Proof.
  destruct shared_tid_first as (pre & rest & Hby & Hpre).
  destruct (collect_state_inv (build_by_key source)) as [_ Huniq Hgroups Hcomplete].
  fold (collect_groups (build_by_key source)) in *.
  fold (find_duplicates source) in *.
  assert (Hnd : NoDup (List.map fst (build_by_key source))).
  { rewrite build_by_key_register. apply register_all_NoDup. }
  assert (Hin : (tid_key, [it_i; it_j]) ∈ build_by_key source).
  { rewrite Hby. apply elem_of_app. right. by left. }
  assert (Hof_key : forall g, g ∈ find_duplicates source -> key g = tid_key ->
                      indices g = [i; j] /\ members g = [p_i; p_j]).
  { intros g Hg Hk. destruct (Hgroups g Hg) as (_ & _ & lst & Hl & Hi & Hm).
    rewrite Hk in Hl.
    assert (lst = [it_i; it_j]) as ->.
    { rewrite <- (bucket_elem _ _ _ Hnd Hl). by apply bucket_elem. }
    done. }
  split.
  - assert (Hc : sorted_nat (List.map item_index [it_i; it_j])
                   ∈ List.map member_ids (find_duplicates source)).
    { eapply Hcomplete; [exact Hin | simpl; lia]. }
    apply elem_of_map in Hc as (g & Hids & Hg). simpl in Hids.
    destruct (Hgroups g Hg) as (_ & Hhead & _).
    assert (Hsame : same_member_ids (sorted_nat [i; j]) (tid_key, [it_i; it_j]) = true).
    { unfold same_member_ids. cbn [snd length List.map item_index].
      by rewrite bool_decide_eq_true_2. }
    assert (Hkey : key g = tid_key).
    { rewrite <- Hids, Hby, List.filter_app, (filter_none _ pre) in Hhead.
      - cbn [List.filter app] in Hhead. rewrite Hsame in Hhead.
        cbn [List.map fst head] in Hhead. congruence.
      - intros [k lst] Hkl. by apply Hpre. }
    exists g. split; [done |]. split; [done |]. by apply Hof_key.
  - intros n m g g' Hn Hm Hk Hk'.
    assert (Hg : g ∈ find_duplicates source) by (apply list_elem_of_lookup; eauto).
    assert (Hg' : g' ∈ find_duplicates source) by (apply list_elem_of_lookup; eauto).
    destruct (Hof_key g Hg Hk) as [Hi _]. destruct (Hof_key g' Hg' Hk') as [Hi' _].
    eapply (NoDup_lookup (List.map member_ids (find_duplicates source))); [done | |].
    + rewrite list_lookup_fmap, Hn. done.
    + rewrite list_lookup_fmap, Hm. simpl. unfold member_ids. by rewrite Hi, Hi'.
Qed.

End SharedIdentifier.

Section SharedIdentifierReport.
Context {U : UnicodeData}.

Lemma missing_report_unfold (src tgt : list record) (fuzzy : Q) :
  missing_report src tgt fuzzy =
  find_missing_and_flag_duplicates src
    (fst (build_target_lookup tgt)) (snd (build_target_lookup tgt))
    (find_duplicates src) (find_duplicates tgt) fuzzy.
Proof. unfold missing_report. by destruct (build_target_lookup tgt). Qed.

Lemma tid_key_key_for_player (p : record) (s : pystr) :
  tid_text p = Some s -> lit "tid::" ++ s ∈ key_for_player p.
Proof.
  unfold tid_text. rewrite key_for_player_parts. unfold id_keys.
  destruct (is_none (resolve_tid p)); [discriminate |].
  intros [= <-]. apply elem_of_app. left. by left.
Qed.

(** C7, as amended: when exactly two source records, at positions
    [i < j], resolve to the identifier "42" (both through
    [transfermarkt_id]), the intra-dataset pass on the source emits
    exactly one group under the key [tid::42], of the two records, and
    each of the two is emitted in the report flagged as duplicate with
    "source" among its [duplicate_in], which is exactly ["source"] when
    no key of the record is the key of a duplicate group of the target. *)
Theorem shared_identifier_scenario (source target : list record) (fuzzy : Q)
    (i j : nat) (p_i p_j : record) :
  i < j -> source !! i = Some p_i -> source !! j = Some p_j ->
  get p_i (lit "transfermarkt_id") = VStr (lit "42") ->
  get p_j (lit "transfermarkt_id") = VStr (lit "42") ->
  (forall n p, source !! n = Some p -> tid_text p = Some (lit "42") -> n = i \/ n = j) ->
  (exists g, g ∈ find_duplicates source /\ key g = lit "tid::42" /\
             indices g = [i; j] /\ members g = [p_i; p_j]) /\
  (forall n m g g',
      find_duplicates source !! n = Some g -> find_duplicates source !! m = Some g' ->
      key g = lit "tid::42" -> key g' = lit "tid::42" -> n = m) /\
  (forall p, p = p_i \/ p = p_j ->
     exists e locs,
       emitted (fst (build_target_lookup target)) (snd (build_target_lookup target))
               (find_duplicates source) (find_duplicates target) fuzzy p = [e] /\
       e ∈ missing_report source target fuzzy /\
       e_duplicate e = Some true /\
       e_duplicate_in e = Some locs /\
       lit "source" ∈ locs /\
       ((forall k, k ∈ key_for_player p -> k ∉ group_keys (find_duplicates target)) ->
        locs = [lit "source"])).
Proof.
  intros Hij Hi Hj Hgi Hgj Honly.
  assert (Hti : tid_text p_i = Some (lit "42")) by (by apply tid_text_first_alias).
  assert (Htj : tid_text p_j = Some (lit "42")) by (by apply tid_text_first_alias).
  destruct (shared_tid_group source i j p_i p_j (lit "42") Hij Hi Hj Hti Htj Honly)
    as [Hex Huniq].
  split; [exact Hex |]. split; [exact Huniq |].
  intros p Hp.
  assert (Hps : p ∈ source /\ tid_text p = Some (lit "42")).
  { destruct Hp as [-> | ->]; (split; [apply list_elem_of_lookup; eauto | done]). }
  destruct Hps as [Hps Htp].
  assert (Hsrc : exists k, k ∈ key_for_player p /\ k ∈ group_keys (find_duplicates source)).
  { exists (lit "tid::" ++ lit "42"). split; [by apply tid_key_key_for_player |].
    apply elem_of_group_keys. destruct Hex as (g & Hg & Hk & _). by exists g. }
  set (ids := fst (build_target_lookup target)).
  set (names := snd (build_target_lookup target)).
  set (gs := find_duplicates source). set (gt := find_duplicates target).
  assert (Hloc : lit "source" ∈ fst (dup_membership gs gt p)).
  { apply dup_membership_locations. by left. }
  assert (Hfl : flagged gs gt p = true) by (apply flagged_iff; eauto).
  destruct (base_entry_duplicate gs gt p) as [Hd Hdi]. rewrite Hfl in Hd, Hdi.
  exists (set_missing (negb (is_found ids names fuzzy p)) (base_entry gs gt p)),
         (fst (dup_membership gs gt p)).
  assert (Hem : emitted ids names gs gt fuzzy p =
                [set_missing (negb (is_found ids names fuzzy p)) (base_entry gs gt p)]).
  { rewrite emitted_cases, Hfl. by destruct (is_found ids names fuzzy p). }
  split; [done |]. split.
  { rewrite missing_report_unfold, find_missing_flat_map.
    apply list_elem_of_In, in_flat_map. exists p. split; [by apply list_elem_of_In |].
    fold ids names gs gt. rewrite Hem. by left. }
  split; [done |]. split; [done |]. split; [done |].
  intros Htgt. by apply dup_membership_source_only.
Qed.

End SharedIdentifierReport.

(** C7, as stated, fails: for two source records with
    [transfermarkt_id] "42" the one group comes out under the key
    [tid::42]; no group has the key [id::42]. *)
Lemma no_group_under_id_key :
  List.map key (@find_duplicates fragment two_jon_smiths) = [lit "tid::42"] /\
  List.map indices (@find_duplicates fragment two_jon_smiths) = [[0; 1]] /\
  ~ (exists g, g ∈ @find_duplicates fragment two_jon_smiths /\ key g = lit "id::42").
Proof.
  split; [by vm_compute |]. split; [by vm_compute |].
  intros (g & Hg & Hk).
  assert (H : key g ∈ List.map key (@find_duplicates fragment two_jon_smiths)).
  { apply elem_of_map. by exists g. }
  rewrite Hk in H. vm_compute in H.
  apply list_elem_of_singleton in H. discriminate.
Qed.

Lemma shared_identifier_scenario_witness :
  exists g, g ∈ @find_duplicates fragment two_jon_smiths /\ key g = lit "tid::42" /\
            indices g = [0; 1] /\
            members g = two_jon_smiths.
Proof.
  refine (proj1 (@shared_identifier_scenario fragment two_jon_smiths [] (9 # 10) 0 1
                   [(lit "transfermarkt_id", VStr (lit "42")); (lit "name", VStr (lit "Jon Smith"))]
                   [(lit "transfermarkt_id", VStr (lit "42")); (lit "name", VStr (lit "Jon Smith"))]
                   _ _ _ _ _ _)); try reflexivity; try lia.
  intros n p Hn _. destruct n as [|[|n]]; [by left | by right | done].
Defined.
(** ** Normalizer *)

Section NormalizerStages.
Context {U : UnicodeData}.

Local Abbreviation nonmark := (fun c : char => N.eqb (combining c) 0).

Lemma reorder_insert_filter (c : char) (l : pystr) :
  List.filter nonmark (reorder_insert c l) = List.filter nonmark (c :: l).
Proof.
  induction l as [|d l IH]; [done |]. cbn [reorder_insert].
  destruct (N.ltb 0 (combining d) && N.ltb (combining d) (combining c))%bool eqn:E; [| done].
  apply andb_true_iff in E as [Hd Hc]. apply N.ltb_lt in Hd, Hc.
  cbn [List.filter]. rewrite IH. cbn [List.filter].
  replace (N.eqb (combining d) 0) with false by (symmetry; apply N.eqb_neq; lia).
  replace (N.eqb (combining c) 0) with false by (symmetry; apply N.eqb_neq; lia).
  done.
Qed.

Lemma canonical_order_filter (s : pystr) :
  List.filter nonmark (canonical_order s) = List.filter nonmark s.
Proof.
  induction s as [|c s IH]; [done |]. cbn [canonical_order].
  rewrite reorder_insert_filter. cbn [List.filter]. by rewrite IH.
Qed.

Lemma canonical_order_no_marks (s : pystr) :
  Forall (fun c => combining c = 0%N) s -> canonical_order s = s.
Proof.
  induction 1 as [|c s Hc Hs IH]; [done |]. cbn [canonical_order]. rewrite IH.
  destruct Hs as [|d s Hd Hs]; [done |]. cbn [reorder_insert]. by rewrite Hd.
Qed.

Lemma flat_map_decomposition (s : pystr) :
  Forall (fun c => decomposition c = [c]) s -> flat_map decomposition s = s.
Proof. induction 1 as [|c s Hc Hs IH]; [done |]. cbn [flat_map]. by rewrite Hc, IH. Qed.

Lemma filter_all {A} (f : A -> bool) (l : list A) :
  Forall (fun x => f x = true) l -> List.filter f l = l.
Proof. induction 1 as [|x l Hx Hl IH]; [done |]. cbn [List.filter]. by rewrite Hx, IH. Qed.

Lemma normalize_NFKD_starters (s : pystr) :
  Forall starter s -> normalize_NFKD s = s /\ List.filter nonmark s = s.
Proof.
  intros Hs. unfold normalize_NFKD. split.
  - rewrite flat_map_decomposition.
    + apply canonical_order_no_marks. eapply Forall_impl; [exact Hs |]. by intros c [_ ?].
    + eapply Forall_impl; [exact Hs |]. by intros c [? _].
  - apply filter_all. eapply Forall_impl; [exact Hs |]. intros c [_ Hc]. by rewrite Hc.
Qed.

Lemma lower_elem (s : pystr) (d : char) :
  d ∈ lower s -> exists i c, s !! i = Some c /\ d ∈ lower_at s i c.
Proof.
  unfold lower. intros H. apply list_elem_of_In, in_concat in H as (l & Hl & Hd).
  apply list_elem_of_In, elem_of_lookup_imap in Hl as (i & c & -> & Hc).
  exists i, c. split; [done | by apply list_elem_of_In].
Qed.

Lemma concat_imap_singletons {A} (f : nat -> A -> list A) (l : list A) :
  (forall i x, l !! i = Some x -> f i x = [x]) -> concat (imap f l) = l.
Proof.
  revert f. induction l as [|x l IH]; intros f H; [done |]. cbn [imap concat].
  rewrite (H 0 x) by done. cbn [app]. f_equal. apply IH.
  intros i y Hy. apply (H (S i) y Hy).
Qed.

Lemma lower_lowered (s : pystr) : Forall lowered s -> lower s = s.
Proof.
  intros Hs. unfold lower. apply concat_imap_singletons.
  intros i c Hc. unfold lower_at.
  assert (Hl : lowered c).
  { by eapply Forall_lookup_1. }
  destruct Hl as [Hl Hne]. apply N.eqb_neq in Hne. by rewrite Hne.
Qed.

Lemma sub_spaces_elem (s : pystr) (d : char) :
  d ∈ sub_spaces s -> d = SPACE \/ (d ∈ s /\ isspace d = false).
Proof.
  induction s as [|c s IH]; cbn [sub_spaces]; [intros H; by apply elem_of_nil in H |].
  destruct (isspace c) eqn:Ec.
  - destruct s as [|e s].
    + intros H. apply list_elem_of_singleton in H. by left.
    + destruct (isspace e) eqn:Ee.
      * intros H. destruct (IH H) as [?|[? ?]]; [by left |]. right. split; [by right | done].
      * intros H. apply elem_of_cons in H as [->|H]; [by left |].
        destruct (IH H) as [?|[? ?]]; [by left |]. right. split; [by right | done].
  - intros H. apply elem_of_cons in H as [->|H].
    + right. split; [by left | done].
    + destruct (IH H) as [?|[? ?]]; [by left |]. right. split; [by right | done].
Qed.

Lemma sub_spaces_head (s : pystr) :
  match s, sub_spaces s with
  | [], r => r = []
  | c :: _, d :: _ => isspace d = isspace c \/ (isspace c = true /\ d = SPACE)
  | _ :: _, [] => False
  end.
Proof.
  induction s as [|c s IH]; [done |]. cbn [sub_spaces].
  destruct (isspace c) eqn:Ec.
  - destruct s as [|e s]; [by right |].
    destruct (isspace e) eqn:Ee; [| by right].
    destruct (sub_spaces (e :: s)) as [|d r]; [done |].
    destruct IH as [IH|[_ IH]]; [left; congruence | by right].
  - by left.
Qed.

Lemma lstrip_suffix (s : pystr) : exists pre, s = pre ++ lstrip s.
Proof.
  induction s as [|c s [pre IH]]; [by exists [] |]. cbn [lstrip].
  destruct (isspace c); [| by exists []]. exists (c :: pre). cbn. by rewrite <- IH.
Qed.

Lemma lstrip_head (s : pystr) :
  match lstrip s with
  | [] => True
  | c :: _ => isspace c = false
  end.
Proof.
  induction s as [|c s IH]; [done |]. cbn [lstrip].
  destruct (isspace c) eqn:E; [done | by rewrite E].
Qed.

Lemma lstrip_fixed (s : pystr) :
  match s with [] => True | c :: _ => isspace c = false end -> lstrip s = s.
Proof. destruct s as [|c s]; [done |]. cbn [lstrip]. by intros ->. Qed.

Lemma lstrip_idempotent (s : pystr) : lstrip (lstrip s) = lstrip s.
Proof. apply lstrip_fixed, lstrip_head. Qed.

Lemma rstrip_prefix (s : pystr) : exists post, s = rstrip s ++ post.
Proof.
  unfold rstrip. destruct (lstrip_suffix (rev s)) as [pre H].
  exists (rev pre). rewrite <- rev_app_distr, <- H. by rewrite rev_involutive.
Qed.

Lemma rstrip_idempotent (s : pystr) : rstrip (rstrip s) = rstrip s.
Proof. unfold rstrip. by rewrite rev_involutive, lstrip_idempotent. Qed.

Lemma strip_fixed (s : pystr) : lstrip s = s -> rstrip s = s -> strip s = s.
Proof. unfold strip. by intros -> ->. Qed.

Lemma strip_edges (s : pystr) : lstrip (strip s) = strip s /\ rstrip (strip s) = strip s.
Proof.
  unfold strip. split; [| apply rstrip_idempotent].
  apply lstrip_fixed.
  destruct (rstrip_prefix (lstrip s)) as [post H].
  pose proof (lstrip_head s) as Hh.
  destruct (rstrip (lstrip s)) as [|c r]; [done |].
  rewrite H in Hh. done.
Qed.

Lemma strip_infix (s : pystr) : exists pre post, s = pre ++ strip s ++ post.
Proof.
  unfold strip. destruct (lstrip_suffix s) as [pre H].
  destruct (rstrip_prefix (lstrip s)) as [post H'].
  exists pre, post. by rewrite <- H', <- H.
Qed.

End NormalizerStages.
Section NormalizerIdempotence.
Context {U : UnicodeData} {F : UnicodeFacts U}.

Local Abbreviation nonmark := (fun c : char => N.eqb (combining c) 0).

Lemma sub_spaces_cons (c : char) (s : pystr) :
  sub_spaces (c :: s) =
  if isspace c
  then match s with
       | d :: _ => if isspace d then sub_spaces s else SPACE :: sub_spaces s
       | [] => [SPACE]
       end
  else c :: sub_spaces s.
Proof. done. Qed.

Lemma collapsed_cons (c : char) (s : pystr) :
  collapsed (c :: s) =
  if isspace c
  then (N.eqb c SPACE
        && match s with d :: _ => negb (isspace d) | [] => true end
        && collapsed s)%bool
  else collapsed s.
Proof. done. Qed.

Lemma collapsed_sub_spaces (s : pystr) : collapsed (sub_spaces s) = true.
Proof.
  destruct space_stable as (_ & _ & _ & Hsp).
  induction s as [|c s IH]; [done |]. rewrite sub_spaces_cons.
  destruct (isspace c) eqn:Ec.
  - destruct s as [|e s].
    + by rewrite collapsed_cons, Hsp, N.eqb_refl.
    + destruct (isspace e) eqn:Ee; [exact IH |].
      pose proof (sub_spaces_head (e :: s)) as Hh. cbv beta iota in Hh.
      rewrite collapsed_cons, Hsp, IH, N.eqb_refl.
      destruct (sub_spaces (e :: s)) as [|d r]; [destruct Hh |].
      destruct Hh as [Hh|[Hh _]]; [| congruence]. by rewrite Hh, Ee.
  - by rewrite collapsed_cons, Ec.
Qed.

Lemma sub_spaces_collapsed (s : pystr) : collapsed s = true -> sub_spaces s = s.
Proof.
  induction s as [|c s IH]; [done |]. cbn [collapsed sub_spaces].
  destruct (isspace c) eqn:Ec.
  - rewrite !andb_true_iff. intros [[Hc Hn] Hs]. apply N.eqb_eq in Hc as ->.
    destruct s as [|d s]; [done |]. apply negb_true_iff in Hn. rewrite Hn.
    by rewrite IH.
  - intros Hs. by rewrite IH.
Qed.

Lemma collapsed_app (l1 l2 : pystr) :
  collapsed (l1 ++ l2) = true -> collapsed l1 = true /\ collapsed l2 = true.
Proof.
  induction l1 as [|c l1 IH]; [done |]. cbn [app collapsed].
  destruct (isspace c) eqn:Ec; [| done].
  rewrite !andb_true_iff. intros [[Hc Hn] Hs]. destruct (IH Hs) as [H1 H2].
  split; [| done]. split; [split; [done |] | done].
  by destruct l1.
Qed.

Lemma collapsed_strip (s : pystr) : collapsed s = true -> collapsed (strip s) = true.
Proof.
  intros H. destruct (strip_infix s) as (pre & post & Hs). rewrite Hs in H.
  apply collapsed_app in H as [_ H]. by apply collapsed_app in H as [H _].
Qed.

Lemma space_clean : clean SPACE.
Proof.
  destruct space_stable as (Hl & Hd & Hc & Hsp).
  split; [done |]. split; [split; [done | discriminate] |].
  rewrite Hsp. apply orb_true_r.
Qed.

Lemma no_diac_starters (s : pystr) (c : char) :
  c ∈ List.filter nonmark (normalize_NFKD s) -> starter c.
Proof.
  unfold normalize_NFKD. rewrite canonical_order_filter.
  intros H. apply list_elem_of_In, filter_In in H as [H Hc].
  apply in_flat_map in H as (c0 & _ & H). split.
  - by apply (decomposition_stable c0).
  - by apply N.eqb_eq in Hc.
Qed.

Lemma lower_starters (s : pystr) (d : char) :
  Forall starter s -> d ∈ lower s -> starter d /\ lowered d.
Proof.
  intros Hs Hd. apply lower_elem in Hd as (i & c & Hc & Hd).
  assert (Hst : starter c) by (by eapply Forall_lookup_1).
  destruct Hst as [Hdec Hcomb]. unfold lower_at in Hd.
  destruct (N.eqb c SIGMA) eqn:E.
  - apply list_elem_of_singleton in Hd.
    assert (Hsig : d = sigma \/ d = final_sigma_char).
    { destruct (final_sigma s i); auto. }
    destruct (sigma_stable d Hsig) as (Hl & Hde & Hco).
    split; [done |]. split; [done |].
    destruct Hsig as [-> | ->]; discriminate.
  - apply N.eqb_neq in E. apply list_elem_of_In in Hd.
    destruct (tolower_stable c d E Hd) as [Hl Hne].
    destruct (tolower_starter c d E Hdec Hcomb Hd) as [Hde Hco].
    done.
Qed.

Lemma strip_elem (s : pystr) (d : char) : d ∈ strip s -> d ∈ s.
Proof.
  intros H. destruct (strip_infix s) as (pre & post & Hs). rewrite Hs.
  apply elem_of_app. right. apply elem_of_app. by left.
Qed.

(** What the normaliser returns for text. *)
Lemma normalize_name_shape (s : pystr) :
  let y := normalize_name (VStr s) in
  Forall clean y /\ collapsed y = true /\ lstrip y = y /\ rstrip y = y.
Proof.
  cbn zeta. unfold normalize_name.
  set (nd := List.filter nonmark (normalize_NFKD s)).
  set (w := sub_nonword_nonspace (lower nd)).
  split; [| split; [apply collapsed_strip, collapsed_sub_spaces | apply strip_edges]].
  apply Forall_forall. intros d Hd.
  apply strip_elem, sub_spaces_elem in Hd as [-> | [Hd Hsp]]; [apply space_clean |].
  unfold w, sub_nonword_nonspace in Hd.
  apply list_elem_of_In, filter_In in Hd as [Hd Hw].
  rewrite <- list_elem_of_In in Hd. apply lower_starters in Hd as [Hst Hlo].
  - done.
  - apply Forall_forall. intros c Hc. by apply (no_diac_starters s).
Qed.

Lemma normalize_name_fixed (y : pystr) :
  Forall clean y -> collapsed y = true -> lstrip y = y -> rstrip y = y ->
  normalize_name (VStr y) = y.
Proof.
  intros Hclean Hcol Hl Hr. unfold normalize_name.
  assert (Hst : Forall starter y).
  { eapply Forall_impl; [exact Hclean |]. by intros c (? & _). }
  assert (Hlo : Forall lowered y).
  { eapply Forall_impl; [exact Hclean |]. by intros c (_ & ? & _). }
  destruct (normalize_NFKD_starters y Hst) as [-> ->].
  rewrite lower_lowered by done.
  unfold sub_nonword_nonspace. rewrite filter_all.
  - rewrite sub_spaces_collapsed by done. by apply strip_fixed.
  - eapply Forall_impl; [exact Hclean |]. by intros c (_ & _ & ?).
Qed.

Lemma normalize_name_idempotent (x : value) :
  normalize_name (VStr (normalize_name x)) = normalize_name x.
Proof.
  assert (He : normalize_name (VStr []) = []) by done.
  destruct x as [| | | | s | |]; try exact He.
  destruct (normalize_name_shape s) as (H1 & H2 & H3 & H4).
  by apply normalize_name_fixed.
Qed.

End NormalizerIdempotence.
(** ** The normaliser on Latin text

    On text made of ASCII and [U+00FC] every stage of the normaliser
    reads only table entries that [LatinFacts] fixes, so it computes as
    with the small database [fragment]. *)

Section LatinText.
Context {U : UnicodeData} {L : LatinFacts U}.

Local Abbreviation ascii := (fun c : char => (c < 128)%N).
Local Abbreviation decomposed := (fun c : char => (c < 128)%N \/ c = COMBINING_DIAERESIS).

Lemma combining_agrees (c : char) :
  decomposed c -> @combining U c = @combining fragment c.
Proof.
  intros [Hc | ->].
  - rewrite ascii_combining by done. cbn.
    destruct (N.eqb_spec c COMBINING_DIAERESIS) as [-> |]; [done | done].
  - by rewrite combining_diaeresis_class.
Qed.

Lemma decomposition_agrees (s : pystr) :
  Forall (fun c => (c < 128)%N \/ c = U_DIAERESIS) s ->
  flat_map (@decomposition U) s = flat_map (@decomposition fragment) s /\
  Forall decomposed (flat_map (@decomposition U) s).
Proof.
  induction 1 as [|c s Hc Hs [IH1 IH2]]; [done |]. cbn [flat_map]. rewrite <- IH1.
  destruct Hc as [Hc | ->].
  - rewrite ascii_decomposition by done. cbn [decomposition fragment].
    destruct (N.eqb_spec c U_DIAERESIS) as [-> |]; [done |].
    split; [done |]. cbn [app]. constructor; [by left | done].
  - rewrite u_diaeresis_decomposition. split; [done |]. cbn [app].
    constructor; [by left |]. constructor; [by right | done].
Qed.

Lemma reorder_insert_Forall {V : UnicodeData} (P : char -> Prop) (c : char) (l : pystr) :
  P c -> Forall P l -> Forall P (@reorder_insert V c l).
Proof.
  intros Hc Hl. induction Hl as [|d l Hd Hl IH]; cbn [reorder_insert].
  - by constructor.
  - destruct (_ && _)%bool; constructor; try done. by constructor.
Qed.

Lemma canonical_order_Forall {V : UnicodeData} (P : char -> Prop) (s : pystr) :
  Forall P s -> Forall P (@canonical_order V s).
Proof.
  induction 1 as [|c s Hc Hs IH]; cbn [canonical_order]; [done |].
  by apply reorder_insert_Forall.
Qed.

Lemma reorder_insert_agrees (c : char) (l : pystr) :
  decomposed c -> Forall decomposed l ->
  @reorder_insert U c l = @reorder_insert fragment c l.
Proof.
  intros Hc Hl. induction Hl as [|d l Hd Hl IH]; cbn [reorder_insert]; [done |].
  rewrite (combining_agrees c Hc), (combining_agrees d Hd), IH. done.
Qed.

Lemma canonical_order_agrees (s : pystr) :
  Forall decomposed s -> @canonical_order U s = @canonical_order fragment s.
Proof.
  induction 1 as [|c s Hc Hs IH]; cbn [canonical_order]; [done |].
  rewrite IH. apply reorder_insert_agrees; [done |]. by apply canonical_order_Forall.
Qed.

Lemma nonmark_filter_agrees (s : pystr) :
  Forall decomposed s ->
  List.filter (fun c => N.eqb (@combining U c) 0) s =
    List.filter (fun c => N.eqb (@combining fragment c) 0) s /\
  Forall ascii (List.filter (fun c => N.eqb (@combining U c) 0) s).
Proof.
  induction 1 as [|c s Hc Hs [IH1 IH2]]; [done |]. cbn [List.filter].
  rewrite <- (combining_agrees c Hc), <- IH1.
  destruct (N.eqb_spec (@combining U c) 0) as [H0 | H0]; [| done].
  split; [done |]. constructor; [| done].
  destruct Hc as [Hc | ->]; [done |]. by rewrite combining_diaeresis_class in H0.
Qed.

Lemma concat_imap_map {A B} (f : nat -> A -> list B) (g : A -> B) (l : list A) :
  (forall i x, l !! i = Some x -> f i x = [g x]) -> concat (imap f l) = List.map g l.
Proof.
  revert f. induction l as [|x l IH]; intros f H; [done |]. cbn [imap concat List.map].
  rewrite (H 0 x) by done. cbn [app]. f_equal. apply IH.
  intros i y Hy. apply (H (S i) y Hy).
Qed.

Lemma lower_ascii {V : UnicodeData} (s : pystr) :
  (forall c, (c < 128)%N -> @tolower V c = [ascii_lower_of c]) ->
  Forall ascii s -> @lower V s = List.map ascii_lower_of s.
Proof.
  intros Htab Hs. unfold lower. apply concat_imap_map. intros i c Hc.
  pose proof (Forall_lookup_1 _ _ _ _ Hs Hc) as Hlt. cbn beta in Hlt.
  unfold lower_at. destruct (N.eqb_spec c SIGMA) as [-> |]; [done |]. by apply Htab.
Qed.

Lemma ascii_lower_of_ascii (c : char) : (c < 128)%N -> (ascii_lower_of c < 128)%N.
Proof.
  unfold ascii_lower_of, ascii_upper. intros Hc.
  destruct (N.leb_spec 65 c), (N.leb_spec c 90); cbn; lia.
Qed.

Lemma lower_agrees (s : pystr) :
  Forall ascii s -> @lower U s = @lower fragment s /\ Forall ascii (@lower U s).
Proof.
  intros Hs. rewrite (@lower_ascii U s), (@lower_ascii fragment s); try done.
  - split; [done |]. apply Forall_forall. intros d Hd.
    apply elem_of_map in Hd as (c & -> & Hc). apply ascii_lower_of_ascii.
    by eapply (proj1 (Forall_forall _ _) Hs).
  - intros c Hc. apply ascii_tolower. done.
Qed.

Lemma class_agrees (c : char) :
  (c < 128)%N ->
  @is_word U c = @is_word fragment c /\ @isspace U c = @isspace fragment c.
Proof.
  intros Hc. unfold is_word. by rewrite ascii_isalnum, ascii_isspace.
Qed.

Lemma filter_Forall_stdlib {A} (P : A -> Prop) (f : A -> bool) (l : list A) :
  Forall P l -> Forall P (List.filter f l).
Proof.
  induction 1 as [|x l Hx Hl IH]; [done |]. cbn [List.filter].
  destruct (f x); [by constructor | done].
Qed.

Lemma sub_nonword_nonspace_agrees (s : pystr) :
  Forall ascii s ->
  @sub_nonword_nonspace U s = @sub_nonword_nonspace fragment s /\
  Forall ascii (@sub_nonword_nonspace U s).
Proof.
  intros Hs. unfold sub_nonword_nonspace. split; [| by apply filter_Forall_stdlib].
  induction Hs as [|c s Hc Hs IH]; [done |]. cbn [List.filter].
  destruct (class_agrees c Hc) as [-> ->]. by rewrite IH.
Qed.

Lemma sub_spaces_agrees (s : pystr) :
  Forall ascii s ->
  @sub_spaces U s = @sub_spaces fragment s /\ Forall ascii (@sub_spaces U s).
Proof.
  induction 1 as [|c s Hc Hs [IH1 IH2]]; [done |].
  rewrite !sub_spaces_cons, <- IH1. destruct (class_agrees c Hc) as [_ ->].
  destruct (@isspace fragment c).
  - destruct Hs as [|d s Hd Hs].
    + split; [done |]. by constructor.
    + destruct (class_agrees d Hd) as [_ ->]. destruct (@isspace fragment d).
      * done.
      * split; [done |]. by constructor.
  - split; [done |]. by constructor.
Qed.

Lemma lstrip_agrees (s : pystr) :
  Forall ascii s -> @lstrip U s = @lstrip fragment s /\ Forall ascii (@lstrip U s).
Proof.
  induction 1 as [|c s Hc Hs [IH1 IH2]]; [done |]. cbn [lstrip].
  destruct (class_agrees c Hc) as [_ ->]. destruct (@isspace fragment c); [done |].
  split; [done |]. by constructor.
Qed.

Lemma strip_agrees (s : pystr) :
  Forall ascii s -> @strip U s = @strip fragment s.
Proof.
  intros Hs. unfold strip, rstrip.
  destruct (lstrip_agrees s Hs) as [<- Hl].
  f_equal. apply lstrip_agrees. by apply Forall_rev.
Qed.

Lemma normalize_name_agrees (s : pystr) :
  Forall (fun c => (c < 128)%N \/ c = U_DIAERESIS) s ->
  @normalize_name U (VStr s) = @normalize_name fragment (VStr s).
Proof.
  intros Hs. unfold normalize_name, normalize_NFKD.
  destruct (decomposition_agrees s Hs) as [<- H1].
  rewrite <- (canonical_order_agrees _ H1).
  pose proof (@canonical_order_Forall U _ _ H1) as H2.
  destruct (nonmark_filter_agrees _ H2) as [<- H3].
  destruct (lower_agrees _ H3) as [<- H4].
  destruct (sub_nonword_nonspace_agrees _ H4) as [<- H5].
  destruct (sub_spaces_agrees _ H5) as [<- H6].
  by apply strip_agrees.
Qed.

End LatinText.
(** The small database satisfies the facts. *)

Lemma ascii_lower_of_stable (c : char) : ascii_lower_of (ascii_lower_of c) = ascii_lower_of c.
Proof.
  unfold ascii_lower_of at 2 3. destruct (ascii_upper c) eqn:E; unfold ascii_lower_of.
  - replace (ascii_upper (c + 32)%N) with false; [done |].
    unfold ascii_upper in *. apply andb_true_iff in E as [H1 H2].
    apply N.leb_le in H1, H2. symmetry. apply andb_false_iff. right.
    apply N.leb_gt. lia.
  - by rewrite E.
Qed.

Lemma ascii_lower_of_cases (c : char) :
  ascii_lower_of c = c \/ (ascii_lower_of c <= 122)%N.
Proof.
  unfold ascii_lower_of, ascii_upper.
  destruct (N.leb_spec 65 c), (N.leb_spec c 90); cbn [andb]; try (by left). right. lia.
Qed.

Lemma fragment_facts : UnicodeFacts fragment.
Proof.
  split.
  - intros c d. cbn [decomposition fragment].
    destruct (N.eqb_spec c U_DIAERESIS) as [-> | Hne].
    + intros [<- | [<- | []]]; done.
    + intros [<- | []]. destruct (N.eqb_spec c U_DIAERESIS); done.
  - intros c d Hc. cbn [tolower fragment]. intros [<- | []].
    rewrite ascii_lower_of_stable. split; [done |].
    destruct (ascii_lower_of_cases c) as [-> | Hle]; [done |].
    intros Heq. rewrite Heq in Hle. by vm_compute in Hle.
  - intros c d Hc. cbn [tolower decomposition combining fragment].
    intros Hdec Hcomb [<- | []].
    destruct (ascii_lower_of_cases c) as [-> | Hle]; [done |].
    destruct (N.eqb_spec (ascii_lower_of c) U_DIAERESIS) as [Heq | _].
    { rewrite Heq in Hle. by vm_compute in Hle. }
    destruct (N.eqb_spec (ascii_lower_of c) COMBINING_DIAERESIS) as [Heq | _].
    { rewrite Heq in Hle. by vm_compute in Hle. }
    done.
  - intros c [-> | ->]; done.
  - done.
Qed.

Lemma fragment_latin : LatinFacts fragment.
Proof.
  split; try done.
  - intros c Hc. cbn [decomposition fragment].
    destruct (N.eqb_spec c U_DIAERESIS) as [-> |]; done.
  - intros c Hc. cbn [combining fragment].
    destruct (N.eqb_spec c COMBINING_DIAERESIS) as [-> |]; done.
Qed.

Section NormalizerSpec.
Context {U : UnicodeData} {F : UnicodeFacts U} {L : LatinFacts U}.

(** C6: the normaliser is idempotent, returns the empty text for null
    and every other non-text input, and maps both "Müller" and "Muller"
    to "muller". *)
Theorem normalizer_spec :
  (forall x : value, normalize_name (VStr (normalize_name x)) = normalize_name x) /\
  (forall x : value, isinstance_str x = false -> normalize_name x = []) /\
  normalize_name VNone = [] /\
  normalize_name (VStr [77; U_DIAERESIS; 108; 108; 101; 114]%N) = lit "muller" /\
  normalize_name (VStr (lit "Muller")) = lit "muller".
Proof.
  split; [apply normalize_name_idempotent |].
  split; [by intros [] |]. split; [done |]. split.
  - rewrite normalize_name_agrees; [by vm_compute |].
    repeat (constructor; [first [by left | by right] |]). constructor.
  - rewrite normalize_name_agrees; [by vm_compute |].
    apply Forall_forall. intros c Hc. left. vm_compute in Hc.
    repeat (apply elem_of_cons in Hc as [-> | Hc]; [done |]). by apply elem_of_nil in Hc.
Qed.

End NormalizerSpec.

Lemma normalizer_spec_witness :
  @normalize_name fragment (VStr [77; U_DIAERESIS; 108; 108; 101; 114]%N) = lit "muller" /\
  @normalize_name fragment
    (VStr (@normalize_name fragment (VStr (lit "  Jon   SMITH-Jones ")))) =
  @normalize_name fragment (VStr (lit "  Jon   SMITH-Jones ")).
Proof.
  destruct (@normalizer_spec fragment fragment_facts fragment_latin)
    as (Hidem & _ & _ & Hm & _).
  exact (conj Hm (Hidem (VStr (lit "  Jon   SMITH-Jones ")))).
Defined.
(** ** SimilarityScorer: windows and bounds *)

Section MatcherBounds.
Variables a b : pystr.

Lemma scan_row_range (alo ahi blo bhi i : nat) (j2len : gmap nat nat) (js : list nat)
    (newj2len : gmap nat nat) (best : nat * nat * nat) :
  alo <= i -> i < ahi ->
  row_bound alo blo i j2len ->
  row_bound alo blo (S i) newj2len -> in_range alo ahi blo bhi best ->
  row_bound alo blo (S i) (fst (scan_row blo bhi i j2len js (newj2len, best))) /\
  in_range alo ahi blo bhi (snd (scan_row blo bhi i j2len js (newj2len, best))).
Proof.
  intros Hlo Hhi Hrow. revert newj2len best.
  induction js as [|j js IH]; intros newj2len best Hnew Hbest; [done |].
  cbn [scan_row].
  destruct (Nat.ltb j blo) eqn:Ejlo; [by apply IH |].
  destruct (Nat.leb bhi j) eqn:Ejhi; [done |].
  apply Nat.ltb_ge in Ejlo. apply Nat.leb_gt in Ejhi.
  destruct best as [[besti bestj] bestsize].
  set (k := j2lenget_pred j2len j + 1).
  assert (Hk : k + alo <= S i /\ k + blo <= j + 1).
  { unfold k, j2lenget_pred. destruct j as [|j']; [cbn; lia |].
    destruct (j2len !! j') as [k'|] eqn:E; simpl.
    - destruct (Hrow j' k' E). lia.
    - lia. }
  apply IH.
  - intros j0 k0. rewrite lookup_insert. case_decide as Hj.
    + intros [= <-]. subst j0. lia.
    + apply Hnew.
  - destruct (Nat.ltb bestsize k); [| done].
    unfold in_range. cbn [fst snd]. lia.
Qed.

Lemma scan_step_range (alo ahi blo bhi i : nat) (st : gmap nat nat * (nat * nat * nat)) :
  alo <= i -> i < ahi ->
  row_bound alo blo i (fst st) -> in_range alo ahi blo bhi (snd st) ->
  row_bound alo blo (S i) (fst (scan_step a b blo bhi st i)) /\
  in_range alo ahi blo bhi (snd (scan_step a b blo bhi st i)).
Proof.
  intros Hlo Hhi Hrow Hbest. destruct st as [j2len best]. unfold scan_step.
  apply scan_row_range; done.
Qed.

Lemma scan_fold_range (alo ahi blo bhi i n : nat) (st : gmap nat nat * (nat * nat * nat)) :
  alo <= i -> i + n <= ahi ->
  row_bound alo blo i (fst st) -> in_range alo ahi blo bhi (snd st) ->
  in_range alo ahi blo bhi (snd (fold_left (scan_step a b blo bhi) (seq i n) st)).
Proof.
  revert i st. induction n as [|n IH]; intros i st Hlo Hhi Hrow Hbest; [done |].
  cbn [seq fold_left].
  destruct (scan_step_range alo ahi blo bhi i st) as [H1 H2]; try done; try lia.
  apply IH; try done; lia.
Qed.

Lemma extend_back_range (want_junk : bool) (alo ahi blo bhi besti bestj bestsize : nat) :
  in_range alo ahi blo bhi (besti, bestj, bestsize) ->
  in_range alo ahi blo bhi (extend_back a b want_junk alo blo besti bestj bestsize).
Proof.
  revert bestj bestsize. induction besti as [|i' IH]; intros bestj bestsize H; [done |].
  cbn [extend_back]. destruct bestj as [|j']; [done |].
  destruct (_ && _)%bool eqn:E; [| done].
  rewrite !andb_true_iff in E. destruct E as [[[E1 E2] _] _].
  apply Nat.ltb_lt in E1, E2. apply IH.
  unfold in_range in *. cbn [fst snd] in *. lia.
Qed.

Lemma extend_forward_range (turns : nat) (want_junk : bool)
    (alo ahi blo bhi besti bestj bestsize : nat) :
  in_range alo ahi blo bhi (besti, bestj, bestsize) ->
  in_range alo ahi blo bhi
    (besti, bestj, extend_forward a b turns want_junk ahi bhi besti bestj bestsize).
Proof.
  revert bestsize. induction turns as [|t IH]; intros bestsize H; [done |].
  cbn [extend_forward]. destruct (_ && _)%bool eqn:E; [| done].
  rewrite !andb_true_iff in E. destruct E as [[[E1 E2] _] _].
  apply Nat.ltb_lt in E1, E2. apply IH.
  unfold in_range in *. cbn [fst snd] in *. lia.
Qed.

(** The block that [find_longest_match] returns lies in its window. *)
Lemma find_longest_match_range (alo ahi blo bhi : nat) :
  alo <= ahi -> blo <= bhi ->
  in_range alo ahi blo bhi (find_longest_match a b alo ahi blo bhi).
Proof.
  intros Ha Hb. unfold find_longest_match.
  pose proof (scan_fold_range alo ahi blo bhi alo (ahi - alo) (∅, (alo, blo, 0))) as Hscan.
  destruct (fold_left _ _ _) as [j2len [[besti bestj] bestsize]].
  cbn [fst snd] in Hscan.
  assert (H1 : in_range alo ahi blo bhi (besti, bestj, bestsize)).
  { apply Hscan; try lia.
    - intros j k. by rewrite lookup_empty.
    - unfold in_range. cbn [fst snd]. lia. }
  pose proof (extend_back_range false alo ahi blo bhi _ _ _ H1) as H2.
  destruct (extend_back a b false alo blo besti bestj bestsize) as [[bi bj] bs].
  pose proof (extend_forward_range (ahi - (bi + bs)) false alo ahi blo bhi _ _ _ H2) as H3.
  pose proof (extend_back_range true alo ahi blo bhi _ _ _ H3) as H4.
  destruct (extend_back a b true alo blo bi bj _) as [[bi' bj'] bs'].
  by apply extend_forward_range.
Qed.

End MatcherBounds.
Section MatcherQueue.
Variables a b : pystr.

Lemma block_sizes_app (l1 l2 : list (nat * nat * nat)) :
  block_sizes (l1 ++ l2) = block_sizes l1 + block_sizes l2.
Proof. unfold block_sizes. by rewrite map_app, list_sum_app. Qed.

Lemma list_sum_Permutation (l1 l2 : list nat) : l1 ≡ₚ l2 -> list_sum l1 = list_sum l2.
Proof.
  induction 1 as [|x l l' _ IH|x y l|l l' l'' _ IH1 _ IH2]; simpl; lia.
Qed.

Lemma block_sizes_Permutation (l1 l2 : list (nat * nat * nat)) :
  l1 ≡ₚ l2 -> block_sizes l1 = block_sizes l2.
Proof.
  intros H. unfold block_sizes. apply list_sum_Permutation. by apply Permutation_map.
Qed.

Lemma block_sizes_snoc (l : list (nat * nat * nat)) (i j k : nat) :
  block_sizes (l ++ [(i, j, k)]) = block_sizes l + k.
Proof. rewrite block_sizes_app. unfold block_sizes at 2. cbn. lia. Qed.

Lemma queue_a_cons (alo ahi blo bhi : nat) (q : list (nat * nat * nat * nat)) :
  queue_a ((alo, ahi, blo, bhi) :: q) = ahi - alo + queue_a q.
Proof. done. Qed.

Lemma queue_b_cons (alo ahi blo bhi : nat) (q : list (nat * nat * nat * nat)) :
  queue_b ((alo, ahi, blo, bhi) :: q) = bhi - blo + queue_b q.
Proof. done. Qed.

Lemma queue_measure_cons (alo ahi blo bhi : nat) (q : list (nat * nat * nat * nat)) :
  queue_measure ((alo, ahi, blo, bhi) :: q) = 2 * (ahi - alo) + 1 + queue_measure q.
Proof. done. Qed.

(** One turn of the queue loop keeps the windows inside the strings,
    does not let "matched plus still to look at" grow, and shrinks the
    measure. *)
Lemma queue_step_spec (la lb : nat) (w : nat * nat * nat * nat)
    (queue : list (nat * nat * nat * nat)) (blocks : list (nat * nat * nat)) :
  Forall (window_ok la lb) (w :: queue) ->
  let st' := queue_step a b (w :: queue, blocks) in
  Forall (window_ok la lb) (fst st') /\
  block_sizes (snd st') + queue_a (fst st') <= block_sizes blocks + queue_a (w :: queue) /\
  block_sizes (snd st') + queue_b (fst st') <= block_sizes blocks + queue_b (w :: queue) /\
  queue_measure (fst st') < queue_measure (w :: queue).
Proof.
  intros Hok. apply Forall_cons in Hok as [Hw Hq].
  destruct w as [[[alo ahi] blo] bhi]. destruct Hw as (H1 & H2 & H3 & H4).
  cbn [fst snd] in H1, H2, H3, H4. cbn zeta. cbn [queue_step].
  pose proof (find_longest_match_range a b alo ahi blo bhi H1 H3) as Hr.
  destruct (find_longest_match a b alo ahi blo bhi) as [[i j] k].
  destruct Hr as (R1 & R2 & R3 & R4). cbn [fst snd] in R1, R2, R3, R4.
  rewrite queue_a_cons, queue_b_cons, queue_measure_cons.
  destruct (Nat.eqb k 0) eqn:Ek.
  { cbn [fst snd]. split; [done |]. split; [lia |]. split; [lia | lia]. }
  apply Nat.eqb_neq in Ek.
  assert (Hw1 : window_ok la lb (alo, i, blo, j)).
  { unfold window_ok. cbn [fst snd]. lia. }
  assert (Hw2 : window_ok la lb (i + k, ahi, j + k, bhi)).
  { unfold window_ok. cbn [fst snd]. lia. }
  destruct (Nat.ltb alo i && Nat.ltb blo j)%bool eqn:E1;
    destruct (Nat.ltb (i + k) ahi && Nat.ltb (j + k) bhi)%bool eqn:E2;
    cbn [fst snd];
    rewrite ?queue_a_cons, ?queue_b_cons, ?queue_measure_cons, block_sizes_snoc.
  all: split; [repeat (apply Forall_cons; split; [done |]); done |].
  all: split; [lia |]. all: split; lia.
Qed.

Lemma queue_loop_spec (la lb turns : nat)
    (queue : list (nat * nat * nat * nat)) (blocks : list (nat * nat * nat)) :
  Forall (window_ok la lb) queue ->
  let st' := queue_loop a b turns (queue, blocks) in
  block_sizes (snd st') + queue_a (fst st') <= block_sizes blocks + queue_a queue /\
  block_sizes (snd st') + queue_b (fst st') <= block_sizes blocks + queue_b queue /\
  (queue_measure queue < turns -> fst st' = []).
Proof.
  revert queue blocks. induction turns as [|t IH]; intros queue blocks Hok; cbn zeta.
  - cbn [queue_loop fst snd]. split; [done |]. split; [done |]. lia.
  - cbn [queue_loop fst]. destruct queue as [|w queue].
    + cbn [fst snd]. done.
    + destruct (queue_step_spec la lb w queue blocks Hok) as (S1 & S2 & S3 & S4).
      destruct (queue_step a b (w :: queue, blocks)) as [queue' blocks'].
      cbn [fst snd] in S1, S2, S3, S4.
      destruct (IH queue' blocks' S1) as (L1 & L2 & L3).
      split; [lia |]. split; [lia |]. intros Hm. apply L3. lia.
Qed.

Lemma block_sizes_cons (i j k : nat) (l : list (nat * nat * nat)) :
  block_sizes ((i, j, k) :: l) = k + block_sizes l.
Proof. done. Qed.

Lemma collapse_fold_sizes (blocks : list (nat * nat * nat))
    (cur : nat * nat * nat) (non_adjacent : list (nat * nat * nat)) :
  let st' := fold_left collapse_step blocks (cur, non_adjacent) in
  block_sizes (snd st') + snd (fst st') =
  block_sizes non_adjacent + snd cur + block_sizes blocks.
Proof.
  revert cur non_adjacent. induction blocks as [|[[i2 j2] k2] blocks IH];
    intros [[i1 j1] k1] non_adjacent; cbn zeta.
  - cbn [fold_left fst snd]. change (block_sizes []) with 0. lia.
  - cbn [fold_left collapse_step]. rewrite block_sizes_cons.
    destruct (Nat.eqb (i1 + k1) i2 && Nat.eqb (j1 + k1) j2)%bool.
    + rewrite IH. cbn [fst snd]. lia.
    + rewrite IH. cbn [fst snd]. destruct (Nat.eqb k1 0) eqn:Ek.
      * apply Nat.eqb_eq in Ek. lia.
      * rewrite block_sizes_snoc. lia.
Qed.

(** The matches counted by [ratio] are the blocks that the queue loop
    found, and the loop has emptied its queue. *)
Lemma get_matching_blocks_sizes :
  let final := queue_loop a b (queue_turns a) ([(0, length a, 0, length b)], []) in
  fst final = [] /\
  block_sizes (get_matching_blocks a b) = block_sizes (snd final) /\
  block_sizes (snd final) <= length a /\ block_sizes (snd final) <= length b.
Proof.
  cbn zeta.
  assert (Hok : Forall (window_ok (length a) (length b)) [(0, length a, 0, length b)]).
  { constructor; [| done]. unfold window_ok. cbn [fst snd]. lia. }
  destruct (queue_loop_spec (length a) (length b) (queue_turns a) _ [] Hok)
    as (L1 & L2 & L3).
  unfold get_matching_blocks.
  destruct (queue_loop a b (queue_turns a) _) as [queue blocks].
  cbn [fst snd] in *.
  rewrite queue_a_cons in L1. rewrite queue_b_cons in L2. rewrite queue_measure_cons in L3.
  change (block_sizes []) with 0 in *. change (queue_a []) with 0 in *.
  change (queue_b []) with 0 in *. change (queue_measure []) with 0 in *.
  unfold queue_turns in L3.
  split; [apply L3; lia |]. split; [| lia].
  set (sorted := merge_sort _ blocks).
  pose proof (collapse_fold_sizes sorted (0, 0, 0) []) as Hc. cbn zeta in Hc.
  destruct (fold_left collapse_step sorted _) as [[[i1 j1] k1] non_adjacent].
  cbn [fst snd] in Hc. change (block_sizes []) with 0 in Hc.
  assert (Hs : block_sizes sorted = block_sizes blocks).
  { apply block_sizes_Permutation, merge_sort_Permutation. }
  rewrite Hs in Hc.
  destruct (Nat.eqb k1 0) eqn:Ek.
  - apply Nat.eqb_eq in Ek. rewrite block_sizes_snoc. lia.
  - rewrite !block_sizes_snoc. lia.
Qed.

End MatcherQueue.
Section RatioBounds.
Variables a b : pystr.

Lemma ratio_block_sizes :
  ratio a b = calculate_ratio (block_sizes (get_matching_blocks a b)) (length a + length b).
Proof. done. Qed.

Lemma Zpos_of_nat (n : nat) : n <> 0 -> Z.pos (Pos.of_nat n) = Z.of_nat n.
Proof.
  intros Hn. rewrite <- positive_nat_Z. by rewrite Nat2Pos.id.
Qed.

Lemma calculate_ratio_bounds (matches len : nat) :
  2 * matches <= len -> (0 <= calculate_ratio matches len <= 1)%Q.
Proof.
  intros H. unfold calculate_ratio. destruct (Nat.eqb len 0) eqn:E; [done |].
  apply Nat.eqb_neq in E. unfold Qle. cbn [Qnum Qden].
  rewrite (Zpos_of_nat len E). split; lia.
Qed.

Lemma ratio_bounds : (0 <= ratio a b <= 1)%Q.
Proof.
  rewrite ratio_block_sizes. apply calculate_ratio_bounds.
  destruct (get_matching_blocks_sizes a b) as (_ & -> & H1 & H2). lia.
Qed.

End RatioBounds.

Section Disjoint.
Variables a b : pystr.

Lemma chain_fold_dom (l : list (nat * char)) (m : gmap char (list nat)) (x : char) :
  is_Some (fold_left chain_step l m !! x) ->
  is_Some (m !! x) \/ x ∈ List.map snd l.
Proof.
  revert m. induction l as [|[i y] l IH]; intros m; cbn [fold_left]; [by left |].
  intros H. apply IH in H as [H|H].
  - unfold chain_step in H. rewrite lookup_insert in H. case_decide as E.
    + subst y. right. cbn. by left.
    + by left.
  - right. cbn. by right.
Qed.

Lemma enumerate_from_snd {A} (n : nat) (l : list A) :
  List.map snd (enumerate_from n l) = l.
Proof. revert n. induction l as [|x l IH]; intros n; cbn; [done | by rewrite IH]. Qed.

Lemma b2j_elem (x : char) (js : list nat) : b2j b !! x = Some js -> x ∈ b.
Proof.
  unfold b2j. intros H. apply map_lookup_filter_Some in H as [H _].
  assert (Hs : is_Some (b2j_full b !! x)) by eauto.
  unfold b2j_full in Hs. apply chain_fold_dom in Hs as [Hs|Hs].
  - rewrite lookup_empty in Hs. by destruct Hs.
  - unfold enumerate in Hs. by rewrite enumerate_from_snd in Hs.
Qed.

Hypothesis disjoint : forall x, x ∈ a -> x ∉ b.

Lemma disjoint_scan (blo bhi i n : nat) (j2len : gmap nat nat) (best : nat * nat * nat) :
  snd (fold_left (scan_step a b blo bhi) (seq i n) (j2len, best)) = best.
Proof.
  revert i j2len. induction n as [|n IH]; intros i j2len; [done |].
  cbn [seq fold_left]. unfold scan_step at 2.
  destruct (a !! i) as [x|] eqn:E.
  - destruct (b2j b !! x) as [js|] eqn:Ej.
    + exfalso. apply (disjoint x).
      * apply list_elem_of_lookup. eauto.
      * by eapply b2j_elem.
    + cbn [default scan_row]. apply IH.
  - cbn [scan_row]. apply IH.
Qed.

Lemma disjoint_char_eq_at (i j : nat) : char_eq_at a b i j = false.
Proof.
  unfold char_eq_at. destruct (a !! i) as [x|] eqn:Ea; [| done].
  destruct (b !! j) as [y|] eqn:Eb; [| done].
  apply N.eqb_neq. intros ->. apply (disjoint y); apply list_elem_of_lookup; eauto.
Qed.

Lemma disjoint_find_longest_match (alo ahi blo bhi : nat) :
  find_longest_match a b alo ahi blo bhi = (alo, blo, 0).
Proof.
  unfold find_longest_match.
  pose proof (disjoint_scan blo bhi alo (ahi - alo) ∅ (alo, blo, 0)) as H.
  destruct (fold_left _ _ _) as [j2len best]. cbn [snd] in H. subst best.
  assert (Hb : forall w, extend_back a b w alo blo alo blo 0 = (alo, blo, 0)).
  { intros w. destruct alo as [|alo'], blo as [|blo']; cbn [extend_back]; try done.
    by rewrite Nat.ltb_irrefl. }
  assert (Hf : forall t w, extend_forward a b t w ahi bhi alo blo 0 = 0).
  { intros t w. destruct t; cbn [extend_forward]; [done |].
    by rewrite disjoint_char_eq_at, andb_false_r. }
  by rewrite Hb, Hf, Hb, Hf.
Qed.

Lemma disjoint_blocks :
  block_sizes (get_matching_blocks a b) = 0.
Proof.
  destruct (get_matching_blocks_sizes a b) as (_ & -> & _).
  unfold queue_turns. replace (2 * length a + 2) with (S (2 * length a + 1)) by lia.
  cbn [queue_loop fst queue_step]. rewrite disjoint_find_longest_match.
  cbn [Nat.eqb]. by destruct (2 * length a + 1).
Qed.

Lemma disjoint_ratio : length a + length b <> 0 -> (ratio a b == 0)%Q.
Proof.
  intros Hlen. rewrite ratio_block_sizes, disjoint_blocks. unfold calculate_ratio.
  apply Nat.eqb_neq in Hlen. by rewrite Hlen.
Qed.

End Disjoint.
(** ** SimilarityScorer: a string against itself *)

Section Positions.

Lemma chain_fold_positions (l : pystr) (n : nat) (m : gmap char (list nat)) (x : char) :
  fold_left chain_step (enumerate_from n l) m !! x =
  match positions_from x n l with
  | [] => m !! x
  | ps => Some (default [] (m !! x) ++ ps)
  end.
Proof.
  revert n m. induction l as [|y l IH]; intros n m; [done |].
  cbn [enumerate_from fold_left positions_from]. rewrite IH. unfold chain_step.
  destruct (N.eqb_spec y x) as [-> | Hne].
  - rewrite lookup_insert_eq.
    destruct (positions_from x (S n) l); simpl; [done |]. by rewrite <- app_assoc.
  - by rewrite lookup_insert_ne.
Qed.

Lemma b2j_full_positions (l : pystr) (x : char) :
  b2j_full l !! x =
  match positions_from x 0 l with
  | [] => None
  | ps => Some ps
  end.
Proof.
  unfold b2j_full, enumerate. rewrite chain_fold_positions, lookup_empty.
  by destruct (positions_from x 0 l).
Qed.

Lemma b2j_positions (l : pystr) (x : char) (js : list nat) :
  b2j l !! x = Some js -> js = positions_from x 0 l.
Proof.
  unfold b2j. intros H. apply map_lookup_filter_Some in H as [H _].
  rewrite b2j_full_positions in H. destruct (positions_from x 0 l); congruence.
Qed.

Lemma elem_of_positions_from (x : char) (n : nat) (l : pystr) (j : nat) :
  j ∈ positions_from x n l -> n <= j /\ l !! (j - n) = Some x.
Proof.
  revert n. induction l as [|y l IH]; intros n; cbn [positions_from].
  - intros H. by apply elem_of_nil in H.
  - destruct (N.eqb_spec y x) as [-> | Hne].
    + intros H. apply elem_of_cons in H as [-> | H].
      * split; [lia |]. by rewrite Nat.sub_diag.
      * apply IH in H as [H1 H2]. split; [lia |].
        replace (j - n) with (S (j - S n)) by lia. done.
    + intros H. apply IH in H as [H1 H2]. split; [lia |].
      replace (j - n) with (S (j - S n)) by lia. done.
Qed.

(** The positions of the element at [k] are those before [k], then
    [k], then those after. *)
Lemma positions_from_split (x : char) (n : nat) (l : pystr) (k : nat) :
  l !! k = Some x ->
  exists ps1 ps2,
    positions_from x n l = ps1 ++ (n + k) :: ps2 /\
    (forall j, j ∈ ps1 -> j < n + k) /\ (forall j, j ∈ ps2 -> n + k < j).
Proof.
  revert n k. induction l as [|y l IH]; intros n k Hk; [done |].
  cbn [positions_from]. destruct k as [|k].
  - injection Hk as ->. rewrite N.eqb_refl. exists [], (positions_from x (S n) l).
    rewrite Nat.add_0_r. split; [done |]. split.
    + intros j Hj. by apply elem_of_nil in Hj.
    + intros j Hj. apply elem_of_positions_from in Hj. lia.
  - cbn in Hk. destruct (IH (S n) k Hk) as (ps1 & ps2 & Hps & H1 & H2).
    rewrite Hps. replace (S n + k) with (n + S k) in * by lia.
    destruct (N.eqb y x).
    + exists (n :: ps1), ps2. split; [done |]. split; [| done].
      intros j Hj. apply elem_of_cons in Hj as [-> | Hj]; [lia | by apply H1].
    + by exists ps1, ps2.
Qed.

End Positions.

Section SelfMatchScan.
Variable a : pystr.

Local Abbreviation n := (length a).
Local Abbreviation live' := (live a).
Local Abbreviation run' := (run a).
Local Abbreviation prev_run' := (prev_run a).

Lemma run_live (i : nat) : live' i = true -> run' i = S (prev_run' i).
Proof. destruct i as [|i']; cbn [run prev_run]; by intros ->. Qed.

Lemma run_dead (i : nat) : live' i = false -> run' i = 0.
Proof. destruct i as [|i']; cbn [run]; by intros ->. Qed.

Lemma j2lenget_pred_bound (i : nat) (m : gmap nat nat) (j : nat) :
  prev_row a i m -> j2lenget_pred m j <= prev_run' i /\ j2lenget_pred m j <= prev_run' j.
Proof.
  intros [Hm _]. destruct j as [|j']; cbn [j2lenget_pred prev_run]; [lia |].
  destruct (m !! j') as [k|] eqn:E; cbn; [| lia]. by apply Hm.
Qed.

(** The positions after the diagonal one change nothing. *)
Lemma scan_row_after (i : nat) (m : gmap nat nat) (js : list nat)
    (newm : gmap nat nat) (best : nat * nat * nat) :
  live' i = true -> prev_row a i m ->
  (forall j, j ∈ js -> i < j /\ j < n /\ live' j = true) ->
  (forall j k, newm !! j = Some k -> k <= run' i /\ k <= run' j) ->
  newm !! i = Some (run' i) ->
  best_diagonal a i best -> run' i <= snd best ->
  let st' := scan_row 0 n i m js (newm, best) in
  prev_row a (S i) (fst st') /\ best_diagonal a (S i) (snd st').
Proof.
  intros Hlive Hm. revert newm best.
  induction js as [|j js IH]; intros newm best Hjs Hnew Hdiag Hbest Hrun; cbn zeta.
  - cbn [scan_row fst snd]. split.
    + split; [done |]. cbn [j2lenget_pred prev_run]. by rewrite Hdiag.
    + destruct Hbest as [H1 H2]. split; [done |].
      intros i' Hi'. destruct (decide (i' = i)) as [-> |]; [done |]. apply H2. lia.
  - destruct (Hjs j) as (Hij & Hjn & Hjlive); [by left |].
    cbn [scan_row].
    replace (Nat.ltb j 0) with false by (symmetry; apply Nat.ltb_ge; lia).
    replace (Nat.leb n j) with false by (symmetry; apply Nat.leb_gt; lia).
    destruct best as [[besti bestj] bestsize]. cbn [snd] in Hrun.
    destruct (j2lenget_pred_bound i m j Hm) as [Hk1 Hk2].
    pose proof (run_live i Hlive) as Hri. pose proof (run_live j Hjlive) as Hrj.
    replace (Nat.ltb bestsize (j2lenget_pred m j + 1)) with false
      by (symmetry; apply Nat.ltb_ge; lia).
    apply IH; try done.
    + intros j' Hj'. apply Hjs. by right.
    + intros j' k'. rewrite lookup_insert. case_decide as E.
      * intros [= <-]. subst j'. lia.
      * apply Hnew.
    + rewrite lookup_insert_ne by lia. done.
Qed.

(** The positions before the diagonal one change nothing either; the
    diagonal one records the run and may become the best block. *)
Lemma scan_row_before (i : nat) (m : gmap nat nat) (ps1 ps2 : list nat)
    (newm : gmap nat nat) (best : nat * nat * nat) :
  live' i = true -> i < n -> prev_row a i m ->
  (forall j, j ∈ ps1 -> j < i /\ live' j = true) ->
  (forall j, j ∈ ps2 -> i < j /\ j < n /\ live' j = true) ->
  (forall j k, newm !! j = Some k -> k <= run' i /\ k <= run' j) ->
  best_diagonal a i best ->
  let st' := scan_row 0 n i m (ps1 ++ i :: ps2) (newm, best) in
  prev_row a (S i) (fst st') /\ best_diagonal a (S i) (snd st').
Proof.
  intros Hlive Hin Hm. revert newm best.
  pose proof (run_live i Hlive) as Hri.
  induction ps1 as [|j ps1 IH]; intros newm best Hps1 Hps2 Hnew Hbest; cbn zeta.
  - cbn [app scan_row].
    replace (Nat.ltb i 0) with false by (symmetry; apply Nat.ltb_ge; lia).
    replace (Nat.leb n i) with false by (symmetry; apply Nat.leb_gt; lia).
    destruct best as [[besti bestj] bestsize].
    destruct Hm as [Hm1 Hm2]. rewrite Hm2.
    replace (prev_run' i + 1) with (run' i) by lia.
    apply scan_row_after; try done.
    + intros j' k'. rewrite lookup_insert. case_decide as E.
      * intros [= <-]. subst j'. lia.
      * apply Hnew.
    + by rewrite lookup_insert_eq.
    + destruct Hbest as [H1 H2]. cbn [fst snd] in H1, H2.
      destruct (Nat.ltb bestsize (run' i)) eqn:E.
      * split; [done |]. cbn [snd]. intros i' Hi'. apply Nat.ltb_lt in E.
        specialize (H2 i' Hi'). lia.
      * done.
    + destruct (Nat.ltb bestsize (run' i)) eqn:E; cbn [snd]; [lia |].
      apply Nat.ltb_ge in E. done.
  - destruct (Hps1 j) as (Hji & Hjlive); [by left |].
    cbn [app scan_row].
    replace (Nat.ltb j 0) with false by (symmetry; apply Nat.ltb_ge; lia).
    replace (Nat.leb n j) with false by (symmetry; apply Nat.leb_gt; lia).
    destruct best as [[besti bestj] bestsize].
    destruct (j2lenget_pred_bound i m j Hm) as [Hk1 Hk2].
    pose proof (run_live j Hjlive) as Hrj.
    destruct Hbest as [H1 H2]. cbn [fst snd] in H1, H2.
    pose proof (H2 j Hji) as Hb.
    replace (Nat.ltb bestsize (j2lenget_pred m j + 1)) with false
      by (symmetry; apply Nat.ltb_ge; lia).
    apply IH; try done.
    + intros j' Hj'. apply Hps1. by right.
    + intros j' k'. rewrite lookup_insert. case_decide as E.
      * intros [= <-]. subst j'. lia.
      * apply Hnew.
Qed.

Lemma live_positions (i : nat) (x : char) (js : list nat) :
  a !! i = Some x -> b2j a !! x = Some js ->
  exists ps1 ps2,
    js = ps1 ++ i :: ps2 /\
    (forall j, j ∈ ps1 -> j < i /\ live' j = true) /\
    (forall j, j ∈ ps2 -> i < j /\ j < n /\ live' j = true).
Proof.
  intros Hi Hjs. pose proof (b2j_positions a x js Hjs) as ->.
  destruct (positions_from_split x 0 a i Hi) as (ps1 & ps2 & Hps & H1 & H2).
  cbn [Nat.add] in Hps, H1, H2.
  assert (Hl : forall j, j ∈ positions_from x 0 a -> j < n /\ live' j = true).
  { intros j Hj. apply elem_of_positions_from in Hj as [_ Hj].
    rewrite Nat.sub_0_r in Hj. split; [by eapply lookup_lt_Some |].
    unfold live. rewrite Hj. apply bool_decide_eq_true. eauto. }
  exists ps1, ps2. split; [done |]. split.
  - intros j Hj. split; [by apply H1 |]. apply Hl. rewrite Hps.
    apply elem_of_app. by left.
  - intros j Hj. split; [by apply H2 |]. apply Hl. rewrite Hps.
    apply elem_of_app. right. by right.
Qed.

Lemma scan_step_diagonal (i : nat) (st : gmap nat nat * (nat * nat * nat)) :
  i < n -> prev_row a i (fst st) -> best_diagonal a i (snd st) ->
  prev_row a (S i) (fst (scan_step a a 0 n st i)) /\
  best_diagonal a (S i) (snd (scan_step a a 0 n st i)).
Proof.
  intros Hi Hm Hbest. destruct st as [m best]. cbn [fst snd] in Hm, Hbest.
  unfold scan_step. destruct (a !! i) as [x|] eqn:Hx.
  2: { apply lookup_ge_None in Hx. lia. }
  destruct (b2j a !! x) as [js|] eqn:Ejs; cbn [default].
  - assert (Hlive : live' i = true).
    { unfold live. rewrite Hx. apply bool_decide_eq_true. eauto. }
    destruct (live_positions i x js Hx Ejs) as (ps1 & ps2 & -> & H1 & H2).
    apply scan_row_before; done.
  - assert (Hdead : live' i = false).
    { unfold live. rewrite Hx. apply bool_decide_eq_false. rewrite Ejs.
      by intros [? ?]. }
    cbn [scan_row fst snd]. pose proof (run_dead i Hdead) as Hr. split.
    + split.
      * intros j k. by rewrite lookup_empty.
      * cbn [j2lenget_pred prev_run]. by rewrite lookup_empty, Hr.
    + destruct Hbest as [H1 H2]. split; [done |].
      intros i' Hi'. destruct (decide (i' = i)) as [-> |]; [lia |]. apply H2. lia.
Qed.

Lemma scan_fold_diagonal (i k : nat) (st : gmap nat nat * (nat * nat * nat)) :
  i + k <= n -> prev_row a i (fst st) -> best_diagonal a i (snd st) ->
  best_diagonal a (i + k) (snd (fold_left (scan_step a a 0 n) (seq i k) st)).
Proof.
  revert i st. induction k as [|k IH]; intros i st Hik Hm Hbest.
  - by rewrite Nat.add_0_r.
  - cbn [seq fold_left].
    destruct (scan_step_diagonal i st) as [H1 H2]; try done; try lia.
    replace (i + S k) with (S i + k) by lia. apply IH; try done. lia.
Qed.

End SelfMatchScan.
Section SelfMatchRatio.
Variable a : pystr.

Local Abbreviation n := (length a).

Lemma self_char_eq_at (i : nat) : i < n -> char_eq_at a a i i = true.
Proof.
  intros Hi. unfold char_eq_at. destruct (a !! i) as [x|] eqn:E.
  - apply N.eqb_refl.
  - apply lookup_ge_None in E. unfold char in *. lia.
Qed.

Lemma junk_at_false (b : pystr) (j : nat) : junk_at b j = false.
Proof. unfold junk_at. by destruct (b !! j). Qed.

Lemma self_extend_back (d s : nat) :
  d <= n -> extend_back a a false 0 0 d d s = (0, 0, s + d).
Proof.
  revert s. induction d as [|d IH]; intros s Hd; cbn [extend_back].
  - by rewrite Nat.add_0_r.
  - rewrite junk_at_false, self_char_eq_at by lia. cbn [Nat.ltb Nat.leb andb Bool.eqb].
    rewrite IH by lia. f_equal. lia.
Qed.

Lemma self_extend_forward (t s : nat) :
  s + t = n -> extend_forward a a t false n n 0 0 s = n.
Proof.
  revert s. induction t as [|t IH]; intros s Hs; cbn [extend_forward]; [lia |].
  cbn [Nat.add]. rewrite junk_at_false, self_char_eq_at by lia.
  replace (Nat.ltb s n) with true by (symmetry; apply Nat.ltb_lt; lia).
  cbn [andb Bool.eqb]. apply IH. lia.
Qed.

(** The longest match of a string with itself is the whole string. *)
Lemma self_find_longest_match : find_longest_match a a 0 n 0 n = (0, 0, n).
Proof.
  unfold find_longest_match. rewrite Nat.sub_0_r.
  pose proof (scan_fold_diagonal a 0 n (∅, (0, 0, 0))) as Hd.
  pose proof (scan_fold_range a a 0 n 0 n 0 n (∅, (0, 0, 0))) as Hr.
  destruct (fold_left _ _ _) as [j2len [[besti bestj] bestsize]].
  cbn [fst snd] in Hd, Hr.
  destruct Hd as [Hd _]; [lia | | |].
  { split; [| done]. intros j k. by rewrite lookup_empty. }
  { split; [done |]. intros i' Hi'. lia. }
  destruct Hr as (_ & Hr & _); [lia | lia | | |].
  { intros j k. by rewrite lookup_empty. }
  { unfold in_range. cbn [fst snd]. lia. }
  cbn [fst snd] in Hd, Hr. subst bestj.
  rewrite self_extend_back by lia. cbn [Nat.add].
  rewrite self_extend_forward by lia.
  cbn [extend_back]. by rewrite Nat.sub_diag.
Qed.

Lemma self_blocks : block_sizes (get_matching_blocks a a) = n.
Proof.
  destruct (get_matching_blocks_sizes a a) as (_ & -> & _).
  unfold queue_turns. replace (2 * n + 2) with (S (2 * n + 1)) by lia.
  cbn [queue_loop fst queue_step]. rewrite self_find_longest_match.
  destruct (Nat.eqb n 0) eqn:E.
  - apply Nat.eqb_eq in E. rewrite E. by destruct (2 * 0 + 1).
  - cbn [Nat.add]. rewrite !Nat.ltb_irrefl. cbn [andb].
    destruct (2 * n + 1); cbn [queue_loop fst snd]; rewrite block_sizes_snoc; done.
Qed.

Lemma self_ratio : (ratio a a == 1)%Q.
Proof.
  rewrite ratio_block_sizes, self_blocks. unfold calculate_ratio.
  destruct (Nat.eqb (n + n) 0) eqn:E; [done |].
  apply Nat.eqb_neq in E. unfold Qeq. cbn [Qnum Qden].
  rewrite (Zpos_of_nat (n + n) E). lia.
Qed.

End SelfMatchRatio.

(** C5, as amended: the similarity of two strings lies in [0,1]; a
    string is at similarity 1 with itself; two strings without a common
    character, not both empty, are at similarity 0.  (It is not
    symmetric.) *)
Theorem similarity_spec (a b : pystr) :
  (0 <= similar a b <= 1)%Q /\
  (similar a a == 1)%Q /\
  ((forall x, x ∈ a -> x ∉ b) -> length a + length b <> 0 -> (similar a b == 0)%Q).
Proof.
  unfold similar. split; [apply ratio_bounds |]. split; [apply self_ratio |].
  apply disjoint_ratio.
Qed.

(** C5, as stated, fails: the similarity of "tide" and "diet" depends on
    the order of the arguments, and two empty strings, which share no
    character, are at similarity 1. *)
Lemma similarity_not_symmetric :
  similar (lit "tide") (lit "diet") = (2 # 8)%Q /\
  similar (lit "diet") (lit "tide") = (4 # 8)%Q /\
  ~ (similar (lit "tide") (lit "diet") == similar (lit "diet") (lit "tide"))%Q /\
  similar [] [] = 1%Q.
Proof.
  split; [by vm_compute |]. split; [by vm_compute |]. split; [| by vm_compute].
  intros H. vm_compute in H. discriminate H.
Qed.

Lemma similarity_spec_witness :
  (forall x, x ∈ lit "abc" -> x ∉ lit "xyz") /\ length (lit "abc") + length (lit "xyz") <> 0 /\
  (similar (lit "abc") (lit "xyz") == 0)%Q.
Proof.
  assert (H1 : forall x, x ∈ lit "abc" -> x ∉ lit "xyz").
  { intros x Hx Hy. vm_compute in Hx, Hy.
    repeat (apply elem_of_cons in Hx as [-> | Hx];
            [repeat (apply elem_of_cons in Hy as [Hy | Hy]; [discriminate |]);
             by apply elem_of_nil in Hy |]).
    by apply elem_of_nil in Hx. }
  assert (H2 : length (lit "abc") + length (lit "xyz") <> 0) by (by vm_compute).
  exact (conj H1 (conj H2 (proj2 (proj2 (similarity_spec (lit "abc") (lit "xyz"))) H1 H2))).
Defined.

(** ** The loops of the matcher run to completion *)

Section MatcherTurns.
Variables a b : pystr.

(** The turns given to a forward extension suffice: more turns change
    nothing. *)
Lemma extend_forward_enough (turns extra : nat) (want_junk : bool)
    (ahi bhi besti bestj bestsize : nat) :
  ahi - (besti + bestsize) <= turns ->
  extend_forward a b (turns + extra) want_junk ahi bhi besti bestj bestsize =
  extend_forward a b turns want_junk ahi bhi besti bestj bestsize.
Proof.
  revert bestsize. induction turns as [|t IH]; intros bestsize Hle.
  - cbn [Nat.add extend_forward]. destruct extra as [|e]; cbn [extend_forward]; [done |].
    replace (Nat.ltb (besti + bestsize) ahi) with false
      by (symmetry; apply Nat.ltb_ge; lia).
    done.
  - cbn [Nat.add extend_forward]. destruct (_ && _)%bool eqn:E; [| done].
    rewrite !andb_true_iff in E. destruct E as [[[E1 _] _] _].
    apply Nat.ltb_lt in E1. apply IH. lia.
Qed.

(** The queue of [get_matching_blocks] is empty after [queue_turns]
    turns, and stays empty. *)
Lemma queue_loop_complete (extra : nat) :
  fst (queue_loop a b (queue_turns a) ([(0, length a, 0, length b)], [])) = [] /\
  queue_loop a b (queue_turns a + extra) ([(0, length a, 0, length b)], []) =
  queue_loop a b (queue_turns a) ([(0, length a, 0, length b)], []).
Proof.
  destruct (get_matching_blocks_sizes a b) as (Hempty & _). split; [done |].
  revert Hempty. generalize (queue_turns a) ([(0, length a, 0, length b)], @nil (nat * nat * nat)).
  intros t. induction t as [|t IH]; intros st Hempty.
  - cbn [queue_loop] in Hempty. cbn [Nat.add queue_loop].
    destruct extra; cbn [queue_loop]; [done |]. by rewrite Hempty.
  - cbn [Nat.add queue_loop] in *. destruct (fst st); [done |]. by apply IH.
Qed.

End MatcherTurns.

(** ** The scenarios of the specification, evaluated *)

(** A source record found through its identifier, and in no duplicate
    group, is left out of the report. *)
Example scenario_identifier_match :
  @missing_report fragment
    [[(lit "name", VStr (lit "Jon Smith")); (lit "transfermarkt_id", VStr (lit "7"))]]
    [[(lit "name", VStr (lit "John Smith")); (lit "transfermarkt_id", VStr (lit "7"))]]
    (9 # 10) = [].
Proof. by vm_compute. Qed.

(** The names "ana horvat" and "ana horvath" are at similarity 20/21. *)
Example scenario_close_names :
  @name_key fragment [(lit "name", VStr (lit "Ana Horvat"))] = lit "ana horvat" /\
  @name_key fragment [(lit "name", VStr (lit "Ana Horvath"))] = lit "ana horvath" /\
  similar (lit "ana horvat") (lit "ana horvath") = (20 # 21)%Q.
Proof. by vm_compute. Qed.

(** * Further properties of the grouping passes *)

Section SortedFilters.
Context {A : Type}.

Lemma filter_seq_sorted (f : nat * A -> bool) (n : nat) (l : list A) :
  StronglySorted lt (List.map fst (List.filter f (enumerate_from n l))) /\
  Forall (fun i => n <= i) (List.map fst (List.filter f (enumerate_from n l))).
Proof.
  revert n. induction l as [|x l IH]; intros n; cbn [enumerate_from List.filter].
  - split; constructor.
  - destruct (IH (S n)) as [H1 H2]. destruct (f (n, x)); cbn [List.map fst].
    + split.
      * constructor; [done |]. eapply Forall_impl; [exact H2 |]. intros i Hi. simpl in Hi. lia.
      * constructor; [lia |]. eapply Forall_impl; [exact H2 |]. intros i Hi. simpl in Hi. lia.
    + split; [done |]. eapply Forall_impl; [exact H2 |]. intros i Hi. simpl in Hi. lia.
Qed.

End SortedFilters.

Lemma NoDup_map_filter {A B} (f : A -> B) (g : A -> bool) (l : list A) :
  NoDup (List.map f l) -> NoDup (List.map f (List.filter g l)).
Proof.
  induction l as [|x l IH]; cbn [List.map List.filter]; [done |].
  intros H. apply NoDup_cons in H as [H1 H2]. destruct (g x); [| by apply IH].
  cbn [List.map]. apply NoDup_cons. split; [| by apply IH].
  intros Hx. apply H1. apply elem_of_map in Hx as (y & Hy & Hin).
  apply elem_of_map. exists y. split; [done |].
  apply list_elem_of_In, filter_In in Hin as [Hin _]. by apply list_elem_of_In.
Qed.

Section IntraGroups.
Context {U : UnicodeData}.

Local Abbreviation items_of players := (List.map to_item (enumerate players)).

(** The positions filed under a key, in increasing order. *)
Lemma bucket_indices_sorted (players : list record) (k : pystr) :
  StronglySorted lt
    (List.map item_index (List.filter (has_key item_keys k) (items_of players))).
Proof.
  rewrite filter_map_comm, map_map.
  apply (filter_seq_sorted (fun ip => has_key item_keys k (to_item ip)) 0 players).
Qed.

(** A key under which two or more records are filed is a key of each of
    them, not a fallback key. *)
Lemma shared_key_real (players : list record) (k : pystr) (it : item) :
  2 <= length (List.filter (has_key item_keys k) (items_of players)) ->
  k ∈ item_keys it -> k ∈ key_for_player (item_player it).
Proof.
  intros Hlen Hk. unfold item_keys in Hk.
  destruct (key_for_player (item_player it)) as [|k0 ks] eqn:E; [| done].
  apply list_elem_of_singleton in Hk. exfalso.
  assert (Hle : length (List.filter (has_key item_keys k) (items_of players)) <= 1);
    [| lia].
  rewrite <- (length_map item_index).
  apply (NoDup_all_equal_length _ (item_index it)).
  - apply NoDup_map_filter, items_NoDup.
  - intros i Hi. apply elem_of_map in Hi as (it' & -> & Hit').
    apply list_elem_of_In, filter_In in Hit' as [_ Hit'].
    unfold has_key in Hit'. apply bool_decide_eq_true in Hit'. subst k.
    by apply item_keys_index in Hit' as [? _].
Qed.

Lemma find_duplicates_indices (players : list record) (g : dup_group) :
  g ∈ find_duplicates players ->
  2 <= length (indices g) /\
  indices g =
    List.map item_index (List.filter (has_key item_keys (key g)) (items_of players)) /\
  members g =
    List.map item_player (List.filter (has_key item_keys (key g)) (items_of players)) /\
  forall i, i ∈ indices g <->
            exists p, players !! i = Some p /\ key g ∈ key_for_player p.
Proof.
  intros Hg. destruct (find_duplicates_from_bucket players g Hg) as (lst & -> & Hlen & Hi & Hm).
  split; [by rewrite Hi, length_map |]. split; [done |]. split; [done |].
  intros i. rewrite Hi, elem_of_map. split.
  - intros (it & -> & Hit). apply list_elem_of_In, filter_In in Hit as [Hit Hk].
    apply list_elem_of_In, elem_of_items in Hit. exists (item_player it). split; [done |].
    unfold has_key in Hk. apply bool_decide_eq_true in Hk.
    by apply (shared_key_real players (key g)).
  - intros (p & Hp & Hk). exists {| item_index := i; item_player := p |}. split; [done |].
    apply list_elem_of_In, filter_In. split.
    + apply list_elem_of_In, elem_of_items. done.
    + unfold has_key. apply bool_decide_eq_true. unfold item_keys. cbn [item_player].
      destruct (key_for_player p); [by apply elem_of_nil in Hk | done].
Qed.

End IntraGroups.

Lemma NoDup_map_coarser {A B C} (f : A -> B) (h : A -> C) (l : list A) :
  NoDup (List.map f l) ->
  (forall x y, x ∈ l -> y ∈ l -> h x = h y -> f x = f y) ->
  NoDup (List.map h l).
Proof.
  induction l as [|x l IH]; cbn [List.map]; intros Hnd Hfh; [constructor |].
  apply NoDup_cons in Hnd as [H1 H2]. apply NoDup_cons. split.
  - intros Hx. apply H1. apply elem_of_map in Hx as (y & Hy & Hin).
    apply elem_of_map. exists y. split; [| done].
    apply Hfh; [by left | by right | done].
  - apply IH; [done |]. intros y z Hy Hz. apply Hfh; by right.
Qed.

Lemma lookup_map_stdlib {A B} (f : A -> B) (l : list A) (n : nat) :
  List.map f l !! n = f <$> (l !! n).
Proof.
  revert n. induction l as [|x l IH]; intros [|n]; cbn [List.map]; try done. apply IH.
Qed.

Lemma groups_by_key_snoc (groups : list dup_group) (g : dup_group) :
  groups_by_key (groups ++ [g]) = <[ key g := g ]> (groups_by_key groups).
Proof. unfold groups_by_key. by rewrite fold_left_app. Qed.

(** With one group per key, the dictionary of groups by key gives back
    each group under its key and holds nothing else. *)
Lemma groups_by_key_lookup (groups : list dup_group) (k : pystr) (g : dup_group) :
  NoDup (List.map key groups) ->
  groups_by_key groups !! k = Some g <-> g ∈ groups /\ key g = k.
Proof.
  induction groups as [|g0 groups IH] using rev_ind; intros Hnd.
  - unfold groups_by_key. cbn [fold_left]. rewrite lookup_empty.
    split; [done | intros [H _]; by apply elem_of_nil in H].
  - rewrite groups_by_key_snoc. rewrite map_app in Hnd. cbn [List.map] in Hnd.
    apply NoDup_app in Hnd as (Hnd & Hnot & _).
    destruct (decide (key g0 = k)) as [<- |Hne].
    + rewrite lookup_insert_eq. split.
      * intros [= ->]. split; [| done]. apply elem_of_app. right. by left.
      * intros [Hin Hk]. apply elem_of_app in Hin as [Hin|Hin].
        -- exfalso. apply (Hnot (key g0)); [| by left].
           apply elem_of_map. by exists g.
        -- apply list_elem_of_singleton in Hin. by subst.
    + rewrite lookup_insert_ne by done. rewrite IH by done. split.
      * intros [Hin Hk]. split; [| done]. apply elem_of_app. by left.
      * intros [Hin Hk]. split; [| done]. apply elem_of_app in Hin as [Hin|Hin]; [done |].
        apply list_elem_of_singleton in Hin. by subst.
Qed.

Section IntraGroupTheorems.
Context {U : UnicodeData}.

Local Abbreviation items_of players := (List.map to_item (enumerate players)).

Lemma find_duplicates_keys_NoDup (players : list record) :
  NoDup (List.map key (find_duplicates players)).
Proof.
  destruct (collect_state_inv (build_by_key players)) as [_ Huniq _ _].
  fold (collect_groups (build_by_key players)) in Huniq.
  fold (find_duplicates players) in Huniq.
  apply (NoDup_map_coarser member_ids key _ Huniq).
  intros g1 g2 H1 H2 Hk. unfold member_ids.
  destruct (find_duplicates_indices players g1 H1) as (_ & -> & _).
  destruct (find_duplicates_indices players g2 H2) as (_ & -> & _).
  by rewrite Hk.
Qed.

(** Every group of [find_duplicates] lists, in increasing order, exactly
    the positions of the records that carry the group's key, and its
    members are the records at those positions. *)
Theorem find_duplicates_group_members (players : list record) (g : dup_group) :
  g ∈ find_duplicates players ->
  StronglySorted lt (indices g) /\
  length (members g) = length (indices g) /\
  (forall n i, indices g !! n = Some i ->
               exists p, players !! i = Some p /\ members g !! n = Some p) /\
  (forall i, i ∈ indices g <->
             exists p, players !! i = Some p /\ key g ∈ key_for_player p).
Proof.
  intros Hg. destruct (find_duplicates_indices players g Hg) as (_ & Hi & Hm & Hiff).
  split; [rewrite Hi; apply bucket_indices_sorted |].
  split; [by rewrite Hi, Hm, !length_map |]. split; [| done].
  intros n i Hn. rewrite Hi, lookup_map_stdlib in Hn. rewrite Hm, lookup_map_stdlib.
  destruct (_ !! n) as [it|] eqn:Hit; [| done]. injection Hn as <-.
  exists (item_player it). split; [| done].
  apply list_elem_of_lookup_2 in Hit.
  apply list_elem_of_In, filter_In in Hit as [Hit _].
  by apply list_elem_of_In, elem_of_items in Hit.
Qed.

(** Two records at different positions that share a key are together
    in a group. *)
Lemma shared_key_group (players : list record) (i j : nat) (p q : record) (k : pystr) :
  i <> j -> players !! i = Some p -> players !! j = Some q ->
  k ∈ key_for_player p -> k ∈ key_for_player q ->
  exists g, g ∈ find_duplicates players /\ i ∈ indices g /\ j ∈ indices g.
Proof.
  intros Hij Hp Hq Hkp Hkq.
  set (lst := List.filter (has_key item_keys k) (items_of players)).
  assert (Hin : forall n r, players !! n = Some r -> k ∈ key_for_player r ->
                  {| item_index := n; item_player := r |} ∈ lst).
  { intros n r Hr Hk. apply list_elem_of_In, filter_In. split.
    - by apply list_elem_of_In, elem_of_items.
    - unfold has_key. apply bool_decide_eq_true. unfold item_keys. cbn [item_player].
      destruct (key_for_player r); [by apply elem_of_nil in Hk | done]. }
  pose proof (Hin i p Hp Hkp) as Hi. pose proof (Hin j q Hq Hkq) as Hj.
  assert (Hlen : 2 <= length lst).
  { apply list_elem_of_lookup in Hi as [a Ha]. apply list_elem_of_lookup in Hj as [b Hb].
    assert (a <> b) by (intros ->; rewrite Ha in Hb; by injection Hb).
    pose proof (lookup_lt_Some _ _ _ Ha). pose proof (lookup_lt_Some _ _ _ Hb). lia. }
  assert (Hmem : (k, lst) ∈ build_by_key players).
  { rewrite build_by_key_register. unfold lst.
    rewrite <- (register_all_bucket item_keys item_keys_NoDup).
    apply elem_bucket. apply register_all_from_keys. right.
    exists {| item_index := i; item_player := p |}. split.
    - by apply elem_of_items.
    - unfold item_keys. cbn [item_player].
      destruct (key_for_player p); [by apply elem_of_nil in Hkp | done]. }
  destruct (collect_state_inv (build_by_key players)) as [_ _ _ Hcomplete].
  apply Hcomplete in Hmem; [| done].
  apply elem_of_map in Hmem as (g & Hids & Hg). exists g. split; [done |].
  assert (Hn : forall n, n ∈ List.map item_index lst -> n ∈ indices g).
  { intros n Hn. rewrite <- sorted_nat_elem, Hids in Hn.
    unfold member_ids in Hn. by rewrite sorted_nat_elem in Hn. }
  split; apply Hn; apply elem_of_map.
  - by exists {| item_index := i; item_player := p |}.
  - by exists {| item_index := j; item_player := q |}.
Qed.

(** Two records of one dataset are listed together in a group of
    [find_duplicates] exactly when they share a key; so there is no group
    at all exactly when no two records share a key. *)
Theorem find_duplicates_grouped_iff_shared_key (players : list record) :
  (forall i j, i <> j ->
     ((exists g, g ∈ find_duplicates players /\ i ∈ indices g /\ j ∈ indices g) <->
      (exists p q k, players !! i = Some p /\ players !! j = Some q /\
                     k ∈ key_for_player p /\ k ∈ key_for_player q))) /\
  (find_duplicates players = [] <->
   forall i j p q k, players !! i = Some p -> players !! j = Some q ->
                     k ∈ key_for_player p -> k ∈ key_for_player q -> i = j).
Proof.
  pose proof (shared_key_group players) as Hshare.
  split.
  - intros i j Hij. split.
    + intros (g & Hg & Hi & Hj).
      destruct (find_duplicates_indices players g Hg) as (_ & _ & _ & Hiff).
      apply Hiff in Hi as (p & Hp & Hkp). apply Hiff in Hj as (q & Hq & Hkq).
      by exists p, q, (key g).
    + intros (p & q & k & Hp & Hq & Hkp & Hkq). by apply (Hshare i j p q k).
  - split.
    + intros Hnil i j p q k Hp Hq Hkp Hkq. destruct (decide (i = j)) as [|Hij]; [done |].
      destruct (Hshare i j p q k Hij Hp Hq Hkp Hkq) as (g & Hg & _).
      rewrite Hnil in Hg. by apply elem_of_nil in Hg.
    + intros Hinj. destruct (find_duplicates players) as [|g gs] eqn:E; [done |]. exfalso.
      assert (Hg : g ∈ find_duplicates players) by (rewrite E; by left).
      destruct (find_duplicates_indices players g Hg) as (Hlen & Hi & _ & Hiff).
      pose proof (bucket_indices_sorted players (key g)) as Hs. rewrite <- Hi in Hs.
      destruct (indices g) as [|i [|j l]]; cbn [length] in Hlen; [lia | lia |].
      apply StronglySorted_inv in Hs as [_ Hs]. apply Forall_cons in Hs as [Hij _].
      destruct (proj1 (Hiff i)) as (p & Hp & Hkp); [by left |].
      destruct (proj1 (Hiff j)) as (q & Hq & Hkq); [right; by left |].
      pose proof (Hinj i j p q (key g) Hp Hq Hkp Hkq). lia.
Qed.

End IntraGroupTheorems.

Section CrossGroups.
Context {U : UnicodeData}.

Lemma sorted_tuples_elem (l : list (pystr * nat)) (x : pystr * nat) :
  x ∈ sorted_tuples l <-> x ∈ l.
Proof. unfold sorted_tuples. by rewrite merge_sort_Permutation. Qed.

(** Two buckets of one duplicate-free list with the same signature hold
    the same occurrences. *)
Lemma same_signature_same_bucket (f f' : occurrence -> bool) (l : list occurrence) :
  NoDup (List.map position l) ->
  signature (List.filter f l) = signature (List.filter f' l) ->
  List.filter f l = List.filter f' l.
Proof.
  intros Hnd Hsig. apply filter_ext_in. intros x Hx. apply list_elem_of_In in Hx.
  assert (Hchar : forall h, h x = true <-> position x ∈ signature (List.filter h l)).
  { intros h. unfold signature. rewrite sorted_tuples_elem.
    change (fun o => (occ_file o, occ_index o)) with position. rewrite elem_of_map. split.
    - intros Hh. exists x. split; [done |]. apply list_elem_of_In, filter_In.
      split; [by apply list_elem_of_In | done].
    - intros (y & Hxy & Hy). apply list_elem_of_In, filter_In in Hy as [Hy Hh].
      apply list_elem_of_In in Hy.
      by rewrite (NoDup_map_inj_on position l x y Hnd Hx Hy Hxy). }
  pose proof (Hchar f) as H1. pose proof (Hchar f') as H2. rewrite Hsig in H1.
  destruct (f x), (f' x); try done.
  - symmetry. apply H2, H1. done.
  - apply H1, H2. done.
Qed.

Variables source_list target_list : list record.

Local Abbreviation combined := (combine_datasets source_list target_list).
Local Abbreviation groups_map := (build_groups_map combined).
Local Abbreviation carrying k := (List.filter (carries k) combined).

Lemma combined_tag (o : occurrence) :
  o ∈ combined -> occ_file o = lit "source" \/ occ_file o = lit "target".
Proof. intros Ho. apply elem_of_combine_datasets in Ho as [[? _]|[? _]]; auto. Qed.

(** A key under which two or more occurrences are filed is a key of the
    records, and its bucket holds the occurrences that carry it. *)
Lemma shared_occurrence_key (k : pystr) :
  2 <= length (List.filter (has_key occurrence_keys k) combined) ->
  List.filter (has_key occurrence_keys k) combined = carrying k.
Proof.
  intros Hlen. apply filter_ext_in. intros o Ho. apply list_elem_of_In in Ho.
  unfold has_key, carries, occurrence_keys.
  destruct (canonical_keys (occ_player o)) as [|k0 ks] eqn:E; [| done].
  apply bool_decide_ext. split; [| intros H; by apply elem_of_nil in H].
  intros Hk. apply list_elem_of_singleton in Hk. exfalso.
  assert (Hle : length (List.filter (has_key occurrence_keys k) combined) <= 1); [| lia].
  apply (NoDup_all_equal_length _ o).
  - apply NoDup_filter_stdlib, combine_datasets_NoDup.
  - intros o' Ho'. apply list_elem_of_In, filter_In in Ho' as [Ho' Hk'].
    apply list_elem_of_In in Ho'.
    unfold has_key in Hk'. apply bool_decide_eq_true in Hk'. subst k.
    apply occurrence_keys_raw in Hk' as (Hf & Hi & _);
      [| by apply combined_tag | by apply combined_tag].
    apply (NoDup_map_inj_on position combined);
      [apply combine_datasets_positions_NoDup | done | done |].
    unfold position. by rewrite Hf, Hi.
Qed.

(** A key carried by two or more records has them all in its bucket. *)
Lemma carried_key_bucket (k : pystr) :
  2 <= length (carrying k) ->
  List.filter (has_key occurrence_keys k) combined = carrying k.
Proof.
  intros Hlen. apply filter_ext_in. intros o Ho. apply list_elem_of_In in Ho.
  unfold has_key, carries, occurrence_keys.
  destruct (canonical_keys (occ_player o)) as [|k1 ks] eqn:E; [| done].
  apply bool_decide_ext. split; [| intros H; by apply elem_of_nil in H].
  intros Hk. apply list_elem_of_singleton in Hk. exfalso.
  destruct (carrying k) as [|o1 l] eqn:E1; [cbn [length] in Hlen; lia |].
  assert (Ho1 : o1 ∈ carrying k) by (rewrite E1; by left).
  apply list_elem_of_In, filter_In in Ho1 as [_ Ho1].
  unfold carries in Ho1. apply bool_decide_eq_true in Ho1.
  rewrite canonical_keys_key_for_player in Ho1.
  apply key_for_player_shape in Ho1 as [[s Hs]|[s Hs]]; rewrite Hk in Hs;
    simpl in Hs; discriminate.
Qed.

Lemma groups_map_elem (k : pystr) (occ : list occurrence) :
  (k, occ) ∈ groups_map <->
  occ = List.filter (has_key occurrence_keys k) combined /\ occ <> [].
Proof.
  rewrite build_groups_map_register. split.
  - intros Hin. apply (register_all_elem occurrence_keys occurrence_keys_NoDup) in Hin
      as [Hocc (o & Ho & Hk)].
    split; [done |]. intros Hnil.
    assert (Hmem : o ∈ List.filter (has_key occurrence_keys k) combined).
    { apply list_elem_of_In, filter_In. split; [by apply list_elem_of_In |].
      unfold has_key. by apply bool_decide_eq_true. }
    rewrite <- Hocc, Hnil in Hmem. by apply elem_of_nil in Hmem.
  - intros [-> Hne].
    rewrite <- (register_all_bucket occurrence_keys occurrence_keys_NoDup).
    apply elem_bucket. apply register_all_from_keys. right.
    destruct (List.filter _ _) as [|o l] eqn:E; [done |].
    assert (Hmem : o ∈ List.filter (has_key occurrence_keys k) combined)
      by (rewrite E; by left).
    apply list_elem_of_In, filter_In in Hmem as [Ho Hk].
    exists o. split; [by apply list_elem_of_In |].
    unfold has_key in Hk. by apply bool_decide_eq_true in Hk.
Qed.

Lemma find_common_groups_keys (g : common_group) (k : pystr) :
  g ∈ find_common_groups source_list target_list ->
  (k ∈ keys g <->
   2 <= length (carrying k) /\ occurrences g = List.map view (carrying k)).
Proof.
  unfold find_common_groups. intros Hg.
  apply list_elem_of_lookup in Hg as [pos Hpos].
  destruct (merge_state_inv groups_map) as [_ _ Hgroups _].
  destruct (Hgroups pos g Hpos) as (H1 & H2 & Hkeys & k0 & occ0 & Hin0 & Hg).
  apply groups_map_elem in Hin0 as [Hocc0 _].
  assert (Hviews : occurrences g = List.map view occ0) by (by rewrite Hg).
  assert (Hsig : group_signature g = signature occ0).
  { unfold group_signature, signature. by rewrite Hviews, map_map. }
  assert (Hlen0 : 2 <= length occ0) by (by rewrite Hviews, length_map in H1).
  rewrite Hkeys, elem_of_map. split.
  - intros ([k' occ] & -> & Hin). cbn [fst].
    apply list_elem_of_In, filter_In in Hin as [Hin Hsame].
    apply list_elem_of_In, groups_map_elem in Hin as [Hocc _].
    unfold same_signature in Hsame. cbn [snd] in Hsame.
    apply andb_true_iff in Hsame as [Hlen Hs].
    apply Nat.ltb_lt in Hlen. apply bool_decide_eq_true in Hs.
    assert (Heq : occ = occ0).
    { rewrite Hocc, Hocc0. apply same_signature_same_bucket;
        [apply combine_datasets_positions_NoDup |].
      rewrite <- Hocc, <- Hocc0. by rewrite Hs. }
    rewrite <- shared_occurrence_key by (rewrite <- Hocc; lia).
    rewrite <- Hocc, Heq. split; [lia | done].
  - intros [Hlen Hv]. exists (k, carrying k). split; [done |].
    pose proof (carried_key_bucket k Hlen) as Hb.
    apply list_elem_of_In, filter_In. split.
    + apply list_elem_of_In, groups_map_elem. split; [done |].
      destruct (carrying k); [cbn [length] in Hlen; lia | done].
    + unfold same_signature. cbn [snd]. apply andb_true_iff. split.
      * apply Nat.ltb_lt. lia.
      * apply bool_decide_eq_true. rewrite Hsig. unfold signature.
        f_equal. apply (f_equal (List.map (fun ov => (ov_file ov, ov_index ov)))) in Hv.
        rewrite Hviews, !map_map in Hv. cbn [view ov_file ov_index] in Hv. by rewrite <- Hv.
Qed.

End CrossGroups.

Lemma present_in_cases (files : list pystr) :
  files <> [] ->
  (forall f, f ∈ files -> f = lit "source" \/ f = lit "target") ->
  let present := sorted_str (elements (list_to_set files : gset pystr)) in
  (forall tag, tag ∈ present <-> tag ∈ files) /\
  (present = [lit "source"] \/ present = [lit "target"] \/
   present = [lit "source"; lit "target"]).
Proof.
  intros Hne Htags present. split.
  - intros tag. unfold present. by rewrite sorted_str_elem, elem_of_elements, elem_of_list_to_set.
  - unfold present.
    destruct (decide (lit "source" ∈ files)) as [Hs|Hs];
      destruct (decide (lit "target" ∈ files)) as [Ht|Ht].
    + right; right.
      assert (HX : (list_to_set files : gset pystr) = {[ lit "source" ]} ∪ {[ lit "target" ]}).
      { apply set_eq. intros f.
        rewrite elem_of_list_to_set, elem_of_union, !elem_of_singleton. split.
        - apply Htags.
        - by intros [-> | ->]. }
      rewrite HX.
      assert (Hp : elements ({[ lit "source" ]} ∪ {[ lit "target" ]} : gset pystr)
                     ≡ₚ [lit "source"; lit "target"]).
      { rewrite elements_union_singleton.
        - by rewrite elements_singleton.
        - rewrite elem_of_singleton. discriminate. }
      symmetry in Hp. apply Permutation_length_2_inv in Hp as [-> | ->]; by vm_compute.
    + left.
      replace (list_to_set files : gset pystr) with ({[ lit "source" ]} : gset pystr).
      { by rewrite elements_singleton. }
      apply set_eq. intros f. rewrite elem_of_list_to_set, elem_of_singleton. split.
      * by intros ->.
      * intros Hf. destruct (Htags f Hf) as [-> | ->]; done.
    + right; left.
      replace (list_to_set files : gset pystr) with ({[ lit "target" ]} : gset pystr).
      { by rewrite elements_singleton. }
      apply set_eq. intros f. rewrite elem_of_list_to_set, elem_of_singleton. split.
      * by intros ->.
      * intros Hf. destruct (Htags f Hf) as [-> | ->]; done.
    + exfalso. destruct files as [|f files]; [done |].
      destruct (Htags f) as [-> | ->]; [by left | apply Hs; by left | apply Ht; by left].
Qed.

Section CrossGroupTheorems.
Context {U : UnicodeData}.
Variables source_list target_list : list record.

Local Abbreviation combined := (combine_datasets source_list target_list).
Local Abbreviation carrying k := (List.filter (carries k) combined).

Lemma common_group_keys (g : common_group) :
  g ∈ find_common_groups source_list target_list ->
  total_count g = length (occurrences g) /\ keys g <> [] /\ NoDup (keys g).
Proof.
  intros Hg.
  unfold find_common_groups in Hg. apply list_elem_of_lookup in Hg as [pos Hpos].
  destruct (merge_state_inv (build_groups_map combined)) as [_ _ Hgroups _].
  destruct (Hgroups pos g Hpos) as (H1 & H2 & Hkeys & k0 & occ0 & Hin0 & Hgeq).
  split; [done |].
  assert (Hk0 : k0 ∈ keys g).
  { rewrite Hkeys. apply elem_of_map. exists (k0, occ0). split; [done |].
    apply list_elem_of_In, filter_In. split; [by apply list_elem_of_In |].
    unfold same_signature. cbn [snd]. apply andb_true_iff. split.
    - apply Nat.ltb_lt. rewrite Hgeq in H1. simpl in H1. rewrite length_map in H1. lia.
    - apply bool_decide_eq_true. rewrite Hgeq. symmetry. apply new_group_signature. }
  split; [intros Hnil; rewrite Hnil in Hk0; by apply elem_of_nil in Hk0 |].
  rewrite Hkeys. apply NoDup_map_filter. rewrite build_groups_map_register.
  apply register_all_NoDup.
Qed.

Lemma common_group_present (g : common_group) :
  g ∈ find_common_groups source_list target_list ->
  (forall tag, tag ∈ present_in g <-> exists ov, ov ∈ occurrences g /\ ov_file ov = tag) /\
  (present_in g = [lit "source"] \/ present_in g = [lit "target"] \/
   present_in g = [lit "source"; lit "target"]).
Proof.
  intros Hg.
  destruct (find_common_groups_from_bucket _ _ g Hg) as (k & occ0 & Hocc0 & Hlen & Hocc & _ & Hpres).
  assert (Hsub : forall o, o ∈ occ0 -> o ∈ combined).
  { intros o Ho. rewrite Hocc0 in Ho.
    apply list_elem_of_In, filter_In in Ho as [Ho _]. by apply list_elem_of_In. }
  destruct (present_in_cases (List.map occ_file occ0)) as [Hmem Hcases].
  - destruct occ0; [cbn [length] in Hlen; lia | done].
  - intros f Hf. apply elem_of_map in Hf as (o & -> & Ho).
    by apply (combined_tag source_list target_list), Hsub.
  - rewrite Hpres. split; [| exact Hcases].
    intros tag. rewrite Hmem, Hocc, elem_of_map. split.
    + intros (o & -> & Ho). exists (view o). split; [| done].
      apply elem_of_map. by exists o.
    + intros (ov & Hov & <-). apply elem_of_map in Hov as (o & -> & Ho). by exists o.
Qed.

(** A key carried by two or more occurrences is listed by a group. *)
Lemma carried_twice_group (k : pystr) :
  2 <= length (carrying k) ->
  exists g, g ∈ find_common_groups source_list target_list /\ k ∈ keys g.
Proof.
  intros Hlen.
  assert (Hb : (k, carrying k) ∈ build_groups_map combined).
  { apply groups_map_elem. split.
    - symmetry. by apply carried_key_bucket.
    - destruct (carrying k); [cbn [length] in Hlen; lia | done]. }
  destruct (merge_state_inv (build_groups_map combined)) as [_ _ Hgroups Hcomplete].
  pose proof (Hcomplete _ _ Hb Hlen) as Hsig.
  apply elem_of_map_signature in Hsig as (pos & g & Hpos & Hsig).
  exists g. split; [apply list_elem_of_lookup; by exists pos |].
  destruct (Hgroups pos g Hpos) as (_ & _ & -> & _).
  apply elem_of_map. exists (k, carrying k). split; [done |].
  apply list_elem_of_In, filter_In. split; [by apply list_elem_of_In |].
  unfold same_signature. cbn [snd]. apply andb_true_iff. split.
  - apply Nat.ltb_lt. lia.
  - by apply bool_decide_eq_true.
Qed.

(** Two different occurrences whose records share a key are together in
    the group that lists the key. *)
Lemma shared_key_common_group (o1 o2 : occurrence) (k : pystr) :
  o1 ∈ combined -> o2 ∈ combined -> o1 <> o2 ->
  k ∈ canonical_keys (occ_player o1) -> k ∈ canonical_keys (occ_player o2) ->
  exists g, g ∈ find_common_groups source_list target_list /\ k ∈ keys g /\
            view o1 ∈ occurrences g /\ view o2 ∈ occurrences g.
Proof.
  intros Ho1 Ho2 Hne Hk1 Hk2.
  assert (Hin : forall o, o ∈ combined -> k ∈ canonical_keys (occ_player o) ->
                  o ∈ carrying k).
  { intros o Ho Hk. apply list_elem_of_In, filter_In.
    split; [by apply list_elem_of_In |]. unfold carries. by apply bool_decide_eq_true. }
  pose proof (Hin o1 Ho1 Hk1) as Hc1. pose proof (Hin o2 Ho2 Hk2) as Hc2.
  assert (Hlen : 2 <= length (carrying k)).
  { apply list_elem_of_lookup in Hc1 as [n1 Hn1]. apply list_elem_of_lookup in Hc2 as [n2 Hn2].
    assert (n1 <> n2) by (intros ->; rewrite Hn1 in Hn2; by injection Hn2).
    pose proof (lookup_lt_Some _ _ _ Hn1). pose proof (lookup_lt_Some _ _ _ Hn2). lia. }
  destruct (carried_twice_group k Hlen) as (g & Hg & Hk). exists g.
  split; [done |]. split; [done |].
  apply (find_common_groups_keys _ _ g k Hg) in Hk as [_ ->].
  split; apply elem_of_map; eexists; split; try reflexivity; done.
Qed.

(** An occurrence whose view is listed for a key carries the key. *)
Lemma listed_view_carries (o : occurrence) (k : pystr) :
  o ∈ combined -> view o ∈ List.map view (carrying k) ->
  k ∈ canonical_keys (occ_player o).
Proof.
  intros Ho Hv. apply elem_of_map in Hv as (o' & Hvv & Ho').
  apply list_elem_of_In, filter_In in Ho' as [Ho' Hk]. apply list_elem_of_In in Ho'.
  assert (o = o') as <-.
  { apply (NoDup_map_inj_on position combined);
      [apply combine_datasets_positions_NoDup | done | done |].
    unfold position. apply (f_equal ov_file) in Hvv as Hf.
    apply (f_equal ov_index) in Hvv as Hi. cbn in Hf, Hi. by rewrite Hf, Hi. }
  unfold carries in Hk. by apply bool_decide_eq_true in Hk.
Qed.

(** Each group of [find_common_groups] counts its occurrences, has at
    least one key and no key twice; its occurrences are, in the order of
    the combined list (source first), the records that carry any one of
    its keys, whichever key is taken; and [present_in] names, in sorted
    order, the datasets the occurrences come from. *)
Theorem find_common_groups_group (g : common_group) :
  g ∈ find_common_groups source_list target_list ->
  total_count g = length (occurrences g) /\
  keys g <> [] /\ NoDup (keys g) /\
  (forall k, k ∈ keys g -> occurrences g = List.map view (carrying k)) /\
  (forall tag, tag ∈ present_in g <-> exists ov, ov ∈ occurrences g /\ ov_file ov = tag) /\
  (present_in g = [lit "source"] \/ present_in g = [lit "target"] \/
   present_in g = [lit "source"; lit "target"]).
Proof.
  intros Hg. destruct (common_group_keys g Hg) as (H1 & H2 & H3).
  destruct (common_group_present g Hg) as (H4 & H5).
  split; [done |]. split; [done |]. split; [done |]. split; [| done].
  intros k Hk. by apply (find_common_groups_keys _ _ g k Hg) in Hk as [_ ?].
Qed.

(** Two occurrences are listed together in a group of
    [find_common_groups] exactly when their records share a key; a key
    is listed by a group exactly when two or more occurrences carry it,
    and then by one group only. *)
Theorem find_common_groups_grouped_iff_shared_key :
  (forall o1 o2, o1 ∈ combined -> o2 ∈ combined -> o1 <> o2 ->
     ((exists g, g ∈ find_common_groups source_list target_list /\
                 view o1 ∈ occurrences g /\ view o2 ∈ occurrences g) <->
      (exists k, k ∈ canonical_keys (occ_player o1) /\
                 k ∈ canonical_keys (occ_player o2)))) /\
  (forall k, (exists g, g ∈ find_common_groups source_list target_list /\ k ∈ keys g) <->
             2 <= length (carrying k)) /\
  (forall g1 g2 k, g1 ∈ find_common_groups source_list target_list ->
                   g2 ∈ find_common_groups source_list target_list ->
                   k ∈ keys g1 -> k ∈ keys g2 -> g1 = g2).
Proof.
  split; [| split].
  - intros o1 o2 Ho1 Ho2 Hne. split.
    + intros (g & Hg & Hv1 & Hv2).
      destruct (common_group_keys g Hg) as (_ & Hkne & _).
      destruct (keys g) as [|k ks] eqn:E; [done |].
      assert (Hk : k ∈ keys g) by (rewrite E; by left).
      apply (find_common_groups_keys _ _ g k Hg) in Hk as [_ Hocc].
      exists k. rewrite Hocc in Hv1, Hv2. split; by apply listed_view_carries.
    + intros (k & Hk1 & Hk2).
      destruct (shared_key_common_group o1 o2 k) as (g & Hg & _ & H1 & H2); try done.
      by exists g.
  - intros k. split; [| apply carried_twice_group].
    intros (g & Hg & Hk). by apply (find_common_groups_keys _ _ g k Hg) in Hk as [? _].
  - intros g1 g2 k Hg1 Hg2 Hk1 Hk2.
    apply (find_common_groups_keys _ _ g1 k Hg1) in Hk1 as [_ Hv1].
    apply (find_common_groups_keys _ _ g2 k Hg2) in Hk2 as [_ Hv2].
    destruct (merge_state_inv (build_groups_map combined)) as [_ Huniq _ _].
    apply (NoDup_map_inj_on group_signature _ g1 g2 Huniq Hg1 Hg2).
    unfold group_signature. by rewrite Hv1, Hv2.
Qed.

End CrossGroupTheorems.

Section GroupsByKey.
Context {U : UnicodeData}.

(** No two groups of [find_duplicates] have the same key, so the
    dictionary of groups by key that the resolver builds holds every
    group: a key leads to the group it belongs to, and to none other. *)
Theorem duplicate_groups_by_key (players : list record) :
  NoDup (List.map key (find_duplicates players)) /\
  length (elements (group_keys (find_duplicates players))) =
    length (find_duplicates players) /\
  forall k g, groups_by_key (find_duplicates players) !! k = Some g <->
              g ∈ find_duplicates players /\ key g = k.
Proof.
  pose proof (find_duplicates_keys_NoDup players) as Hnd.
  split; [done |]. split.
  - unfold group_keys. rewrite <- (length_map key).
    apply Permutation_length, elements_list_to_set. done.
  - intros k g. by apply groups_by_key_lookup.
Qed.

End GroupsByKey.

Lemma find_duplicates_group_members_witness :
  {| key := lit "tid::42"; indices := [0; 1]; members := two_jon_smiths |}
    ∈ @find_duplicates fragment two_jon_smiths /\
  StronglySorted lt [0; 1] /\
  length two_jon_smiths = 2.
Proof.
  assert (H : {| key := lit "tid::42"; indices := [0; 1]; members := two_jon_smiths |}
                ∈ @find_duplicates fragment two_jon_smiths).
  { assert (E : @find_duplicates fragment two_jon_smiths =
                [{| key := lit "tid::42"; indices := [0; 1]; members := two_jon_smiths |}])
      by (by vm_compute).
    rewrite E. by left. }
  destruct (@find_duplicates_group_members fragment two_jon_smiths _ H) as (H1 & H2 & _).
  exact (conj H (conj H1 H2)).
Defined.

Lemma find_common_groups_group_witness :
  (exists g, g ∈ @find_common_groups fragment two_jon_smiths [] /\
             total_count g = length (occurrences g) /\ NoDup (keys g)).
Proof.
  destruct (@find_common_groups fragment two_jon_smiths []) as [|g gs] eqn:E;
    [by vm_compute in E |].
  assert (H : g ∈ @find_common_groups fragment two_jon_smiths []) by (rewrite E; by left).
  destruct (@find_common_groups_group fragment two_jon_smiths [] g H) as (H1 & _ & H3 & _).
  exists g. rewrite <- E. exact (conj H (conj H1 H3)).
Defined.

(** * One dataset under both grouping passes *)

Lemma key_pair_eq (k1 k1' k2 k2' : pystr) :
  key_pair k1 k1' -> key_pair k2 k2' -> (k1 = k2 <-> k1' = k2').
Proof.
  intros [[-> H1]|(i & -> & ->)] [[-> H2]|(j & -> & ->)].
  - done.
  - split; intros H; exfalso; destruct H1 as [[s Hs]|[s Hs]]; rewrite Hs in H;
      simpl in H; discriminate.
  - split; intros H; exfalso; destruct H2 as [[s Hs]|[s Hs]]; rewrite Hs in H;
      simpl in H; discriminate.
  - split; intros H.
    + apply app_inv_head, lit_pretty_inj in H. by subst.
    + do 3 apply app_inv_head in H. apply lit_pretty_inj in H. by subst.
Qed.

Lemma setdefault_append_pair (k k' : pystr) (it : item)
    (d : list (pystr * list item)) (d' : list (pystr * list occurrence)) :
  key_pair k k' -> Forall2 bucket_pair d d' ->
  Forall2 bucket_pair (setdefault_append k it d)
                      (setdefault_append k' (source_occurrence it) d').
Proof.
  intros Hk Hd. induction Hd as [|[k0 l0] [k0' l0'] d d' [Hk0 Hl0] Hd IH];
    cbn [setdefault_append].
  - constructor; [| constructor]. split; [done | done].
  - cbn [fst snd] in Hk0, Hl0.
    assert (E : pystr_eqb k0 k = pystr_eqb k0' k').
    { unfold pystr_eqb. apply bool_decide_ext. by apply key_pair_eq. }
    rewrite <- E. destruct (pystr_eqb k0 k).
    + constructor; [| done]. split; [done |]. cbn [snd].
      by rewrite map_app, Hl0.
    + constructor; [| done]. by split.
Qed.

Section OneDataset.
Context {U : UnicodeData}.

Lemma keys_pair (it : item) :
  Forall2 key_pair (item_keys it) (occurrence_keys (source_occurrence it)).
Proof.
  unfold item_keys, occurrence_keys, source_occurrence. cbn [occ_player occ_file occ_index].
  change (canonical_keys (item_player it)) with (key_for_player (item_player it)).
  destruct (key_for_player (item_player it)) as [|k ks] eqn:E.
  - constructor; [| constructor]. right. by exists (item_index it).
  - rewrite <- E. clear E.
    assert (H : forall k, k ∈ key_for_player (item_player it) ->
              k ∈ key_for_player (item_player it)) by done.
    revert H. generalize (key_for_player (item_player it)) at 1 3 4.
    intros l. induction l as [|k0 l IH]; intros H; constructor.
    + left. split; [done |]. apply (key_for_player_shape (item_player it)), H. by left.
    + apply IH. intros k1 Hk1. apply H. by right.
Qed.

Lemma register_pair (it : item)
    (d : list (pystr * list item)) (d' : list (pystr * list occurrence)) :
  Forall2 bucket_pair d d' ->
  Forall2 bucket_pair (register item_keys d it)
                      (register occurrence_keys d' (source_occurrence it)).
Proof.
  unfold register. pose proof (keys_pair it) as Hk. revert d d'.
  induction Hk as [|k k' ks ks' Hk Hks IH]; intros d d' Hd; cbn [fold_left]; [done |].
  apply IH. by apply setdefault_append_pair.
Qed.

Lemma register_all_pair (its : list item)
    (d : list (pystr * list item)) (d' : list (pystr * list occurrence)) :
  Forall2 bucket_pair d d' ->
  Forall2 bucket_pair (fold_left (register item_keys) its d)
    (fold_left (register occurrence_keys) (List.map source_occurrence its) d').
Proof.
  revert d d'. induction its as [|it its IH]; intros d d' Hd; cbn [List.map fold_left]; [done |].
  apply IH. by apply register_pair.
Qed.

Lemma combine_datasets_source (players : list record) :
  combine_datasets players [] =
  List.map source_occurrence (List.map to_item (enumerate players)).
Proof.
  unfold combine_datasets. change (enumerate (@nil record)) with (@nil (nat * record)).
  cbn [List.map]. rewrite app_nil_r, map_map. done.
Qed.

Lemma buckets_pair (players : list record) :
  Forall2 bucket_pair (build_by_key players)
                      (build_groups_map (combine_datasets players [])).
Proof.
  rewrite build_by_key_register, build_groups_map_register, combine_datasets_source.
  unfold register_all. apply register_all_pair. constructor.
Qed.

End OneDataset.

Lemma sorted_nat_inj (l1 l2 : list nat) :
  StronglySorted lt l1 -> StronglySorted lt l2 -> sorted_nat l1 = sorted_nat l2 -> l1 = l2.
Proof.
  intros H1 H2 Heq. apply (StronglySorted_unique_strong lt); try done.
  - intros x1 x2 _ _ ? ?. lia.
  - unfold sorted_nat in Heq.
    rewrite <- (merge_sort_Permutation (fun x y => Is_true (Nat.leb x y)) l1), Heq.
    apply merge_sort_Permutation.
Qed.

Lemma source_signature_inj (l1 l2 : list nat) :
  StronglySorted lt l1 -> StronglySorted lt l2 ->
  source_signature l1 = source_signature l2 -> l1 = l2.
Proof.
  intros H1 H2 Heq. apply (StronglySorted_unique_strong lt); try done.
  - intros x1 x2 _ _ ? ?. lia.
  - unfold source_signature, sorted_tuples in Heq.
    assert (Hp : List.map (fun i => (lit "source", i)) l1 ≡ₚ
                 List.map (fun i => (lit "source", i)) l2).
    { rewrite <- (merge_sort_Permutation (fun x y => Is_true (tuple_leb x y))
                    (List.map (fun i => (lit "source", i)) l1)), Heq.
      apply merge_sort_Permutation. }
    apply (Permutation_map snd) in Hp. rewrite !map_map in Hp. cbn [snd] in Hp.
    by rewrite !map_id in Hp.
Qed.

Lemma map_alter_same {A B} (h : A -> B) (f : A -> A) (i : nat) (l : list A) :
  (forall x, x ∈ l -> h (f x) = h x) -> List.map h (alter f i l) = List.map h l.
Proof.
  revert i. induction l as [|x l IH]; intros i H; [done |].
  destruct i as [|i]; cbn [alter list_alter List.map].
  - f_equal. apply H. by left.
  - f_equal. apply IH. intros y Hy. apply H. by right.
Qed.

Lemma Forall2_impl_elem {A B} (P Q : A -> B -> Prop) (l : list A) (k : list B) :
  Forall2 P l k -> (forall x y, x ∈ l -> P x y -> Q x y) -> Forall2 Q l k.
Proof.
  induction 1 as [|x y l k Hxy Hlk IH]; intros H; constructor.
  - apply H; [by left | done].
  - apply IH. intros x' y' Hx'. apply H. by right.
Qed.

Section SecondLoops.
Context {U : UnicodeData}.

Lemma source_bucket_signature (lst : list item) :
  signature (List.map source_occurrence lst) = source_signature (List.map item_index lst).
Proof. unfold signature, source_signature. by rewrite !map_map. Qed.

Lemma loops_agree_step (st : list dup_group * gset (list nat))
    (st' : list common_group * gmap (list (pystr * nat)) nat)
    (kl : pystr * list item) (ko : pystr * list occurrence) :
  filed_pair kl ko -> loops_agree st st' ->
  loops_agree (collect_group st kl) (merge_bucket st' ko).
Proof.
  destruct st as [groups seen], st' as [final_groups seen_signatures].
  destruct kl as [k lst], ko as [k' occ].
  intros ([Hk Hocc] & Hsorted & Hsame) (Hagree & Hkeys & Hpos & Hseen).
  cbn [fst snd] in *. subst occ.
  unfold collect_group, merge_bucket.
  rewrite signature_length, length_map.
  destruct (Nat.ltb 1 (length lst)) eqn:Hlen.
  - apply Nat.ltb_lt in Hlen.
    replace (Nat.leb (length lst) 1) with false by (symmetry; apply Nat.leb_gt; lia).
    destruct Hsame as [Hsame|Hsame]; [lia |]. subst k'.
    rewrite source_bucket_signature.
    pose proof (Hseen _ Hsorted) as Hiff.
    destruct (seen_signatures !! source_signature (List.map item_index lst))
      as [pos|] eqn:Hsig.
    + rewrite bool_decide_eq_true_2 by (apply Hiff; by eexists).
      split; [| split; [| split]]; cbn [fst snd].
      * unfold groups_agree in *. rewrite Hagree. symmetry. apply map_alter_same.
        intros g Hg. rewrite Forall_forall in Hkeys. pose proof (Hkeys g Hg) as Hne.
        unfold occurrence_indices. cbn [append_key keys occurrences].
        destruct (keys g); [done | done].
      * rewrite Forall_forall in *. intros g Hg.
        apply list_elem_of_lookup in Hg as [n Hn].
        destruct (decide (n = pos)) as [-> |Hne].
        -- rewrite list_lookup_alter in Hn.
           destruct (final_groups !! pos) as [g0|] eqn:E; simpl in Hn;
             destruct (decide (pos = pos)); try done.
           injection Hn as <-. cbn [append_key keys]. by intros [_ ?]%app_eq_nil.
        -- rewrite list_lookup_alter_ne in Hn by done.
           apply Hkeys. apply list_elem_of_lookup. by exists n.
      * intros sig n Hn. rewrite length_alter. by apply (Hpos sig).
      * done.
    + rewrite bool_decide_eq_false_2
        by (intros Hin; apply Hiff in Hin; by destruct Hin).
      split; [| split; [| split]]; cbn [fst snd].
      * unfold groups_agree in *. rewrite !map_app, Hagree. cbn [List.map]. f_equal.
        unfold occurrence_indices. cbn [new_group keys occurrences key indices members head].
        rewrite !map_map. done.
      * apply Forall_app. split; [done |]. constructor; [done | constructor].
      * intros sig n Hn. rewrite length_app. cbn [length].
        destruct (decide (source_signature (List.map item_index lst) = sig)) as [<- |Hne].
        -- rewrite lookup_insert_eq in Hn. injection Hn as <-. lia.
        -- rewrite lookup_insert_ne in Hn by done. apply Hpos in Hn. lia.
      * intros l Hl. rewrite elem_of_union, elem_of_singleton. split.
        -- intros [Hin|Heq].
           ++ apply Hseen in Hin; [| done].
              destruct (decide (source_signature (List.map item_index lst)
                                = source_signature l)) as [-> |Hne].
              ** rewrite lookup_insert_eq. by eexists.
              ** by rewrite lookup_insert_ne.
           ++ apply sorted_nat_inj in Heq; [| done | done]. subst l.
              rewrite lookup_insert_eq. by eexists.
        -- destruct (decide (source_signature (List.map item_index lst)
                             = source_signature l)) as [Heq|Hne].
           ++ intros _. right. apply source_signature_inj in Heq; [| done | done].
              by subst l.
           ++ rewrite lookup_insert_ne by done. intros Hin. left. by apply Hseen.
  - apply Nat.ltb_ge in Hlen.
    replace (Nat.leb (length lst) 1) with true by (symmetry; apply Nat.leb_le; lia).
    done.
Qed.

Lemma loops_agree_fold (pre : list (pystr * list item))
    (pre' : list (pystr * list occurrence))
    (st : list dup_group * gset (list nat))
    (st' : list common_group * gmap (list (pystr * nat)) nat) :
  Forall2 filed_pair pre pre' -> loops_agree st st' ->
  loops_agree (fold_left collect_group pre st) (fold_left merge_bucket pre' st').
Proof.
  intros Hpre. revert st st'.
  induction Hpre as [|kl ko pre pre' Hp Hpre IH]; intros st st' Hst; cbn [fold_left]; [done |].
  apply IH. by apply loops_agree_step.
Qed.

Lemma fallback_bucket_single (players : list record) (i : nat) :
  length (List.filter (has_key item_keys (lit "index::" ++ lit (pretty i)))
            (List.map to_item (enumerate players))) <= 1.
Proof.
  destruct (le_lt_dec (length (List.filter (has_key item_keys (lit "index::" ++ lit (pretty i)))
            (List.map to_item (enumerate players)))) 1) as [|Hlen]; [done |].
  exfalso.
  destruct (List.filter _ _) as [|it l] eqn:E; [cbn [length] in Hlen; lia |].
  assert (Hit : it ∈ List.filter (has_key item_keys (lit "index::" ++ lit (pretty i)))
            (List.map to_item (enumerate players))) by (rewrite E; by left).
  apply list_elem_of_In, filter_In in Hit as [_ Hit].
  unfold has_key in Hit. apply bool_decide_eq_true in Hit.
  apply (shared_key_real players) in Hit; [| rewrite E; cbn [length] in *; lia].
  apply key_for_player_shape in Hit as [[s Hs]|[s Hs]]; simpl in Hs; discriminate.
Qed.

Lemma buckets_filed (players : list record) :
  Forall2 filed_pair (build_by_key players)
                     (build_groups_map (combine_datasets players [])).
Proof.
  eapply Forall2_impl_elem; [apply buckets_pair |].
  intros [k lst] [k' occ] Hin Hpair. split; [done |].
  rewrite build_by_key_register in Hin.
  apply (register_all_elem item_keys item_keys_NoDup) in Hin as [-> _].
  cbn [fst snd]. split; [apply bucket_indices_sorted |].
  destruct Hpair as [[[Hk _]|(i & Hk & _)] _]; cbn [fst] in Hk; [by right |].
  left. rewrite Hk. apply fallback_bucket_single.
Qed.

(** For a single dataset the two scripts find the same groups, in the
    same order: with an empty target, [find_common_groups] returns as
    many groups as [find_duplicates], each at the same positions with the
    compact views of the same records, and the key [find_duplicates]
    keeps is the first key [find_common_groups] lists. *)
Theorem single_dataset_groups_agree (players : list record) :
  List.map (fun g => (Some (key g), indices g, List.map compact_player_view (members g)))
           (find_duplicates players) =
  List.map (fun g => (head (keys g), occurrence_indices g,
                      List.map ov_player (occurrences g)))
           (find_common_groups players []).
Proof.
  unfold find_duplicates, find_common_groups, collect_groups, merge_buckets.
  apply (loops_agree_fold _ _ ([], ∅) ([], ∅) (buckets_filed players)).
  split; [done |]. split; [constructor |]. cbn [fst snd]. split.
  - intros sig pos H. by rewrite lookup_empty in H.
  - intros l _. rewrite lookup_empty. split.
    + intros H. by apply elem_of_empty in H.
    + intros [? H]. done.
Qed.

End SecondLoops.

(** * Further properties of the resolver *)

Section LookupProperties.
Context {U : UnicodeData}.

Lemma build_target_lookup_app (t1 t2 : list record) :
  build_target_lookup (t1 ++ t2) =
    (fst (build_target_lookup t1) ∪ fst (build_target_lookup t2),
     snd (build_target_lookup t1) ∪ snd (build_target_lookup t2)).
Proof.
  pose proof (build_target_lookup_spec (t1 ++ t2)) as H12.
  pose proof (build_target_lookup_spec t1) as H1.
  pose proof (build_target_lookup_spec t2) as H2.
  destruct (build_target_lookup (t1 ++ t2)) as [ids12 names12].
  destruct (build_target_lookup t1) as [ids1 names1].
  destruct (build_target_lookup t2) as [ids2 names2].
  destruct H12 as [Hi12 Hn12], H1 as [Hi1 Hn1], H2 as [Hi2 Hn2]. cbn [fst snd].
  f_equal; apply set_eq; intros x; rewrite elem_of_union.
  - rewrite Hi12, Hi1, Hi2. split.
    + intros (q & Hq & Ht). apply elem_of_app in Hq as [Hq|Hq]; [left | right]; by exists q.
    + intros [(q & Hq & Ht)|(q & Hq & Ht)]; exists q; (split; [| done]);
        apply elem_of_app; [by left | by right].
  - rewrite Hn12, Hn1, Hn2. split.
    + intros (q & Hq & Ht). apply elem_of_app in Hq as [Hq|Hq]; [left | right]; by exists q.
    + intros [(q & Hq & Ht)|(q & Hq & Ht)]; exists q; (split; [| done]);
        apply elem_of_app; [by left | by right].
Qed.

(** The target lookup of a concatenation is the union of the lookups;
    the order of the target records does not matter; and the empty text
    is never among the normalised names. *)
Theorem build_target_lookup_union (t1 t2 : list record) :
  build_target_lookup (t1 ++ t2) =
    (fst (build_target_lookup t1) ∪ fst (build_target_lookup t2),
     snd (build_target_lookup t1) ∪ snd (build_target_lookup t2)) /\
  (forall t, t1 ≡ₚ t -> build_target_lookup t = build_target_lookup t1) /\
  [] ∉ snd (build_target_lookup t1).
Proof.
  split; [apply build_target_lookup_app |].
  pose proof (build_target_lookup_spec t1) as H1.
  destruct (build_target_lookup t1) as [ids1 names1].
  destruct H1 as [Hi1 Hn1]. cbn [fst snd]. split.
  - intros t Hp. pose proof (build_target_lookup_spec t) as Ht.
    destruct (build_target_lookup t) as [ids names]. destruct Ht as [Hi Hn].
    f_equal; apply set_eq; intros x.
    + rewrite Hi, Hi1. split; intros (q & Hq & Hx); exists q; (split; [| done]).
      * by rewrite Hp.
      * by rewrite <- Hp.
    + rewrite Hn, Hn1. split; intros (q & Hq & Hx); exists q; (split; [| done]).
      * by rewrite Hp.
      * by rewrite <- Hp.
  - rewrite Hn1. by intros (q & _ & _ & Hne).
Qed.

Lemma best_similarity_mono (nn : pystr) (names names' : gset pystr) :
  names ⊆ names' -> (best_similarity nn names <= best_similarity nn names')%Q.
Proof.
  intros Hsub.
  destruct (best_similarity_max nn names) as (_ & _ & [-> |(cand & Hc & ->)]);
    destruct (best_similarity_max nn names') as (H0 & Hmax & _); [done |].
  apply Hmax. by apply Hsub.
Qed.

Lemma best_similarity_le_1 (nn : pystr) (names : gset pystr) :
  (best_similarity nn names <= 1)%Q.
Proof.
  destruct (best_similarity_max nn names) as (_ & _ & [-> |(cand & Hc & ->)]); [done |].
  apply ratio_bounds.
Qed.

Lemma rule_fuzzy_mono (names names' : gset pystr) (threshold threshold' : Q) (p : record) :
  names ⊆ names' -> (threshold' <= threshold)%Q ->
  rule_fuzzy names threshold p = true -> rule_fuzzy names' threshold' p = true.
Proof.
  unfold rule_fuzzy. intros Hsub Hle H. apply andb_true_iff in H as [H1 H2].
  apply andb_true_iff. split; [done |]. apply Qle_bool_iff in H2. apply Qle_bool_iff.
  eapply Qle_trans; [exact Hle |]. eapply Qle_trans; [exact H2 |].
  by apply best_similarity_mono.
Qed.

(** Lowering the threshold or enlarging the target lookup never turns a
    found record into a missing one; in particular a record found against
    a target is found against any longer target. *)
Theorem is_found_monotone (threshold threshold' : Q) (p : record) :
  (threshold' <= threshold)%Q ->
  (forall ids ids' names names' : gset pystr,
      ids ⊆ ids' -> names ⊆ names' ->
      is_found ids names threshold p = true ->
      is_found ids' names' threshold' p = true) /\
  (forall target more : list record,
      is_found (fst (build_target_lookup target)) (snd (build_target_lookup target))
               threshold p = true ->
      is_found (fst (build_target_lookup (target ++ more)))
               (snd (build_target_lookup (target ++ more))) threshold' p = true).
Proof.
  intros Hle.
  assert (Hgen : forall ids ids' names names' : gset pystr,
      ids ⊆ ids' -> names ⊆ names' ->
      is_found ids names threshold p = true ->
      is_found ids' names' threshold' p = true).
  { intros ids ids' names names' Hi Hn. rewrite !is_found_rules.
    rewrite !orb_true_iff. intros [[H|H]|H].
    - left; left. unfold rule_id in *. destruct (tid_text p) as [s|]; [| done].
      apply andb_true_iff in H as [H1 H2]. apply andb_true_iff. split; [done |].
      apply bool_decide_eq_true in H2. apply bool_decide_eq_true. by apply Hi.
    - left; right. unfold rule_name in *.
      apply andb_true_iff in H as [H1 H2]. apply andb_true_iff. split; [done |].
      apply bool_decide_eq_true in H2. apply bool_decide_eq_true. by apply Hn.
    - right. by apply (rule_fuzzy_mono names names' threshold threshold'). }
  split; [exact Hgen |].
  intros target more. rewrite build_target_lookup_app.
  cbn [fst snd]. apply Hgen; apply union_subseteq_l.
Qed.

(** The three regimes of the threshold: up to 1 the exact-name rule adds
    nothing to the fuzzy rule; above 1 the fuzzy rule never succeeds; at
    0 or below every record with a normalised name is found, whatever
    the target holds. *)
Theorem threshold_regimes (ids names : gset pystr) (threshold : Q) (p : record) :
  ((threshold <= 1)%Q ->
   is_found ids names threshold p = (rule_id ids p || rule_fuzzy names threshold p)%bool) /\
  ((1 < threshold)%Q ->
   is_found ids names threshold p = (rule_id ids p || rule_name names p)%bool) /\
  ((threshold <= 0)%Q ->
   is_found ids names threshold p =
     (rule_id ids p || negb (pystr_eqb (name_key p) []))%bool).
Proof.
  rewrite is_found_rules. split; [| split]; intros Hth.
  - assert (H : rule_name names p = true -> rule_fuzzy names threshold p = true).
    { unfold rule_name, rule_fuzzy. intros H. apply andb_true_iff in H as [H1 H2].
      apply andb_true_iff. split; [done |]. apply bool_decide_eq_true in H2.
      apply Qle_bool_iff. eapply Qle_trans; [exact Hth |].
      destruct (best_similarity_max (name_key p) names) as (_ & Hmax & _).
      eapply Qle_trans; [| apply (Hmax _ H2)].
      unfold similar. rewrite self_ratio. done. }
    destruct (rule_id ids p), (rule_name names p), (rule_fuzzy names threshold p);
      try done. by specialize (H eq_refl).
  - assert (H : rule_fuzzy names threshold p = false).
    { unfold rule_fuzzy. apply andb_false_iff. right.
      destruct (Qle_bool threshold _) eqn:E; [| done]. exfalso.
      apply Qle_bool_iff in E. apply (Qlt_not_le _ _ Hth).
      eapply Qle_trans; [exact E | apply best_similarity_le_1]. }
    rewrite H. by rewrite orb_false_r.
  - assert (H : rule_fuzzy names threshold p = negb (pystr_eqb (name_key p) [])).
    { unfold rule_fuzzy.
      replace (Qle_bool threshold (best_similarity (name_key p) names)) with true;
        [by rewrite andb_true_r |].
      symmetry. apply Qle_bool_iff. eapply Qle_trans; [exact Hth |].
      by destruct (best_similarity_max (name_key p) names) as (? & _). }
    rewrite H. unfold rule_name.
    destruct (rule_id ids p), (negb (pystr_eqb (name_key p) [])),
      (bool_decide (name_key p ∈ names)); done.
Qed.

End LookupProperties.

Lemma is_found_monotone_witness :
  (1 # 2 <= 9 # 10)%Q /\
  @is_found fragment
    (fst (@build_target_lookup fragment (two_jon_smiths ++ with_keyless)))
    (snd (@build_target_lookup fragment (two_jon_smiths ++ with_keyless)))
    (1 # 2) [(lit "name", VStr (lit "Jon Smith"))] = true.
Proof.
  assert (H : (1 # 2 <= 9 # 10)%Q) by done.
  split; [exact H |].
  apply (proj2 (@is_found_monotone fragment (9 # 10) (1 # 2)
                  [(lit "name", VStr (lit "Jon Smith"))] H)).
  by vm_compute.
Defined.

(** * A dataset against itself, and the duplicate flags *)

Section OwnDataset.
Context {U : UnicodeData}.

Lemma elem_of_flat_map_stdlib {A B} (f : A -> list B) (l : list A) (y : B) :
  y ∈ flat_map f l <-> exists x, x ∈ l /\ y ∈ f x.
Proof.
  rewrite list_elem_of_In, in_flat_map. split; intros (x & Hx & Hy); exists x.
  - by rewrite !list_elem_of_In.
  - by rewrite <- !list_elem_of_In.
Qed.

(** Where a report entry comes from. *)
Lemma missing_report_elem (src tgt : list record) (threshold : Q) (e : entry) :
  e ∈ missing_report src tgt threshold <->
  exists p, p ∈ src /\
    e ∈ emitted (fst (build_target_lookup tgt)) (snd (build_target_lookup tgt))
                (find_duplicates src) (find_duplicates tgt) threshold p.
Proof. by rewrite missing_report_unfold, find_missing_flat_map, elem_of_flat_map_stdlib. Qed.

(** Against the dataset it belongs to, a record is found unless it has
    neither a non-empty identifier text nor a normalised name, whatever
    the threshold; so a report of a dataset against itself marks as
    missing only records without identifier text and without name. *)
Theorem found_in_own_dataset (records : list record) (threshold : Q) :
  (forall p, p ∈ records ->
     is_found (fst (build_target_lookup records)) (snd (build_target_lookup records))
              threshold p =
     negb (match tid_text p with Some s => pystr_eqb s [] | None => true end
           && pystr_eqb (name_key p) [])) /\
  (forall e, e ∈ missing_report records records threshold -> e_missing e = Some true ->
     (e_transfermarkt_id e = None \/ e_transfermarkt_id e = Some []) /\
     normalize_name (py_or (e_name e) (VStr [])) = []).
Proof.
  assert (Hfound : forall p, p ∈ records ->
     is_found (fst (build_target_lookup records)) (snd (build_target_lookup records))
              threshold p =
     negb (match tid_text p with Some s => pystr_eqb s [] | None => true end
           && pystr_eqb (name_key p) [])).
  { intros p Hp. rewrite is_found_rules.
    pose proof (build_target_lookup_spec records) as H.
    destruct (build_target_lookup records) as [ids names]. destruct H as [Hids Hnames].
    cbn [fst snd]. unfold rule_id, rule_name, rule_fuzzy.
    assert (Hi : forall s, tid_text p = Some s -> bool_decide (s ∈ ids) = true).
    { intros s Hs. apply bool_decide_eq_true, Hids. by exists p. }
    assert (Hn : pystr_eqb (name_key p) [] = false ->
                 bool_decide (name_key p ∈ names) = true).
    { intros Hne. apply bool_decide_eq_true, Hnames. exists p.
      split; [done |]. split; [done |]. by apply pystr_eqb_false. }
    destruct (tid_text p) as [s|] eqn:Et.
    - rewrite (Hi s eq_refl). destruct (pystr_eqb s []); cbn [negb andb orb]; [| done].
      destruct (pystr_eqb (name_key p) []) eqn:En; cbn [negb andb orb]; [done |].
      by rewrite Hn.
    - destruct (pystr_eqb (name_key p) []) eqn:En; cbn [negb andb orb]; [done |].
      by rewrite Hn. }
  split; [exact Hfound |].
  intros e He Hmiss. apply missing_report_elem in He as (p & Hp & He).
  rewrite emitted_cases, (Hfound p Hp) in He.
  destruct (tid_text p) as [s|] eqn:Et.
  - destruct (pystr_eqb s []) eqn:Es; cbn [negb andb] in He.
    + destruct (pystr_eqb (name_key p) []) eqn:En; cbn [negb] in He.
      * apply list_elem_of_singleton in He. subst e.
        unfold base_entry. destruct (dup_membership _ _ _). cbn.
        rewrite Et. apply pystr_eqb_true in Es, En. subst s. split; [by right | done].
      * destruct (flagged _ _ p); [| by apply elem_of_nil in He].
        apply list_elem_of_singleton in He. by subst e.
    + destruct (flagged _ _ p); [| by apply elem_of_nil in He].
      apply list_elem_of_singleton in He. by subst e.
  - destruct (pystr_eqb (name_key p) []) eqn:En; cbn [negb andb] in He.
    + apply list_elem_of_singleton in He. subst e.
      unfold base_entry. destruct (dup_membership _ _ _). cbn.
      rewrite Et. apply pystr_eqb_true in En. split; [by left | done].
    + destruct (flagged _ _ p); [| by apply elem_of_nil in He].
      apply list_elem_of_singleton in He. by subst e.
Qed.

(** A source record is flagged as a duplicate in the source exactly when
    another source record shares a key with it; a flag for the target
    means that two target records carry one of its keys. *)
Theorem source_flag_iff_shared_key (src tgt : list record) (i : nat) (p : record) :
  src !! i = Some p ->
  (lit "source" ∈ fst (dup_membership (find_duplicates src) (find_duplicates tgt) p) <->
   exists j q k, j <> i /\ src !! j = Some q /\
                 k ∈ key_for_player p /\ k ∈ key_for_player q) /\
  (lit "target" ∈ fst (dup_membership (find_duplicates src) (find_duplicates tgt) p) ->
   exists j1 j2 q1 q2 k,
     j1 <> j2 /\ tgt !! j1 = Some q1 /\ tgt !! j2 = Some q2 /\
     k ∈ key_for_player p /\ k ∈ key_for_player q1 /\ k ∈ key_for_player q2).
Proof.
  intros Hp.
  assert (Htwo : forall players g, g ∈ find_duplicates players ->
            exists j1 j2, j1 <> j2 /\ j1 ∈ indices g /\ j2 ∈ indices g).
  { intros players g Hg.
    destruct (find_duplicates_indices players g Hg) as (Hlen & Hi & _).
    pose proof (bucket_indices_sorted players (key g)) as Hs. rewrite <- Hi in Hs.
    destruct (indices g) as [|j1 [|j2 l]]; cbn [length] in Hlen; [lia | lia |].
    apply StronglySorted_inv in Hs as [_ Hs]. apply Forall_cons in Hs as [Hlt _].
    exists j1, j2. split; [lia |]. split; [by left | right; by left]. }
  split; [split |].
  - intros Hin. apply dup_membership_locations in Hin as [[_ (k & Hk & Hg)]|[Hne _]];
      [| discriminate].
    apply elem_of_group_keys in Hg as (g & Hg & <-).
    destruct (find_duplicates_indices src g Hg) as (_ & _ & _ & Hiff).
    destruct (Htwo src g Hg) as (j1 & j2 & Hne & Hj1 & Hj2).
    assert (Hj : exists j, j <> i /\ j ∈ indices g).
    { destruct (decide (j1 = i)) as [-> |]; [exists j2 | exists j1]; split; done. }
    destruct Hj as (j & Hji & Hj). apply Hiff in Hj as (q & Hq & Hkq).
    by exists j, q, (key g).
  - intros (j & q & k & Hji & Hq & Hkp & Hkq).
    destruct (shared_key_group src i j p q k) as (g & Hg & Hi & _); try done.
    destruct (find_duplicates_indices src g Hg) as (_ & _ & _ & Hiff).
    apply Hiff in Hi as (p' & Hp' & Hk). rewrite Hp in Hp'. injection Hp' as <-.
    apply dup_membership_locations. left. split; [done |].
    exists (key g). split; [done |]. apply elem_of_group_keys. by exists g.
  - intros Hin. apply dup_membership_locations in Hin as [[Hne _]|[_ (k & Hk & Hg)]];
      [discriminate |].
    apply elem_of_group_keys in Hg as (g & Hg & <-).
    destruct (find_duplicates_indices tgt g Hg) as (_ & _ & _ & Hiff).
    destruct (Htwo tgt g Hg) as (j1 & j2 & Hne & Hj1 & Hj2).
    apply Hiff in Hj1 as (q1 & Hq1 & Hk1). apply Hiff in Hj2 as (q2 & Hq2 & Hk2).
    by exists j1, j2, q1, q2, (key g).
Qed.

End OwnDataset.

Lemma source_flag_iff_shared_key_witness :
  lit "source" ∈ fst (@dup_membership fragment (@find_duplicates fragment two_jon_smiths)
                        (@find_duplicates fragment [])
                        [(lit "transfermarkt_id", VStr (lit "42"));
                         (lit "name", VStr (lit "Jon Smith"))]).
Proof.
  apply (proj1 (@source_flag_iff_shared_key fragment two_jon_smiths [] 0
                  [(lit "transfermarkt_id", VStr (lit "42"));
                   (lit "name", VStr (lit "Jon Smith"))] eq_refl)).
  exists 1, [(lit "transfermarkt_id", VStr (lit "42")); (lit "name", VStr (lit "Jon Smith"))],
    (lit "tid::42").
  split; [lia |]. split; [reflexivity |].
  assert (E : @key_for_player fragment
                [(lit "transfermarkt_id", VStr (lit "42")); (lit "name", VStr (lit "Jon Smith"))]
              = [lit "tid::42"; lit "name::jon smith"]) by (by vm_compute).
  rewrite E. split; by left.
Defined.

(** * The duplicate summaries of a report entry *)

Section Summaries.
Context {U : UnicodeData}.
Variables (dup_src_groups dup_tgt_groups : list dup_group).

Local Abbreviation from_groups info :=
  ((fst info ∈ group_keys dup_src_groups /\
    snd info = groups_by_key dup_src_groups !! fst info) \/
   (fst info ∈ group_keys dup_tgt_groups /\
    snd info = groups_by_key dup_tgt_groups !! fst info)).

Lemma dup_fold_info (ks : list pystr) (st : list pystr * list (pystr * option dup_group)) :
  let st' := fold_left (dup_step dup_src_groups dup_tgt_groups) ks st in
  (length (fst st) = length (snd st) -> length (fst st') = length (snd st')) /\
  length (snd st') <= length (snd st) + 2 * length ks /\
  (forall tag, tag ∈ fst st' ->
     tag ∈ fst st \/ tag = lit "source" \/ tag = lit "target") /\
  (forall info, info ∈ snd st' -> info ∈ snd st \/ from_groups info).
Proof.
  revert st. induction ks as [|k ks IH]; intros st; cbn [fold_left].
  - cbn zeta. split; [done |]. split; [lia |]. split; intros x Hx; by left.
  - cbn zeta. destruct (IH (dup_step dup_src_groups dup_tgt_groups st k)) as (H1 & H2 & H3 & H4).
    set (st1 := dup_step dup_src_groups dup_tgt_groups st k) in *.
    assert (Hstep : (length (fst st) = length (snd st) -> length (fst st1) = length (snd st1)) /\
              length (snd st1) <= length (snd st) + 2 /\
              (forall tag, tag ∈ fst st1 ->
                 tag ∈ fst st \/ tag = lit "source" \/ tag = lit "target") /\
              (forall info, info ∈ snd st1 -> info ∈ snd st \/ from_groups info)).
    { unfold st1, dup_step. destruct st as [locs info0]. cbn [fst snd].
      destruct (bool_decide (k ∈ group_keys dup_src_groups)) eqn:Es;
        destruct (bool_decide (k ∈ group_keys dup_tgt_groups)) eqn:Et; cbn [fst snd];
        try apply bool_decide_eq_true in Es; try apply bool_decide_eq_true in Et;
        rewrite ?length_app; cbn [length].
      - split; [lia |]. split; [lia |]. split.
        + intros tag. rewrite !elem_of_app, !list_elem_of_singleton. tauto.
        + intros info. rewrite !elem_of_app, !list_elem_of_singleton.
          intros [[?| ->]| ->]; [by left | right; by left | right; by right].
      - split; [lia |]. split; [lia |]. split.
        + intros tag. rewrite !elem_of_app, !list_elem_of_singleton. tauto.
        + intros info. rewrite !elem_of_app, !list_elem_of_singleton.
          intros [?| ->]; [by left | right; by left].
      - split; [lia |]. split; [lia |]. split.
        + intros tag. rewrite !elem_of_app, !list_elem_of_singleton. tauto.
        + intros info. rewrite !elem_of_app, !list_elem_of_singleton.
          intros [?| ->]; [by left | right; by right].
      - split; [done |]. split; [lia |]. split; intros x Hx; by left. }
    destruct Hstep as (S1 & S2 & S3 & S4).
    split; [intros Hl; by apply H1, S1 |]. split; [cbn [length]; lia |]. split.
    + intros tag Htag. apply H3 in Htag as [Htag|Htag]; [by apply S3 | by right].
    + intros info Hinfo. apply H4 in Hinfo as [Hinfo|Hinfo]; [by apply S4 | by right].
Qed.

End Summaries.

Section ReportEntries.
Context {U : UnicodeData}.

(** Every entry of the report is either unflagged (no duplicate fields,
    and then missing) or flagged; a flagged entry names the datasets
    with a duplicate group under one of the record's keys, in sorted
    order, and carries one summary per such key and dataset, at most
    four, each of a real group of two or more records whose first five
    members it previews. *)
Theorem report_duplicate_summaries (src tgt : list record) (threshold : Q) (e : entry) :
  e ∈ missing_report src tgt threshold ->
  (e_duplicate e = None /\ e_duplicate_in e = None /\ e_duplicate_groups e = None /\
   e_missing e = Some true) \/
  (e_duplicate e = Some true /\
   exists locs gs,
     e_duplicate_in e = Some locs /\ e_duplicate_groups e = Some gs /\
     (locs = [lit "source"] \/ locs = [lit "target"] \/
      locs = [lit "source"; lit "target"]) /\
     1 <= length gs <= 4 /\
     forall s, s ∈ gs ->
       2 <= gs_member_count s /\
       length (gs_members_preview s) = Nat.min 5 (gs_member_count s) /\
       exists g, (g ∈ find_duplicates src \/ g ∈ find_duplicates tgt) /\
                 key g = gs_key s /\
                 gs_member_count s = length (members g) /\
                 gs_members_preview s = List.map preview_member (take 5 (members g))).
Proof.
  intros He. apply missing_report_elem in He as (p & Hp & He).
  rewrite emitted_cases in He. unfold flagged in He.
  assert (Hbase : forall m,
    let b := set_missing m (base_entry (find_duplicates src) (find_duplicates tgt) p) in
    match fst (dup_membership (find_duplicates src) (find_duplicates tgt) p) with
    | [] => e_duplicate b = None /\ e_duplicate_in b = None /\ e_duplicate_groups b = None
    | _ =>
      e_duplicate b = Some true /\
      exists locs gs,
        e_duplicate_in b = Some locs /\ e_duplicate_groups b = Some gs /\
        (locs = [lit "source"] \/ locs = [lit "target"] \/
         locs = [lit "source"; lit "target"]) /\
        1 <= length gs <= 4 /\
        forall s, s ∈ gs ->
          2 <= gs_member_count s /\
          length (gs_members_preview s) = Nat.min 5 (gs_member_count s) /\
          exists g, (g ∈ find_duplicates src \/ g ∈ find_duplicates tgt) /\
                    key g = gs_key s /\
                    gs_member_count s = length (members g) /\
                    gs_members_preview s = List.map preview_member (take 5 (members g))
    end).
  { intros m. cbn zeta. unfold base_entry, dup_membership.
    pose proof (dup_fold_info (find_duplicates src) (find_duplicates tgt)
                  (key_for_player p) ([], [])) as Hfold.
    cbn zeta in Hfold.
    destruct (fold_left _ (key_for_player p) ([], [])) as [raw info].
    cbn [fst snd length] in Hfold. destruct Hfold as (Hlen & Hbound & Htags & Hinfo).
    specialize (Hlen eq_refl).
    assert (Hkeys : length (key_for_player p) <= 2).
    { rewrite key_for_player_parts, length_app. unfold id_keys, name_keys.
      destruct (is_none _), (pystr_eqb _ _); cbn [length]; lia. }
    destruct raw as [|t raw].
    - change (sorted_str (elements (list_to_set (@nil pystr) : gset pystr))) with (@nil pystr).
      cbn. done.
    - destruct (present_in_cases (t :: raw)) as [Hmem Hcases]; [done | |].
      { intros f Hf. apply Htags in Hf as [Hf|Hf]; [by apply elem_of_nil in Hf | done]. }
      cbn zeta in Hmem, Hcases.
      destruct (sorted_str (elements (list_to_set (t :: raw) : gset pystr)))
        as [|l0 ls] eqn:El.
      { exfalso. destruct Hcases as [H|[H|H]]; discriminate. }
      cbn. split; [done |]. exists (l0 :: ls), (flat_map summarize info).
      split; [done |]. split; [done |]. split; [exact Hcases |].
      assert (Hsum : forall i, i ∈ info ->
                exists g, (g ∈ find_duplicates src \/ g ∈ find_duplicates tgt) /\
                          key g = fst i /\ snd i = Some g).
      { intros i Hi. apply Hinfo in Hi as [Hi|Hi]; [by apply elem_of_nil in Hi |].
        destruct Hi as [[Hk Hg]|[Hk Hg]];
          apply elem_of_group_keys in Hk as (g & Hg0 & Hkg); exists g.
        - split; [by left |]. split; [done |]. rewrite Hg.
          apply groups_by_key_lookup; [apply find_duplicates_keys_NoDup | done].
        - split; [by right |]. split; [done |]. rewrite Hg.
          apply groups_by_key_lookup; [apply find_duplicates_keys_NoDup | done]. }
      assert (Hlens : length (flat_map summarize info) = length info).
      { clear -Hsum. induction info as [|i info IH]; [done |].
        cbn [flat_map]. rewrite length_app, IH.
        - destruct (Hsum i) as (g & _ & _ & Hg); [by left |].
          unfold summarize. rewrite Hg. done.
        - intros j Hj. apply Hsum. by right. }
      split; [rewrite Hlens, <- Hlen; cbn [length] in *; lia |].
      intros s Hs. apply elem_of_flat_map_stdlib in Hs as (i & Hi & Hs).
      destruct (Hsum i Hi) as (g & Hg & Hk & Hsnd).
      unfold summarize in Hs. rewrite Hsnd in Hs. apply list_elem_of_singleton in Hs.
      subst s. cbn [gs_member_count gs_members_preview gs_key].
      assert (Hm : 2 <= length (members g)).
      { destruct Hg as [Hg|Hg];
          destruct (find_duplicates_indices _ g Hg) as (Hl & Hi' & Hm' & _);
          rewrite Hm', length_map; rewrite Hi', length_map in Hl; done. }
      split; [done |]. split; [by rewrite length_map, length_take |].
      exists g. done. }
  destruct (negb (is_found _ _ _ p)).
  - apply list_elem_of_singleton in He. subst e. specialize (Hbase true). cbn zeta in Hbase.
    destruct (fst (dup_membership _ _ p)); [left | right]; [| done].
    destruct Hbase as (? & ? & ?). done.
  - specialize (Hbase false). cbn zeta in Hbase.
    destruct (fst (dup_membership _ _ p)); [by apply elem_of_nil in He |].
    apply list_elem_of_singleton in He. subst e. right. done.
Qed.

End ReportEntries.

Lemma report_duplicate_summaries_witness :
  exists e, e ∈ @missing_report fragment two_jon_smiths [] (9 # 10) /\
            e_duplicate e = Some true.
Proof.
  destruct (@missing_report fragment two_jon_smiths [] (9 # 10)) as [|e es] eqn:E;
    [by vm_compute in E |].
  assert (H : e ∈ @missing_report fragment two_jon_smiths [] (9 # 10)) by (rewrite E; by left).
  exists e. rewrite <- E. split; [exact H |].
  destruct (@report_duplicate_summaries fragment two_jon_smiths [] (9 # 10) e H)
    as [(_ & Hin & _)|(Hd & _)]; [| exact Hd].
  exfalso. assert (E0 : e_duplicate_in e <> None); [| done].
  assert (Ee : Some e = head (@missing_report fragment two_jon_smiths [] (9 # 10)))
    by (by rewrite E).
  vm_compute in Ee. injection Ee as ->. done.
Defined.

(** * The normaliser on ASCII text *)

Ltac ascii_cases :=
  repeat match goal with
         | |- context [N.leb ?x ?y] => destruct (N.leb_spec x y); try lia
         | |- context [N.eqb ?x ?y] => destruct (N.eqb_spec x y); try lia
         end;
  try done.

Section AsciiNormal.

Local Abbreviation ascii := (fun c : char => (c < 128)%N).

Lemma fragment_canonical_order (s : pystr) :
  Forall ascii s -> @canonical_order fragment s = s.
Proof.
  induction 1 as [|c s Hc Hs IH]; cbn [canonical_order]; [done |].
  rewrite IH. destruct s as [|d s]; [done |]. cbn [reorder_insert].
  apply Forall_cons in Hs as [Hd _]. cbn [combining fragment].
  destruct (N.eqb_spec d COMBINING_DIAERESIS) as [-> |]; [| done].
  unfold COMBINING_DIAERESIS in Hd. lia.
Qed.

Lemma fragment_normalize_name (s : pystr) :
  Forall ascii s -> @normalize_name fragment (VStr s) = ascii_normal s.
Proof.
  intros Hs. unfold normalize_name, ascii_normal, normalize_NFKD.
  assert (H1 : flat_map (@decomposition fragment) s = s).
  { clear -Hs. induction Hs as [|c s Hc Hs IH]; cbn [flat_map]; [done |].
    rewrite IH. cbn [decomposition fragment].
    destruct (N.eqb_spec c U_DIAERESIS) as [-> |]; [| done].
    unfold U_DIAERESIS in Hc. lia. }
  rewrite H1, (fragment_canonical_order s Hs).
  assert (H2 : List.filter (fun c => N.eqb (@combining fragment c) 0) s = s).
  { apply filter_all. eapply Forall_impl; [exact Hs |]. intros c Hc. cbn.
    destruct (N.eqb_spec c COMBINING_DIAERESIS) as [-> |]; [| done].
    unfold COMBINING_DIAERESIS in Hc. lia. }
  rewrite H2, (@lower_ascii fragment s); [| done | done].
  done.
Qed.

Lemma ascii_keep_lower (c : char) : ascii_keep (ascii_lower_of c) = ascii_keep c.
Proof.
  unfold ascii_keep, ascii_lower_of, ascii_upper, ascii_alnum, ascii_space, UNDERSCORE.
  destruct (N.leb_spec 65 c), (N.leb_spec c 90); cbn [andb]; ascii_cases.
Qed.

Lemma ascii_space_lower (c : char) : ascii_space (ascii_lower_of c) = ascii_space c.
Proof.
  unfold ascii_lower_of, ascii_upper, ascii_space.
  destruct (N.leb_spec 65 c), (N.leb_spec c 90); cbn [andb]; ascii_cases.
Qed.

Lemma ascii_space_keep (c : char) : ascii_space c = true -> ascii_keep c = true.
Proof. unfold ascii_keep. intros ->. by rewrite orb_true_r. Qed.

Lemma ascii_space_fixed (c : char) : ascii_space c = true -> ascii_lower_of c = c.
Proof.
  unfold ascii_lower_of, ascii_upper, ascii_space.
  destruct (N.leb_spec 65 c), (N.leb_spec c 90); cbn [andb]; try done.
  ascii_cases.
Qed.

(** White space inside text, for the collapse of runs. *)
Lemma fragment_sub_spaces_run (x1 x2 : pystr) (w1 w2 : char) :
  ascii_space w1 = true -> ascii_space w2 = true ->
  @sub_spaces fragment (x1 ++ w1 :: w2 :: x2) = @sub_spaces fragment (x1 ++ w1 :: x2).
Proof.
  intros H1 H2. induction x1 as [|c x1 IH].
  - cbn [app]. rewrite (@sub_spaces_cons fragment w1 (w2 :: x2)).
    rewrite (@sub_spaces_cons fragment w1 x2), (@sub_spaces_cons fragment w2 x2).
    cbn [isspace fragment]. rewrite H1, H2. destruct x2 as [|d x2]; [done |].
    by destruct (ascii_space d).
  - cbn [app]. rewrite !(@sub_spaces_cons fragment c). rewrite IH.
    destruct x1 as [|d x1]; cbn [app]; [| done]. cbn [isspace fragment]. by rewrite H1.
Qed.

Lemma fragment_sub_spaces_any (x1 x2 : pystr) (w : char) :
  ascii_space w = true ->
  @sub_spaces fragment (x1 ++ w :: x2) = @sub_spaces fragment (x1 ++ SPACE :: x2).
Proof.
  intros Hw. induction x1 as [|c x1 IH].
  - cbn [app]. rewrite !(@sub_spaces_cons fragment). cbn [isspace fragment].
    rewrite Hw. done.
  - cbn [app]. rewrite !(@sub_spaces_cons fragment c). rewrite IH.
    destruct x1 as [|d x1]; cbn [app]; [| done]. cbn [isspace fragment]. by rewrite Hw.
Qed.

End AsciiNormal.

Section AsciiStrip.

Lemma fragment_lstrip_space (y : pystr) : @lstrip fragment (SPACE :: y) = @lstrip fragment y.
Proof. done. Qed.

Lemma fragment_rstrip_space (z : pystr) : @rstrip fragment (z ++ [SPACE]) = @rstrip fragment z.
Proof. unfold rstrip. rewrite rev_unit. by rewrite fragment_lstrip_space. Qed.

Lemma fragment_lstrip_snoc (y : pystr) :
  @lstrip fragment (y ++ [SPACE]) = @lstrip fragment y ++ [SPACE] \/
  (@lstrip fragment (y ++ [SPACE]) = [] /\ @lstrip fragment y = []).
Proof.
  induction y as [|c y IH]; [by right |].
  cbn [app lstrip]. destruct (@isspace fragment c); [exact IH | by left].
Qed.

Lemma fragment_strip_snoc (y : pystr) : @strip fragment (y ++ [SPACE]) = @strip fragment y.
Proof.
  unfold strip. destruct (fragment_lstrip_snoc y) as [-> |[-> ->]]; [| done].
  apply fragment_rstrip_space.
Qed.

Lemma fragment_strip_cons (y : pystr) : @strip fragment (SPACE :: y) = @strip fragment y.
Proof. unfold strip. by rewrite fragment_lstrip_space. Qed.

Lemma fragment_sub_spaces_snoc (x : pystr) (w : char) :
  ascii_space w = true ->
  @sub_spaces fragment (x ++ [w]) = @sub_spaces fragment x \/
  @sub_spaces fragment (x ++ [w]) = @sub_spaces fragment x ++ [SPACE].
Proof.
  intros Hw. induction x as [|c x IH].
  - right. cbn [app]. rewrite (@sub_spaces_cons fragment). cbn [isspace fragment].
    by rewrite Hw.
  - cbn [app]. rewrite !(@sub_spaces_cons fragment c).
    destruct (@isspace fragment c).
    + destruct x as [|d x]; cbn [app].
      * left. cbn [isspace fragment]. rewrite Hw.
        rewrite (@sub_spaces_cons fragment). cbn [isspace fragment]. by rewrite Hw.
      * cbn [app] in IH. destruct (@isspace fragment d); [exact IH |].
        destruct IH as [-> | ->]; [by left | by right].
    + destruct IH as [-> | ->]; [by left | by right].
Qed.

Lemma fragment_strip_sub_spaces_cons (x : pystr) (w : char) :
  ascii_space w = true ->
  @strip fragment (@sub_spaces fragment (w :: x)) = @strip fragment (@sub_spaces fragment x).
Proof.
  intros Hw. rewrite (@sub_spaces_cons fragment). cbn [isspace fragment]. rewrite Hw.
  destruct x as [|d x]; [done |].
  destruct (ascii_space d); [done | apply fragment_strip_cons].
Qed.

Lemma fragment_strip_sub_spaces_snoc (x : pystr) (w : char) :
  ascii_space w = true ->
  @strip fragment (@sub_spaces fragment (x ++ [w])) = @strip fragment (@sub_spaces fragment x).
Proof.
  intros Hw. destruct (fragment_sub_spaces_snoc x w Hw) as [-> | ->]; [done |].
  apply fragment_strip_snoc.
Qed.

Lemma ascii_space_ascii (w : char) : ascii_space w = true -> (w < 128)%N.
Proof.
  unfold ascii_space. intros H.
  destruct (N.ltb_spec w 128) as [|Hge]; [done |]. exfalso. revert H. ascii_cases.
Qed.

Lemma ascii_kept (l : pystr) :
  List.filter ascii_keep (List.map ascii_lower_of l) =
  List.map ascii_lower_of (List.filter ascii_keep l).
Proof.
  rewrite filter_map_comm. f_equal. apply filter_ext. intros c. apply ascii_keep_lower.
Qed.

End AsciiStrip.

Section AsciiInsensitive.
Context {U : UnicodeData} {L : LatinFacts U}.

Local Abbreviation ascii := (fun c : char => (c < 128)%N).

Lemma normalize_name_ascii (s : pystr) :
  Forall ascii s -> normalize_name (VStr s) = ascii_normal s.
Proof.
  intros Hs. rewrite normalize_name_agrees.
  - by apply fragment_normalize_name.
  - eapply Forall_impl; [exact Hs |]. intros c Hc. by left.
Qed.

(** On ASCII names the normal form ignores letter case, punctuation and
    the amount and kind of white space: lower-casing the name, dropping
    a character that is neither alphanumeric, underscore nor white
    space, adding white space at either end, lengthening a run of white
    space, or replacing a white-space character by a space leaves the
    normal form unchanged. *)
Theorem normalize_name_ascii_insensitive (s1 s2 : pystr) :
  Forall ascii s1 -> Forall ascii s2 ->
  normalize_name (VStr (List.map ascii_lower_of s1)) = normalize_name (VStr s1) /\
  (forall c, (c < 128)%N -> ascii_keep c = false ->
     normalize_name (VStr (s1 ++ c :: s2)) = normalize_name (VStr (s1 ++ s2))) /\
  (forall w, ascii_space w = true ->
     normalize_name (VStr (w :: s1)) = normalize_name (VStr s1) /\
     normalize_name (VStr (s1 ++ [w])) = normalize_name (VStr s1) /\
     normalize_name (VStr (s1 ++ w :: s2)) = normalize_name (VStr (s1 ++ SPACE :: s2)) /\
     forall w', ascii_space w' = true ->
       normalize_name (VStr (s1 ++ w :: w' :: s2)) = normalize_name (VStr (s1 ++ w :: s2))).
Proof.
  intros H1 H2.
  assert (Hl : forall l, Forall ascii l -> Forall ascii (List.map ascii_lower_of l)).
  { intros l Hl. apply Forall_forall. intros c Hc. apply elem_of_map in Hc as (d & -> & Hd).
    apply ascii_lower_of_ascii. by apply (proj1 (Forall_forall _ _) Hl). }
  split; [| split].
  - rewrite !normalize_name_ascii by auto. unfold ascii_normal.
    rewrite map_map. do 3 f_equal. apply map_ext. intros c. apply ascii_lower_of_stable.
  - intros c Hc Hk. rewrite !normalize_name_ascii.
    + unfold ascii_normal. rewrite !ascii_kept, !List.filter_app. cbn [List.filter].
      by rewrite Hk.
    + by apply Forall_app.
    + apply Forall_app. split; [done | by constructor].
  - intros w Hw. pose proof (ascii_space_ascii w Hw) as Hwa.
    pose proof (ascii_space_keep w Hw) as Hwk.
    assert (Hsp : SPACE = ascii_lower_of SPACE) by done.
    split; [| split; [| split]].
    + rewrite !normalize_name_ascii by (try constructor; done). unfold ascii_normal.
      cbn [List.map List.filter]. rewrite ascii_keep_lower, Hwk, ascii_space_fixed by done.
      by apply fragment_strip_sub_spaces_cons.
    + rewrite !normalize_name_ascii;
        [| done | apply Forall_app; split; [done | by repeat constructor]].
      unfold ascii_normal. rewrite map_app, List.filter_app. cbn [List.map List.filter].
      rewrite ascii_keep_lower, Hwk, ascii_space_fixed by done.
      by apply fragment_strip_sub_spaces_snoc.
    + rewrite !normalize_name_ascii;
        [| apply Forall_app; split; [done | by constructor]
         | apply Forall_app; split; [done | by constructor]].
      unfold ascii_normal. rewrite !map_app, !List.filter_app. cbn [List.map List.filter].
      rewrite ascii_keep_lower, Hwk, ascii_space_fixed by done.
      change (ascii_keep (ascii_lower_of SPACE)) with true. cbn iota.
      change (ascii_lower_of SPACE) with SPACE.
      f_equal. by apply fragment_sub_spaces_any.
    + intros w' Hw'. pose proof (ascii_space_ascii w' Hw') as Hwa'.
      pose proof (ascii_space_keep w' Hw') as Hwk'.
      rewrite !normalize_name_ascii;
        [| apply Forall_app; split; [done | by constructor]
         | apply Forall_app; split; [done | by repeat constructor]].
      unfold ascii_normal. rewrite !map_app, !List.filter_app. cbn [List.map List.filter].
      rewrite !ascii_keep_lower, Hwk, Hwk', !ascii_space_fixed by done.
      f_equal. by apply fragment_sub_spaces_run.
Qed.

End AsciiInsensitive.

Lemma normalize_name_ascii_insensitive_witness :
  Forall (fun c : char => (c < 128)%N) (lit "Jon") /\
  Forall (fun c : char => (c < 128)%N) (lit "Smith") /\
  @normalize_name fragment (VStr (List.map ascii_lower_of (lit "Jon"))) =
  @normalize_name fragment (VStr (lit "Jon")).
Proof.
  assert (H1 : Forall (fun c : char => (c < 128)%N) (lit "Jon"))
    by (repeat constructor).
  assert (H2 : Forall (fun c : char => (c < 128)%N) (lit "Smith"))
    by (repeat constructor).
  exact (conj H1 (conj H2
    (proj1 (@normalize_name_ascii_insensitive fragment fragment_latin _ _ H1 H2)))).
Defined.

(** * SimilarityScorer: the blocks are common to both strings *)

Section MatcherCommon.
Variables a b : pystr.

Lemma char_eq_at_true (i j : nat) :
  char_eq_at a b i j = true -> exists x, a !! i = Some x /\ b !! j = Some x.
Proof.
  unfold char_eq_at. destruct (a !! i) as [x|], (b !! j) as [y|]; try done.
  intros H. apply N.eqb_eq in H. subst y. by exists x.
Qed.

Lemma common_block_snoc (i j k : nat) :
  common_block a b (i, j, k) -> (exists x, a !! (i + k) = Some x /\ b !! (j + k) = Some x) ->
  common_block a b (i, j, S k).
Proof.
  intros H Hx t Ht. cbn [fst snd] in *.
  destruct (decide (t = k)) as [-> |]; [done |]. apply H. cbn [snd]. lia.
Qed.

Lemma common_block_cons (i j k : nat) :
  common_block a b (S i, S j, k) -> (exists x, a !! i = Some x /\ b !! j = Some x) ->
  common_block a b (i, j, S k).
Proof.
  intros H Hx t Ht. cbn [fst snd] in *. destruct t as [|t].
  - by rewrite !Nat.add_0_r.
  - destruct (H t) as (x & H1 & H2); [cbn [snd]; lia |]. cbn [fst snd] in H1, H2.
    exists x. by rewrite <- !Nat.add_succ_comm.
Qed.

Lemma scan_row_common (blo bhi i : nat) (x : char) (j2len : gmap nat nat) (js : list nat)
    (newj2len : gmap nat nat) (best : nat * nat * nat) :
  a !! i = Some x -> (forall j, j ∈ js -> b !! j = Some x) ->
  row_common a b i j2len ->
  row_common a b (S i) newj2len -> common_block a b best ->
  row_common a b (S i) (fst (scan_row blo bhi i j2len js (newj2len, best))) /\
  common_block a b (snd (scan_row blo bhi i j2len js (newj2len, best))).
Proof.
  intros Hx Hjs Hrow. revert newj2len best.
  induction js as [|j js IH]; intros newj2len best Hnew Hbest; [done |].
  cbn [scan_row].
  assert (Hjs' : forall j0, j0 ∈ js -> b !! j0 = Some x) by (intros j0 H0; apply Hjs; by right).
  destruct (Nat.ltb j blo) eqn:Ejlo; [by apply IH |].
  destruct (Nat.leb bhi j) eqn:Ejhi; [done |].
  destruct best as [[besti bestj] bestsize].
  set (k0 := j2lenget_pred j2len j).
  assert (Hk0 : k0 <= i /\ k0 <= j /\ common_block a b (i - k0, j - k0, k0)).
  { unfold k0, j2lenget_pred. destruct j as [|j'].
    - split; [lia |]. split; [lia |]. intros t Ht. cbn [snd] in Ht. lia.
    - destruct (j2len !! j') as [k'|] eqn:E.
      + change (default 0 (Some k')) with k'.
        destruct (Hrow j' k' E) as (H1 & H2 & H3). split; [lia |]. split; [lia |].
        replace (S j' - k') with (j' + 1 - k') by lia. done.
      + change (default 0 (@None nat)) with 0.
        split; [lia |]. split; [lia |]. intros t Ht. cbn [snd] in Ht. lia. }
  destruct Hk0 as (K1 & K2 & K3).
  assert (Hblock : common_block a b (i + 1 - (k0 + 1), j + 1 - (k0 + 1), k0 + 1)).
  { replace (i + 1 - (k0 + 1)) with (i - k0) by lia.
    replace (j + 1 - (k0 + 1)) with (j - k0) by lia.
    replace (k0 + 1) with (S k0) by lia.
    apply common_block_snoc; [done |]. exists x.
    replace (i - k0 + k0) with i by lia. replace (j - k0 + k0) with j by lia.
    split; [done |]. apply Hjs. by left. }
  apply IH; [done | |].
  - intros j0 k1. rewrite lookup_insert. case_decide as Hj.
    + intros [= <-]. subst j0. split; [lia |]. split; [lia |].
      replace (S i - (k0 + 1)) with (i + 1 - (k0 + 1)) by lia. done.
    + apply Hnew.
  - destruct (Nat.ltb bestsize (k0 + 1)); done.
Qed.

Lemma scan_step_common (blo bhi i : nat) (st : gmap nat nat * (nat * nat * nat)) :
  row_common a b i (fst st) -> common_block a b (snd st) ->
  row_common a b (S i) (fst (scan_step a b blo bhi st i)) /\
  common_block a b (snd (scan_step a b blo bhi st i)).
Proof.
  intros Hrow Hbest. destruct st as [j2len best]. unfold scan_step. cbn [fst snd] in *.
  assert (Hempty : row_common a b (S i) ∅) by (intros j k; by rewrite lookup_empty).
  destruct (a !! i) as [x|] eqn:Ex; [| done].
  destruct (b2j b !! x) as [js|] eqn:Ejs; [| done].
  change (default [] (Some js)) with js.
  apply (scan_row_common blo bhi i x); try done.
  intros j Hj. apply b2j_positions in Ejs. subst js.
  apply elem_of_positions_from in Hj as [_ Hj]. by rewrite Nat.sub_0_r in Hj.
Qed.

Lemma scan_fold_common (blo bhi i n : nat) (st : gmap nat nat * (nat * nat * nat)) :
  row_common a b i (fst st) -> common_block a b (snd st) ->
  common_block a b (snd (fold_left (scan_step a b blo bhi) (seq i n) st)).
Proof.
  revert i st. induction n as [|n IH]; intros i st Hrow Hbest; [done |].
  cbn [seq fold_left]. destruct (scan_step_common blo bhi i st) as [H1 H2]; try done.
  by apply IH.
Qed.

Lemma extend_back_common (want_junk : bool) (alo blo besti bestj bestsize : nat) :
  common_block a b (besti, bestj, bestsize) ->
  common_block a b (extend_back a b want_junk alo blo besti bestj bestsize).
Proof.
  revert bestj bestsize. induction besti as [|i' IH]; intros bestj bestsize H; [done |].
  cbn [extend_back]. destruct bestj as [|j']; [done |].
  destruct (_ && _)%bool eqn:E; [| done].
  rewrite !andb_true_iff in E. destruct E as [_ E].
  apply IH. apply common_block_cons; [done |]. by apply char_eq_at_true.
Qed.

Lemma extend_forward_common (turns : nat) (want_junk : bool)
    (ahi bhi besti bestj bestsize : nat) :
  common_block a b (besti, bestj, bestsize) ->
  common_block a b
    (besti, bestj, extend_forward a b turns want_junk ahi bhi besti bestj bestsize).
Proof.
  revert bestsize. induction turns as [|t IH]; intros bestsize H; [done |].
  cbn [extend_forward]. destruct (_ && _)%bool eqn:E; [| done].
  rewrite !andb_true_iff in E. destruct E as [_ E].
  apply IH. apply common_block_snoc; [done |]. by apply char_eq_at_true.
Qed.

(** The block that [find_longest_match] returns is common to [a] and [b]. *)
Lemma find_longest_match_common (alo ahi blo bhi : nat) :
  common_block a b (find_longest_match a b alo ahi blo bhi).
Proof.
  unfold find_longest_match.
  pose proof (scan_fold_common blo bhi alo (ahi - alo) (∅, (alo, blo, 0))) as Hscan.
  destruct (fold_left _ _ _) as [j2len [[besti bestj] bestsize]].
  cbn [fst snd] in Hscan.
  assert (H1 : common_block a b (besti, bestj, bestsize)).
  { apply Hscan.
    - intros j k. by rewrite lookup_empty.
    - intros t Ht. cbn [snd] in Ht. lia. }
  pose proof (extend_back_common false alo blo _ _ _ H1) as H2.
  destruct (extend_back a b false alo blo besti bestj bestsize) as [[bi bj] bs].
  pose proof (extend_forward_common (ahi - (bi + bs)) false ahi bhi _ _ _ H2) as H3.
  pose proof (extend_back_common true alo blo _ _ _ H3) as H4.
  destruct (extend_back a b true alo blo bi bj _) as [[bi' bj'] bs'].
  by apply extend_forward_common.
Qed.

End MatcherCommon.

(** * SimilarityScorer: the blocks lie apart and tile what they match *)

Section WindowsApart.

Lemma window_apart_sym (w1 w2 : nat * nat * nat * nat) :
  window_apart w1 w2 -> window_apart w2 w1.
Proof. unfold window_apart. tauto. Qed.

Lemma all_apart_app (l1 l2 : list (nat * nat * nat * nat)) :
  all_apart (l1 ++ l2) <->
  all_apart l1 /\ all_apart l2 /\ forall x y, x ∈ l1 -> y ∈ l2 -> window_apart x y.
Proof.
  induction l1 as [|w l1 IH]; cbn [app all_apart].
  - split; [intros H | tauto]. split; [done |]. split; [done |].
    intros x y Hx. by apply elem_of_nil in Hx.
  - rewrite IH, Forall_app, !Forall_forall. split.
    + intros ((H1 & H2) & H3 & H4 & H5). split; [done |]. split; [done |].
      intros x y Hx Hy. apply elem_of_cons in Hx as [-> |Hx]; [by apply H2 | by apply H5].
    + intros ((H1 & H2) & H3 & H4). split; [split; [done |] |].
      * intros y Hy. apply H4; [by left | done].
      * split; [done |]. split; [done |]. intros x y Hx Hy. apply H4; [by right | done].
Qed.

Lemma all_apart_Permutation (l1 l2 : list (nat * nat * nat * nat)) :
  l1 ≡ₚ l2 -> all_apart l1 -> all_apart l2.
Proof.
  induction 1 as [|x l l' Hp IH|x y l|l l' l'' _ IH1 _ IH2]; cbn [all_apart].
  - done.
  - intros [H1 H2]. split; [by rewrite <- Hp | by apply IH].
  - intros [H1 [H2 H3]]. apply Forall_cons in H1 as [H0 H1].
    split; [| done]. constructor; [by apply window_apart_sym | done].
  - auto.
Qed.

Lemma window_inside_apart (p w y : nat * nat * nat * nat) :
  window_inside p w -> window_apart w y -> window_apart p y.
Proof.
  unfold window_inside, window_apart, window_before.
  intros (H1 & H2 & H3 & H4) [[H5 H6]|[H5 H6]]; [left | right]; lia.
Qed.

End WindowsApart.

Section QueueApart.
Variables a b : pystr.

(** One turn of the queue loop: what comes out of a window lies inside
    it and apart from everything else. *)
Lemma queue_step_apart (la lb : nat) (w : nat * nat * nat * nat)
    (queue : list (nat * nat * nat * nat)) (blocks : list (nat * nat * nat)) :
  Forall (window_ok la lb) (w :: queue) ->
  Forall (common_block a b) blocks ->
  Forall (in_range 0 la 0 lb) blocks ->
  all_apart ((w :: queue) ++ List.map block_window blocks) ->
  let st' := queue_step a b (w :: queue, blocks) in
  Forall (common_block a b) (snd st') /\
  Forall (in_range 0 la 0 lb) (snd st') /\
  all_apart (fst st' ++ List.map block_window (snd st')).
Proof.
  intros Hok Hcommon Hrange Hapart. apply Forall_cons in Hok as [Hw Hq].
  destruct w as [[[alo ahi] blo] bhi]. destruct Hw as (H1 & H2 & H3 & H4).
  cbn [fst snd] in H1, H2, H3, H4. cbn zeta. cbn [queue_step].
  pose proof (find_longest_match_range a b alo ahi blo bhi H1 H3) as Hr.
  pose proof (find_longest_match_common a b alo ahi blo bhi) as Hc.
  destruct (find_longest_match a b alo ahi blo bhi) as [[i j] k].
  destruct Hr as (R1 & R2 & R3 & R4). cbn [fst snd] in R1, R2, R3, R4.
  cbn [app all_apart] in Hapart. destruct Hapart as [Hw Hrest].
  destruct (Nat.eqb k 0) eqn:Ek; [cbn [fst snd]; done |].
  set (rest := queue ++ List.map block_window blocks) in *.
  set (wl := (alo, i, blo, j)). set (wr := (i + k, ahi, j + k, bhi)).
  set (wb := block_window (i, j, k)).
  assert (Hin : forall p, p = wl \/ p = wr \/ p = wb ->
                          window_inside p (alo, ahi, blo, bhi)).
  { intros p [-> |[-> | ->]]; unfold window_inside, wl, wr, wb, block_window;
      cbn [fst snd]; lia. }
  assert (Hparts : forall parts,
            (forall p, p ∈ parts -> p = wl \/ p = wr \/ p = wb) ->
            all_apart parts -> all_apart (parts ++ rest)).
  { intros parts Hp Ha. apply all_apart_app. split; [done |]. split; [done |].
    intros x y Hx Hy. apply (window_inside_apart x (alo, ahi, blo, bhi)).
    - by apply Hin, Hp.
    - by apply (proj1 (Forall_forall _ _) Hw). }
  assert (Hlb : window_apart wl wb).
  { left. unfold window_before, wl, wb, block_window. cbn [fst snd]. lia. }
  assert (Hbr : window_apart wr wb).
  { right. unfold window_before, wr, wb, block_window. cbn [fst snd]. lia. }
  assert (Hlr : window_apart wr wl).
  { right. unfold window_before, wl, wr. cbn [fst snd]. lia. }
  assert (Hgoal : forall q, (forall p, p ∈ q -> p = wl \/ p = wr) ->
            all_apart (q ++ [wb]) ->
            all_apart ((q ++ queue) ++ List.map block_window (blocks ++ [(i, j, k)]))).
  { intros q Hq' Ha. rewrite map_app. cbn [List.map]. fold wb.
    eapply all_apart_Permutation; [| apply (Hparts (q ++ [wb]))].
    - unfold rest. rewrite <- !app_assoc. apply Permutation_app_head.
      rewrite (Permutation_app_comm [wb]). by rewrite <- !app_assoc.
    - intros p Hp. apply elem_of_app in Hp as [Hp|Hp].
      + destruct (Hq' p Hp) as [-> | ->]; auto.
      + apply list_elem_of_singleton in Hp. auto.
    - done. }
  assert (Hc' : Forall (common_block a b) (blocks ++ [(i, j, k)])).
  { apply Forall_app. split; [done | by constructor]. }
  assert (Hr' : Forall (in_range 0 la 0 lb) (blocks ++ [(i, j, k)])).
  { apply Forall_app. split; [done |]. constructor; [| done].
    unfold in_range. cbn [fst snd]. lia. }
  destruct (Nat.ltb alo i && Nat.ltb blo j)%bool eqn:E1;
    destruct (Nat.ltb (i + k) ahi && Nat.ltb (j + k) bhi)%bool eqn:E2; cbn [fst snd];
    (split; [done |]; split; [done |]).
  - apply (Hgoal [wr; wl]).
    + intros p Hp. apply elem_of_cons in Hp as [-> |Hp]; [by right |].
      apply list_elem_of_singleton in Hp. by left.
    + cbn [app all_apart].
      split; [constructor; [exact Hlr | constructor; [exact Hbr | constructor]] |].
      split; [constructor; [exact Hlb | constructor] |]. split; [constructor | done].
  - apply (Hgoal [wl]).
    + intros p Hp. apply list_elem_of_singleton in Hp. by left.
    + cbn [app all_apart]. split; [constructor; [exact Hlb | constructor] |].
      split; [constructor | done].
  - apply (Hgoal [wr]).
    + intros p Hp. apply list_elem_of_singleton in Hp. by right.
    + cbn [app all_apart]. split; [constructor; [exact Hbr | constructor] |].
      split; [constructor | done].
  - apply (Hgoal []).
    + intros p Hp. by apply elem_of_nil in Hp.
    + cbn [app all_apart]. split; [constructor | done].
Qed.

Lemma queue_loop_apart (la lb turns : nat)
    (queue : list (nat * nat * nat * nat)) (blocks : list (nat * nat * nat)) :
  Forall (window_ok la lb) queue ->
  Forall (common_block a b) blocks ->
  Forall (in_range 0 la 0 lb) blocks ->
  all_apart (queue ++ List.map block_window blocks) ->
  let st' := queue_loop a b turns (queue, blocks) in
  Forall (common_block a b) (snd st') /\
  Forall (in_range 0 la 0 lb) (snd st') /\
  all_apart (fst st' ++ List.map block_window (snd st')).
Proof.
  revert queue blocks. induction turns as [|t IH];
    intros queue blocks Hok Hcommon Hrange Hapart; cbn zeta.
  - cbn [queue_loop fst snd]. done.
  - cbn [queue_loop fst]. destruct queue as [|w queue]; [cbn [fst snd]; done |].
    destruct (queue_step_spec a b la lb w queue blocks Hok) as (S1 & _).
    destruct (queue_step_apart la lb w queue blocks Hok Hcommon Hrange Hapart)
      as (A1 & A2 & A3).
    destruct (queue_step a b (w :: queue, blocks)) as [queue' blocks'].
    cbn [fst snd] in S1, A1, A2, A3. by apply IH.
Qed.

(** The blocks that the queue loop of [get_matching_blocks] finds. *)
Lemma found_blocks_apart :
  let blocks := snd (queue_loop a b (queue_turns a) ([(0, length a, 0, length b)], [])) in
  Forall (common_block a b) blocks /\
  Forall (in_range 0 (length a) 0 (length b)) blocks /\
  all_apart (List.map block_window blocks).
Proof.
  cbn zeta.
  destruct (get_matching_blocks_sizes a b) as (Hempty & _).
  destruct (queue_loop_apart (length a) (length b) (queue_turns a)
              [(0, length a, 0, length b)] []) as (H1 & H2 & H3).
  - constructor; [| done]. unfold window_ok. cbn [fst snd]. lia.
  - done.
  - done.
  - cbn. done.
  - rewrite Hempty in H3. done.
Qed.

End QueueApart.

(** * SimilarityScorer: similarity 1 means equal *)

Section Tiling.

Local Abbreviation before m y := (window_before (block_window m) (block_window y)).

Lemma block_before_trans (x y z : nat * nat * nat) :
  before x y -> before y z -> before x z.
Proof.
  destruct x as [[? ?] ?], y as [[? ?] ?], z as [[? ?] ?].
  unfold window_before, block_window. cbn [fst snd]. lia.
Qed.

(** Among blocks that lie apart one comes first. *)
Lemma apart_first (l : list (nat * nat * nat)) :
  l <> [] -> all_apart (List.map block_window l) ->
  exists m rest, l ≡ₚ m :: rest /\ Forall (fun y => before m y) rest /\
                 all_apart (List.map block_window rest).
Proof.
  induction l as [|x l IH]; [done |]. intros _ Hap.
  cbn [List.map all_apart] in Hap. destruct Hap as [Hx Hl].
  destruct l as [|x' l'].
  { exists x, []. split; [done |]. split; [constructor | done]. }
  destruct IH as (m & rest & Hp & Hrest & Hap); [done | done |].
  set (l := x' :: l') in *.
  assert (Hxm : window_apart (block_window x) (block_window m)).
  { rewrite Forall_forall in Hx. apply Hx. apply elem_of_map. exists m.
    split; [done |]. rewrite Hp. by left. }
  destruct Hxm as [Hxm|Hmx].
  - exists x, l. split; [done |]. split; [| done].
    rewrite Hp. constructor; [done |].
    eapply Forall_impl; [exact Hrest |]. intros y Hy. cbn beta in Hy.
    by apply (block_before_trans x m y).
  - exists m, (x :: rest). split; [| split].
    + rewrite Hp. apply perm_swap.
    + by constructor.
    + cbn [List.map all_apart]. split; [| done].
      rewrite Forall_forall in *. intros w Hw. apply Hx.
      apply elem_of_map in Hw as (y & -> & Hy). apply elem_of_map. exists y.
      split; [done |]. rewrite Hp. by right.
Qed.

Variables a b : pystr.

Local Abbreviation la := (length a).
Local Abbreviation lb := (length b).

(** Blocks that lie apart behind [(p, q)] are not longer in all than
    what is left of either string; when they are as long as what is left
    of both, the two remainders are equal. *)
Lemma tiling (n : nat) :
  forall (l : list (nat * nat * nat)) (p q : nat),
    length l = n ->
    all_apart (List.map block_window l) ->
    Forall (in_range p la q lb) l ->
    Forall (common_block a b) l ->
    block_sizes l <= la - p /\ block_sizes l <= lb - q /\
    (p <= la -> q <= lb -> block_sizes l = la - p -> block_sizes l = lb - q ->
     forall t, t < la - p ->
               exists x, a !! (p + t) = Some x /\ b !! (q + t) = Some x).
Proof.
  induction n as [|n IH]; intros l p q Hlen Hap Hrange Hcommon.
  - destruct l; [| done]. change (block_sizes []) with 0.
    split; [lia |]. split; [lia |]. intros _ _ H1 _ t Ht. lia.
  - destruct (apart_first l) as (m & rest & Hp & Hrest & Hap'); [by destruct l | done |].
    rewrite (block_sizes_Permutation _ _ Hp). rewrite Hp in Hrange, Hcommon.
    apply Forall_cons in Hrange as [Hm Hrange]. apply Forall_cons in Hcommon as [Hcm Hcommon].
    destruct m as [[i j] k]. rewrite block_sizes_cons.
    destruct Hm as (M1 & M2 & M3 & M4). cbn [fst snd] in M1, M2, M3, M4.
    destruct (IH rest (i + k) (j + k)) as (B1 & B2 & B3).
    + apply Permutation_length in Hp. cbn [length] in Hp. lia.
    + done.
    + rewrite Forall_forall in *. intros y Hy.
      destruct (Hrange y Hy) as (Y1 & Y2 & Y3 & Y4).
      destruct (Hrest y Hy) as [Y5 Y6]. destruct y as [[yi yj] yk].
      unfold block_window in Y5, Y6. unfold in_range. cbn [fst snd] in *. lia.
    + done.
    + split; [lia |]. split; [lia |]. intros Hpa Hqb Ha Hb t Ht.
      assert (i = p) by lia. assert (j = q) by lia. subst i j.
      destruct (decide (t < k)) as [Htk|Htk].
      * apply (Hcm t). cbn [snd]. done.
      * destruct (B3) with (t := t - k) as (x & X1 & X2); try lia.
        exists x. replace (p + t) with (p + k + (t - k)) by lia.
        replace (q + t) with (q + k + (t - k)) by lia. done.
Qed.

End Tiling.

Section SimilarityOne.
Variables a b : pystr.

Lemma ratio_one_blocks :
  (ratio a b == 1)%Q ->
  2 * block_sizes (get_matching_blocks a b) = length a + length b.
Proof.
  rewrite ratio_block_sizes. unfold calculate_ratio.
  destruct (Nat.eqb (length a + length b) 0) eqn:E.
  - apply Nat.eqb_eq in E. intros _.
    destruct (get_matching_blocks_sizes a b) as (_ & -> & H1 & _). lia.
  - apply Nat.eqb_neq in E. unfold Qeq. cbn [Qnum Qden].
    rewrite Zpos_of_nat by done. lia.
Qed.

Lemma ratio_one_equal : (ratio a b == 1)%Q -> a = b.
Proof.
  intros H. apply ratio_one_blocks in H.
  destruct (get_matching_blocks_sizes a b) as (_ & Hs & H1 & H2). rewrite Hs in H.
  destruct (found_blocks_apart a b) as (F1 & F2 & F3). cbn zeta in F1, F2, F3.
  set (blocks := snd (queue_loop a b (queue_turns a) ([(0, length a, 0, length b)], [])))
    in *.
  destruct (tiling a b (length blocks) blocks 0 0 eq_refl F3 F2 F1) as (_ & _ & T).
  assert (Hla : block_sizes blocks = length a) by lia.
  assert (Hlb : block_sizes blocks = length b) by lia.
  apply list_eq. intros t.
  destruct (decide (t < length a)) as [Ht|Ht].
  - destruct (T) with (t := t) as (x & X1 & X2); try lia.
    cbn [Nat.add] in X1, X2. exact (eq_trans X1 (eq_sym X2)).
  - transitivity (@None char); [| symmetry]; apply lookup_ge_None_2; unfold char in *; lia.
Qed.

End SimilarityOne.

(** The similarity of two strings is 1 exactly when they are equal. *)
Theorem similar_one_iff_equal (a b : pystr) : (similar a b == 1)%Q <-> a = b.
Proof.
  unfold similar. split; [apply ratio_one_equal |]. intros <-. apply self_ratio.
Qed.

Section ThresholdOne.
Context {U : UnicodeData}.

Lemma best_similarity_one (nn : pystr) (names : gset pystr) :
  (1 <= best_similarity nn names)%Q <-> nn ∈ names.
Proof.
  destruct (best_similarity_max nn names) as (_ & Hmax & Hatt). split.
  - intros H. destruct Hatt as [H0|(cand & Hc & Hb)].
    + rewrite H0 in H. done.
    + rewrite Hb in H. assert (Heq : (similar nn cand == 1)%Q).
      { apply Qle_antisym; [apply ratio_bounds | done]. }
      apply ratio_one_equal in Heq. by subst.
  - intros Hin. eapply Qle_trans; [| apply (Hmax nn Hin)].
    unfold similar. rewrite self_ratio. done.
Qed.

End ThresholdOne.

Section ThresholdOneTheorem.
Context {U : UnicodeData}.

(** With the threshold at exactly 1 the fuzzy rule is the exact-name
    rule: the resolver finds a record by its identifier or by an equal
    normalised name, and in no other way. *)
Theorem exact_matching_at_threshold_one (ids names : gset pystr) (p : record) :
  rule_fuzzy names 1 p = rule_name names p /\
  is_found ids names 1 p = (rule_id ids p || rule_name names p)%bool.
Proof.
  assert (H : rule_fuzzy names 1 p = rule_name names p).
  { unfold rule_fuzzy, rule_name. f_equal.
    destruct (bool_decide (name_key p ∈ names)) eqn:E.
    - apply bool_decide_eq_true in E. apply Qle_bool_iff. by apply best_similarity_one.
    - apply bool_decide_eq_false in E.
      destruct (Qle_bool 1 (best_similarity (name_key p) names)) eqn:E'; [| done].
      apply Qle_bool_iff, best_similarity_one in E'. done. }
  split; [done |]. rewrite is_found_rules, H.
  by destruct (rule_id ids p), (rule_name names p).
Qed.

End ThresholdOneTheorem.

(** [_calculate_ratio] grows with the number of matched characters. *)
Lemma calculate_ratio_mono (m m' len : nat) :
  m <= m' -> (calculate_ratio m len <= calculate_ratio m' len)%Q.
Proof.
  intros H. unfold calculate_ratio. destruct (Nat.eqb len 0); [apply Qle_refl |].
  unfold Qle. cbn [Qnum Qden]. nia.
Qed.

Lemma similar_le_shorter (a b : pystr) :
  (similar a b <= calculate_ratio (Nat.min (length a) (length b)) (length a + length b))%Q.
Proof.
  unfold similar. rewrite ratio_block_sizes. apply calculate_ratio_mono.
  destruct (get_matching_blocks_sizes a b) as (_ & -> & H1 & H2). lia.
Qed.

Section LengthBound.
Context {U : UnicodeData}.

(** The similarity of two strings is at most the ratio that as many
    matched characters as the shorter string has would give; so the
    fuzzy rule finds a record only when the threshold is not positive or
    is at most that ratio for some target name. *)
Theorem similar_length_bound (a b : pystr) :
  (similar a b <= calculate_ratio (Nat.min (length a) (length b)) (length a + length b))%Q /\
  forall (names : gset pystr) (threshold : Q) (p : record),
    rule_fuzzy names threshold p = true ->
    (threshold <= 0)%Q \/
    exists cand, cand ∈ names /\
      (threshold <= calculate_ratio (Nat.min (length (name_key p)) (length cand))
                      (length (name_key p) + length cand))%Q.
Proof.
  split; [apply similar_le_shorter |].
  intros names threshold p H. unfold rule_fuzzy in H.
  apply andb_true_iff in H as [_ H]. apply Qle_bool_iff in H.
  destruct (best_similarity_max (name_key p) names) as (_ & _ & [Hb | (cand & Hc & Hb)]).
  - left. by rewrite Hb in H.
  - right. exists cand. split; [done |]. rewrite Hb in H.
    eapply Qle_trans; [exact H |]. apply similar_le_shorter.
Qed.

End LengthBound.

(** * SimilarityScorer: a shared element gives a positive similarity *)

Section SharedElement.
Variables a b : pystr.
Hypothesis short : length b < 200.

Lemma short_b2j : b2j b = b2j_full b.
Proof.
  unfold b2j, bpopular.
  replace (Nat.leb 200 (length b)) with false by (symmetry; apply Nat.leb_gt; lia).
  apply map_filter_id. intros x js _. cbn. apply not_elem_of_empty.
Qed.

Lemma positions_from_nonempty (x : char) (n : nat) (l : pystr) :
  x ∈ l -> positions_from x n l <> [].
Proof.
  revert n. induction l as [|y l IH]; intros n Hx; [by apply elem_of_nil in Hx |].
  cbn [positions_from]. destruct (N.eqb_spec y x) as [-> |Hne]; [done |].
  apply IH. apply elem_of_cons in Hx as [-> |Hx]; done.
Qed.

Lemma scan_row_size (blo bhi i : nat) (j2len : gmap nat nat) (js : list nat)
    (st : gmap nat nat * (nat * nat * nat)) :
  snd (snd st) <= snd (snd (scan_row blo bhi i j2len js st)).
Proof.
  revert st. induction js as [|j js IH]; intros st; [done |]. cbn [scan_row].
  destruct (Nat.ltb j blo); [apply IH |]. destruct (Nat.leb bhi j); [done |].
  destruct st as [newj2len [[besti bestj] bestsize]].
  etransitivity; [| apply IH]. cbn [snd].
  destruct (Nat.ltb bestsize _) eqn:E; cbn [snd]; [| done].
  apply Nat.ltb_lt in E. lia.
Qed.

Lemma scan_row_hit (bhi i : nat) (j2len : gmap nat nat) (j : nat) (js : list nat)
    (st : gmap nat nat * (nat * nat * nat)) :
  j < bhi -> 1 <= snd (snd (scan_row 0 bhi i j2len (j :: js) st)).
Proof.
  intros Hj. cbn [scan_row]. replace (Nat.ltb j 0) with false by done.
  replace (Nat.leb bhi j) with false by (symmetry; apply Nat.leb_gt; lia).
  destruct st as [newj2len [[besti bestj] bestsize]].
  etransitivity; [| apply scan_row_size]. cbn [snd].
  destruct (Nat.ltb bestsize _) eqn:E; cbn [snd].
  - lia.
  - apply Nat.ltb_ge in E. lia.
Qed.

Lemma scan_step_size (blo bhi i : nat) (st : gmap nat nat * (nat * nat * nat)) :
  snd (snd st) <= snd (snd (scan_step a b blo bhi st i)).
Proof.
  destruct st as [j2len best]. unfold scan_step.
  exact (scan_row_size blo bhi i j2len _ (∅, best)).
Qed.

Lemma scan_fold_size (blo bhi i n : nat) (st : gmap nat nat * (nat * nat * nat)) :
  snd (snd st) <= snd (snd (fold_left (scan_step a b blo bhi) (seq i n) st)).
Proof.
  revert i st. induction n as [|n IH]; intros i st; [done |]. cbn [seq fold_left].
  etransitivity; [apply (scan_step_size blo bhi i) | apply IH].
Qed.

Lemma scan_fold_hit (i0 x : nat) (xc : char) (i n : nat)
    (st : gmap nat nat * (nat * nat * nat)) :
  a !! i0 = Some xc -> xc ∈ b -> i <= i0 < i + n ->
  1 <= snd (snd (fold_left (scan_step a b 0 (length b)) (seq i n) st)).
Proof.
  intros Ha Hb. revert i st. induction n as [|n IH]; intros i st Hi; [lia |].
  cbn [seq fold_left]. destruct (decide (i = i0)) as [-> |Hne].
  - etransitivity; [| apply scan_fold_size].
    destruct st as [j2len best]. unfold scan_step. rewrite Ha, short_b2j, b2j_full_positions.
    pose proof (positions_from_nonempty xc 0 b Hb) as Hne.
    destruct (positions_from xc 0 b) as [|j js] eqn:E; [done |].
    change (default [] (Some (j :: js))) with (j :: js).
    apply scan_row_hit.
    assert (Hj : j ∈ positions_from xc 0 b) by (rewrite E; by left).
    apply elem_of_positions_from in Hj as [_ Hj]. rewrite Nat.sub_0_r in Hj.
    apply lookup_lt_Some in Hj. done.
  - apply IH. lia.
Qed.

Lemma extend_back_size (want_junk : bool) (alo blo besti bestj bestsize : nat) :
  bestsize <= snd (extend_back a b want_junk alo blo besti bestj bestsize).
Proof.
  revert bestj bestsize. induction besti as [|i' IH]; intros bestj bestsize; [done |].
  cbn [extend_back]. destruct bestj as [|j']; [done |].
  destruct (_ && _)%bool; [| done]. etransitivity; [| apply IH]. lia.
Qed.

Lemma extend_forward_size (turns : nat) (want_junk : bool)
    (ahi bhi besti bestj bestsize : nat) :
  bestsize <= extend_forward a b turns want_junk ahi bhi besti bestj bestsize.
Proof.
  revert bestsize. induction turns as [|t IH]; intros bestsize; [done |].
  cbn [extend_forward]. destruct (_ && _)%bool; [| done]. etransitivity; [| apply IH]. lia.
Qed.

Lemma find_longest_match_hit (x : char) :
  x ∈ a -> x ∈ b -> 1 <= snd (find_longest_match a b 0 (length a) 0 (length b)).
Proof.
  intros Ha Hb. apply list_elem_of_lookup in Ha as [i0 Hi0].
  pose proof (lookup_lt_Some _ _ _ Hi0) as Hlt.
  unfold find_longest_match.
  pose proof (scan_fold_hit i0 0 x 0 (length a - 0) (∅, (0, 0, 0)) Hi0 Hb) as Hscan.
  destruct (fold_left _ _ _) as [j2len [[besti bestj] bestsize]].
  cbn [snd] in Hscan. assert (H1 : 1 <= bestsize) by (apply Hscan; lia).
  pose proof (extend_back_size false 0 0 besti bestj bestsize) as H2.
  destruct (extend_back a b false 0 0 besti bestj bestsize) as [[bi bj] bs].
  cbn [snd] in H2.
  pose proof (extend_forward_size (length a - (bi + bs)) false (length a) (length b) bi bj bs)
    as H3.
  pose proof (extend_back_size true 0 0 bi bj
                (extend_forward a b (length a - (bi + bs)) false (length a) (length b) bi bj bs))
    as H4.
  destruct (extend_back a b true 0 0 bi bj _) as [[bi' bj'] bs']. cbn [snd] in *.
  etransitivity; [| apply extend_forward_size]. lia.
Qed.

Lemma queue_step_sizes (st : list (nat * nat * nat * nat) * list (nat * nat * nat)) :
  block_sizes (snd st) <= block_sizes (snd (queue_step a b st)).
Proof.
  destruct st as [[|[[[alo ahi] blo] bhi] queue] blocks]; [done |]. cbn [queue_step].
  destruct (find_longest_match a b alo ahi blo bhi) as [[i j] k].
  destruct (Nat.eqb k 0); [done |]. cbn [snd]. rewrite block_sizes_snoc. lia.
Qed.

Lemma queue_loop_sizes (turns : nat)
    (st : list (nat * nat * nat * nat) * list (nat * nat * nat)) :
  block_sizes (snd st) <= block_sizes (snd (queue_loop a b turns st)).
Proof.
  revert st. induction turns as [|t IH]; intros st; [done |]. cbn [queue_loop].
  destruct (fst st); [done |]. etransitivity; [apply queue_step_sizes | apply IH].
Qed.

Lemma shared_blocks (x : char) :
  x ∈ a -> x ∈ b -> 1 <= block_sizes (get_matching_blocks a b).
Proof.
  intros Ha Hb. destruct (get_matching_blocks_sizes a b) as (_ & -> & _).
  unfold queue_turns. replace (2 * length a + 2) with (S (2 * length a + 1)) by lia.
  cbn [queue_loop fst]. etransitivity; [| apply queue_loop_sizes].
  cbn [queue_step]. pose proof (find_longest_match_hit x Ha Hb) as Hhit.
  destruct (find_longest_match a b 0 (length a) 0 (length b)) as [[i j] k].
  cbn [snd] in Hhit. replace (Nat.eqb k 0) with false by (symmetry; apply Nat.eqb_neq; lia).
  cbn [snd]. rewrite block_sizes_snoc. lia.
Qed.

End SharedElement.

(** For a second string of fewer than 200 elements (no element is purged
    as popular) and strings not both empty, the similarity is positive
    exactly when the strings share an element. *)
Theorem similar_positive_iff_shared (a b : pystr) :
  length b < 200 -> length a + length b <> 0 ->
  ((0 < similar a b)%Q <-> exists x, x ∈ a /\ x ∈ b).
Proof.
  intros Hshort Hne. split.
  - intros Hpos. destruct (decide (Exists (fun x => x ∈ b) a)) as [Hyes|Hno].
    { apply Exists_exists in Hyes as (x & Ha & Hb). by exists x. }
    exfalso. assert (H0 : (ratio a b == 0)%Q).
    { apply disjoint_ratio; [| done]. intros x Ha Hb. apply Hno.
      apply Exists_exists. by exists x. }
    unfold similar in Hpos. rewrite H0 in Hpos. done.
  - intros (x & Ha & Hb). unfold similar. rewrite ratio_block_sizes.
    pose proof (shared_blocks a b Hshort x Ha Hb) as H1. unfold calculate_ratio.
    apply Nat.eqb_neq in Hne. rewrite Hne. unfold Qlt. cbn [Qnum Qden]. lia.
Qed.

Lemma similar_positive_iff_shared_witness :
  length (lit "diet") < 200 /\ length (lit "tide") + length (lit "diet") <> 0 /\
  (0 < similar (lit "tide") (lit "diet"))%Q.
Proof.
  assert (H1 : length (lit "diet") < 200) by (vm_compute; lia).
  assert (H2 : length (lit "tide") + length (lit "diet") <> 0) by (by vm_compute).
  split; [exact H1 |]. split; [exact H2 |].
  apply (proj2 (similar_positive_iff_shared (lit "tide") (lit "diet") H1 H2)).
  exists 116%N. split; [by left | do 3 right; by left].
Defined.

(** * The resolver beside the cross-dataset groups *)

Section ResolverAndGroups.
Context {U : UnicodeData}.

(** The keys of a record: the identifier text behind [tid::], the
    normalised name behind [name::]. *)
Lemma elem_of_key_for_player (p : record) (k : pystr) :
  k ∈ key_for_player p <->
  (exists s, k = lit "tid::" ++ s /\ tid_text p = Some s) \/
  (k = lit "name::" ++ name_key p /\ name_key p <> []).
Proof.
  rewrite key_for_player_parts, elem_of_app. unfold id_keys, name_keys, tid_text.
  destruct (is_none (resolve_tid p)); destruct (pystr_eqb (name_key p) []) eqn:En.
  - apply pystr_eqb_true in En. split.
    + intros [H|H]; by apply elem_of_nil in H.
    + intros [(s & _ & ?)|[_ ?]]; done.
  - apply pystr_eqb_false in En. rewrite list_elem_of_singleton. split.
    + intros [H| ->]; [by apply elem_of_nil in H | by right].
    + intros [(s & _ & ?)|[-> _]]; [done | by right].
  - apply pystr_eqb_true in En. rewrite list_elem_of_singleton. split.
    + intros [-> |H]; [left; by eexists | by apply elem_of_nil in H].
    + intros [(s & -> & [= <-])|[_ ?]]; [by left | done].
  - apply pystr_eqb_false in En. rewrite !list_elem_of_singleton. split.
    + intros [-> | ->]; [left; by eexists | by right].
    + intros [(s & -> & [= <-])|[-> _]]; [by left | by right].
Qed.

Lemma shared_key_cases (p q : record) :
  (exists k, k ∈ key_for_player p /\ k ∈ key_for_player q) <->
  (exists s, tid_text p = Some s /\ tid_text q = Some s) \/
  (name_key p <> [] /\ name_key q = name_key p).
Proof.
  split.
  - intros (k & Hp & Hq). apply elem_of_key_for_player in Hp, Hq.
    destruct Hp as [(s & -> & Hs)|[-> Hn]], Hq as [(s' & Hk & Hs')|[Hk Hn']].
    + apply app_inv_head in Hk. subst s'. left. by exists s.
    + simpl in Hk. discriminate.
    + simpl in Hk. discriminate.
    + apply app_inv_head in Hk. right. done.
  - intros [(s & Hp & Hq)|[Hn Hq]].
    + exists (lit "tid::" ++ s). split; apply elem_of_key_for_player; left; by exists s.
    + exists (lit "name::" ++ name_key p).
      split; apply elem_of_key_for_player; right; [done |]. by rewrite Hq.
Qed.

(** A source record is listed by [find_common_groups] in a group that
    reaches into the target exactly when it shares a key with a target
    record; that is the case exactly when the resolver finds it by
    identifier or by exact name, or when its identifier text is empty
    and so is that of a target record. *)
Theorem found_by_key_iff_common_group (src tgt : list record) (i : nat) (p : record) :
  src !! i = Some p ->
  ((exists g ov, g ∈ find_common_groups src tgt /\ ov ∈ occurrences g /\
                 ov_file ov = lit "source" /\ ov_index ov = i /\
                 present_in g = [lit "source"; lit "target"]) <->
   (exists q k, q ∈ tgt /\ k ∈ key_for_player p /\ k ∈ key_for_player q)) /\
  ((exists q k, q ∈ tgt /\ k ∈ key_for_player p /\ k ∈ key_for_player q) <->
   (rule_id (fst (build_target_lookup tgt)) p
    || rule_name (snd (build_target_lookup tgt)) p)%bool = true \/
   (tid_text p = Some [] /\ exists q, q ∈ tgt /\ tid_text q = Some [])).
Proof.
  intros Hp. split.
  - split.
    + intros (g & ov & Hg & Hov & Hf & Hi & Hpres).
      destruct (common_group_keys src tgt g Hg) as (_ & Hkne & _).
      destruct (common_group_present src tgt g Hg) as (Hmem & _).
      destruct (keys g) as [|k ks] eqn:E; [done |].
      assert (Hk : k ∈ keys g) by (rewrite E; by left).
      apply (find_common_groups_keys _ _ g k Hg) in Hk as [_ Hocc].
      assert (Ht : lit "target" ∈ present_in g) by (rewrite Hpres; right; by left).
      apply Hmem in Ht as (ov' & Hov' & Hf').
      rewrite Hocc in Hov, Hov'.
      apply elem_of_map in Hov as (o & -> & Ho). apply elem_of_map in Hov' as (o' & -> & Ho').
      apply list_elem_of_In, filter_In in Ho as [Ho Hk].
      apply list_elem_of_In, filter_In in Ho' as [Ho' Hk'].
      apply list_elem_of_In in Ho, Ho'. cbn [view ov_file ov_index] in Hf, Hi, Hf'.
      unfold carries in Hk, Hk'. apply bool_decide_eq_true in Hk, Hk'.
      apply elem_of_combine_datasets in Ho as [[_ Ho]|[Ho _]];
        [| rewrite Hf in Ho; discriminate].
      apply elem_of_combine_datasets in Ho' as [[Ho' _]|[_ Ho']];
        [rewrite Hf' in Ho'; discriminate |].
      rewrite Hi, Hp in Ho. injection Ho as Ho.
      exists (occ_player o'), k. split; [by eapply list_elem_of_lookup_2 |].
      rewrite Ho. done.
    + intros (q & k & Hq & Hkp & Hkq). apply list_elem_of_lookup in Hq as [j Hj].
      set (o1 := {| occ_file := lit "source"; occ_index := i; occ_player := p |}).
      set (o2 := {| occ_file := lit "target"; occ_index := j; occ_player := q |}).
      destruct (shared_key_common_group src tgt o1 o2 k) as (g & Hg & _ & H1 & H2).
      * apply elem_of_combine_datasets. by left.
      * apply elem_of_combine_datasets. by right.
      * done.
      * done.
      * done.
      * exists g, (view o1). split; [done |]. split; [done |]. split; [done |].
        split; [done |].
        destruct (common_group_present src tgt g Hg) as (Hmem & Hcases).
        assert (Hs : lit "source" ∈ present_in g) by (apply Hmem; by exists (view o1)).
        assert (Ht : lit "target" ∈ present_in g) by (apply Hmem; by exists (view o2)).
        destruct Hcases as [Hc|[Hc|Hc]]; [| | done]; rewrite Hc in Hs, Ht.
        -- apply list_elem_of_singleton in Ht. discriminate.
        -- apply list_elem_of_singleton in Hs. discriminate.
  - pose proof (build_target_lookup_spec tgt) as Hl.
    destruct (build_target_lookup tgt) as [ids names]. destruct Hl as [Hids Hnames].
    cbn [fst snd]. rewrite orb_true_iff. unfold rule_id, rule_name. split.
    + intros (q & k & Hq & Hkp & Hkq).
      destruct (proj1 (shared_key_cases p q)) as [(s & Hsp & Hsq)|[Hn Hnq]];
        [by exists k | |].
      * rewrite Hsp. destruct (decide (s = [])) as [-> |Hne].
        -- right. split; [done |]. by exists q.
        -- left; left. apply andb_true_iff. split.
           ++ apply negb_true_iff. by apply pystr_eqb_false.
           ++ apply bool_decide_eq_true, Hids. by exists q.
      * left; right. apply andb_true_iff. split.
        -- apply negb_true_iff. by apply pystr_eqb_false.
        -- apply bool_decide_eq_true, Hnames. by exists q.
    + intros [[H|H]|(Hsp & q & Hq & Hsq)].
      * destruct (tid_text p) as [s|] eqn:Hsp; [| done].
        apply andb_true_iff in H as [_ H]. apply bool_decide_eq_true, Hids in H.
        destruct H as (q & Hq & Hsq).
        destruct (proj2 (shared_key_cases p q)) as (k & ? & ?); [left; by exists s |].
        by exists q, k.
      * apply andb_true_iff in H as [Hne H]. apply negb_true_iff, pystr_eqb_false in Hne.
        apply bool_decide_eq_true, Hnames in H. destruct H as (q & Hq & Hnq & _).
        destruct (proj2 (shared_key_cases p q)) as (k & ? & ?); [by right |].
        by exists q, k.
      * destruct (proj2 (shared_key_cases p q)) as (k & ? & ?); [left; by exists [] |].
        by exists q, k.
Qed.

End ResolverAndGroups.

Lemma found_by_key_iff_common_group_witness :
  exists g ov, g ∈ @find_common_groups fragment two_jon_smiths two_jon_smiths /\
               ov ∈ occurrences g /\ ov_file ov = lit "source" /\ ov_index ov = 0 /\
               present_in g = [lit "source"; lit "target"].
Proof.
  apply (proj1 (@found_by_key_iff_common_group fragment two_jon_smiths two_jon_smiths 0
                  [(lit "transfermarkt_id", VStr (lit "42"));
                   (lit "name", VStr (lit "Jon Smith"))] eq_refl)).
  exists [(lit "transfermarkt_id", VStr (lit "42")); (lit "name", VStr (lit "Jon Smith"))],
    (lit "tid::42").
  split; [by left |].
  assert (E : @key_for_player fragment
                [(lit "transfermarkt_id", VStr (lit "42")); (lit "name", VStr (lit "Jon Smith"))]
              = [lit "tid::42"; lit "name::jon smith"]) by (by vm_compute).
  rewrite E. split; by left.
Defined.

(** * The CSV form of the report *)

Section ReportCsvProperties.
Context {U : UnicodeData}.

(** The fields that an entry of the report has. *)
Lemma report_entry_fields (src tgt : list record) (threshold : Q) (e : entry) :
  e ∈ missing_report src tgt threshold ->
  (exists m, e_missing e = Some m) /\
  ((e_duplicate e = None /\ e_duplicate_in e = None /\ e_duplicate_groups e = None) \/
   (e_duplicate e = Some true /\ (exists locs, e_duplicate_in e = Some locs) /\
    exists gs, e_duplicate_groups e = Some gs)).
Proof.
  intros He. apply missing_report_elem in He as (p & Hp & He).
  rewrite emitted_cases in He.
  assert (Hb : forall m,
    let r := set_missing m (base_entry (find_duplicates src) (find_duplicates tgt) p) in
    (exists m', e_missing r = Some m') /\
    ((e_duplicate r = None /\ e_duplicate_in r = None /\ e_duplicate_groups r = None) \/
     (e_duplicate r = Some true /\ (exists locs, e_duplicate_in r = Some locs) /\
      exists gs, e_duplicate_groups r = Some gs))).
  { intros m. cbn zeta. unfold base_entry.
    destruct (dup_membership _ _ p) as [locs info]. destruct locs; cbn.
    - split; [by eexists | by left].
    - split; [by eexists |]. right. split; [done |]. split; by eexists. }
  destruct (negb _).
  - apply list_elem_of_singleton in He. subst e. apply Hb.
  - destruct (flagged _ _ p); [| by apply elem_of_nil in He].
    apply list_elem_of_singleton in He. subst e. apply Hb.
Qed.

Lemma csv_header_elem (data : list record) (f : csv_file) (k : pystr) :
  write_csv data = Some f ->
  (k ∈ csv_header f <-> exists row, row ∈ data /\ k ∈ List.map fst row) /\
  csv_rows f = List.map (fun row => List.map (fun k => (k, csv_cell row k)) (csv_header f)) data.
Proof.
  destruct data as [|d data]; [done |]. intros [= <-]. cbn [csv_header csv_rows].
  split; [| done]. rewrite elem_of_elements.
  change (fold_left _ (d :: data) ∅) with
    (fold_left (fun (keys : gset pystr) (d : record) => keys ∪ list_to_set (List.map fst d))
               data (∅ ∪ list_to_set (List.map fst d))).
  rewrite (csv_keys_union data _ k), elem_of_union, elem_of_list_to_set. split.
  - intros [[Hk|Hk]|(row & Hrow & Hk)].
    + by apply elem_of_empty in Hk.
    + exists d. split; [by left | done].
    + exists row. split; [by right | done].
  - intros (row & Hrow & Hk). apply elem_of_cons in Hrow as [->|Hrow].
    + by left; right.
    + right. by exists row.
Qed.

Lemma entry_record_columns (e : entry) (k : pystr) :
  (exists m, e_missing e = Some m) ->
  ((e_duplicate e = None /\ e_duplicate_in e = None /\ e_duplicate_groups e = None) \/
   (e_duplicate e = Some true /\ (exists locs, e_duplicate_in e = Some locs) /\
    exists gs, e_duplicate_groups e = Some gs)) ->
  (k ∈ List.map fst (entry_record e) <->
   k ∈ base_columns \/ (k ∈ duplicate_columns /\ e_duplicate e = Some true)).
Proof.
  intros [m Hm] [(H1 & H2 & H3)|(H1 & [locs H2] & [gs H3])];
    unfold entry_record, base_columns, duplicate_columns; rewrite Hm, H1, H2, H3;
    cbn [app List.map fst]; rewrite !elem_of_cons, !elem_of_nil.
  - split; [tauto |]. intros [H|[_ ?]]; [tauto | done].
  - tauto.
Qed.

End ReportCsvProperties.

Section ReportCsvTheorem.
Context {U : UnicodeData}.

Lemma flat_map_nil_iff {A B} (f : A -> list B) (l : list A) :
  flat_map f l = [] <-> forall x, x ∈ l -> f x = [].
Proof.
  induction l as [|x l IH]; cbn [flat_map].
  - split; [intros _ y Hy; by apply elem_of_nil in Hy | done].
  - split.
    + intros H. apply app_eq_nil in H as [H1 H2]. intros y Hy.
      apply elem_of_cons in Hy as [-> |Hy]; [done | by apply IH].
    + intros H. rewrite (H x) by (by left). apply IH. intros y Hy. apply H. by right.
Qed.

(** [missing_players.csv]: nothing is written exactly when the report
    is empty, that is when every source record is found and unflagged;
    otherwise the header holds the six columns every entry has and, when
    some entry is flagged, the three duplicate columns; there is one row
    per entry, in order; the duplicate cells of an unflagged entry are
    empty, those of a flagged entry hold [True] and two JSON texts. *)
Theorem report_csv_columns (src tgt : list record) (threshold : Q) :
  (report_csv src tgt threshold = None <-> missing_report src tgt threshold = []) /\
  (missing_report src tgt threshold = [] <->
   forall p, p ∈ src ->
     is_found (fst (build_target_lookup tgt)) (snd (build_target_lookup tgt)) threshold p
       = true /\
     flagged (find_duplicates src) (find_duplicates tgt) p = false) /\
  (forall f, report_csv src tgt threshold = Some f ->
     (forall k, k ∈ csv_header f <->
        k ∈ base_columns \/
        (k ∈ duplicate_columns /\
         exists e, e ∈ missing_report src tgt threshold /\ e_duplicate e = Some true)) /\
     csv_rows f =
       List.map (fun e => List.map (fun k => (k, csv_cell (entry_record e) k)) (csv_header f))
                (missing_report src tgt threshold) /\
     forall e, e ∈ missing_report src tgt threshold ->
       (exists m, e_missing e = Some m /\
                  csv_cell (entry_record e) (lit "missing") = CellValue (VBool m)) /\
       (e_duplicate e = None ->
        forall k, k ∈ duplicate_columns -> csv_cell (entry_record e) k = CellEmpty) /\
       (e_duplicate e = Some true ->
        exists locs gs,
          e_duplicate_in e = Some locs /\ e_duplicate_groups e = Some gs /\
          csv_cell (entry_record e) (lit "duplicate") = CellValue (VBool true) /\
          csv_cell (entry_record e) (lit "duplicate_in") =
            CellJson (VList (List.map VStr locs)) /\
          csv_cell (entry_record e) (lit "duplicate_groups") =
            CellJson (VList (List.map summary_value gs)))).
Proof.
  split; [| split].
  - unfold report_csv. destruct (missing_report src tgt threshold); [done |].
    split; discriminate.
  - rewrite missing_report_unfold, find_missing_flat_map, flat_map_nil_iff.
    split; intros H p Hp; specialize (H p Hp); rewrite emitted_cases in *.
    + destruct (is_found _ _ _ p); cbn [negb] in H; [| done].
      destruct (flagged _ _ p); done.
    + destruct H as [-> ->]. done.
  - intros f Hf. unfold report_csv in Hf. split; [| split].
    + intros k. destruct (csv_header_elem _ f k Hf) as [-> _]. split.
      * intros (row & Hrow & Hk). apply elem_of_map in Hrow as (e & -> & He).
        destruct (report_entry_fields src tgt threshold e He) as [Hm Hd].
        apply (entry_record_columns e k Hm Hd) in Hk as [Hk|[Hk Hdup]]; [by left |].
        right. split; [done |]. by exists e.
      * intros [Hk|[Hk (e & He & Hdup)]].
        -- destruct (missing_report src tgt threshold) as [|e es] eqn:E; [done |].
           assert (He : e ∈ missing_report src tgt threshold) by (rewrite E; by left).
           rewrite <- E. exists (entry_record e). split.
           ++ apply elem_of_map. by exists e.
           ++ destruct (report_entry_fields src tgt threshold e He) as [Hm Hd].
              apply (entry_record_columns e k Hm Hd). by left.
        -- exists (entry_record e). split.
           ++ apply elem_of_map. by exists e.
           ++ destruct (report_entry_fields src tgt threshold e He) as [Hm Hd].
              apply (entry_record_columns e k Hm Hd). by right.
    + destruct (csv_header_elem _ f [] Hf) as [_ ->]. by rewrite map_map.
    + intros e He.
      destruct (report_entry_fields src tgt threshold e He)
        as [[m Hm] [(H1 & H2 & H3)|(H1 & [locs H2] & [gs H3])]].
      * split; [| split].
        -- exists m. split; [done |]. unfold csv_cell, entry_record.
           rewrite Hm, H1, H2, H3. by vm_compute.
        -- intros _ k Hk. unfold csv_cell, entry_record. rewrite Hm, H1, H2, H3.
           unfold duplicate_columns in Hk.
           repeat (apply elem_of_cons in Hk as [-> |Hk]; [by vm_compute |]).
           by apply elem_of_nil in Hk.
        -- rewrite H1. discriminate.
      * split; [| split].
        -- exists m. split; [done |]. unfold csv_cell, entry_record.
           rewrite Hm, H1, H2, H3. by vm_compute.
        -- rewrite H1. discriminate.
        -- intros _. exists locs, gs. split; [done |]. split; [done |].
           unfold csv_cell, entry_record. rewrite Hm, H1, H2, H3.
           split; [by vm_compute |]. split; by vm_compute.
Qed.

End ReportCsvTheorem.


(** * The spiders' text helpers *)

(** ** The matcher *)

Lemma first_down_some {A} (f : nat -> option A) (lo c : nat) (x : A) :
  first_down f lo c = Some x -> exists n, lo <= n <= lo + c /\ f n = Some x.
Proof.
  induction c as [|c IH]; cbn [first_down].
  - destruct (f (lo + 0)) eqn:E; [| done]. intros [= <-]. exists (lo + 0). split; [lia | done].
  - destruct (f (lo + S c)) eqn:E.
    + intros [= <-]. exists (lo + S c). split; [lia | done].
    + intros H. destruct (IH H) as (n & Hn & Hf). exists n. split; [lia | done].
Qed.

Lemma first_up_some {A} (f : nat -> option A) (n c : nat) (x : A) :
  first_up f n c = Some x -> exists m, n <= m <= n + c /\ f m = Some x.
Proof.
  revert n. induction c as [|c IH]; intros n; cbn [first_up].
  - destruct (f n) eqn:E; [| done]. intros [= <-]. exists n. split; [lia | done].
  - destruct (f n) eqn:E.
    + intros [= <-]. exists n. split; [lia | done].
    + intros H. destruct (IH _ H) as (m & Hm & Hf). exists m. split; [lia | done].
Qed.

Lemma first_down_top {A} (f : nat -> option A) (lo c : nat) (x : A) :
  f (lo + c) = Some x -> first_down f lo c = Some x.
Proof. intros H. destruct c; cbn [first_down]; by rewrite H. Qed.

Lemma first_down_none {A} (f : nat -> option A) (lo c : nat) :
  (forall n, lo <= n <= lo + c -> f n = None) -> first_down f lo c = None.
Proof.
  induction c as [|c IH]; intros H; cbn [first_down].
  - by rewrite H by lia.
  - rewrite H by lia. apply IH. intros n Hn. apply H. lia.
Qed.

Lemma run_length_le (cls : char -> bool) (s : pystr) : run_length cls s <= length s.
Proof. induction s as [|c s IH]; cbn; [lia |]. destruct (cls c); cbn; lia. Qed.

Lemma run_length_take (cls : char -> bool) (s : pystr) (n : nat) :
  n <= run_length cls s -> Forall (fun c => cls c = true) (take n s).
Proof.
  revert n. induction s as [|c s IH]; intros n; cbn [run_length].
  - intros Hn. by rewrite take_nil.
  - destruct n as [|n]; [constructor |]. destruct (cls c) eqn:E; [| lia].
    intros Hn. cbn [take]. constructor; [done |]. apply IH. lia.
Qed.

Lemma run_length_app (cls : char -> bool) (t rest : pystr) :
  Forall (fun c => cls c = true) t ->
  run_length cls (t ++ rest) = length t + run_length cls rest.
Proof.
  induction 1 as [|c t Hc _ IH]; [done |]. cbn [app run_length length]. by rewrite Hc, IH.
Qed.

Lemma run_length_stop (cls : char -> bool) (c : char) (rest : pystr) :
  cls c = false -> run_length cls (c :: rest) = 0.
Proof. cbn. by intros ->. Qed.

Lemma run_length_all (cls : char -> bool) (t : pystr) :
  Forall (fun c => cls c = true) t -> run_length cls t = length t.
Proof.
  intros H. rewrite <- (app_nil_r t) at 1. rewrite run_length_app by done. cbn. lia.
Qed.

Lemma advance_rest (st : mstate) (n : nat) : m_rest (advance st n) = drop n (m_rest st).
Proof. done. Qed.

Lemma advance_groups (st : mstate) (n : nat) : m_groups (advance st n) = m_groups st.
Proof. done. Qed.

Lemma advance_zero (st : mstate) : advance st 0 = st.
Proof. by destruct st. Qed.

(** Moving over a known text. *)
Lemma advance_app (p : option char) (t rest : pystr) (gs : list pystr) :
  advance {| m_prev := p; m_rest := t ++ rest; m_groups := gs |} (length t) =
  {| m_prev := match last t with Some c => Some c | None => p end;
     m_rest := rest; m_groups := gs |}.
Proof.
  unfold advance. cbn [m_prev m_rest m_groups]. rewrite drop_app_length. f_equal.
  destruct t as [|c t _] using rev_ind; [done |].
  rewrite last_snoc, length_app. cbn [length].
  replace (length t + 1) with (S (length t)) by lia.
  rewrite <- app_assoc. cbn [app].
  pose proof (list_lookup_middle t rest c (length t) eq_refl) as E.
  unfold pystr, char in *. by rewrite E.
Qed.

Section Matching.
Context {U : UnicodeData}.

Lemma rmatch_sound {A} (r : regex) :
  forall (st : mstate) (k : mstate -> option A) (x : A),
    rmatch r st k = Some x -> exists st', matches r st st' /\ k st' = Some x.
Proof.
  induction r as [|cls lo hi greedy|r1 IH1 r2 IH2|r1 IH1 r2 IH2|r IH| | |];
    intros st k x; cbn [rmatch].
  - intros H. exists st. split; [constructor | done].
  - set (n := match hi with Some h => Nat.min h _ | None => _ end).
    destruct (Nat.ltb_spec n lo) as [|Hlo]; [done |]. intros H.
    assert (Hn : n <= run_length cls (m_rest st) /\ forall h, hi = Some h -> n <= h).
    { subst n. destruct hi as [h|]; [split; [lia | intros ? [= <-]; lia] | split; [lia | done]]. }
    destruct Hn as [Hn Hh].
    assert (Hc : exists c, lo <= c <= n /\ k (advance st c) = Some x).
    { destruct greedy.
      - apply first_down_some in H as (c & Hc & H). exists c. split; [lia | done].
      - apply first_up_some in H as (c & Hc & H). exists c. split; [lia | done]. }
    clear H. destruct Hc as (c & Hc & H). exists (advance st c). split; [| done].
    constructor; [lia | lia |]. intros h Eh. specialize (Hh h Eh). lia.
  - intros H. apply IH1 in H as (st1 & H1 & H). apply IH2 in H as (st2 & H2 & H).
    exists st2. split; [by econstructor | done].
  - destruct (rmatch r1 st k) eqn:E.
    + intros [= <-]. apply IH1 in E as (st' & H1 & H). exists st'. split; [by constructor | done].
    + intros H. apply IH2 in H as (st' & H2 & H). exists st'. split; [by apply matches_Alt_r | done].
  - intros H. apply IH in H as (st' & H1 & H). eexists. split; [by constructor | done].
  - destruct (m_prev st) eqn:E; [done |]. intros H. exists st. split; [by constructor | done].
  - destruct (m_rest st) as [|c [|d rest]] eqn:E.
    + intros H. exists st. split; [constructor; by left | done].
    + destruct (N.eqb_spec c 10) as [-> |]; [| done].
      intros H. exists st. split; [constructor; by right | done].
    + done.
  - destruct (xorb _ _) eqn:E; [| done]. intros H. exists st. split; [by constructor | done].
Qed.

(** What a repetition of a class consumes. *)
Lemma matches_Rep_text (cls : char -> bool) (lo : nat) (hi : option nat) (greedy : bool)
    (st st' : mstate) :
  matches (Rep cls lo hi greedy) st st' ->
  exists t, m_rest st = t ++ m_rest st' /\ Forall (fun c => cls c = true) t /\
            lo <= length t /\ (forall h, hi = Some h -> length t <= h) /\
            m_groups st' = m_groups st /\
            m_prev st' = match last t with Some c => Some c | None => m_prev st end.
Proof.
  inversion 1 as [|? ? ? ? ? c Hlo Hrun Hhi| | | | | | |]; subst.
  pose proof (run_length_le cls (m_rest st)) as Hle.
  exists (take c (m_rest st)).
  assert (Hlen : length (take c (m_rest st)) = c) by (rewrite length_take; lia).
  rewrite Hlen. split; [by rewrite advance_rest, take_drop |].
  split; [by apply run_length_take |]. split; [done |]. split; [done |].
  split; [done |].
  unfold advance. cbn [m_prev]. destruct c as [|c]; [done |].
  rewrite last_lookup, Hlen. cbn [Init.Nat.pred]. by rewrite lookup_take_lt by lia.
Qed.

Lemma matches_Group_Rep_text (cls : char -> bool) (lo : nat) (hi : option nat)
    (greedy : bool) (st st' : mstate) :
  matches (Group (Rep cls lo hi greedy)) st st' ->
  exists t, m_rest st = t ++ m_rest st' /\ Forall (fun c => cls c = true) t /\
            lo <= length t /\ (forall h, hi = Some h -> length t <= h) /\
            m_groups st' = m_groups st ++ [t] /\
            m_prev st' = match last t with Some c => Some c | None => m_prev st end.
Proof.
  inversion 1 as [| | | | |? ? st1 H1| | |]; subst.
  apply matches_Rep_text in H1 as (t & Hr & Ht & Hlo & Hhi & Hg & Hp).
  exists t. cbn [m_rest m_groups m_prev]. repeat (split; [done |]). split; [| done].
  rewrite Hr, length_app. replace (length t + length (m_rest st1) - length (m_rest st1))
    with (length t) by lia. by rewrite take_app_length.
Qed.

Lemma matches_Seq_inv (r1 r2 : regex) (st st' : mstate) :
  matches (Seq r1 r2) st st' -> exists st1, matches r1 st st1 /\ matches r2 st1 st'.
Proof. inversion 1; subst. eauto. Qed.

Lemma matches_Eps_inv (st st' : mstate) : matches Eps st st' -> st' = st.
Proof. by inversion 1. Qed.

Lemma matches_Bol_inv (st st' : mstate) : matches Bol st st' -> st' = st /\ m_prev st = None.
Proof. by inversion 1. Qed.

Lemma matches_Eol_inv (st st' : mstate) :
  matches Eol st st' -> st' = st /\ (m_rest st = [] \/ m_rest st = [10%N]).
Proof. by inversion 1. Qed.

(** A greedy repetition that can take a whole run and go on takes it. *)
Lemma rmatch_Rep_run {A} (cls : char -> bool) (lo : nat) (hi : option nat)
    (p : option char) (t rest : pystr) (gs : list pystr) (k : mstate -> option A) (x : A) :
  Forall (fun c => cls c = true) t ->
  lo <= length t ->
  (forall h, hi = Some h -> length t <= h) ->
  match rest with [] => True | c :: _ => cls c = false end ->
  k {| m_prev := match last t with Some c => Some c | None => p end;
       m_rest := rest; m_groups := gs |} = Some x ->
  rmatch (Rep cls lo hi true) {| m_prev := p; m_rest := t ++ rest; m_groups := gs |} k = Some x.
Proof.
  intros Ht Hlo Hhi Hstop Hk. cbn [rmatch m_rest].
  assert (Hrun : run_length cls (t ++ rest) = length t).
  { rewrite run_length_app by done. destruct rest as [|c rest]; [cbn; lia |].
    rewrite run_length_stop by done. lia. }
  rewrite Hrun.
  assert (Hn : match hi with Some h => Nat.min h (length t) | None => length t end = length t).
  { destruct hi as [h|]; [| done]. specialize (Hhi h eq_refl). lia. }
  rewrite Hn. destruct (Nat.ltb_spec (length t) lo); [lia |].
  apply first_down_top. replace (lo + (length t - lo)) with (length t) by lia.
  by rewrite advance_app.
Qed.

(** A repetition fails where the run is too short. *)
Lemma rmatch_Rep_short {A} (cls : char -> bool) (lo : nat) (hi : option nat)
    (greedy : bool) (st : mstate) (k : mstate -> option A) :
  run_length cls (m_rest st) < lo -> rmatch (Rep cls lo hi greedy) st k = None.
Proof.
  intros H. cbn [rmatch].
  destruct (Nat.ltb_spec (match hi with Some h => Nat.min h (run_length cls (m_rest st))
                                   | None => run_length cls (m_rest st) end) lo) as [|Hge];
    [done |].
  destruct hi; lia.
Qed.

(** The search moves on over a position where the pattern fails. *)
Lemma search_from_skip (r : regex) (p : option char) (c : char) (s : pystr) :
  rmatch r {| m_prev := p; m_rest := c :: s; m_groups := [] |} Some = None ->
  search_from r p (c :: s) =
  match search_from r (Some c) s with
  | Some (skipped, st) => Some (c :: skipped, st)
  | None => None
  end.
Proof. intros H. cbn [search_from]. by rewrite H. Qed.

Lemma search_from_hit (r : regex) (p : option char) (s : pystr) (st : mstate) :
  rmatch r {| m_prev := p; m_rest := s; m_groups := [] |} Some = Some st ->
  search_from r p s = Some ([], st).
Proof. intros H. destruct s; cbn [search_from]; by rewrite H. Qed.

End Matching.

(** ** Numbers as text *)

Lemma digit_char_ascii (n : nat) : n < 10 -> ascii_digit (digit_char n) = true.
Proof.
  intros H. unfold ascii_digit, digit_char.
  apply andb_true_iff. split; apply N.leb_le; lia.
Qed.

Lemma decimal_text_digits (turns n : nat) :
  Forall (fun c => ascii_digit c = true) (decimal_text turns n).
Proof.
  revert n. induction turns as [|turns IH]; intros n; cbn [decimal_text]; [constructor |].
  destruct (Nat.ltb_spec n 10).
  - constructor; [by apply digit_char_ascii | constructor].
  - apply Forall_app. split; [apply IH |].
    constructor; [| constructor]. apply digit_char_ascii. by apply Nat.mod_upper_bound.
Qed.

Lemma decimal_text_length (w turns n : nat) :
  0 < w -> n < 10 ^ w -> n <= turns -> length (decimal_text (S turns) n) <= w.
Proof.
  revert turns n. induction w as [|w IH]; intros turns n Hw Hn Ht; [lia |].
  cbn [decimal_text]. destruct (Nat.ltb_spec n 10); [cbn; lia |].
  rewrite length_app. cbn [length].
  destruct turns as [|turns]; [lia |].
  destruct w as [|w]; [cbn in Hn; lia |].
  assert (n / 10 < 10 ^ S w).
  { apply Nat.Div0.div_lt_upper_bound. rewrite Nat.pow_succ_r' in Hn. lia. }
  assert (n / 10 <= turns).
  { assert (n / 10 < n) by (apply Nat.div_lt; lia). lia. }
  specialize (IH turns (n / 10)). lia.
Qed.

Lemma format_0d_shape (w n : nat) :
  0 < w -> n < 10 ^ w ->
  length (format_0d w n) = w /\ Forall (fun c => ascii_digit c = true) (format_0d w n).
Proof.
  intros Hw Hn. unfold format_0d, str_of_nat.
  pose proof (decimal_text_length w n n Hw Hn (le_n _)) as Hl.
  split.
  - rewrite length_app, length_replicate. lia.
  - apply Forall_app. split; [| apply decimal_text_digits].
    apply Forall_replicate. apply digit_char_ascii. lia.
Qed.

Section Numbers.
Context {U : UnicodeData} {D : DigitData} {F : DateFacts U D}.

Lemma int_of_digits_snoc (s : pystr) (c : char) :
  int_of_digits (s ++ [c]) = 10 * int_of_digits s + digit_value c.
Proof. unfold int_of_digits. by rewrite fold_left_app. Qed.

Lemma digit_value_digit_char (n : nat) : n < 10 -> digit_value (digit_char n) = n.
Proof.
  intros H. rewrite ascii_digit_value by (by apply digit_char_ascii).
  unfold digit_char. lia.
Qed.

Lemma ascii_digit_decimal (c : char) : ascii_digit c = true -> isdecimal c = true.
Proof.
  intros H. rewrite ascii_isdecimal; [done |].
  unfold ascii_digit in H. apply andb_true_iff in H as [_ H]. apply N.leb_le in H. lia.
Qed.

Lemma int_of_digits_bound (s : pystr) :
  Forall (fun c => isdecimal c = true) s -> int_of_digits s < 10 ^ length s.
Proof.
  induction s as [|c s IH] using rev_ind; [cbn; lia |].
  intros H. apply Forall_app in H as [Hs Hc]. apply Forall_inv in Hc.
  rewrite int_of_digits_snoc, length_app. cbn [length].
  pose proof (digit_value_bound c Hc). specialize (IH Hs).
  replace (length s + 1) with (S (length s)) by lia. rewrite Nat.pow_succ_r'. lia.
Qed.

Lemma int_of_decimal_text (turns n : nat) :
  n <= turns -> int_of_digits (decimal_text (S turns) n) = n.
Proof.
  revert n. induction turns as [|turns IH]; intros n Hn.
  - assert (n = 0) as -> by lia. cbn. by rewrite (digit_value_digit_char 0) by lia.
  - cbn [decimal_text]. cbn [decimal_text] in IH. destruct (Nat.ltb_spec n 10).
    + unfold int_of_digits. cbn. rewrite (digit_value_digit_char n) by done. lia.
    + rewrite int_of_digits_snoc, digit_value_digit_char by (by apply Nat.mod_upper_bound).
      assert (n / 10 < n) by (apply Nat.div_lt; lia).
      rewrite IH by lia. pose proof (Nat.div_mod_eq n 10). lia.
Qed.

Lemma int_of_digits_zeros (k : nat) (s : pystr) :
  int_of_digits (replicate k (digit_char 0) ++ s) = int_of_digits s.
Proof.
  unfold int_of_digits. rewrite fold_left_app.
  replace (fold_left _ (replicate k (digit_char 0)) 0) with 0; [done |].
  induction k as [|k IH]; [done |]. cbn [replicate fold_left].
  rewrite (digit_value_digit_char 0) by lia. cbn. exact IH.
Qed.

Lemma int_of_format_0d (w n : nat) : int_of_digits (format_0d w n) = n.
Proof.
  unfold format_0d. rewrite int_of_digits_zeros. by apply int_of_decimal_text.
Qed.

(** Texts of ASCII digits of one length with one value are equal. *)
Lemma int_of_digits_inj (s t : pystr) :
  Forall (fun c => ascii_digit c = true) s -> Forall (fun c => ascii_digit c = true) t ->
  length s = length t -> int_of_digits s = int_of_digits t -> s = t.
Proof.
  revert t. induction s as [|c s IH] using rev_ind; intros t Hs Ht Hl Hv.
  - destruct t; [done | discriminate].
  - destruct t as [|d t _] using rev_ind; [rewrite length_app in Hl; cbn in Hl; lia |].
    rewrite !length_app in Hl. cbn in Hl.
    apply Forall_app in Hs as [Hs Hc]. apply Forall_inv in Hc.
    apply Forall_app in Ht as [Ht Hd]. apply Forall_inv in Hd.
    rewrite !int_of_digits_snoc in Hv.
    pose proof (digit_value_bound c (ascii_digit_decimal c Hc)).
    pose proof (digit_value_bound d (ascii_digit_decimal d Hd)).
    assert (Hcd : digit_value c = digit_value d) by lia.
    rewrite (IH t); [| done | done | lia | lia]. f_equal. f_equal.
    rewrite !ascii_digit_value in Hcd by done.
    unfold ascii_digit in Hc, Hd.
    apply andb_true_iff in Hc as [Hc _]. apply andb_true_iff in Hd as [Hd _].
    apply N.leb_le in Hc, Hd. lia.
Qed.

(** Formatting the value of a text of ASCII digits pads it with zeros. *)
Lemma format_0d_int (w : nat) (s : pystr) :
  Forall (fun c => ascii_digit c = true) s -> 0 < length s <= w ->
  format_0d w (int_of_digits s) = replicate (w - length s) (digit_char 0) ++ s.
Proof.
  intros Hs Hl.
  assert (Hb : int_of_digits s < 10 ^ w).
  { eapply Nat.lt_le_trans.
    - apply int_of_digits_bound. eapply Forall_impl; [exact Hs |]. apply ascii_digit_decimal.
    - apply Nat.pow_le_mono_r; lia. }
  destruct (format_0d_shape w (int_of_digits s)) as [Hfl Hfd]; [lia | done |].
  apply int_of_digits_inj.
  - done.
  - apply Forall_app. split; [| done]. apply Forall_replicate. apply digit_char_ascii. lia.
  - rewrite Hfl, length_app, length_replicate. lia.
  - by rewrite int_of_format_0d, int_of_digits_zeros.
Qed.

End Numbers.


(** ** Characters of the date patterns *)

Lemma fragment_date_facts : DateFacts fragment ascii_digits.
Proof.
  split; try done.
  - cbn. intros c Hc. unfold ascii_digit in Hc.
    destruct (N.leb_spec 48 c), (N.leb_spec c 57); try done. lia.
  - cbn. intros c Hc. unfold ascii_digit, ascii_space in *.
    destruct (N.leb_spec 48 c), (N.leb_spec c 57); try done.
    destruct (N.leb_spec 9 c), (N.leb_spec c 13), (N.leb_spec 28 c), (N.leb_spec c 32);
      cbn; try done; lia.
Qed.

Section DateCharacters.
Context {U : UnicodeData} {D : DigitData} {L : LatinFacts U} {F : DateFacts U D}.

Lemma ascii_digit_range (c : char) : ascii_digit c = true <-> (48 <= c <= 57)%N.
Proof.
  unfold ascii_digit. rewrite andb_true_iff, !N.leb_le. done.
Qed.

Lemma digit_not_space (c : char) : ascii_digit c = true -> isspace c = false.
Proof. intros H. apply decimal_not_space. by apply ascii_digit_decimal. Qed.

Lemma space_not_decimal (c : char) : isspace c = true -> isdecimal c = false.
Proof.
  intros H. destruct (isdecimal c) eqn:E; [| done].
  apply decimal_not_space in E. congruence.
Qed.

Lemma decimal_not_letter (c : char) : isdecimal c = true -> ascii_letter c = false.
Proof.
  intros H. destruct (ascii_letter c) eqn:E; [| done].
  assert (Hc : (c < 128)%N).
  { unfold ascii_letter in E.
    destruct (N.leb_spec 65 c), (N.leb_spec c 90), (N.leb_spec 97 c), (N.leb_spec c 122);
      cbn in E; try done; lia. }
  rewrite ascii_isdecimal in H by done.
  apply ascii_digit_range in H. unfold ascii_letter in E.
  destruct (N.leb_spec 65 c), (N.leb_spec c 90), (N.leb_spec 97 c), (N.leb_spec c 122);
    cbn in E; try done; lia.
Qed.

Lemma letter_not_decimal (c : char) : ascii_letter c = true -> isdecimal c = false.
Proof.
  intros H. destruct (isdecimal c) eqn:E; [| done].
  apply decimal_not_letter in E. congruence.
Qed.

Lemma letter_ascii (c : char) : ascii_letter c = true -> (c < 128)%N.
Proof.
  unfold ascii_letter. intros E.
  destruct (N.leb_spec 65 c), (N.leb_spec c 90), (N.leb_spec 97 c), (N.leb_spec c 122);
    cbn in E; try done; lia.
Qed.

Lemma letter_not_space (c : char) : ascii_letter c = true -> isspace c = false.
Proof.
  intros H. rewrite ascii_isspace by (by apply letter_ascii).
  unfold ascii_letter in H. unfold ascii_space.
  destruct (N.leb_spec 65 c), (N.leb_spec c 90), (N.leb_spec 97 c), (N.leb_spec c 122);
    cbn in H; try done;
    destruct (N.leb_spec 9 c), (N.leb_spec c 13), (N.leb_spec 28 c), (N.leb_spec c 32);
    cbn; try done; lia.
Qed.

(** A decimal digit is none of the ASCII marks of the patterns. *)
Lemma decimal_not_among (c : char) (l : pystr) :
  Forall (fun x => (x < 128)%N /\ ascii_digit x = false) l ->
  isdecimal c = true -> among l c = false.
Proof.
  intros Hl Hc. unfold among. apply bool_decide_eq_false. intros Hin.
  rewrite Forall_forall in Hl. destruct (Hl c Hin) as [Hlt Hd].
  rewrite ascii_isdecimal in Hc by done. congruence.
Qed.

Lemma space_char : isspace SPACE = true.
Proof. by rewrite ascii_isspace. Qed.

Lemma newline_space : isspace 10%N = true.
Proof. by rewrite ascii_isspace. Qed.

Lemma hyphen_not_space : isspace HYPHEN = false.
Proof. by rewrite ascii_isspace. Qed.

Lemma hyphen_not_decimal : isdecimal HYPHEN = false.
Proof. by rewrite ascii_isdecimal. Qed.

Lemma space_not_letter (c : char) : isspace c = true -> ascii_letter c = false.
Proof.
  intros H. destruct (ascii_letter c) eqn:E; [| done].
  apply letter_not_space in E. congruence.
Qed.

(** Text without white space or commas passes the cleaning steps unchanged. *)
Lemma lstrip_plain (s : pystr) : Forall (fun c => isspace c = false) s -> lstrip s = s.
Proof. intros H. apply lstrip_fixed. destruct H; done. Qed.

Lemma strip_plain (s : pystr) : Forall (fun c => isspace c = false) s -> strip s = s.
Proof.
  intros H. apply strip_fixed; [by apply lstrip_plain |].
  unfold rstrip. rewrite lstrip_plain; [by rewrite rev_involutive |].
  by apply Forall_rev.
Qed.

Lemma sub_spaces_plain (s : pystr) : Forall (fun c => isspace c = false) s -> sub_spaces s = s.
Proof.
  induction 1 as [|c s Hc _ IH]; [done |]. cbn [sub_spaces]. by rewrite Hc, IH.
Qed.

Lemma replace_char_plain (a b : char) (s : pystr) :
  Forall (fun c => c <> a) s -> replace_char a b s = s.
Proof.
  induction 1 as [|c s Hc _ IH]; [done |]. unfold replace_char in *. cbn [List.map].
  rewrite IH. by destruct (N.eqb_spec c a).
Qed.

Lemma cleaned_plain (s : pystr) :
  Forall (fun c => isspace c = false) s -> Forall (fun c => c <> COMMA) s ->
  strip (sub_spaces (replace_char COMMA SPACE (strip s))) = s.
Proof.
  intros Hs Hc. rewrite (strip_plain s) by done. rewrite replace_char_plain by done.
  rewrite sub_spaces_plain by done. by apply strip_plain.
Qed.

(** The end of a stripped text is no white space. *)
Lemma strip_last (s t : pystr) (c : char) : strip s = t ++ [c] -> isspace c = false.
Proof.
  intros H. destruct (strip_edges s) as [_ Hr]. rewrite H in Hr.
  unfold rstrip in Hr. rewrite rev_app_distr in Hr. cbn [rev app] in Hr.
  pose proof (lstrip_head (c :: rev t)) as Hh.
  destruct (isspace c) eqn:E; [| done]. exfalso.
  cbn [lstrip] in Hr. rewrite E in Hr.
  apply (f_equal (@length char)) in Hr. rewrite length_rev, length_app in Hr.
  destruct (lstrip_suffix (rev t)) as [pre Hp].
  apply (f_equal (@length char)) in Hp. rewrite length_app, length_rev in Hp.
  cbn [length] in Hr. lia.
Qed.

End DateCharacters.


(** ** What the date patterns match *)

Ltac invert_matches :=
  repeat match goal with
  | H : matches (Seq _ _) _ _ |- _ =>
      let st := fresh "st" in
      apply matches_Seq_inv in H as (st & ? & ?); destruct st as [? ? ?]
  | H : matches Eps _ _ |- _ => apply matches_Eps_inv in H; inversion H; clear H; subst
  | H : matches Bol _ _ |- _ =>
      let E := fresh in apply matches_Bol_inv in H as [E ?]; inversion E; clear E; subst
  | H : matches Eol _ _ |- _ =>
      let E := fresh in apply matches_Eol_inv in H as [E ?]; inversion E; clear E; subst
  | H : matches (Group (Rep _ _ _ _)) _ _ |- _ =>
      apply matches_Group_Rep_text in H as (? & ? & ? & ? & ? & ? & ?);
      cbn [m_rest m_groups m_prev] in *; subst
  | H : matches (Rep _ _ _ _) _ _ |- _ =>
      apply matches_Rep_text in H as (? & ? & ? & ? & ? & ? & ?);
      cbn [m_rest m_groups m_prev] in *; subst
  end.

Ltac tidy_matches :=
  repeat match goal with
  | H : forall h, Some ?n = Some h -> _ |- _ => specialize (H n eq_refl)
  | H : forall h, None = Some h -> _ |- _ => clear H
  | H : Forall (fun c => among _ c = true) ?l |- _ =>
      destruct l as [|? [|? ?]]; cbn [length] in *; try lia;
      apply Forall_inv in H; apply bool_decide_eq_true in H
  end.

Section DatePatterns.
Context {U : UnicodeData} {D : DigitData} {L : LatinFacts U} {F : DateFacts U D}.

Local Abbreviation decimals := (Forall (fun c : char => isdecimal c = true)).
Local Abbreviation letters := (Forall (fun c : char => ascii_letter c = true)).
Local Abbreviation spaces := (Forall (fun c : char => isspace c = true)).

Lemma iso_pattern_match (s : pystr) (gs : list pystr) :
  re_match iso_pattern s = Some gs ->
  exists sp y c1 mo c2 d sp' e,
    s = sp ++ y ++ [c1] ++ mo ++ [c2] ++ d ++ sp' ++ e /\ gs = [y; mo; d] /\
    spaces sp /\ decimals y /\ length y = 4 /\ c1 ∈ lit "-/" /\
    decimals mo /\ 1 <= length mo <= 2 /\ c2 ∈ lit "-/" /\
    decimals d /\ 1 <= length d <= 2 /\ spaces sp' /\ (e = [] \/ e = [10%N]).
Proof.
  unfold re_match. intros H. apply rmatch_sound in H as (st' & H & Hg).
  destruct st' as [p' s' gs']. cbn [m_groups] in Hg. injection Hg as ->.
  unfold iso_pattern, seq_of, star, counted, one in H. cbn [fold_right] in H.
  invert_matches. tidy_matches.
  do 8 eexists. split; [reflexivity |]. split; [reflexivity |].
  repeat split; first [done | lia].
Qed.

Lemma day_month_year_pattern_match (s : pystr) (gs : list pystr) :
  re_match day_month_year_pattern s = Some gs ->
  exists d sp mon sp' y e,
    s = d ++ sp ++ mon ++ sp' ++ y ++ e /\ gs = [d; mon; y] /\
    decimals d /\ 1 <= length d <= 2 /\ spaces sp /\ 1 <= length sp /\
    letters mon /\ 1 <= length mon /\ spaces sp' /\ 1 <= length sp' /\
    decimals y /\ length y = 4 /\ (e = [] \/ e = [10%N]).
Proof.
  unfold re_match. intros H. apply rmatch_sound in H as (st' & H & Hg).
  destruct st' as [p' s' gs']. cbn [m_groups] in Hg. injection Hg as ->.
  unfold day_month_year_pattern, seq_of, plus, counted in H. cbn [fold_right] in H.
  invert_matches. tidy_matches.
  do 6 eexists. split; [reflexivity |]. split; [reflexivity |].
  repeat split; first [done | lia].
Qed.

Lemma month_day_year_pattern_match (s : pystr) (gs : list pystr) :
  re_match month_day_year_pattern s = Some gs ->
  exists mon sp d sp' y e,
    s = mon ++ sp ++ d ++ sp' ++ y ++ e /\ gs = [mon; d; y] /\
    letters mon /\ 1 <= length mon /\ spaces sp /\ 1 <= length sp /\
    decimals d /\ 1 <= length d <= 2 /\ spaces sp' /\ 1 <= length sp' /\
    decimals y /\ length y = 4 /\ (e = [] \/ e = [10%N]).
Proof.
  unfold re_match. intros H. apply rmatch_sound in H as (st' & H & Hg).
  destruct st' as [p' s' gs']. cbn [m_groups] in Hg. injection Hg as ->.
  unfold month_day_year_pattern, seq_of, plus, counted in H. cbn [fold_right] in H.
  invert_matches. tidy_matches.
  do 6 eexists. split; [reflexivity |]. split; [reflexivity |].
  repeat split; first [done | lia].
Qed.

Lemma numeric_pattern_match (s : pystr) (gs : list pystr) :
  re_match numeric_pattern s = Some gs ->
  exists d c1 mo c2 y e,
    s = d ++ [c1] ++ mo ++ [c2] ++ y ++ e /\ gs = [d; mo; y] /\
    decimals d /\ 1 <= length d <= 2 /\ c1 ∈ lit "./-" /\
    decimals mo /\ 1 <= length mo <= 2 /\ c2 ∈ lit "./-" /\
    decimals y /\ length y = 4 /\ (e = [] \/ e = [10%N]).
Proof.
  unfold re_match. intros H. apply rmatch_sound in H as (st' & H & Hg).
  destruct st' as [p' s' gs']. cbn [m_groups] in Hg. injection Hg as ->.
  unfold numeric_pattern, seq_of, counted, one in H. cbn [fold_right] in H.
  invert_matches. tidy_matches.
  do 6 eexists. split; [reflexivity |]. split; [reflexivity |].
  repeat split; first [done | lia].
Qed.

Lemma year_pattern_match (s : pystr) (gs : list pystr) :
  re_match year_pattern s = Some gs ->
  exists y e, s = y ++ e /\ decimals y /\ length y = 4 /\ (e = [] \/ e = [10%N]).
Proof.
  unfold re_match. intros H. apply rmatch_sound in H as (st' & H & Hg).
  destruct st' as [p' s' gs']. cbn [m_groups] in Hg. injection Hg as ->.
  unfold year_pattern, seq_of, counted in H. cbn [fold_right] in H.
  invert_matches. tidy_matches.
  do 2 eexists. split; [reflexivity |].
  repeat split; first [done | lia].
Qed.

End DatePatterns.


(** ** Running the matcher on known text *)

Section Running.
Context {U : UnicodeData}.

Lemma rmatch_Seq {A} (r1 r2 : regex) (st : mstate) (k : mstate -> option A) :
  rmatch (Seq r1 r2) st k = rmatch r1 st (fun st' => rmatch r2 st' k).
Proof. done. Qed.

Lemma rmatch_Eps {A} (st : mstate) (k : mstate -> option A) : rmatch Eps st k = k st.
Proof. done. Qed.

Lemma rmatch_Bol {A} (s : pystr) (gs : list pystr) (k : mstate -> option A) :
  rmatch Bol {| m_prev := None; m_rest := s; m_groups := gs |} k =
  k {| m_prev := None; m_rest := s; m_groups := gs |}.
Proof. done. Qed.

Lemma rmatch_Eol {A} (p : option char) (gs : list pystr) (k : mstate -> option A) :
  rmatch Eol {| m_prev := p; m_rest := []; m_groups := gs |} k =
  k {| m_prev := p; m_rest := []; m_groups := gs |}.
Proof. done. Qed.

Lemma rmatch_Group_Rep_run {A} (cls : char -> bool) (lo : nat) (hi : option nat)
    (p : option char) (t rest : pystr) (gs : list pystr) (k : mstate -> option A) (x : A) :
  Forall (fun c => cls c = true) t ->
  lo <= length t ->
  (forall h, hi = Some h -> length t <= h) ->
  match rest with [] => True | c :: _ => cls c = false end ->
  k {| m_prev := match last t with Some c => Some c | None => p end;
       m_rest := rest; m_groups := gs ++ [t] |} = Some x ->
  rmatch (Group (Rep cls lo hi true))
    {| m_prev := p; m_rest := t ++ rest; m_groups := gs |} k = Some x.
Proof.
  intros Ht Hlo Hhi Hstop Hk.
  change (rmatch (Rep cls lo hi true) {| m_prev := p; m_rest := t ++ rest; m_groups := gs |}
            (fun st' => k {| m_prev := m_prev st'; m_rest := m_rest st';
                             m_groups := gs ++ [take (length (t ++ rest) - length (m_rest st'))
                                                  (t ++ rest)] |}) = Some x).
  apply rmatch_Rep_run; try done. cbn [m_prev m_rest].
  rewrite length_app. replace (length t + length rest - length rest) with (length t) by lia.
  by rewrite take_app_length.
Qed.

(** A repetition that may be empty, where the class does not start. *)
Lemma rmatch_Rep_zero {A} (cls : char -> bool) (hi : option nat) (greedy : bool)
    (st : mstate) (k : mstate -> option A) :
  run_length cls (m_rest st) = 0 -> rmatch (Rep cls 0 hi greedy) st k = k st.
Proof.
  intros H. cbn [rmatch]. rewrite H.
  replace (match hi with Some h => Nat.min h 0 | None => 0 end) with 0
    by (destruct hi; lia).
  cbn. rewrite advance_zero. by destruct greedy, (k st).
Qed.

Lemma rmatch_Group {A} (r : regex) (st : mstate) (k : mstate -> option A) :
  rmatch (Group r) st k =
  rmatch r st (fun st' =>
    k {| m_prev := m_prev st'; m_rest := m_rest st';
         m_groups := m_groups st ++
                     [take (length (m_rest st) - length (m_rest st')) (m_rest st)] |}).
Proof. done. Qed.

Lemma re_match_none (r : regex) (s : pystr) :
  (forall gs, re_match r s = Some gs -> False) -> re_match r s = None.
Proof. destruct (re_match r s) as [gs|]; [| done]. intros H. destruct (H gs eq_refl). Qed.

End Running.

Ltac take_run t rest :=
  lazymatch goal with
  | |- rmatch (Group (Rep ?cls ?lo ?hi true))
         {| m_prev := ?p; m_rest := _; m_groups := ?gs |} ?k = Some ?x =>
      apply (rmatch_Group_Rep_run cls lo hi p t rest gs k x)
  | |- rmatch (Rep ?cls ?lo ?hi true)
         {| m_prev := ?p; m_rest := _; m_groups := ?gs |} ?k = Some ?x =>
      apply (rmatch_Rep_run cls lo hi p t rest gs k x)
  end.

(** ** [try_parse_day_month_year] *)

Section TryParse.
Context {U : UnicodeData} {D : DigitData} {L : LatinFacts U} {F : DateFacts U D}.

Local Abbreviation decimals := (Forall (fun c : char => isdecimal c = true)).
Local Abbreviation letters := (Forall (fun c : char => ascii_letter c = true)).
Local Abbreviation spaces := (Forall (fun c : char => isspace c = true)).

Lemma digits_decimals (s : pystr) : digits s -> decimals s.
Proof. intros H. eapply Forall_impl; [exact H |]. apply ascii_digit_decimal. Qed.

Lemma digits_no_space (s : pystr) : digits s -> Forall (fun c => isspace c = false) s.
Proof. intros H. eapply Forall_impl; [exact H |]. apply digit_not_space. Qed.

Lemma decimals_no_space (s : pystr) : decimals s -> Forall (fun c => isspace c = false) s.
Proof. intros H. eapply Forall_impl; [exact H |]. apply decimal_not_space. Qed.

Lemma decimal_not_comma (c : char) : isdecimal c = true -> c <> COMMA.
Proof. intros H ->. by rewrite ascii_isdecimal in H. Qed.

Lemma format_0d_digits (w : nat) (s : pystr) :
  decimals s -> 0 < w -> length s <= w ->
  digits (format_0d w (int_of_digits s)) /\ length (format_0d w (int_of_digits s)) = w.
Proof.
  intros Hs Hw Hl.
  destruct (format_0d_shape w (int_of_digits s)) as [H1 H2]; [done | | done].
  eapply Nat.lt_le_trans; [by apply int_of_digits_bound |].
  apply Nat.pow_le_mono_r; lia.
Qed.

Lemma iso_date_text (y mo d : pystr) :
  decimals y -> length y = 4 -> decimals mo -> length mo <= 2 ->
  decimals d -> length d <= 2 -> iso_text (iso_date y mo d).
Proof.
  intros Hy Hly Hmo Hlmo Hd Hld.
  destruct (format_0d_digits 4 y) as [? ?]; [done | lia | lia |].
  destruct (format_0d_digits 2 mo) as [? ?]; [done | lia | lia |].
  destruct (format_0d_digits 2 d) as [? ?]; [done | lia | lia |].
  by eexists _, _, _.
Qed.

Lemma table_get_elem (t : list (pystr * pystr)) (k v : pystr) :
  table_get t k = Some v -> v ∈ List.map snd t.
Proof.
  induction t as [|[k' v'] t IH]; [done |]. cbn [table_get List.map snd].
  destruct (pystr_eqb k' k).
  - intros [= ->]. by left.
  - intros H. right. by apply IH.
Qed.

Lemma month_number_digits (m v : pystr) :
  month_number m = Some v -> digits v /\ length v = 2.
Proof.
  assert (Hf : Forall (fun v => digits v /\ length v = 2) (List.map snd MONTHS_FULL)).
  { repeat (constructor; [by split; [repeat constructor |] |]). constructor. }
  assert (Ha : Forall (fun v => digits v /\ length v = 2) (List.map snd MONTHS_ABBR)).
  { repeat (constructor; [by split; [repeat constructor |] |]). constructor. }
  rewrite Forall_forall in Hf, Ha.
  unfold month_number, text_or. intros H.
  destruct (text_truthy (table_get MONTHS_FULL m)); apply table_get_elem in H; auto.
Qed.

Lemma named_month_date_text (d mon y r : pystr) :
  decimals d -> length d <= 2 -> decimals y -> length y = 4 ->
  named_month_date d mon y = Some r -> iso_text r.
Proof.
  intros Hd Hld Hy Hly. unfold named_month_date.
  destruct (month_number (lower mon)) as [v|] eqn:E; [| done].
  destruct (text_truthy (Some v)); [| done]. intros [= <-]. change (default [] (Some v)) with v.
  destruct (month_number_digits _ _ E) as [Hv Hlv].
  apply iso_date_text; try done; [by apply digits_decimals | lia].
Qed.

Lemma day_month_year_stage (s r : pystr) :
  match re_match day_month_year_pattern s with
  | Some [d; mon; y] => named_month_date d mon y
  | _ => None
  end = Some r -> iso_text r.
Proof.
  destruct (re_match day_month_year_pattern s) as [gs|] eqn:E; [| done].
  apply day_month_year_pattern_match in E
    as (d & sp & mon & sp' & y & e & _ & -> & Hd & Hld & _ & _ & _ & _ & _ & _ & Hy & Hly & _).
  apply named_month_date_text; try done. lia.
Qed.

Lemma month_day_year_stage (s r : pystr) :
  match re_match month_day_year_pattern s with
  | Some [mon; d; y] => named_month_date d mon y
  | _ => None
  end = Some r -> iso_text r.
Proof.
  destruct (re_match month_day_year_pattern s) as [gs|] eqn:E; [| done].
  apply month_day_year_pattern_match in E
    as (mon & sp & d & sp' & y & e & _ & -> & _ & _ & _ & _ & Hd & Hld & _ & _ & Hy & Hly & _).
  apply named_month_date_text; try done. lia.
Qed.

(** A result is an ISO date, or the four decimal digits that the cleaned
    input consists of. *)
Lemma try_parse_shape (part r : pystr) :
  try_parse_day_month_year part = Some r ->
  iso_text r \/ (length r = 4 /\ decimals r).
Proof.
  unfold try_parse_day_month_year.
  destruct (_ || _)%bool; [done |].
  set (s := strip (sub_spaces _)).
  destruct (re_match iso_pattern s) as [gs|] eqn:E1.
  { apply iso_pattern_match in E1
      as (sp & y & c1 & mo & c2 & d & sp' & e & _ & -> & _ & Hy & Hly & _ & Hmo & Hlmo & _
          & Hd & Hld & _).
    intros [= <-]. left. apply iso_date_text; try done; lia. }
  match goal with
  | |- context [match ?x with Some r => Some r | None => _ end] => destruct x as [r1|] eqn:E2
  end.
  { intros [= <-]. left. by apply day_month_year_stage in E2. }
  match goal with
  | |- context [match ?x with Some r => Some r | None => _ end] => destruct x as [r1|] eqn:E3
  end.
  { intros [= <-]. left. by apply month_day_year_stage in E3. }
  destruct (re_match numeric_pattern s) as [gs|] eqn:E4.
  { apply numeric_pattern_match in E4
      as (d & c1 & mo & c2 & y & e & _ & -> & Hd & Hld & _ & Hmo & Hlmo & _ & Hy & Hly & _).
    intros [= <-]. left. apply iso_date_text; try done; lia. }
  destruct (re_match year_pattern s) as [gs|] eqn:E5; [| done].
  apply year_pattern_match in E5 as (y & e & Hs & Hy & Hly & He).
  intros [= <-]. right. destruct He as [-> | ->].
  - rewrite app_nil_r in Hs. by rewrite Hs.
  - subst s. apply strip_last in Hs. by rewrite newline_space in Hs.
Qed.

(** An ISO date parses to itself. *)
Lemma iso_pattern_iso_text (y m d : pystr) :
  digits y -> digits m -> digits d -> length y = 4 -> 1 <= length m <= 2 ->
  1 <= length d <= 2 ->
  re_match iso_pattern (y ++ [HYPHEN] ++ m ++ [HYPHEN] ++ d) = Some [y; m; d].
Proof.
  intros Hy Hm Hd Hly Hlm Hld.
  destruct y as [|a y]; [done |]. destruct m as [|b m]; [cbn in Hlm; lia |].
  destruct d as [|c d]; [cbn in Hld; lia |].
  pose proof (Forall_inv Hy) as Ha. pose proof (Forall_inv Hm) as Hb.
  pose proof (Forall_inv Hd) as Hc. cbn beta in Ha, Hb, Hc.
  assert (Hp : forall x, ascii_digit x = true -> among (lit "-/") x = false).
  { intros x Hx. apply decimal_not_among; [by repeat constructor | by apply ascii_digit_decimal]. }
  unfold re_match, iso_pattern, seq_of, star, counted, one. cbn [fold_right].
  rewrite rmatch_Seq, rmatch_Bol, rmatch_Seq, rmatch_Rep_zero
    by (cbn [m_rest app run_length]; by rewrite digit_not_space).
  rewrite rmatch_Seq.
  take_run (a :: y) ([HYPHEN] ++ (b :: m) ++ [HYPHEN] ++ c :: d);
    [by apply digits_decimals | lia | intros ? [= <-]; lia | apply hyphen_not_decimal |].
  rewrite rmatch_Seq.
  take_run [HYPHEN] ((b :: m) ++ [HYPHEN] ++ c :: d);
    [by repeat constructor | cbn; lia | intros ? [= <-]; cbn; lia | by apply Hp |].
  rewrite rmatch_Seq.
  take_run (b :: m) ([HYPHEN] ++ c :: d);
    [by apply digits_decimals | lia | intros ? [= <-]; lia | apply hyphen_not_decimal |].
  rewrite rmatch_Seq.
  take_run [HYPHEN] (c :: d);
    [by repeat constructor | cbn; lia | intros ? [= <-]; cbn; lia | by apply Hp |].
  rewrite rmatch_Seq.
  rewrite <- (app_nil_r (c :: d)) at 1.
  take_run (c :: d) (@nil char);
    [by apply digits_decimals | lia | intros ? [= <-]; lia | done |].
  rewrite rmatch_Seq, rmatch_Rep_zero by done.
  rewrite rmatch_Seq, rmatch_Eol, rmatch_Eps. done.
Qed.

Lemma try_parse_iso_text (r : pystr) : iso_text r -> try_parse_day_month_year r = Some r.
Proof.
  intros (y & m & d & -> & Hy & Hm & Hd & Hly & Hlm & Hld).
  set (r := y ++ [HYPHEN] ++ m ++ [HYPHEN] ++ d).
  assert (Hr : Forall (fun c => isspace c = false /\ c <> COMMA) r).
  { assert (Hdig : forall s, digits s -> Forall (fun c => isspace c = false /\ c <> COMMA) s).
    { intros s Hs. eapply Forall_impl; [exact Hs |]. intros c Hc. cbn beta in Hc.
      split; [by apply digit_not_space |]. apply decimal_not_comma.
      by apply ascii_digit_decimal. }
    assert (Hh : isspace HYPHEN = false /\ HYPHEN <> COMMA) by (split; [apply hyphen_not_space | done]).
    subst r. repeat (apply Forall_app; split); auto. }
  apply Forall_and in Hr as [Hr1 Hr2].
  unfold try_parse_day_month_year.
  rewrite (cleaned_plain r Hr1 Hr2), (strip_plain r Hr1).
  assert (Hne : pystr_eqb r [] = false).
  { apply bool_decide_eq_false. subst r. by destruct y. }
  rewrite Hne. cbn [orb]. subst r.
  rewrite iso_pattern_iso_text by (try done; lia).
  unfold iso_date. by rewrite !format_0d_int, Hly, Hlm, Hld by (try done; lia).
Qed.

(** A year of four decimal digits parses to itself. *)
Lemma try_parse_year (r : pystr) :
  decimals r -> length r = 4 -> try_parse_day_month_year r = Some r.
Proof.
  intros Hr Hl.
  assert (Hsp := decimals_no_space r Hr).
  assert (Hco : Forall (fun c => c <> COMMA) r).
  { eapply Forall_impl; [exact Hr |]. apply decimal_not_comma. }
  unfold try_parse_day_month_year.
  rewrite (cleaned_plain r Hsp Hco), (strip_plain r Hsp).
  assert (Hne : pystr_eqb r [] = false).
  { apply bool_decide_eq_false. by destruct r. }
  rewrite Hne. cbn [orb].
  assert (Hmark : forall (l1 l2 : pystr) (c : char) (marks : pystr),
             r = l1 ++ [c] ++ l2 -> c ∈ marks ->
             Forall (fun x => (x < 128)%N /\ ascii_digit x = false) marks -> False).
  { intros l1 l2 c marks E Hc Hm. rewrite E in Hr.
    apply Forall_app in Hr as [_ Hr]. apply Forall_inv in Hr.
    pose proof (decimal_not_among c marks Hm Hr) as Hn.
    apply bool_decide_eq_false in Hn. done. }
  rewrite (re_match_none iso_pattern r).
  2:{ intros gs H. apply iso_pattern_match in H
        as (sp & y & c1 & mo & c2 & d & sp' & e & Hs & _ & _ & _ & _ & Hc1 & _).
      apply (Hmark (sp ++ y) (mo ++ [c2] ++ d ++ sp' ++ e) c1 (lit "-/")).
      - by rewrite <- app_assoc.
      - done.
      - by repeat constructor. }
  rewrite (re_match_none day_month_year_pattern r).
  2:{ intros gs H. apply day_month_year_pattern_match in H
        as (d & sp & mon & sp' & y & e & Hs & _ & _ & _ & Hsp' & Hlsp & _).
      destruct sp as [|w sp]; [cbn in Hlsp; lia |]. apply Forall_inv in Hsp'.
      rewrite Hs in Hr. apply Forall_app in Hr as [_ Hr]. apply Forall_inv in Hr.
      apply decimal_not_space in Hr. congruence. }
  rewrite (re_match_none month_day_year_pattern r).
  2:{ intros gs H. apply month_day_year_pattern_match in H
        as (mon & sp & d & sp' & y & e & Hs & _ & Hm & Hlm & _).
      destruct mon as [|w mon]; [cbn in Hlm; lia |]. apply Forall_inv in Hm.
      rewrite Hs in Hr. apply Forall_inv in Hr.
      apply decimal_not_letter in Hr. congruence. }
  rewrite (re_match_none numeric_pattern r).
  2:{ intros gs H. apply numeric_pattern_match in H
        as (d & c1 & mo & c2 & y & e & Hs & _ & _ & _ & Hc1 & _).
      apply (Hmark d (mo ++ [c2] ++ y ++ e) c1 (lit "./-")); [done | done |].
      by repeat constructor. }
  assert (Hy : re_match year_pattern r = Some []).
  { unfold re_match, year_pattern, seq_of, counted. cbn [fold_right].
    rewrite rmatch_Seq, rmatch_Bol, rmatch_Seq.
    rewrite <- (app_nil_r r) at 1.
    take_run r (@nil char); [done | lia | intros ? [= <-]; lia | done |].
    by rewrite rmatch_Seq, rmatch_Eol, rmatch_Eps. }
  by rewrite Hy.
Qed.

End TryParse.


(** ** Dates in the accepted notations *)

(** Where a run of a class ends is determined by the text. *)
Lemma run_split (cls : char -> bool) (t1 t2 r1 r2 : pystr) (c1 c2 : char) :
  t1 ++ c1 :: r1 = t2 ++ c2 :: r2 ->
  Forall (fun c => cls c = true) t1 -> Forall (fun c => cls c = true) t2 ->
  cls c1 = false -> cls c2 = false -> t1 = t2 /\ c1 = c2 /\ r1 = r2.
Proof.
  revert t2. induction t1 as [|a t1 IH]; intros [|b t2] E H1 H2 Hc1 Hc2; cbn [app] in E.
  - by injection E as -> ->.
  - injection E as -> _. apply Forall_inv in H2. congruence.
  - injection E as -> _. apply Forall_inv in H1. congruence.
  - injection E as -> E. apply Forall_cons in H1 as [_ H1]. apply Forall_cons in H2 as [_ H2].
    destruct (IH t2 E H1 H2 Hc1 Hc2) as (-> & -> & ->). done.
Qed.

Section DateNotations.
Context {U : UnicodeData} {D : DigitData} {L : LatinFacts U} {F : DateFacts U D}.

Local Abbreviation decimals := (Forall (fun c : char => isdecimal c = true)).
Local Abbreviation letters := (Forall (fun c : char => ascii_letter c = true)).
Local Abbreviation spaces := (Forall (fun c : char => isspace c = true)).
Local Abbreviation plain := (Forall (fun c : char => isspace c = false)).

Lemma strip_ends (x z : char) (m : pystr) :
  isspace x = false -> isspace z = false -> strip (x :: m ++ [z]) = x :: m ++ [z].
Proof.
  intros Hx Hz. apply strip_fixed; [by apply lstrip_fixed |].
  unfold rstrip. change (x :: m ++ [z]) with ((x :: m) ++ [z]).
  rewrite rev_app_distr. cbn [rev app].
  rewrite lstrip_fixed by done.
  change (z :: rev m ++ [x]) with ([z] ++ rev (x :: m)).
  by rewrite rev_app_distr, rev_involutive.
Qed.

Lemma sub_spaces_spaces (sp z : pystr) (w c : char) :
  isspace w = true -> spaces sp -> isspace c = false ->
  sub_spaces (w :: sp ++ c :: z) = SPACE :: sub_spaces (c :: z).
Proof.
  intros Hw Hsp Hc. revert w Hw. induction Hsp as [|w' sp Hw' _ IH]; intros w Hw.
  - cbn [app]. rewrite sub_spaces_cons, Hw. by rewrite Hc.
  - cbn [app]. rewrite sub_spaces_cons, Hw, Hw'. by apply IH.
Qed.

Lemma sub_spaces_gap (x sp z : pystr) (c : char) :
  plain x -> spaces sp -> sp <> [] -> isspace c = false ->
  sub_spaces (x ++ sp ++ c :: z) = x ++ SPACE :: sub_spaces (c :: z).
Proof.
  intros Hx Hsp Hne Hc. induction Hx as [|a x Ha _ IH].
  - destruct sp as [|w sp]; [done |]. apply Forall_cons in Hsp as [Hw Hsp].
    by apply sub_spaces_spaces.
  - cbn [app]. by rewrite sub_spaces_cons, Ha, IH.
Qed.

Lemma replace_comma_gap (sep : pystr) :
  Forall (fun c => isspace c = true \/ c = COMMA) sep ->
  spaces (replace_char COMMA SPACE sep).
Proof.
  intros H. unfold replace_char. apply Forall_map. eapply Forall_impl; [exact H |].
  intros c Hc. cbn beta in *. destruct (N.eqb_spec c COMMA); [apply space_char |].
  by destruct Hc.
Qed.

Lemma replace_char_app (a b : char) (s t : pystr) :
  replace_char a b (s ++ t) = replace_char a b s ++ replace_char a b t.
Proof. apply map_app. Qed.

(** The cleaning steps on three words apart by commas and white space. *)
Lemma cleaned_words (x y z sep1 sep2 : pystr) :
  plain x -> plain y -> plain z ->
  Forall (fun c => c <> COMMA) x -> Forall (fun c => c <> COMMA) y ->
  Forall (fun c => c <> COMMA) z ->
  x <> [] -> y <> [] -> z <> [] ->
  Forall (fun c => isspace c = true \/ c = COMMA) sep1 -> sep1 <> [] ->
  Forall (fun c => isspace c = true \/ c = COMMA) sep2 -> sep2 <> [] ->
  let part := x ++ sep1 ++ y ++ sep2 ++ z in
  strip part <> [] /\
  strip (sub_spaces (replace_char COMMA SPACE (strip part))) =
  x ++ [SPACE] ++ y ++ [SPACE] ++ z.
Proof.
  intros Hx Hy Hz Hcx Hcy Hcz Hnx Hny Hnz Hs1 Hn1 Hs2 Hn2 part.
  assert (Hends : forall (m : pystr), strip (x ++ m ++ z) = x ++ m ++ z).
  { intros m. destruct x as [|a x]; [done |].
    destruct z as [|b z _] using rev_ind; [done |].
    apply Forall_inv in Hx. apply Forall_app in Hz as [_ Hz]. apply Forall_inv in Hz.
    replace ((a :: x) ++ m ++ z ++ [b]) with (a :: (x ++ m ++ z) ++ [b])
      by (cbn [app]; by rewrite <- !app_assoc).
    by apply strip_ends. }
  assert (Hp : strip part = part).
  { subst part. rewrite !(app_assoc sep1), (app_assoc (sep1 ++ y)). apply Hends. }
  rewrite Hp. split; [subst part; by destruct x |].
  subst part. rewrite !replace_char_app.
  rewrite (replace_char_plain _ _ x), (replace_char_plain _ _ y), (replace_char_plain _ _ z)
    by done.
  destruct y as [|b y]; [done |]. destruct z as [|c z]; [done |].
  set (sep1' := replace_char COMMA SPACE sep1). set (sep2' := replace_char COMMA SPACE sep2).
  assert (Hne : forall sep, sep <> [] -> replace_char COMMA SPACE sep <> []).
  { intros sep Hn E. apply (f_equal (@length char)) in E. unfold replace_char in E.
    rewrite length_map in E. by destruct sep. }
  assert (E2 : sub_spaces ((b :: y) ++ sep2' ++ c :: z) = (b :: y) ++ SPACE :: c :: z).
  { rewrite sub_spaces_gap;
      [| done | by apply replace_comma_gap | by apply Hne | by apply Forall_inv in Hz].
    by rewrite (sub_spaces_plain (c :: z)). }
  assert (E1 : sub_spaces (x ++ sep1' ++ b :: (y ++ sep2' ++ c :: z)) =
               x ++ SPACE :: sub_spaces (b :: (y ++ sep2' ++ c :: z))).
  { apply sub_spaces_gap;
      [done | by apply replace_comma_gap | by apply Hne | by apply Forall_inv in Hy]. }
  cbn [app] in E2 |- *. rewrite E1, E2.
  pose proof (Hends (SPACE :: b :: y ++ [SPACE])) as H.
  cbn [app] in H. rewrite <- !app_assoc in H. exact H.
Qed.

End DateNotations.


Section DateForms.
Context {U : UnicodeData} {D : DigitData} {L : LatinFacts U} {F : DateFacts U D}.

Local Abbreviation decimals := (Forall (fun c : char => isdecimal c = true)).
Local Abbreviation letters := (Forall (fun c : char => ascii_letter c = true)).
Local Abbreviation spaces := (Forall (fun c : char => isspace c = true)).
Local Abbreviation plain := (Forall (fun c : char => isspace c = false)).

Lemma run_length_exact (cls : char -> bool) (t rest : pystr) (c : char) :
  Forall (fun x => cls x = true) t -> cls c = false ->
  run_length cls (t ++ c :: rest) = length t.
Proof. intros Ht Hc. rewrite run_length_app by done. rewrite run_length_stop by done. lia. Qed.

Lemma rmatch_Group_Rep_short {A} (cls : char -> bool) (lo : nat) (hi : option nat)
    (greedy : bool) (st : mstate) (k : mstate -> option A) :
  run_length cls (m_rest st) < lo -> rmatch (Group (Rep cls lo hi greedy)) st k = None.
Proof. intros H. rewrite rmatch_Group. by apply rmatch_Rep_short. Qed.

(** The marks between the numbers of a date are ASCII and no digits,
    letters or white space. *)
Lemma mark_facts (c : char) :
  c ∈ lit "./-" ->
  isdecimal c = false /\ isspace c = false /\ ascii_letter c = false /\ c <> COMMA.
Proof.
  intros H. assert (Hc : c = 46%N \/ c = 47%N \/ c = 45%N).
  { apply elem_of_cons in H as [->|H]; [by left |].
    apply elem_of_cons in H as [->|H]; [by right; left |].
    apply list_elem_of_singleton in H as ->. by right; right. }
  destruct Hc as [-> | [-> | ->]];
    (split; [by rewrite ascii_isdecimal |]); (split; [by rewrite ascii_isspace |]); done.
Qed.

Lemma iso_mark (c : char) : c ∈ lit "-/" -> c ∈ lit "./-".
Proof.
  intros H. apply elem_of_cons in H as [->|H]; [by right; right; left |].
  apply list_elem_of_singleton in H as ->. by right; left.
Qed.

Lemma among_elem (l : pystr) (c : char) : c ∈ l -> among l c = true.
Proof. intros H. by apply bool_decide_eq_true. Qed.

Lemma digit_not_among (l : pystr) (c : char) :
  Forall (fun x => (x < 128)%N /\ ascii_digit x = false) l ->
  ascii_digit c = true -> among l c = false.
Proof. intros Hl Hc. apply decimal_not_among; [done | by apply ascii_digit_decimal]. Qed.

(** *** Year, month and day in numbers *)

Lemma iso_pattern_numbers (y m d : pystr) (c1 c2 : char) :
  digits y -> digits m -> digits d -> length y = 4 -> 1 <= length m <= 2 ->
  1 <= length d <= 2 -> c1 ∈ lit "-/" -> c2 ∈ lit "-/" ->
  re_match iso_pattern (y ++ [c1] ++ m ++ [c2] ++ d) = Some [y; m; d].
Proof.
  intros Hy Hm Hd Hly Hlm Hld Hc1 Hc2.
  destruct y as [|a y]; [done |]. destruct m as [|b m]; [cbn in Hlm; lia |].
  destruct d as [|c d]; [cbn in Hld; lia |].
  pose proof (Forall_inv Hy) as Ha. pose proof (Forall_inv Hm) as Hb.
  pose proof (Forall_inv Hd) as Hc. cbn beta in Ha, Hb, Hc.
  assert (Hp : forall x, ascii_digit x = true -> among (lit "-/") x = false).
  { intros x Hx. apply digit_not_among; [by repeat constructor | done]. }
  destruct (mark_facts c1 (iso_mark c1 Hc1)) as (Hd1 & _).
  destruct (mark_facts c2 (iso_mark c2 Hc2)) as (Hd2 & _).
  unfold re_match, iso_pattern, seq_of, star, counted, one. cbn [fold_right].
  rewrite rmatch_Seq, rmatch_Bol, rmatch_Seq, rmatch_Rep_zero
    by (cbn [m_rest app run_length]; by rewrite digit_not_space).
  rewrite rmatch_Seq.
  take_run (a :: y) ([c1] ++ (b :: m) ++ [c2] ++ c :: d);
    [by apply digits_decimals | lia | intros ? [= <-]; lia | exact Hd1 |].
  rewrite rmatch_Seq.
  take_run [c1] ((b :: m) ++ [c2] ++ c :: d);
    [by repeat constructor; apply among_elem | cbn; lia | intros ? [= <-]; cbn; lia
     | by apply Hp |].
  rewrite rmatch_Seq.
  take_run (b :: m) ([c2] ++ c :: d);
    [by apply digits_decimals | lia | intros ? [= <-]; lia | exact Hd2 |].
  rewrite rmatch_Seq.
  take_run [c2] (c :: d);
    [by repeat constructor; apply among_elem | cbn; lia | intros ? [= <-]; cbn; lia
     | by apply Hp |].
  rewrite rmatch_Seq.
  rewrite <- (app_nil_r (c :: d)) at 1.
  take_run (c :: d) (@nil char);
    [by apply digits_decimals | lia | intros ? [= <-]; lia | done |].
  rewrite rmatch_Seq, rmatch_Rep_zero by done.
  rewrite rmatch_Seq, rmatch_Eol, rmatch_Eps. done.
Qed.

Lemma numeric_pattern_numbers (d m y : pystr) (c1 c2 : char) :
  digits d -> digits m -> digits y -> 1 <= length d <= 2 -> 1 <= length m <= 2 ->
  length y = 4 -> c1 ∈ lit "./-" -> c2 ∈ lit "./-" ->
  re_match numeric_pattern (d ++ [c1] ++ m ++ [c2] ++ y) = Some [d; m; y].
Proof.
  intros Hd Hm Hy Hld Hlm Hly Hc1 Hc2.
  destruct y as [|a y]; [done |]. destruct m as [|b m]; [cbn in Hlm; lia |].
  destruct d as [|c d]; [cbn in Hld; lia |].
  pose proof (Forall_inv Hy) as Ha. pose proof (Forall_inv Hm) as Hb. cbn beta in Ha, Hb.
  assert (Hp : forall x, ascii_digit x = true -> among (lit "./-") x = false).
  { intros x Hx. apply digit_not_among; [by repeat constructor | done]. }
  destruct (mark_facts c1 Hc1) as (Hd1 & _). destruct (mark_facts c2 Hc2) as (Hd2 & _).
  unfold re_match, numeric_pattern, seq_of, counted, one. cbn [fold_right].
  rewrite rmatch_Seq, rmatch_Bol, rmatch_Seq.
  take_run (c :: d) ([c1] ++ (b :: m) ++ [c2] ++ a :: y);
    [by apply digits_decimals | lia | intros ? [= <-]; lia | exact Hd1 |].
  rewrite rmatch_Seq.
  take_run [c1] ((b :: m) ++ [c2] ++ a :: y);
    [by repeat constructor; apply among_elem | cbn; lia | intros ? [= <-]; cbn; lia
     | by apply Hp |].
  rewrite rmatch_Seq.
  take_run (b :: m) ([c2] ++ a :: y);
    [by apply digits_decimals | lia | intros ? [= <-]; lia | exact Hd2 |].
  rewrite rmatch_Seq.
  take_run [c2] (a :: y);
    [by repeat constructor; apply among_elem | cbn; lia | intros ? [= <-]; cbn; lia
     | by apply Hp |].
  rewrite rmatch_Seq.
  rewrite <- (app_nil_r (a :: y)) at 1.
  take_run (a :: y) (@nil char);
    [by apply digits_decimals | lia | intros ? [= <-]; lia | done |].
  rewrite rmatch_Seq, rmatch_Eol, rmatch_Eps. done.
Qed.

(** Text that starts with one or two digits and a mark or a space is no
    ISO date, and a word does not start it. *)
Lemma iso_pattern_short (d rest : pystr) (c : char) :
  decimals d -> length d <= 2 -> isdecimal c = false ->
  match d with [] => isspace c = false | _ => True end ->
  re_match iso_pattern (d ++ c :: rest) = None.
Proof.
  intros Hd Hld Hc Hsp.
  unfold re_match, iso_pattern, seq_of, star, counted, one. cbn [fold_right].
  rewrite rmatch_Seq, rmatch_Bol, rmatch_Seq, rmatch_Rep_zero.
  - rewrite rmatch_Seq. apply rmatch_Group_Rep_short. cbn [m_rest].
    rewrite run_length_exact by done. lia.
  - cbn [m_rest]. destruct d as [|a d]; cbn [app].
    + by apply run_length_stop.
    + apply run_length_stop. apply decimal_not_space. by apply Forall_inv in Hd.
Qed.

Lemma year_pattern_short (d rest : pystr) (c : char) :
  decimals d -> length d <= 2 -> isdecimal c = false ->
  re_match year_pattern (d ++ c :: rest) = None.
Proof.
  intros Hd Hld Hc.
  unfold re_match, year_pattern, seq_of, counted. cbn [fold_right].
  rewrite rmatch_Seq, rmatch_Bol, rmatch_Seq. apply rmatch_Rep_short. cbn [m_rest].
  rewrite run_length_exact by done. lia.
Qed.

Lemma month_day_year_pattern_digit (s : pystr) (c : char) :
  ascii_letter c = false -> re_match month_day_year_pattern (c :: s) = None.
Proof.
  intros Hc.
  unfold re_match, month_day_year_pattern, seq_of, plus, counted. cbn [fold_right].
  rewrite rmatch_Seq, rmatch_Bol, rmatch_Seq. apply rmatch_Group_Rep_short. cbn [m_rest].
  rewrite run_length_stop by done. lia.
Qed.

Lemma day_month_year_pattern_letter (s : pystr) (c : char) :
  isdecimal c = false -> re_match day_month_year_pattern (c :: s) = None.
Proof.
  intros Hc.
  unfold re_match, day_month_year_pattern, seq_of, plus, counted. cbn [fold_right].
  rewrite rmatch_Seq, rmatch_Bol, rmatch_Seq. apply rmatch_Group_Rep_short. cbn [m_rest].
  rewrite run_length_stop by done. lia.
Qed.

Lemma numeric_pattern_letter (s : pystr) (c : char) :
  isdecimal c = false -> re_match numeric_pattern (c :: s) = None.
Proof.
  intros Hc.
  unfold re_match, numeric_pattern, seq_of, plus, counted. cbn [fold_right].
  rewrite rmatch_Seq, rmatch_Bol, rmatch_Seq. apply rmatch_Group_Rep_short. cbn [m_rest].
  rewrite run_length_stop by done. lia.
Qed.

(** After the day comes white space in the one pattern, a mark in the
    other. *)
Lemma day_month_year_pattern_mark (d rest : pystr) (c : char) :
  decimals d -> isdecimal c = false -> isspace c = false ->
  re_match day_month_year_pattern (d ++ c :: rest) = None.
Proof.
  intros Hd Hc Hsp. apply re_match_none. intros gs H.
  apply day_month_year_pattern_match in H
    as (d' & sp & mon & sp' & y & e & Hs & _ & Hd' & _ & Hsp' & Hlsp & _).
  destruct sp as [|w sp]; [cbn in Hlsp; lia |]. apply Forall_inv in Hsp'. cbn beta in Hsp'.
  cbn [app] in Hs.
  destruct (run_split isdecimal d d' rest (sp ++ mon ++ sp' ++ y ++ e) c w)
    as (_ & -> & _); try done; [by apply space_not_decimal | congruence].
Qed.

Lemma numeric_pattern_space (d rest : pystr) :
  decimals d -> re_match numeric_pattern (d ++ SPACE :: rest) = None.
Proof.
  intros Hd. apply re_match_none. intros gs H.
  apply numeric_pattern_match in H
    as (d' & c1 & mo & c2 & y & e & Hs & _ & Hd' & _ & Hc1 & _).
  destruct (mark_facts c1 Hc1) as (Hn & _).
  cbn [app] in Hs.
  destruct (run_split isdecimal d d' rest (mo ++ c2 :: y ++ e) SPACE c1)
    as (_ & <- & _); try done; [apply space_not_decimal, space_char |].
  revert Hc1. clear. intros H. repeat (apply elem_of_cons in H as [H|H]; [done |]).
  by apply elem_of_nil in H.
Qed.

(** *** Day, month name and year *)

Lemma day_month_year_pattern_words (d mon y : pystr) :
  digits d -> 1 <= length d <= 2 -> letters mon -> mon <> [] -> digits y -> length y = 4 ->
  re_match day_month_year_pattern (d ++ [SPACE] ++ mon ++ [SPACE] ++ y) = Some [d; mon; y].
Proof.
  intros Hd Hld Hm Hnm Hy Hly.
  destruct y as [|a y]; [done |]. destruct mon as [|b mon]; [done |].
  pose proof (Forall_inv Hy) as Ha. pose proof (Forall_inv Hm) as Hb. cbn beta in Ha, Hb.
  assert (Hsd : isdecimal SPACE = false) by apply space_not_decimal, space_char.
  assert (Hss : spaces [SPACE]) by (repeat constructor; apply space_char).
  unfold re_match, day_month_year_pattern, seq_of, plus, counted. cbn [fold_right].
  rewrite rmatch_Seq, rmatch_Bol, rmatch_Seq.
  take_run d ([SPACE] ++ (b :: mon) ++ [SPACE] ++ a :: y);
    [by apply digits_decimals | lia | intros ? [= <-]; lia | exact Hsd |].
  rewrite rmatch_Seq.
  take_run [SPACE] ((b :: mon) ++ [SPACE] ++ a :: y);
    [done | cbn; lia | done | by apply letter_not_space |].
  rewrite rmatch_Seq.
  take_run (b :: mon) ([SPACE] ++ a :: y); [done | cbn; lia | done | done |].
  rewrite rmatch_Seq.
  take_run [SPACE] (a :: y); [done | cbn; lia | done | by apply digit_not_space |].
  rewrite rmatch_Seq.
  rewrite <- (app_nil_r (a :: y)) at 1.
  take_run (a :: y) (@nil char);
    [by apply digits_decimals | lia | intros ? [= <-]; lia | done |].
  rewrite rmatch_Seq, rmatch_Eol, rmatch_Eps. done.
Qed.

Lemma month_day_year_pattern_words (d mon y : pystr) :
  digits d -> 1 <= length d <= 2 -> letters mon -> mon <> [] -> digits y -> length y = 4 ->
  re_match month_day_year_pattern (mon ++ [SPACE] ++ d ++ [SPACE] ++ y) = Some [mon; d; y].
Proof.
  intros Hd Hld Hm Hnm Hy Hly.
  destruct y as [|a y]; [done |]. destruct d as [|b d]; [cbn in Hld; lia |].
  pose proof (Forall_inv Hy) as Ha. pose proof (Forall_inv Hd) as Hb. cbn beta in Ha, Hb.
  assert (Hsd : isdecimal SPACE = false) by apply space_not_decimal, space_char.
  assert (Hss : spaces [SPACE]) by (repeat constructor; apply space_char).
  unfold re_match, month_day_year_pattern, seq_of, plus, counted. cbn [fold_right].
  rewrite rmatch_Seq, rmatch_Bol, rmatch_Seq.
  take_run mon ([SPACE] ++ (b :: d) ++ [SPACE] ++ a :: y);
    [done | destruct mon; [done | cbn; lia] | done | done |].
  rewrite rmatch_Seq.
  take_run [SPACE] ((b :: d) ++ [SPACE] ++ a :: y);
    [done | cbn; lia | done | by apply digit_not_space |].
  rewrite rmatch_Seq.
  take_run (b :: d) ([SPACE] ++ a :: y);
    [by apply digits_decimals | lia | intros ? [= <-]; lia | exact Hsd |].
  rewrite rmatch_Seq.
  take_run [SPACE] (a :: y); [done | cbn; lia | done | by apply digit_not_space |].
  rewrite rmatch_Seq.
  rewrite <- (app_nil_r (a :: y)) at 1.
  take_run (a :: y) (@nil char);
    [by apply digits_decimals | lia | intros ? [= <-]; lia | done |].
  rewrite rmatch_Seq, rmatch_Eol, rmatch_Eps. done.
Qed.

(** The month of a name is the month of its first three letters. *)
Lemma table_get_pair (t : list (pystr * pystr)) (k v : pystr) :
  table_get t k = Some v -> (k, v) ∈ t.
Proof.
  induction t as [|[k' v'] t IH]; [done |]. cbn [table_get].
  unfold pystr_eqb. destruct (bool_decide_reflect (k' = k)) as [-> |].
  - intros [= ->]. by left.
  - intros H. right. by apply IH.
Qed.

Lemma month_number_prefix (m : pystr) :
  month_number m = table_get MONTHS_ABBR (take 3 m).
Proof.
  assert (Hf : Forall (fun kv => table_get MONTHS_ABBR (take 3 kv.1) = Some kv.2 /\
                                 text_truthy (Some kv.2) = true) MONTHS_FULL).
  { repeat (constructor; [by vm_compute |]). constructor. }
  rewrite Forall_forall in Hf.
  unfold month_number, text_or.
  destruct (table_get MONTHS_FULL m) as [v|] eqn:E; [| done].
  apply table_get_pair in E. destruct (Hf _ E) as [H1 H2]. cbn [fst snd] in H1, H2.
  by rewrite H2, H1.
Qed.

Lemma month_number_truthy (m v : pystr) :
  month_number m = Some v -> text_truthy (Some v) = true.
Proof.
  intros H. destruct (month_number_digits m v H) as [_ Hl]. by destruct v.
Qed.

Lemma lower_letters (mon : pystr) : letters mon -> lower mon = List.map ascii_lower_of mon.
Proof.
  intros H. apply lower_ascii; [apply ascii_tolower |].
  eapply Forall_impl; [exact H |]. apply letter_ascii.
Qed.

Lemma iso_date_digits (y m d : pystr) :
  digits y -> length y = 4 -> digits m -> 1 <= length m <= 2 -> digits d ->
  1 <= length d <= 2 ->
  iso_date y m d = y ++ [HYPHEN] ++ zfill2 m ++ [HYPHEN] ++ zfill2 d.
Proof.
  intros Hy Hly Hm Hlm Hd Hld. unfold iso_date, zfill2.
  rewrite !format_0d_int by (try done; lia). by rewrite Hly.
Qed.

Lemma named_month_date_prefix (d mon y : pystr) :
  digits d -> 1 <= length d <= 2 -> letters mon -> digits y -> length y = 4 ->
  named_month_date d mon y =
  match table_get MONTHS_ABBR (take 3 (List.map ascii_lower_of mon)) with
  | Some m => Some (y ++ [HYPHEN] ++ m ++ [HYPHEN] ++ zfill2 d)
  | None => None
  end.
Proof.
  intros Hd Hld Hm Hy Hly. unfold named_month_date.
  rewrite lower_letters by done.
  destruct (month_number (List.map ascii_lower_of mon)) as [m|] eqn:E.
  - rewrite (month_number_truthy _ _ E). rewrite month_number_prefix in E. rewrite E.
    change (default [] (Some m)) with m. rewrite <- month_number_prefix in E.
    destruct (month_number_digits _ _ E) as [Hv Hlv].
    rewrite iso_date_digits by (try done; lia).
    unfold zfill2 at 1. by rewrite Hlv.
  - rewrite month_number_prefix in E. by rewrite E.
Qed.

End DateForms.


Section TryParseProperties.
Context {U : UnicodeData} {D : DigitData} {L : LatinFacts U} {F : DateFacts U D}.

Local Abbreviation letters := (Forall (fun c : char => ascii_letter c = true)).

Lemma try_parse_cleaned (part s : pystr) :
  strip part <> [] ->
  strip (sub_spaces (replace_char COMMA SPACE (strip part))) = s ->
  try_parse_day_month_year part =
  match re_match iso_pattern s with
  | Some [y; mo; d] => Some (iso_date y mo d)
  | _ =>
    match (match re_match day_month_year_pattern s with
           | Some [d; mon; y] => named_month_date d mon y
           | _ => None
           end) with
    | Some r => Some r
    | None =>
      match (match re_match month_day_year_pattern s with
             | Some [mon; d; y] => named_month_date d mon y
             | _ => None
             end) with
      | Some r => Some r
      | None =>
        match re_match numeric_pattern s with
        | Some [d; mo; y] => Some (iso_date y mo d)
        | _ =>
          match re_match year_pattern s with
          | Some _ => Some s
          | None => None
          end
        end
      end
    end
  end.
Proof.
  intros Hne <-. unfold try_parse_day_month_year.
  assert (H1 : pystr_eqb (strip part) [] = false) by (by apply bool_decide_eq_false).
  assert (H2 : pystr_eqb part [] = false).
  { apply bool_decide_eq_false. intros ->. by apply Hne. }
  by rewrite H1, H2.
Qed.

Lemma digits_plain (s : pystr) :
  digits s -> Forall (fun c => isspace c = false) s /\ Forall (fun c => c <> COMMA) s.
Proof.
  intros H. split; [by apply digits_no_space |].
  eapply Forall_impl; [exact H |]. intros c Hc. apply decimal_not_comma.
  by apply ascii_digit_decimal.
Qed.

Lemma letters_plain (s : pystr) :
  letters s -> Forall (fun c => isspace c = false) s /\ Forall (fun c => c <> COMMA) s.
Proof.
  intros H. split; (eapply Forall_impl; [exact H |]); intros c Hc; cbn beta in *.
  - by apply letter_not_space.
  - by intros ->.
Qed.

Lemma numbers_plain (x y z : pystr) (c1 c2 : char) :
  digits x -> digits y -> digits z -> x <> [] -> c1 ∈ lit "./-" -> c2 ∈ lit "./-" ->
  let part := x ++ [c1] ++ y ++ [c2] ++ z in
  strip part <> [] /\ strip (sub_spaces (replace_char COMMA SPACE (strip part))) = part.
Proof.
  intros Hx Hy Hz Hnx Hc1 Hc2 part.
  destruct (digits_plain x Hx) as [Hx1 Hx2]. destruct (digits_plain y Hy) as [Hy1 Hy2].
  destruct (digits_plain z Hz) as [Hz1 Hz2].
  destruct (mark_facts c1 Hc1) as (_ & Hs1 & _ & Hn1).
  destruct (mark_facts c2 Hc2) as (_ & Hs2 & _ & Hn2).
  assert (Hp1 : Forall (fun c => isspace c = false) part).
  { subst part. repeat (apply Forall_app; split); auto. }
  assert (Hp2 : Forall (fun c => c <> COMMA) part).
  { subst part. repeat (apply Forall_app; split); auto. }
  split; [| by apply cleaned_plain].
  rewrite strip_plain by done. subst part. by destruct x.
Qed.

(** X20: every result of [try_parse_day_month_year] is a date
    [YYYY-MM-DD] of ASCII digits or a year of four decimal digits, and
    parses to itself. *)
Theorem try_parse_result_fixed (part r : pystr) :
  try_parse_day_month_year part = Some r ->
  (iso_text r \/ (length r = 4 /\ Forall (fun c => isdecimal c = true) r)) /\
  try_parse_day_month_year r = Some r.
Proof.
  intros H. pose proof (try_parse_shape part r H) as Hs. split; [done |].
  destruct Hs as [Hs | [Hl Hd]]; [by apply try_parse_iso_text | by apply try_parse_year].
Qed.

(** X21: a date in numbers is put in the order year, month, day with
    two-digit month and day, whatever the numbers are: no day or month
    is refused. *)
Theorem try_parse_numbers_unchecked (d m y : pystr) (c1 c2 : char) :
  digits d -> 1 <= length d <= 2 -> digits m -> 1 <= length m <= 2 ->
  digits y -> length y = 4 ->
  (c1 ∈ lit "-/" -> c2 ∈ lit "-/" ->
   try_parse_day_month_year (y ++ [c1] ++ m ++ [c2] ++ d) =
   Some (y ++ [HYPHEN] ++ zfill2 m ++ [HYPHEN] ++ zfill2 d)) /\
  (c1 ∈ lit "./-" -> c2 ∈ lit "./-" ->
   try_parse_day_month_year (d ++ [c1] ++ m ++ [c2] ++ y) =
   Some (y ++ [HYPHEN] ++ zfill2 m ++ [HYPHEN] ++ zfill2 d)).
Proof.
  intros Hd Hld Hm Hlm Hy Hly. split; intros Hc1 Hc2.
  - destruct (numbers_plain y m d c1 c2) as [Hne Hcl];
      [done | done | done | by destruct y | by apply iso_mark | by apply iso_mark |].
    rewrite (try_parse_cleaned _ _ Hne Hcl).
    rewrite iso_pattern_numbers by done. by rewrite iso_date_digits.
  - destruct (numbers_plain d m y c1 c2) as [Hne Hcl];
      [done | done | done | destruct d; [cbn in Hld; lia | done] | done | done |].
    rewrite (try_parse_cleaned _ _ Hne Hcl).
    destruct (mark_facts c1 Hc1) as (Hn1 & Hs1 & _).
    cbn [app].
    rewrite iso_pattern_short;
      [| by apply digits_decimals | lia | done | by destruct d].
    rewrite day_month_year_pattern_mark; [| by apply digits_decimals | done | done].
    destruct d as [|a d]; [cbn in Hld; lia |]. cbn [app].
    rewrite month_day_year_pattern_digit.
    2:{ apply decimal_not_letter, ascii_digit_decimal. by apply Forall_inv in Hd. }
    change (a :: d ++ c1 :: m ++ c2 :: y) with ((a :: d) ++ [c1] ++ m ++ [c2] ++ y).
    rewrite numeric_pattern_numbers by done. by rewrite iso_date_digits.
Qed.

(** X22: in a date with a month name, the month is read off the first
    three letters of the name, in either letter case; commas and
    repeated white space between the parts do not matter. *)
Theorem try_parse_month_names (d mon y sep1 sep2 : pystr) :
  digits d -> 1 <= length d <= 2 -> letters mon -> mon <> [] ->
  digits y -> length y = 4 ->
  Forall (fun c => isspace c = true \/ c = COMMA) sep1 -> sep1 <> [] ->
  Forall (fun c => isspace c = true \/ c = COMMA) sep2 -> sep2 <> [] ->
  let result :=
    match table_get MONTHS_ABBR (take 3 (List.map ascii_lower_of mon)) with
    | Some m => Some (y ++ [HYPHEN] ++ m ++ [HYPHEN] ++ zfill2 d)
    | None => None
    end in
  try_parse_day_month_year (d ++ sep1 ++ mon ++ sep2 ++ y) = result /\
  try_parse_day_month_year (mon ++ sep1 ++ d ++ sep2 ++ y) = result.
Proof.
  intros Hd Hld Hm Hnm Hy Hly Hs1 Hn1 Hs2 Hn2. cbv zeta.
  pose proof (named_month_date_prefix d mon y Hd Hld Hm Hy Hly) as Hmonth.
  destruct (digits_plain d Hd) as [Hd1 Hd2]. destruct (digits_plain y Hy) as [Hy1 Hy2].
  destruct (letters_plain mon Hm) as [Hm1 Hm2].
  assert (Hnd : d <> []) by (destruct d; [cbn in Hld; lia | done]).
  assert (Hny : y <> []) by (by destruct y).
  assert (Hsd : isdecimal SPACE = false) by apply space_not_decimal, space_char.
  split.
  - destruct (cleaned_words d mon y sep1 sep2) as [Hne Hcl]; try done.
    rewrite (try_parse_cleaned _ _ Hne Hcl). cbn [app].
    rewrite iso_pattern_short; [| by apply digits_decimals | lia | done | by destruct d].
    change (d ++ SPACE :: mon ++ SPACE :: y) with (d ++ [SPACE] ++ mon ++ [SPACE] ++ y).
    rewrite day_month_year_pattern_words by done.
    rewrite Hmonth.
    destruct (table_get MONTHS_ABBR (take 3 (List.map ascii_lower_of mon))) as [mo|]; [done |]. cbn [app].
    rewrite numeric_pattern_space by (by apply digits_decimals).
    rewrite year_pattern_short; [| by apply digits_decimals | lia | done].
    destruct d as [|a d]; [done |]. cbn [app].
    rewrite month_day_year_pattern_digit; [done |].
    apply decimal_not_letter, ascii_digit_decimal. by apply Forall_inv in Hd.
  - destruct (cleaned_words mon d y sep1 sep2) as [Hne Hcl]; try done.
    rewrite (try_parse_cleaned _ _ Hne Hcl).
    rewrite month_day_year_pattern_words by done.
    destruct mon as [|b mon]; [done |]. cbn [app].
    assert (Hb : isdecimal b = false).
    { apply letter_not_decimal. by apply Forall_inv in Hm. }
    assert (Hiso : forall rest, re_match iso_pattern (b :: rest) = None).
    { intros rest. apply (iso_pattern_short [] rest b); [done | cbn; lia | done |].
      apply letter_not_space. by apply Forall_inv in Hm. }
    assert (Hyear : forall rest, re_match year_pattern (b :: rest) = None).
    { intros rest. apply (year_pattern_short [] rest b); [done | cbn; lia | done]. }
    rewrite Hiso, day_month_year_pattern_letter by done.
    rewrite Hmonth.
    destruct (table_get MONTHS_ABBR (take 3 (List.map ascii_lower_of (b :: mon)))) as [mo|];
      [done |].
    by rewrite numeric_pattern_letter, Hyear by done.
Qed.

End TryParseProperties.

Lemma try_parse_result_fixed_witness :
  @try_parse_day_month_year fragment ascii_digits (lit " 5 March, 2012 ") =
    Some (lit "2012-03-05") /\
  @try_parse_day_month_year fragment ascii_digits (lit "2012-03-05") =
    Some (lit "2012-03-05").
Proof.
  assert (H : @try_parse_day_month_year fragment ascii_digits (lit " 5 March, 2012 ") =
              Some (lit "2012-03-05")) by (vm_compute; reflexivity).
  exact (conj H (proj2 (@try_parse_result_fixed fragment ascii_digits fragment_latin
                          fragment_date_facts _ _ H))).
Defined.

Lemma try_parse_numbers_unchecked_witness :
  @try_parse_day_month_year fragment ascii_digits (lit "31.02.2020") =
    Some (lit "2020-02-31") /\
  @try_parse_day_month_year fragment ascii_digits (lit "2020/2/31") =
    Some (lit "2020-02-31").
Proof.
  assert (Hd : digits (lit "31")) by (repeat constructor).
  assert (Hm : digits (lit "02")) by (repeat constructor).
  assert (Hm' : digits (lit "2")) by (repeat constructor).
  assert (Hy : digits (lit "2020")) by (repeat constructor).
  assert (Hdot : 46%N ∈ lit "./-") by (by left).
  assert (Hsl : 47%N ∈ lit "-/") by (by right; left).
  split.
  - exact (proj2 (@try_parse_numbers_unchecked fragment ascii_digits fragment_latin
                    fragment_date_facts (lit "31") (lit "02") (lit "2020") 46%N 46%N
                    Hd (conj (le_S _ _ (le_n 1)) (le_n 2)) Hm (conj (le_S _ _ (le_n 1)) (le_n 2))
                    Hy eq_refl) Hdot Hdot).
  - exact (proj1 (@try_parse_numbers_unchecked fragment ascii_digits fragment_latin
                    fragment_date_facts (lit "31") (lit "2") (lit "2020") 47%N 47%N
                    Hd (conj (le_S _ _ (le_n 1)) (le_n 2)) Hm' (conj (le_n 1) (le_S _ _ (le_n 1)))
                    Hy eq_refl) Hsl Hsl).
Defined.

Lemma try_parse_month_names_witness :
  @try_parse_day_month_year fragment ascii_digits (lit "7 Marble, 1999") =
    Some (lit "1999-03-07") /\
  @try_parse_day_month_year fragment ascii_digits (lit "Marble, 7 1999") =
    Some (lit "1999-03-07").
Proof.
  assert (Hd : digits (lit "7")) by (repeat constructor).
  assert (Hm : Forall (fun c : char => ascii_letter c = true) (lit "Marble"))
    by (repeat constructor).
  assert (Hy : digits (lit "1999")) by (repeat constructor).
  assert (H1 : Forall (fun c => @isspace fragment c = true \/ c = COMMA) (lit ", "))
    by (constructor; [by right | constructor; [by left | constructor]]).
  assert (H2 : Forall (fun c => @isspace fragment c = true \/ c = COMMA) (lit " "))
    by (constructor; [by left | constructor]).
  split.
  - exact (proj1 (@try_parse_month_names fragment ascii_digits fragment_latin
                    fragment_date_facts (lit "7") (lit "Marble") (lit "1999") (lit " ") (lit ", ")
                    Hd (conj (le_n 1) (le_S _ _ (le_n 1))) Hm
                    ltac:(discriminate) Hy eq_refl H2 ltac:(discriminate)
                    H1 ltac:(discriminate))).
  - exact (proj2 (@try_parse_month_names fragment ascii_digits fragment_latin
                    fragment_date_facts (lit "7") (lit "Marble") (lit "1999") (lit ", ") (lit " ")
                    Hd (conj (le_n 1) (le_S _ _ (le_n 1))) Hm
                    ltac:(discriminate) Hy eq_refl H1 ltac:(discriminate)
                    H2 ltac:(discriminate))).
Defined.


(** ** [normalize_years_field] *)

Section YearRanges.
Context {U : UnicodeData} {D : DigitData} {L : LatinFacts U} {F : DateFacts U D}.

Local Abbreviation spaces := (Forall (fun c : char => isspace c = true)).
Local Abbreviation is_dash := (among [EN_DASH; EM_DASH; HYPHEN]).

Lemma rmatch_Alt_l {A} (r1 r2 : regex) (st : mstate) (k : mstate -> option A) (x : A) :
  rmatch r1 st k = Some x -> rmatch (Alt r1 r2) st k = Some x.
Proof. intros H. cbn [rmatch]. by rewrite H. Qed.

Lemma rmatch_Alt_r {A} (r1 r2 : regex) (st : mstate) (k : mstate -> option A) :
  rmatch r1 st k = None -> rmatch (Alt r1 r2) st k = rmatch r2 st k.
Proof. intros H. cbn [rmatch]. by rewrite H. Qed.

Lemma rmatch_one {A} (cls : char -> bool) (p : option char) (c : char) (rest : pystr)
    (gs : list pystr) (k : mstate -> option A) :
  cls c = true ->
  rmatch (Rep cls 1 (Some 1) true) {| m_prev := p; m_rest := c :: rest; m_groups := gs |} k =
  k {| m_prev := Some c; m_rest := rest; m_groups := gs |}.
Proof.
  intros Hc. cbn [rmatch m_rest run_length]. rewrite Hc.
  change (Nat.min 1 (S (run_length cls rest))) with 1. cbn.
  by destruct (k _).
Qed.

(** The search passes over text in which no match starts. *)
Lemma search_from_pass (r : regex) (x rest : pystr) (p : option char) :
  (forall c q tl, c ∈ x ->
     rmatch r {| m_prev := q; m_rest := c :: tl; m_groups := [] |} Some = None) ->
  search_from r p (x ++ rest) =
  match search_from r (match last x with Some c => Some c | None => p end) rest with
  | Some (skipped, st) => Some (x ++ skipped, st)
  | None => None
  end.
Proof.
  revert p. induction x as [|c x IH]; intros p H.
  - cbn [app last]. by destruct (search_from r p rest) as [[? ?]|].
  - cbn [app]. rewrite search_from_skip by (apply H; by left).
    rewrite IH by (intros; apply H; by right).
    replace (match last x with Some c0 => Some c0 | None => Some c end)
      with (match last (c :: x) with Some c0 => Some c0 | None => p end).
    + by destruct (search_from r _ rest) as [[? ?]|].
    + destruct x as [|d x]; [done |]. rewrite last_cons_cons.
      destruct (last (d :: x)) eqn:E; [done |]. by apply last_None in E.
Qed.

Lemma dash_facts (c : char) :
  c ∈ [EN_DASH; EM_DASH; HYPHEN] -> isspace c = false /\ c <> NBSP /\ is_dash c = true.
Proof.
  intros H. split; [| split; [| by apply among_elem]].
  - destruct dash_not_space as [H1 H2].
    repeat (apply elem_of_cons in H as [->|H]; [done || apply hyphen_not_space |]).
    by apply elem_of_nil in H.
  - repeat (apply elem_of_cons in H as [->|H]; [done |]). by apply elem_of_nil in H.
Qed.

Lemma digit_not_dash (c : char) : ascii_digit c = true -> is_dash c = false.
Proof.
  intros H. apply bool_decide_eq_false. intros Hin. apply ascii_digit_range in H.
  repeat (apply elem_of_cons in Hin as [->|Hin]; [unfold EN_DASH, EM_DASH, HYPHEN in H; lia |]).
  by apply elem_of_nil in Hin.
Qed.

(** No separator starts at a character that is neither white space nor
    a dash, or at the end of the text. *)
Lemma range_pattern_no_start (c : char) (p : option char) (tl : pystr) :
  isspace c = false -> is_dash c = false ->
  rmatch range_pattern {| m_prev := p; m_rest := c :: tl; m_groups := [] |} Some = None.
Proof.
  intros Hs Hd. unfold range_pattern, seq_of, star, plus, one. cbn [fold_right].
  rewrite rmatch_Alt_r.
  - rewrite rmatch_Seq. apply rmatch_Rep_short. cbn [m_rest]. rewrite run_length_stop by done. lia.
  - rewrite rmatch_Seq, rmatch_Rep_zero by (by apply run_length_stop).
    rewrite rmatch_Seq. apply rmatch_Rep_short. cbn [m_rest].
    rewrite run_length_stop by done. lia.
Qed.

Lemma range_pattern_end (p : option char) :
  rmatch range_pattern {| m_prev := p; m_rest := []; m_groups := [] |} Some = None.
Proof. done. Qed.

Lemma search_from_digits (y : pystr) (p : option char) :
  digits y -> search_from range_pattern p y = None.
Proof.
  intros Hy. rewrite <- (app_nil_r y).
  rewrite search_from_pass.
  - cbn [search_from]. by rewrite range_pattern_end.
  - intros c q tl Hc. unfold digits in Hy. rewrite Forall_forall in Hy.
    apply range_pattern_no_start; [by apply digit_not_space, Hy | by apply digit_not_dash, Hy].
Qed.

(** A dash with white space around it is one separator. *)
Lemma range_pattern_dash (sp1 sp2 rest : pystr) (dash : char) (p : option char) :
  spaces sp1 -> spaces sp2 -> dash ∈ [EN_DASH; EM_DASH; HYPHEN] ->
  match rest with [] => True | c :: _ => isspace c = false end ->
  exists q,
    rmatch range_pattern
      {| m_prev := p; m_rest := sp1 ++ [dash] ++ sp2 ++ rest; m_groups := [] |} Some =
    Some {| m_prev := q; m_rest := rest; m_groups := [] |}.
Proof.
  intros H1 H2 Hd Hrest. destruct (dash_facts dash Hd) as (Hds & _ & Hdd).
  eexists. unfold range_pattern, seq_of, star, plus, one. cbn [fold_right].
  apply rmatch_Alt_l. rewrite rmatch_Seq.
  take_run sp1 ([dash] ++ sp2 ++ rest); [done | lia | done | exact Hds |].
  rewrite rmatch_Seq. cbn [app]. rewrite rmatch_one by done.
  rewrite rmatch_Seq.
  take_run sp2 rest; [done | lia | done | done |].
  rewrite rmatch_Eps. reflexivity.
Qed.

(** The word "to" with white space on both sides is one separator. *)
Lemma range_pattern_to (sp1 sp2 rest : pystr) (p : option char) :
  spaces sp1 -> sp1 <> [] -> spaces sp2 -> sp2 <> [] ->
  match rest with [] => True | c :: _ => isspace c = false end ->
  exists q,
    rmatch range_pattern
      {| m_prev := p; m_rest := sp1 ++ lit "to" ++ sp2 ++ rest; m_groups := [] |} Some =
    Some {| m_prev := q; m_rest := rest; m_groups := [] |}.
Proof.
  intros H1 Hn1 H2 Hn2 Hrest.
  assert (Ht : isspace 116%N = false) by (by rewrite ascii_isspace).
  eexists. unfold range_pattern. rewrite rmatch_Alt_r.
  - unfold literal, plus, one, seq_of. cbn [fold_right List.map lit list_ascii_of_string].
    rewrite rmatch_Seq.
    take_run sp1 (116%N :: 111%N :: sp2 ++ rest);
      [done | destruct sp1; [done | cbn; lia] | done | exact Ht |].
    rewrite rmatch_Seq, rmatch_Seq, rmatch_one by done.
    rewrite rmatch_Seq, rmatch_one by done.
    rewrite rmatch_Eps, rmatch_Seq.
    take_run sp2 rest; [done | destruct sp2; [done | cbn; lia] | done | done |].
    rewrite rmatch_Eps. reflexivity.
  - match goal with |- ?x = None => destruct x as [st|] eqn:E; [exfalso | done] end.
    apply rmatch_sound in E as (st' & H & _).
    unfold seq_of, star, one in H. cbn [fold_right] in H.
    destruct st' as [? ? ?]. invert_matches. tidy_matches.
    match goal with
    | E : sp1 ++ _ = ?t1 ++ (?c :: []) ++ _, Hc : ?c ∈ _, Ht1 : spaces ?t1 |- _ =>
        destruct (dash_facts c Hc) as (Hcs & _);
        cbn [app lit List.map list_ascii_of_string] in E;
        destruct (run_split isspace sp1 t1 _ _ _ c E H1 Ht1 Ht Hcs) as (_ & <- & _);
        revert Hc; clear; intros Hin
    end.
    repeat (apply elem_of_cons in Hin as [Hin|Hin]; [done |]). by apply elem_of_nil in Hin.
Qed.

(** Two runs of digits with one separator between them are two parts. *)
Lemma re_split_range (y1 sep y2 : pystr) :
  digits y1 -> y1 <> [] -> digits y2 ->
  (forall p, exists q,
     rmatch range_pattern {| m_prev := p; m_rest := sep ++ y2; m_groups := [] |} Some =
     Some {| m_prev := q; m_rest := y2; m_groups := [] |}) ->
  re_split range_pattern (y1 ++ sep ++ y2) = [y1; y2].
Proof.
  intros Hy1 Hn1 Hy2 Hsep. unfold re_split.
  destruct (length (y1 ++ sep ++ y2)) as [|n] eqn:El.
  { destruct y1; [done | discriminate]. }
  cbn [split_loop]. rewrite search_from_pass.
  2:{ intros c q tl Hc. unfold digits in Hy1. rewrite Forall_forall in Hy1.
      apply range_pattern_no_start; [by apply digit_not_space, Hy1 | by apply digit_not_dash, Hy1]. }
  destruct (Hsep (match last y1 with Some c => Some c | None => None end)) as [q Hq].
  rewrite (search_from_hit _ _ _ _ Hq). cbn [m_prev m_rest]. rewrite app_nil_r.
  by rewrite search_from_digits.
Qed.

Lemma replace_nbsp_spaces (sp : pystr) : spaces sp -> spaces (replace_char NBSP SPACE sp).
Proof.
  intros H. unfold replace_char. apply Forall_map. eapply Forall_impl; [exact H |].
  intros c Hc. cbn beta in *. destruct (N.eqb_spec c NBSP); [apply space_char | done].
Qed.

Lemma replace_nbsp_digits (y : pystr) : digits y -> replace_char NBSP SPACE y = y.
Proof.
  intros H. apply replace_char_plain. eapply Forall_impl; [exact H |].
  intros c Hc ->. done.
Qed.

Lemma lstrip_spaces (sp rest : pystr) (c : char) :
  spaces sp -> isspace c = false -> lstrip (sp ++ c :: rest) = c :: rest.
Proof.
  intros Hsp Hc. induction Hsp as [|w sp Hw _ IH]; cbn [app lstrip].
  - by rewrite Hc.
  - by rewrite Hw.
Qed.

Lemma strip_trailing (a c : char) (m sp : pystr) :
  isspace a = false -> isspace c = false -> spaces sp ->
  strip (a :: m ++ c :: sp) = a :: m ++ [c].
Proof.
  intros Ha Hc Hsp. unfold strip. rewrite lstrip_fixed by done. unfold rstrip.
  change (a :: m ++ c :: sp) with ((a :: m) ++ [c] ++ sp).
  rewrite !rev_app_distr. cbn [rev app]. rewrite <- app_assoc. cbn [app].
  rewrite lstrip_spaces; [| by apply Forall_rev | done].
  change (c :: rev m ++ [a]) with ([c] ++ rev (a :: m)).
  by rewrite rev_app_distr, rev_involutive.
Qed.

(** The field once its two parts are known. *)
Lemma normalize_years_parts (raw s y1 y2 : pystr) :
  raw <> [] -> replace_char NBSP SPACE (strip raw) = s ->
  re_split range_pattern s = [y1; y2] ->
  digits y1 -> length y1 = 4 -> digits y2 -> length y2 = 4 \/ y2 = [] ->
  normalize_years_field raw = match y2 with [] => y1 | _ => range_text y1 y2 end.
Proof.
  intros Hraw Hs Hsplit Hy1 Hl1 Hy2 Hl2. unfold normalize_years_field.
  assert (Hne : pystr_eqb raw [] = false) by (by apply bool_decide_eq_false).
  rewrite Hne, Hs, Hsplit.
  assert (Hp1 : strip y1 = y1) by (by apply strip_plain, digits_no_space).
  assert (Hp2 : strip y2 = y2) by (by apply strip_plain, digits_no_space).
  assert (Ht1 : try_parse_day_month_year y1 = Some y1).
  { apply try_parse_year; [by apply digits_decimals | done]. }
  assert (Hn1 : pystr_eqb y1 [] = false) by (apply bool_decide_eq_false; by destruct y1).
  cbn [List.filter]. rewrite Hp1, Hp2, Hn1. cbn [negb].
  destruct Hl2 as [Hl2 | ->].
  - assert (Hn2 : pystr_eqb y2 [] = false) by (apply bool_decide_eq_false; by destruct y2).
    assert (Ht2 : try_parse_day_month_year y2 = Some y2).
    { apply try_parse_year; [by apply digits_decimals | done]. }
    rewrite Hn2. cbn [negb List.map]. rewrite Hp1, Hp2, Ht1, Ht2.
    destruct y1 as [|a y1]; [done |]. destruct y2 as [|b y2]; [done |]. done.
  - cbn [List.map]. rewrite Hp1, Ht1. by destruct y1.
Qed.

End YearRanges.

Section YearRangeProperty.
Context {U : UnicodeData} {D : DigitData} {L : LatinFacts U} {F : DateFacts U D}.

Local Abbreviation spaces := (Forall (fun c : char => isspace c = true)).

(** X23: two years with a dash or the word "to" between them are put in
    the form [Y1 – Y2], whatever the dash and the white space around
    it; a year followed by a dash alone loses the dash. *)
Theorem normalize_years_year_range (y1 y2 sp1 sp2 : pystr) (dash : char) :
  digits y1 -> length y1 = 4 -> digits y2 -> length y2 = 4 ->
  spaces sp1 -> spaces sp2 -> dash ∈ [EN_DASH; EM_DASH; HYPHEN] ->
  normalize_years_field (y1 ++ sp1 ++ [dash] ++ sp2 ++ y2) = range_text y1 y2 /\
  normalize_years_field (y1 ++ sp1 ++ [dash] ++ sp2) = y1 /\
  (sp1 <> [] -> sp2 <> [] ->
   normalize_years_field (y1 ++ sp1 ++ lit "to" ++ sp2 ++ y2) = range_text y1 y2).
Proof.
  intros Hy1 Hl1 Hy2 Hl2 Hs1 Hs2 Hd.
  destruct (dash_facts dash Hd) as (Hds & Hdn & _).
  destruct y1 as [|a y1]; [done |]. pose proof (Forall_inv Hy1) as Ha. cbn beta in Ha.
  assert (Hends : forall m, strip ((a :: y1) ++ m ++ y2) = (a :: y1) ++ m ++ y2).
  { intros m. destruct y2 as [|b y2 _] using rev_ind; [done |].
    apply Forall_app in Hy2 as [_ Hb]. apply Forall_inv in Hb.
    replace ((a :: y1) ++ m ++ y2 ++ [b]) with (a :: (y1 ++ m ++ y2) ++ [b])
      by (cbn [app]; by rewrite <- !app_assoc).
    apply strip_ends; by apply digit_not_space. }
  assert (Hhead : match y2 with [] => True | c :: _ => isspace c = false end).
  { destruct y2 as [|b y2]; [done |]. apply digit_not_space. by apply Forall_inv in Hy2. }
  pose proof (replace_nbsp_spaces sp1 Hs1) as Hs1'.
  pose proof (replace_nbsp_spaces sp2 Hs2) as Hs2'.
  assert (Hdash : replace_char NBSP SPACE [dash] = [dash]).
  { apply replace_char_plain. by repeat constructor. }
  assert (Hne : forall sep, sep <> [] -> replace_char NBSP SPACE sep <> []).
  { intros sep Hn E. apply (f_equal (@length char)) in E. unfold replace_char in E.
    rewrite length_map in E. by destruct sep. }
  set (sp1' := replace_char NBSP SPACE sp1) in *.
  set (sp2' := replace_char NBSP SPACE sp2) in *.
  assert (Hraw : forall m, (a :: y1) ++ m <> []) by done.
  split; [| split].
  - assert (Hs : replace_char NBSP SPACE (strip ((a :: y1) ++ sp1 ++ [dash] ++ sp2 ++ y2)) =
                 (a :: y1) ++ (sp1' ++ [dash] ++ sp2') ++ y2).
    { pose proof (Hends (sp1 ++ [dash] ++ sp2)) as He. rewrite <- !app_assoc in He.
      rewrite He, !replace_char_app, Hdash.
      rewrite (replace_nbsp_digits (a :: y1)), (replace_nbsp_digits y2) by done.
      by rewrite <- !app_assoc. }
    assert (Hsplit : re_split range_pattern ((a :: y1) ++ (sp1' ++ [dash] ++ sp2') ++ y2) =
                     [a :: y1; y2]).
    { apply re_split_range; try done. intros p. rewrite <- !app_assoc.
      by apply range_pattern_dash. }
    rewrite (normalize_years_parts _ _ _ _ (Hraw _) Hs Hsplit Hy1 Hl1 Hy2 (or_introl Hl2)).
    by destruct y2.
  - assert (Hs : replace_char NBSP SPACE (strip ((a :: y1) ++ sp1 ++ [dash] ++ sp2)) =
                 (a :: y1) ++ (sp1' ++ [dash]) ++ []).
    { change ((a :: y1) ++ sp1 ++ [dash] ++ sp2) with (a :: y1 ++ sp1 ++ dash :: sp2).
      rewrite (app_assoc y1 sp1).
      rewrite strip_trailing by (try done; by apply digit_not_space).
      change (a :: (y1 ++ sp1) ++ [dash]) with (((a :: y1) ++ sp1) ++ [dash]).
      rewrite !replace_char_app, Hdash, (replace_nbsp_digits (a :: y1)) by done.
      by rewrite app_nil_r, <- !app_assoc. }
    assert (Hsplit : re_split range_pattern ((a :: y1) ++ (sp1' ++ [dash]) ++ []) =
                     [a :: y1; []]).
    { apply re_split_range; try done; [by constructor |]. intros p.
      rewrite <- !app_assoc.
      destruct (range_pattern_dash sp1' [] [] dash p) as [q Hq]; try done. by exists q. }
    by rewrite (normalize_years_parts _ _ _ _ (Hraw _) Hs Hsplit Hy1 Hl1
                  (List.Forall_nil _) (or_intror eq_refl)).
  - intros Hn1 Hn2.
    assert (Hs : replace_char NBSP SPACE (strip ((a :: y1) ++ sp1 ++ lit "to" ++ sp2 ++ y2)) =
                 (a :: y1) ++ (sp1' ++ lit "to" ++ sp2') ++ y2).
    { pose proof (Hends (sp1 ++ lit "to" ++ sp2)) as He. rewrite <- !app_assoc in He.
      rewrite He, !replace_char_app.
      rewrite (replace_nbsp_digits (a :: y1)), (replace_nbsp_digits y2) by done.
      rewrite (replace_char_plain _ _ (lit "to")) by (by repeat constructor).
      by rewrite <- !app_assoc. }
    assert (Hsplit : re_split range_pattern ((a :: y1) ++ (sp1' ++ lit "to" ++ sp2') ++ y2) =
                     [a :: y1; y2]).
    { apply re_split_range; try done. intros p. rewrite <- !app_assoc.
      apply range_pattern_to; try done; by apply Hne. }
    rewrite (normalize_years_parts _ _ _ _ (Hraw _) Hs Hsplit Hy1 Hl1 Hy2 (or_introl Hl2)).
    by destruct y2.
Qed.

End YearRangeProperty.

Lemma normalize_years_year_range_witness :
  @normalize_years_field fragment ascii_digits (lit "2010-2012") = lit "2010" ++ [SPACE; EN_DASH; SPACE] ++ lit "2012" /\
  @normalize_years_field fragment ascii_digits (lit "2010-") = lit "2010".
Proof.
  assert (H1 : digits (lit "2010")) by (repeat constructor).
  assert (H2 : digits (lit "2012")) by (repeat constructor).
  assert (Hd : HYPHEN ∈ [EN_DASH; EM_DASH; HYPHEN]) by (by right; right; left).
  destruct (@normalize_years_year_range fragment ascii_digits fragment_latin
              fragment_date_facts (lit "2010") (lit "2012") [] [] HYPHEN
              H1 eq_refl H2 eq_refl (List.Forall_nil _) (List.Forall_nil _) Hd) as (Ha & Hb & _).
  exact (conj Ha Hb).
Defined.


(** * The key that [find_duplicates] drops, in the report *)

(** C2, seen from the report: a source record named like two target
    records is found by its name in both targets.  Where the two target
    records have one identifier their group is kept under the identifier
    key alone, the name key of the second bucket is dropped, and the
    source record is not flagged; where they have two identifiers the
    group is kept under the name key and the source record is flagged
    as a duplicate in the target. *)
Lemma dropped_key_unflags_source :
  List.map key (@find_duplicates fragment two_jon_smiths) = [lit "tid::42"] /\
  @missing_report fragment jon_smith_source two_jon_smiths (9 # 10) = [] /\
  List.map key (@find_duplicates fragment jon_smiths_two_ids) = [lit "name::jon smith"] /\
  List.map (fun e => (e_missing e, e_duplicate_in e))
    (@missing_report fragment jon_smith_source jon_smiths_two_ids (9 # 10)) =
    [(Some false, Some [lit "target"])].
Proof. vm_compute. done. Qed.
